(** * ARI cluster engine: a shallow embedding of the C++ core

    The development follows the sources
    - [hommel_zero_based.cpp]  (Hommel closed-testing machinery),
    - [ARICluster.cpp] and [ARICluster_zeroBased.cpp] (cluster forest,
      TDP propagation, query engine).

    Conventions of the embedding.
    - A C++ [int] is a [Z].  Index arithmetic stays far below 2^31 on
      every input considered, so it is written without wrap-around; the
      places where the source mixes [int] with [size_t] carry the
      conversions [to_size_t] and [to_int] explicitly, and so do the
      products of image dimensions of the voxel grid, which wrap
      around at 32 bits.
    - Every [std::vector] is a [list], read and written through [vget]
      and [vset].  A subscript outside the vector is undefined behaviour
      in C++; the embedding stops with [Fault] there.
    - A C++ [double] is a rational [Q]: sums, products, quotients and
      comparisons are exact.  The concrete inputs below only use small
      dyadic values, on which IEEE arithmetic is exact as well.
    - A [while] loop is a [Fixpoint] on a fuel argument; running out of
      fuel is [Timeout], kept apart from [Fault]. *)

From Stdlib Require Import ZArith QArith Qround Lia.
From stdpp Require Import base tactics option list.

Open Scope Z_scope.

(** * Part I: the embedding *)

(** ** Outcomes of a run *)

Inductive exec (A : Type) : Type :=
| Done (a : A)
| Fault
| Timeout.
Arguments Done {A} a.
Arguments Fault {A}.
Arguments Timeout {A}.

Definition exec_bind {A B : Type} (k : A → exec B) (e : exec A) : exec B :=
  match e with
  | Done a => k a
  | Fault => Fault
  | Timeout => Timeout
  end.

#[global] Instance exec_ret : MRet exec := @Done.
#[global] Instance exec_mbind : MBind exec := @exec_bind.

(** ** Vectors *)

(** [v[i]] *)
Definition vget {A : Type} (v : list A) (i : Z) : exec A :=
  if bool_decide (0 ≤ i) then
    match v !! Z.to_nat i with Some x => Done x | None => Fault end
  else Fault.

(** [v[i] = x] *)
Definition vset {A : Type} (v : list A) (i : Z) (x : A) : exec (list A) :=
  if bool_decide (0 ≤ i < Z.of_nat (length v))
  then Done (<[Z.to_nat i := x]> v) else Fault.

(** [v.size()] *)
Definition vsize {A : Type} (v : list A) : Z := Z.of_nat (length v).

(** [std::vector<T> v(n, x)]; a negative [n] does not yield a vector. *)
Definition vmake {A : Type} (n : Z) (x : A) : exec (list A) :=
  if bool_decide (0 ≤ n) then Done (replicate (Z.to_nat n) x) else Fault.

(** [for (int i = a; i < a + n; i++) s = body(i, s);] *)
Fixpoint for_up {T : Type} (n : nat) (i : Z) (body : Z → T → exec T) (s : T)
  : exec T :=
  match n with
  | O => Done s
  | S n' => s' ← body i s; for_up n' (i + 1) body s'
  end.

(** [for (x : l) s = body(x, s);], the elements taken in order. *)
Fixpoint for_each {X T : Type} (l : list X) (body : X → T → exec T) (s : T)
  : exec T :=
  match l with
  | [] => Done s
  | x :: l' => s' ← body x s; for_each l' body s'
  end.

(** Integer conversions of C++ on a 64-bit target. *)
Definition to_size_t (z : Z) : Z := z `mod` 2 ^ 64.
Definition to_int (z : Z) : Z := (z + 2 ^ 31) `mod` 2 ^ 32 - 2 ^ 31.

(** Comparisons of doubles. *)
Definition Qltb (x y : Q) : bool := negb (Qle_bool y x).
Definition Qgtb (x y : Q) : bool := Qltb y x.
Definition Qgeb (x y : Q) : bool := Qle_bool y x.
Definition Qleb (x y : Q) : bool := Qle_bool x y.

(** ** Hommel engine ([hommel_zero_based.cpp]) *)

Module Hommel.

(** *** [findhull] *)

(** The body of the [do ... while]: is the top of the hull not convex
    with respect to candidate [i]?  Here [r = hull.size() - 1]. *)
Definition notconvex_test (p : list Q) (i : Z) (hull : list Z) : exec bool :=
  let r := vsize hull - 1 in
  if bool_decide (r > 0) then
    hr1 ← vget hull (r - 1); hr ← vget hull r;
    phr ← vget p hr; phr1 ← vget p hr1; pi ← vget p i;
    Done (Qgeb (inject_Z (i - hr1) * (phr - phr1))
               (inject_Z (hr - hr1) * (pi - phr1)))
  else if bool_decide (r = 0) then
    h0 ← vget hull 0; ph0 ← vget p h0; pi ← vget p i;
    Done (Qgeb (inject_Z i * ph0) (inject_Z h0 * pi))
  else Done false.

(** [do { ...; if (notconvex) hull.resize(r); } while (notconvex);] *)
Fixpoint hull_pop (fuel : nat) (p : list Q) (i : Z) (hull : list Z)
  : exec (list Z) :=
  match fuel with
  | O => Timeout
  | S fuel' =>
      nc ← notconvex_test p i hull;
      if nc : bool
      then hull_pop fuel' p i (take (Z.to_nat (vsize hull - 1)) hull)
      else Done hull
  end.

(** One iteration of the [for] loop over [i]. *)
Definition hull_step (m : Z) (p : list Q) (i : Z) (hull : list Z)
  : exec (list Z) :=
  candidate ←
    (if bool_decide (i = m - 1) then Done true
     else pi ← vget p i; p0 ← vget p 0; pm ← vget p (m - 1);
          Done (Qltb (inject_Z (m - 1) * (pi - p0))
                     (inject_Z i * (pm - p0))));
  if candidate : bool
  then hull' ← hull_pop (S (length hull)) p i hull; Done (hull' ++ [i])
  else Done hull.

Definition findhull (m : Z) (p : list Q) : exec (list Z) :=
  for_up (Z.to_nat (m - 1)) 1 (hull_step m p) [0].

(** *** [findHalpha] *)

Fixpoint findHalpha_loop (fuel : nat) (jumpalpha : list Q) (alpha : Q)
    (lower upper : Z) : exec Z :=
  if bool_decide (lower + 1 < upper) then
    match fuel with
    | O => Timeout
    | S fuel' =>
        let mid := (lower + upper) `quot` 2 in
        jm ← vget jumpalpha mid;
        if Qgtb jm alpha
        then findHalpha_loop fuel' jumpalpha alpha mid upper
        else findHalpha_loop fuel' jumpalpha alpha lower mid
    end
  else Done lower.

Definition findHalpha (jumpalpha : list Q) (alpha : Q) (m : Z) : exec Z :=
  findHalpha_loop (Z.to_nat m) jumpalpha alpha 0 m.

(** *** [findConcentration] *)

Fixpoint findConcentration_loop (fuel : nat) (p : list Q) (simesfactor : Q)
    (h : Z) (alpha : Q) (m z : Z) : exec Z :=
  if bool_decide (z < m - 1) then
    pz ← vget p z;
    if Qgtb (simesfactor * pz) (inject_Z (z - m + h + 2) * alpha) then
      match fuel with
      | O => Timeout
      | S fuel' =>
          findConcentration_loop fuel' p simesfactor h alpha m (z + 1)
      end
    else Done z
  else Done z.

Definition findConcentration (p : list Q) (simesfactor : Q) (h : Z)
    (alpha : Q) (m : Z) : exec Z :=
  let z := m - h - 1 in
  if bool_decide (z >= 0)
  then findConcentration_loop (Z.to_nat m) p simesfactor h alpha m z
  else Done z.

(** *** Disjoint sets: [Find] and [Union] *)

(** [while (parent[x] != x) { parent[x] = parent[parent[x]]; x = parent[x]; }]
    The value read back by [x = parent[x]] is the one just stored. *)
Fixpoint Find (fuel : nat) (x : Z) (parent : list Z) : exec (Z * list Z) :=
  px ← vget parent x;
  if bool_decide (px ≠ x) then
    match fuel with
    | O => Timeout
    | S fuel' =>
        ppx ← vget parent px;
        parent' ← vset parent x ppx;
        Find fuel' ppx parent'
    end
  else Done (x, parent).

Definition Union (fuel : nat) (x y : Z) (parent lowest rank : list Z)
  : exec (list Z * list Z * list Z) :=
  '(xRoot, parent) ← Find fuel x parent;
  '(yRoot, parent) ← Find fuel y parent;
  if bool_decide (xRoot = yRoot) then Done (parent, lowest, rank) else
  rx ← vget rank xRoot; ry ← vget rank yRoot;
  if bool_decide (rx < ry) then
    parent ← vset parent xRoot yRoot;
    lx ← vget lowest xRoot; ly ← vget lowest yRoot;
    lowest ← vset lowest yRoot (Z.min lx ly);
    Done (parent, lowest, rank)
  else if bool_decide (rx > ry) then
    parent ← vset parent yRoot xRoot;
    lx ← vget lowest xRoot; ly ← vget lowest yRoot;
    lowest ← vset lowest xRoot (Z.min lx ly);
    Done (parent, lowest, rank)
  else
    parent ← vset parent yRoot xRoot;
    rank ← vset rank xRoot (rx + 1);
    lx ← vget lowest xRoot; ly ← vget lowest yRoot;
    lowest ← vset lowest xRoot (Z.min lx ly);
    Done (parent, lowest, rank).

(** *** [getCategory] *)

(** The quotient, the product and [std::ceil] are taken exactly, and the
    result is not cut to the range of [int]. *)
Definition getCategory (p simesfactor alpha : Q) (m : Z) : Z :=
  if Qeq_bool p 0 || Qeq_bool simesfactor 0 then 0
  else if Qeq_bool alpha 0 then m
  else Qceiling ((simesfactor / alpha) * p) - 1.

(** *** [findDiscoveries] *)

(** [cats.push_back(getCategory(allp[idx[i]], ...))] *)
Definition cats_step (idx : list Z) (allp : list Q) (simesfactor alpha : Q)
    (m : Z) (i : Z) (cats : list Z) : exec (list Z) :=
  id ← vget idx i; pv ← vget allp id;
  Done (cats ++ [getCategory pv simesfactor alpha m]).

(** [for (int i = k - 1; i >= 0; i--)] with its [break]; [n] is [i + 1]. *)
Fixpoint maxcatI_loop (n : nat) (cats : list Z) (maxcat maxcatI : Z)
  : exec Z :=
  match n with
  | O => Done maxcatI
  | S n' =>
      c ← vget cats (Z.of_nat n');
      if bool_decide (c > maxcatI) then
        if bool_decide (c >= maxcat) then Done c
        else maxcatI_loop n' cats maxcat c
      else maxcatI_loop n' cats maxcat maxcatI
  end.

(** [(i == 0) ? first : discoveries[i - 1] + step] *)
Definition next_disc (discoveries : list Z) (i first step : Z) : exec Z :=
  if bool_decide (i = 0) then Done first
  else d ← vget discoveries (i - 1); Done (d + step).

(** The state of the main loop: [parent], [lowest], [rank], [discoveries]. *)
Definition disc_state : Type := list Z * list Z * list Z * list Z.

Definition disc_step (fuel : nat) (cats : list Z) (maxcat : Z) (i : Z)
    (st : disc_state) : exec disc_state :=
  let '(parent, lowest, rank, discoveries) := st in
  c ← vget cats i;
  if bool_decide (c <= maxcat) then
    '(r, parent) ← Find fuel c parent;
    lowestInPi ← vget lowest r;
    if bool_decide (lowestInPi = 0) then
      d ← next_disc discoveries i 1 1;
      discoveries ← vset discoveries i d;
      Done (parent, lowest, rank, discoveries)
    else
      d ← next_disc discoveries i 0 0;
      discoveries ← vset discoveries i d;
      '(r', parent) ← Find fuel c parent;
      '(parent, lowest, rank) ←
        Union fuel (lowestInPi - 1) r' parent lowest rank;
      Done (parent, lowest, rank, discoveries)
  else
    d ← next_disc discoveries i 0 0;
    discoveries ← vset discoveries i d;
    Done (parent, lowest, rank, discoveries).

(** [parent[i] = i; lowest[i] = i;] *)
Definition init_step (i : Z) (st : list Z * list Z) : exec (list Z * list Z) :=
  let '(parent, lowest) := st in
  parent ← vset parent i i; lowest ← vset lowest i i;
  Done (parent, lowest).

Definition findDiscoveries (fuel : nat) (idx : list Z) (allp : list Q)
    (simesfactor : Q) (h : Z) (alpha : Q) (k m : Z) : exec (list Z) :=
  cats ← for_up (Z.to_nat k) 0 (cats_step idx allp simesfactor alpha m) [];
  z ← findConcentration allp simesfactor h alpha m;
  let maxcat := Z.min (z - m + h) k in
  maxcatI ← maxcatI_loop (Z.to_nat k) cats maxcat 0;
  let maxcat := Z.min maxcat maxcatI in
  parent ← vmake (maxcat + 1) 0;
  lowest ← vmake (maxcat + 1) 0;
  rank ← vmake (maxcat + 1) 0;
  '(parent, lowest) ←
    for_up (Z.to_nat (maxcat + 1)) 0 init_step (parent, lowest);
  discoveries ← vmake k 0;
  '(_, _, _, discoveries) ←
    for_up (Z.to_nat k) 0 (disc_step fuel cats maxcat)
      (parent, lowest, rank, discoveries);
  Done discoveries.

End Hommel.

(** ** Cluster forest, TDP propagation and queries ([ARICluster.cpp]) *)

Module ARICluster.
Import Hommel.

(** *** [UnionBySize] *)

Definition UnionBySize (fuel : nat) (i j : Z)
    (PARENT FORESTROOT SIZE : list Z) : exec (list Z * list Z * list Z) :=
  '(irep, PARENT) ← Find fuel i PARENT;
  '(jrep, PARENT) ← Find fuel j PARENT;
  if bool_decide (irep = jrep) then Done (PARENT, FORESTROOT, SIZE) else
  iroot ← vget FORESTROOT irep;
  jroot ← vget FORESTROOT jrep;
  si ← vget SIZE iroot; sj ← vget SIZE jroot;
  '(PARENT, FORESTROOT) ←
    (if bool_decide (si < sj) then
       PARENT ← vset PARENT irep jrep;
       FORESTROOT ← vset FORESTROOT jrep iroot;
       Done (PARENT, FORESTROOT)
     else
       PARENT ← vset PARENT jrep irep;
       Done (PARENT, FORESTROOT));
  si ← vget SIZE iroot; sj ← vget SIZE jroot;
  SIZE ← vset SIZE iroot (si + sj);
  Done (PARENT, FORESTROOT, SIZE).

(** *** [findClusters]

    The two source files differ only in the base of the ids they are
    handed: [ARICluster.cpp] subtracts one from every entry of [ORD] and
    [ADJ] ([base = 1]), [ARICluster_zeroBased.cpp] uses them as they are
    ([base = 0]). *)

(** The state while one node is processed: the disjoint sets, the sizes
    and the scratch child list [CHD]. *)
Definition chd_state : Type := list Z * list Z * list Z * list Z.

(** The body of the loop over the neighbours [IDS[j]] of [v]. *)
Definition neighbour_step (fuel : nat) (base : Z) (RANK : list Z) (i v : Z)
    (id : Z) (st : chd_state) : exec chd_state :=
  let '(PARENT, FORESTROOT, SIZE, CHD) := st in
  rk ← vget RANK (id - base);
  if bool_decide (rk < i + 1) then
    '(jrep, PARENT) ← Find fuel (id - base) PARENT;
    w ← vget FORESTROOT jrep;
    if bool_decide (v ≠ w) then
      '(PARENT, FORESTROOT, SIZE) ←
        UnionBySize fuel v jrep PARENT FORESTROOT SIZE;
      at_back ←
        match CHD with
        | [] => Done true
        | front :: _ =>
            sf ← vget SIZE front; sw ← vget SIZE w;
            Done (bool_decide (sf >= sw))
        end;
      Done (PARENT, FORESTROOT, SIZE,
            if at_back : bool then CHD ++ [w] else w :: CHD)
    else Done (PARENT, FORESTROOT, SIZE, CHD)
  else Done (PARENT, FORESTROOT, SIZE, CHD).

Definition forest_state : Type := list Z * list Z * list Z * list (list Z).

(** The body of the loop over the nodes in ascending order of p-value. *)
Definition cluster_step (fuel : nat) (base : Z) (ADJ : list (list Z))
    (ORD RANK : list Z) (i : Z) (st : forest_state) : exec forest_state :=
  let '(PARENT, FORESTROOT, SIZE, CHILD) := st in
  o ← vget ORD i;
  let v := o - base in
  IDS ← vget ADJ v;
  '(PARENT, FORESTROOT, SIZE, CHD) ←
    for_each IDS (neighbour_step fuel base RANK i v)
      (PARENT, FORESTROOT, SIZE, []);
  CHILD ← vset CHILD v CHD;
  Done (PARENT, FORESTROOT, SIZE, CHILD).

Definition root_step (PARENT FORESTROOT : list Z) (i : Z) (ROOT : list Z)
  : exec (list Z) :=
  pi ← vget PARENT i;
  if bool_decide (pi = i)
  then fr ← vget FORESTROOT i; Done (ROOT ++ [fr])
  else Done ROOT.

(** The result vector holds [SIZE], then [ROOT], then the rows of [CHILD]. *)
Record forest : Type := Forest {
  forest_SIZE : list Z;
  forest_ROOT : list Z;
  forest_CHILD : list (list Z)
}.

Definition findClusters_base (base : Z) (fuel : nat) (m : Z)
    (ADJ : list (list Z)) (ORD RANK : list Z) : exec forest :=
  CHILD ← vmake m [];
  SIZE ← vmake m 1;
  '(PARENT, FORESTROOT) ←
    for_up (Z.to_nat m) 0
      (λ i '(PARENT, FORESTROOT), Done (PARENT ++ [i], FORESTROOT ++ [i]))
      ([], []);
  '(PARENT, FORESTROOT, SIZE, CHILD) ←
    for_up (Z.to_nat m) 0 (cluster_step fuel base ADJ ORD RANK)
      (PARENT, FORESTROOT, SIZE, CHILD);
  ROOT ← for_up (Z.to_nat m) 0 (root_step PARENT FORESTROOT) [];
  Done (Forest SIZE ROOT CHILD).

(** [findClusters] of [ARICluster.cpp]. *)
Definition findClusters : nat → Z → list (list Z) → list Z → list Z →
    exec forest :=
  findClusters_base 1.

(** *** [descendants] *)

(** [for (int j = CHD.size() - 1; j >= 0; j--) { top--; DESC[top] = CHD[j]; }]
    on the children listed last to first. *)
Fixpoint push_children (rchd : list Z) (top : Z) (DESC : list Z)
  : exec (Z * list Z) :=
  match rchd with
  | [] => Done (top, DESC)
  | c :: rest =>
      DESC ← vset DESC (top - 1) c;
      push_children rest (top - 1) DESC
  end.

Fixpoint descendants_loop (fuel : nat) (CHILD : list (list Z))
    (len top : Z) (DESC : list Z) : exec (list Z) :=
  if bool_decide (top < vsize DESC) then
    match fuel with
    | O => Timeout
    | S fuel' =>
        v ← vget DESC top;
        if bool_decide (v < 0) then
          DESC ← vset DESC len (Z.lnot v);
          descendants_loop fuel' CHILD (len + 1) (top + 1) DESC
        else
          DESC ← vset DESC top (Z.lnot v);
          CHD ← vget CHILD v;
          '(top, DESC) ← push_children (reverse CHD) top DESC;
          descendants_loop fuel' CHILD len top DESC
    end
  else Done DESC.

Definition descendants (v : Z) (SIZE : list Z) (CHILD : list (list Z))
  : exec (list Z) :=
  sv ← vget SIZE v;
  DESC ← vmake sv 0;
  DESC ← vset DESC (sv - 1) v;
  descendants_loop (2 * length DESC) CHILD 0 (sv - 1) DESC.

(** *** [heavyPathTDP] and [forestTDP] *)

(** [while (true)]: the walk down the heavy path. *)
Fixpoint heavy_walk (fuel : nat) (P : list Q) (SIZE : list Z)
    (CHILD : list (list Z)) (NUM : list Z) (v par : Z) (TDP : list Q)
  : exec (list Q) :=
  match fuel with
  | O => Timeout
  | S fuel' =>
      is_stc ←
        (if bool_decide (par = -1) then Done true
         else pv ← vget P v; pp ← vget P par; Done (negb (Qeq_bool pv pp)));
      TDP ←
        (if is_stc : bool then
           sv ← vget SIZE v; n ← vget NUM sv;
           vset TDP v (inject_Z n / inject_Z sv)%Q
         else vset TDP v (-1)%Q);
      sv ← vget SIZE v;
      if bool_decide (sv = 1) then Done TDP else
      CHD ← vget CHILD v;
      c0 ← vget CHD 0;
      heavy_walk fuel' P SIZE CHILD NUM c0 v TDP
  end.

Definition heavyPathTDP (fuel : nat) (v par : Z) (m h : Z)
    (alpha simesh : Q) (P : list Q) (SIZE : list Z) (CHILD : list (list Z))
    (TDP : list Q) : exec (list Q) :=
  HP ← descendants v SIZE CHILD;
  let HP := (λ x, x + 1) <$> HP in
  NUM ← findDiscoveries fuel HP P simesh h alpha (vsize HP) m;
  heavy_walk (S (length SIZE)) P SIZE CHILD NUM v par TDP.

Definition forestTDP (fuel : nat) (m h : Z) (alpha simesh : Q) (P : list Q)
    (SIZE ROOT : list Z) (CHILD : list (list Z)) : exec (list Q) :=
  TDP ← vmake m 0%Q;
  TDP ← for_each ROOT
          (λ r TDP, heavyPathTDP fuel r (-1) m h alpha simesh P SIZE CHILD TDP)
          TDP;
  for_up (Z.to_nat m) 0
    (λ i TDP,
       CHD ← vget CHILD i;
       for_each (drop 1 CHD)
         (λ c TDP, heavyPathTDP fuel c i m h alpha simesh P SIZE CHILD TDP)
         TDP)
    TDP.

(** *** [queryPreparation] *)

(** [static_cast<int>] of a double truncates towards zero. *)
Definition double_to_int (q : Q) : Z := Qnum q `quot` Z.pos (Qden q).

(** [std::max(a, b)] is [(a < b) ? b : a]. *)
Definition std_max (a b : Q) : Q := if Qltb a b then b else a.

(** [STACK] is kept top first: [STACK.push_back(x)] is [x :: STACK] and
    [STACK.back()] is the head. *)
Fixpoint admissible_walk (fuel : nat) (TDP : list Q) (CHILD : list (list Z))
    (STACK : list Q) (ADMSTC : list Z) : exec (list Z) :=
  match STACK with
  | [] => Done ADMSTC
  | q :: STACK =>
      match fuel with
      | O => Timeout
      | S fuel' =>
          match STACK with
          | [] => Fault
          | vd :: STACK =>
              let v := double_to_int vd in
              tv ← vget TDP v;
              let ADMSTC := if Qgtb tv q then ADMSTC ++ [v] else ADMSTC in
              CHD ← vget CHILD v;
              let STACK :=
                foldl (λ STACK c, std_max tv q :: inject_Z c :: STACK)
                      STACK CHD in
              admissible_walk fuel' TDP CHILD STACK ADMSTC
          end
      end
  end.

(** [queryPreparation] up to its last statement, the call of [std::sort]. *)
Definition collect_admissible (m : Z) (ROOT : list Z) (TDP : list Q)
    (CHILD : list (list Z)) : exec (list Z) :=
  for_each ROOT
    (λ r ADMSTC,
       admissible_walk (S (Z.to_nat m)) TDP CHILD [(-1)%Q; inject_Z r] ADMSTC)
    [].

(** What [std::sort(ADMSTC.begin(), ADMSTC.end(), compareBy(TDP))] leaves:
    a rearrangement in which no later entry compares below an earlier
    one.  The order of entries of equal TDP is not specified. *)
Definition sorted_by (TDP : list Q) (l : list Z) : Prop :=
  ∀ (i j : nat) a b ta tb,
    (i < j)%nat → l !! i = Some a → l !! j = Some b →
    vget TDP a = Done ta → vget TDP b = Done tb → (ta <= tb)%Q.

Definition queryPreparation (m : Z) (ROOT : list Z) (TDP : list Q)
    (CHILD : list (list Z)) (ADMSTC : list Z) : Prop :=
  ∃ l, collect_admissible m ROOT TDP CHILD = Done l ∧
       l ≡ₚ ADMSTC ∧ sorted_by TDP ADMSTC.

(** *** [findLeft] *)

Fixpoint findLeft_loop (fuel : nat) (gamma : Q) (ADMSTC : list Z)
    (TDP : list Q) (right low high : Z) : exec Z :=
  if bool_decide (low < high) then
    match fuel with
    | O => Timeout
    | S fuel' =>
        let mid := (low + high) `quot` 2 in
        am ← vget ADMSTC mid; tm ← vget TDP am;
        let '(low, high) :=
          if Qgeb tm gamma then (low, mid) else (mid + 1, high) in
        let right := right - 1 in
        ar ← vget ADMSTC right; tr ← vget TDP ar;
        if Qltb tr gamma then Done (right + 1)
        else findLeft_loop fuel' gamma ADMSTC TDP right low high
    end
  else Done low.

Definition findLeft (gamma : Q) (ADMSTC : list Z) (TDP : list Q) : exec Z :=
  findLeft_loop (length ADMSTC) gamma ADMSTC TDP
    (vsize ADMSTC) 0 (vsize ADMSTC).

(** *** [answerQuery] and [answerQueryBatch] *)

(** [for (j = 0; j < CL.size(); j++) MARK[CL[j]] = x;] *)
Definition set_marks (CL : list Z) (x : Z) (MARK : list Z) : exec (list Z) :=
  for_each CL (λ d MARK, vset MARK d x) MARK.

(** The body of the loop over [ADMSTC] from [left] on. *)
Definition emit_step (ADMSTC SIZE : list Z) (CHILD : list (list Z)) (i : Z)
    (st : list (list Z) * list Z) : exec (list (list Z) * list Z) :=
  let '(ANS, MARK) := st in
  a ← vget ADMSTC i;
  ma ← vget MARK a;
  if bool_decide (ma = 0) then
    DESC ← descendants a SIZE CHILD;
    MARK ← set_marks DESC 1 MARK;
    Done (ANS ++ [DESC], MARK)
  else Done (ANS, MARK).

(** The clamped threshold onwards: shared by [answerQuery] and by the
    body of [answerQueryBatch], which repeats the same statements. *)
Definition answer_gamma (gamma : Q) (ADMSTC SIZE MARK : list Z)
    (TDP : list Q) (CHILD : list (list Z))
  : exec (list (list Z) * list Z) :=
  let gamma := if Qltb gamma 0 then 0%Q else gamma in
  left ← findLeft gamma ADMSTC TDP;
  '(ANS, MARK) ←
    for_up (Z.to_nat (vsize ADMSTC - left)) left
      (emit_step ADMSTC SIZE CHILD) ([], MARK);
  MARK ← for_each ANS (λ CL MARK, set_marks CL 0 MARK) MARK;
  Done (ANS, MARK).

(** The result comes with the final contents of [MARK], which the
    source takes by reference. *)
Definition answerQuery (gamma : Q) (ADMSTC SIZE MARK : list Z)
    (TDP : list Q) (CHILD : list (list Z))
  : exec (list (list Z) * list Z) :=
  answer_gamma gamma ADMSTC SIZE MARK TDP CHILD.

Definition answerQueryBatch (gamma_batch : list Q) (ADMSTC SIZE MARK : list Z)
    (TDP : list Q) (CHILD : list (list Z))
  : exec (list (list (list Z)) * list Z) :=
  for_each gamma_batch
    (λ gamma '(batch_results, MARK),
       '(result, MARK) ← answer_gamma gamma ADMSTC SIZE MARK TDP CHILD;
       Done (batch_results ++ [result], MARK))
    ([], MARK).

(** *** [findRep] and [findIndex] *)

(** The two-pointer search of [v] in [CLUS]. *)
Fixpoint findRep_scan (fuel : nat) (CLUS : list Z) (v left right : Z)
  : exec bool :=
  if bool_decide (left <= right) then
    match fuel with
    | O => Timeout
    | S fuel' =>
        cl ← vget CLUS left;
        if bool_decide (cl = v) then Done true else
        cr ← vget CLUS right;
        if bool_decide (cr = v) then Done true else
        findRep_scan fuel' CLUS v (left + 1) (right - 1)
    end
  else Done false.

(** The loop over [ANS]; [i] is the index of the head of [rest]. *)
Fixpoint findRep_loop (rest : list (list Z)) (i : Z) (v : Z) (SIZE : list Z)
  : exec Z :=
  match rest with
  | [] => Done (-1)
  | CLUS :: rest =>
      irep ← vget CLUS (to_size_t (vsize CLUS - 1));
      if bool_decide (irep = v) then Done i else
      sr ← vget SIZE irep; sv ← vget SIZE v;
      if bool_decide (sr > sv) then
        found ← findRep_scan (S (length CLUS)) CLUS v 0 (vsize CLUS - 1);
        if found : bool then Done i else findRep_loop rest (i + 1) v SIZE
      else findRep_loop rest (i + 1) v SIZE
  end.

Definition findRep (v : Z) (SIZE : list Z) (ANS : list (list Z)) : exec Z :=
  findRep_loop ANS 0 v SIZE.

Fixpoint findIndex_loop (fuel : nat) (irep : Z) (ADMSTC : list Z)
    (TDP : list Q) (left right low high : Z) : exec Z :=
  if bool_decide (low <= high) then
    match fuel with
    | O => Timeout
    | S fuel' =>
        let mid := (low + high) `quot` 2 in
        am ← vget ADMSTC mid; tm ← vget TDP am; ti ← vget TDP irep;
        (* binary search part: [None] is [return mid] *)
        let narrowed :=
          if Qgtb tm ti then Some (low, mid - 1)
          else if Qltb tm ti then Some (mid + 1, high)
          else None in
        match narrowed with
        | None => Done mid
        | Some (low, high) =>
            (* linear search part *)
            ar ← vget ADMSTC right;
            if bool_decide (ar = irep) then Done right else
            al ← vget ADMSTC left;
            if bool_decide (al = irep) then Done left else
            findIndex_loop fuel' irep ADMSTC TDP (left + 1) (right - 1)
              low high
        end
    end
  else Done (-1).

Definition findIndex (irep : Z) (ADMSTC : list Z) (TDP : list Q) : exec Z :=
  findIndex_loop (S (length ADMSTC)) irep ADMSTC TDP
    0 (vsize ADMSTC - 1) 0 (vsize ADMSTC - 1).

(** *** [changeQuery] *)

(** The [std::invalid_argument] exceptions of [changeQuery], by message. *)
Inductive invalid_argument : Type :=
| v_should_be_non_negative
| no_cluster_can_be_specified_with_v
| cluster_cannot_be_found_in_ADMSTC
| tdpchg_must_be_non_zero_and_within_unit
| no_further_changes_can_be_attained
| further_TDP_reduction_cannot_be_achieved
| further_TDP_augmentation_cannot_be_achieved.

(** How a call ends when it ends at all: a value or an exception. *)
Inductive outcome (A : Type) : Type :=
| Returned (a : A)
| Thrown (e : invalid_argument).
Arguments Returned {A} a.
Arguments Thrown {A} e.

(** [while (left <= right)] of the grow branch: does [DESC] meet a
    marked node? *)
Fixpoint meets_marked (fuel : nat) (MARK DESC : list Z) (left right : Z)
  : exec bool :=
  if bool_decide (left <= right) then
    match fuel with
    | O => Timeout
    | S fuel' =>
        dl ← vget DESC left; ml ← vget MARK dl;
        hit ←
          (if bool_decide (ml > 0) then Done true
           else dr ← vget DESC right; mr ← vget MARK dr;
                Done (bool_decide (mr > 0)));
        if hit : bool then Done true
        else meets_marked fuel' MARK DESC (left + 1) (right - 1)
    end
  else Done false.

(** [while (r - l >= CL.size() - 1)]: the left operand is an [int], the
    right one a [size_t], so both are compared as [size_t].  The result
    is [(l, r, dfsz)] on leaving the loop. *)
Fixpoint contains_loop (fuel : nat) (MARK DESC : list Z) (clsz : Z)
    (l r dfsz : Z) : exec (Z * Z * Z) :=
  if bool_decide (to_size_t (r - l) >= to_size_t (clsz - 1)) then
    match fuel with
    | O => Timeout
    | S fuel' =>
        dl ← vget DESC l; ml ← vget MARK dl;
        hit ←
          (if bool_decide (ml = 2) then Done true
           else dr ← vget DESC r; mr ← vget MARK dr;
                Done (bool_decide (mr = 2)));
        if hit : bool then Done (l, r, to_int (to_size_t dfsz - clsz))
        else contains_loop fuel' MARK DESC clsz (l + 1) (r - 1) dfsz
    end
  else Done (l, r, dfsz).

(** The state of the loop that carries the other clusters of [ANS] over:
    [CHG], [MARK] and [dfsz]. *)
Definition carry_state : Type := list (list Z) * list Z * Z.

Definition carry_step (iclus : Z) (ANS : list (list Z)) (DESC : list Z)
    (j : Z) (st : carry_state) : exec carry_state :=
  let '(CHG, MARK, dfsz) := st in
  if bool_decide (j ≠ iclus) then
    CL ← vget ANS j;
    if bool_decide (to_size_t dfsz >= vsize CL) then
      MARK ← set_marks CL 2 MARK;
      '(l, r, dfsz) ←
        contains_loop (S (S (length DESC))) MARK DESC (vsize CL)
          0 (to_int (to_size_t (vsize DESC - 1))) dfsz;
      keep ←
        (if bool_decide (to_size_t l > to_size_t (vsize DESC - 1))
         then Done true
         else if bool_decide (r < 0) then Done true
         else dl ← vget DESC l; ml ← vget MARK dl;
              if bool_decide (ml ≠ 2)
              then dr ← vget DESC r; mr ← vget MARK dr;
                   Done (bool_decide (mr ≠ 2))
              else Done false);
      MARK ← set_marks CL 0 MARK;
      Done (if keep : bool then CHG ++ [CL] else CHG, MARK, dfsz)
    else Done (CHG ++ [CL], MARK, dfsz)
  else Done (CHG, MARK, dfsz).

(** [for (int i = idxv - 1; i >= 0; i--)] of the grow branch; [n] is
    [i + 1].  [Some] is the [return] inside the loop. *)
Fixpoint grow_loop (n : nat) (tdpchg : Q) (ADMSTC SIZE : list Z)
    (TDP : list Q) (CHILD ANS : list (list Z)) (iclus idxv : Z)
    (CLUS MARK : list Z) : exec (option (list (list Z) * list Z)) :=
  match n with
  | O => Done None
  | S n' =>
      let i := Z.of_nat n' in
      ai ← vget ADMSTC i; ti ← vget TDP ai;
      cond ←
        (if Qgeb ti 0 then
           ax ← vget ADMSTC idxv; tx ← vget TDP ax;
           if Qleb (ti - tx) tdpchg then
             si ← vget SIZE ai; sx ← vget SIZE ax;
             Done (bool_decide (si > sx))
           else Done false
         else Done false);
      if cond : bool then
        DESC ← descendants ai SIZE CHILD;
        hit ← meets_marked (S (length DESC)) MARK DESC
                0 (to_int (to_size_t (vsize DESC - 1)));
        if hit : bool then
          let dfsz := to_int (to_size_t (vsize DESC - vsize CLUS)) in
          '(CHG, MARK, _) ←
            for_up (length ANS) 0 (carry_step iclus ANS DESC)
              ([DESC], MARK, dfsz);
          MARK ← set_marks CLUS 0 MARK;
          Done (Some (CHG, MARK))
        else grow_loop n' tdpchg ADMSTC SIZE TDP CHILD ANS iclus idxv
               CLUS MARK
      else grow_loop n' tdpchg ADMSTC SIZE TDP CHILD ANS iclus idxv
             CLUS MARK
  end.

(** The body of [for (int i = idxv + 1; i < ADMSTC.size(); i++)] of the
    shrink branch. *)
Definition shrink_step (tdpchg : Q) (ADMSTC SIZE : list Z) (TDP : list Q)
    (CHILD : list (list Z)) (idxv : Z) (i : Z)
    (st : list (list Z) * list Z) : exec (list (list Z) * list Z) :=
  let '(CHG, MARK) := st in
  ai ← vget ADMSTC i; ti ← vget TDP ai;
  cond ←
    (if Qgeb ti 0 then
       ax ← vget ADMSTC idxv; tx ← vget TDP ax;
       if Qgeb (ti - tx) tdpchg then
         mi ← vget MARK ai; Done (bool_decide (mi = 1))
       else Done false
     else Done false);
  if cond : bool then
    DESC ← descendants ai SIZE CHILD;
    MARK ← set_marks DESC 2 MARK;
    Done (CHG ++ [DESC], MARK)
  else Done (CHG, MARK).

(** The result comes with the final contents of [MARK]. *)
Definition changeQuery (v : Z) (tdpchg : Q) (ADMSTC SIZE MARK : list Z)
    (TDP : list Q) (CHILD ANS : list (list Z))
  : exec (outcome (list (list Z)) * list Z) :=
  if bool_decide (v < 0) then Done (Thrown v_should_be_non_negative, MARK)
  else
  iclus ← findRep v SIZE ANS;
  if bool_decide (iclus < 0)
  then Done (Thrown no_cluster_can_be_specified_with_v, MARK) else
  CLUS ← vget ANS iclus;
  rep ← vget CLUS (to_size_t (vsize CLUS - 1));
  idxv ← findIndex rep ADMSTC TDP;
  if bool_decide (idxv < 0)
  then Done (Thrown cluster_cannot_be_found_in_ADMSTC, MARK) else
  if Qleb tdpchg (-1) || Qeq_bool tdpchg 0 || Qgeb tdpchg 1
  then Done (Thrown tdpchg_must_be_non_zero_and_within_unit, MARK) else
  amax ← vget ADMSTC (to_size_t (vsize ADMSTC - 1)); maxtdp ← vget TDP amax;
  amin ← vget ADMSTC 0; mintdp ← vget TDP amin;
  curtdp ← vget TDP rep;
  if (Qltb tdpchg 0 && Qeq_bool mintdp curtdp)
     || (Qgtb tdpchg 0 && Qeq_bool maxtdp curtdp)
  then Done (Thrown no_further_changes_can_be_attained, MARK) else
  if Qltb tdpchg 0 && Qgtb (mintdp - curtdp) tdpchg
  then Done (Thrown further_TDP_reduction_cannot_be_achieved, MARK) else
  if Qgtb tdpchg 0 && Qltb (maxtdp - curtdp) tdpchg
  then Done (Thrown further_TDP_augmentation_cannot_be_achieved, MARK) else
  MARK ← set_marks CLUS 1 MARK;
  if Qltb tdpchg 0 then
    grown ← grow_loop (Z.to_nat idxv) tdpchg ADMSTC SIZE TDP CHILD ANS
              iclus idxv CLUS MARK;
    match grown with
    | Some (CHG, MARK) => Done (Returned CHG, MARK)
    | None =>
        MARK ← set_marks CLUS 0 MARK;
        Done (Returned [], MARK)
    end
  else
    '(CHG, MARK) ←
      for_up (Z.to_nat (vsize ADMSTC - (idxv + 1))) (idxv + 1)
        (shrink_step tdpchg ADMSTC SIZE TDP CHILD idxv) ([], MARK);
    CHG ←
      for_up (length ANS) 0
        (λ j CHG,
           if bool_decide (j ≠ iclus)
           then CL ← vget ANS j; Done (CHG ++ [CL]) else Done CHG)
        CHG;
    MARK ← set_marks CLUS 0 MARK;
    Done (Returned CHG, MARK).

End ARICluster.

(** ** [ARICluster_zeroBased.cpp]

    The file repeats [UnionBySize] word for word; its [findClusters]
    uses the ids as they are. *)

Module ZeroBased.

Definition findClusters : nat → Z → list (list Z) → list Z → list Z →
    exec ARICluster.forest :=
  ARICluster.findClusters_base 0.

End ZeroBased.


(** ** The rest of the cluster engine

    [findLMS], [counting_sort] and the voxel grid of [ARICluster.cpp];
    [answerQueryInChunks] and [findAdjList] of
    [ARICluster_zeroBased.cpp], which repeats the others word for word. *)

Module ClusterTools.
Import ARICluster.

(** *** [findLMS] *)

Definition findLMS (CHILD : list (list Z)) : exec (list Z) :=
  for_up (length CHILD) 0
    (λ i LMS,
       CHD ← vget CHILD i;
       Done (if bool_decide (vsize CHD = 0) then LMS ++ [i] else LMS))
    [].

(** *** [answerQueryInChunks]

    [start], [end] and [chunk_size] are [size_t]; building [gamma_chunk]
    from an iterator range that ends before it starts is undefined. *)
Fixpoint chunks_loop (fuel : nat) (gamma_batch : list Q)
    (chunk_size start : Z) (ADMSTC SIZE : list Z) (TDP : list Q)
    (CHILD : list (list Z)) (st : list (list (list Z)) * list Z)
  : exec (list (list (list Z)) * list Z) :=
  let '(batch_results, MARK) := st in
  let total_gammas := vsize gamma_batch in
  if bool_decide (start < total_gammas) then
    match fuel with
    | O => Timeout
    | S fuel' =>
        let end_ := Z.min (to_size_t (start + chunk_size)) total_gammas in
        if bool_decide (end_ < start) then Fault else
        let gamma_chunk :=
          take (Z.to_nat (end_ - start)) (drop (Z.to_nat start) gamma_batch) in
        '(chunk_results, MARK) ←
          answerQueryBatch gamma_chunk ADMSTC SIZE MARK TDP CHILD;
        chunks_loop fuel' gamma_batch chunk_size
          (to_size_t (start + chunk_size)) ADMSTC SIZE TDP CHILD
          (batch_results ++ chunk_results, MARK)
    end
  else Done (batch_results, MARK).

Definition answerQueryInChunks (fuel : nat) (gamma_batch : list Q)
    (ADMSTC SIZE MARK : list Z) (TDP : list Q) (CHILD : list (list Z))
    (chunk_size : Z) : exec (list (list (list Z)) * list Z) :=
  chunks_loop fuel gamma_batch chunk_size 0 ADMSTC SIZE TDP CHILD ([], MARK).

(** *** [counting_sort] *)

(** [for (int i = maxid; i > 0; i--) COUNT[i - 1] += COUNT[i];]
    with [n] standing for [i]. *)
Fixpoint cumulate (n : nat) (COUNT : list Z) : exec (list Z) :=
  match n with
  | O => Done COUNT
  | S n' =>
      let i := Z.of_nat (S n') in
      a ← vget COUNT (i - 1); b ← vget COUNT i;
      COUNT ← vset COUNT (i - 1) (a + b);
      cumulate n' COUNT
  end.

Definition counting_sort (n maxid : Z) (CLSTRSIZE : list Z)
  : exec (list Z) :=
  SORTED ← vmake n 0;
  COUNT ← vmake (maxid + 1) 0;
  COUNT ← for_up (Z.to_nat n) 0
             (λ i COUNT,
                s ← vget CLSTRSIZE i; c ← vget COUNT s;
                vset COUNT s (c + 1))
             COUNT;
  COUNT ← cumulate (Z.to_nat maxid) COUNT;
  '(SORTED, _) ←
    for_up (Z.to_nat n) 0
      (λ i '(SORTED, COUNT),
         s ← vget CLSTRSIZE i; c ← vget COUNT s;
         SORTED ← vset SORTED (c - 1) i;
         c ← vget COUNT s;
         COUNT ← vset COUNT s (c - 1);
         Done (SORTED, COUNT))
      (SORTED, COUNT);
  Done SORTED.

End ClusterTools.

(** ** The voxel grid ([ARICluster.cpp]) *)

Module Voxels.

(** Arithmetic on [int], 32 bits in two's complement: a sum or product
    out of range wraps around. *)
Definition int_add (a b : Z) : Z := to_int (a + b).
Definition int_mul (a b : Z) : Z := to_int (a * b).

(** [a / b] and [a % b] on [int]: the quotient is truncated; a zero
    divisor is undefined, and so is [INT_MIN / -1], whose quotient is not
    an [int]. *)
Definition int_div (a b : Z) : exec Z :=
  if bool_decide (b = 0) then Fault
  else if bool_decide (a = - 2 ^ 31 ∧ b = -1) then Fault
  else Done (a `quot` b).
Definition int_mod (a b : Z) : exec Z :=
  if bool_decide (b = 0) then Fault
  else if bool_decide (a = - 2 ^ 31 ∧ b = -1) then Fault
  else Done (a `rem` b).

(** [#define xyz2index(x, y, z, DIMS)
     ( (z) * DIMS[1] * DIMS[0] + (y) * DIMS[0] + (x) )], all in [int]. *)
Definition xyz2index (x y z : Z) (DIMS : list Z) : exec Z :=
  d1 ← vget DIMS 1; d0 ← vget DIMS 0;
  Done (int_add (int_add (int_mul (int_mul z d1) d0) (int_mul y d0)) x).

Definition index2xyz (index : Z) (DIMS : list Z) : exec (list Z) :=
  d0 ← vget DIMS 0;
  x ← int_mod index d0;
  q ← int_div index d0; d1 ← vget DIMS 1;
  y ← int_mod q d1;
  z ← int_div index (int_mul d0 d1);
  Done [x; y; z].

(** The conjunction is evaluated from the left and stops at the first
    test that fails, so that [MASK[index]] is read last. *)
Definition xyz_check (x y z index : Z) (DIMS MASK : list Z) : exec bool :=
  if bool_decide (x >= 0) then
    d0 ← vget DIMS 0;
    if bool_decide (x < d0) then
      if bool_decide (y >= 0) then
        d1 ← vget DIMS 1;
        if bool_decide (y < d1) then
          if bool_decide (z >= 0) then
            d2 ← vget DIMS 2;
            if bool_decide (z < d2) then
              mk ← vget MASK index; Done (bool_decide (mk ≠ 0))
            else Done false
          else Done false
        else Done false
      else Done false
    else Done false
  else Done false.

Definition DX : list Z :=
  [1; -1; 0; 0; 0; 0; 1; -1; 1; -1; 1; -1; 1; -1; 0; 0; 0; 0;
   1; -1; 1; -1; 1; -1; 1; -1].
Definition DY : list Z :=
  [0; 0; 1; -1; 0; 0; 1; 1; -1; -1; 0; 0; 0; 0; 1; -1; 1; -1;
   1; 1; -1; -1; 1; 1; -1; -1].
Definition DZ : list Z :=
  [0; 0; 0; 0; 1; -1; 0; 0; 0; 0; 1; 1; -1; -1; 1; 1; -1; -1;
   1; 1; 1; 1; -1; -1; -1; -1].

(** The body of the loop over the [conn] directions. *)
Definition direction_step (MASK DIMS XYZ : list Z) (i : Z)
    (st : list Z * Z) : exec (list Z * Z) :=
  let '(IDS, len) := st in
  x0 ← vget XYZ 0; dx ← vget DX i;
  x1 ← vget XYZ 1; dy ← vget DY i;
  x2 ← vget XYZ 2; dz ← vget DZ i;
  let x := int_add x0 dx in
  let y := int_add x1 dy in
  let z := int_add x2 dz in
  id ← xyz2index x y z DIMS;
  inmask ← xyz_check x y z id DIMS MASK;
  if inmask : bool then
    mk ← vget MASK id;
    IDS ← vset IDS len mk;
    Done (IDS, int_add len 1)
  else Done (IDS, len).

Definition findNeighbours (MASK DIMS : list Z) (index conn : Z)
  : exec (list Z) :=
  XYZ ← index2xyz index DIMS;
  IDS ← vmake conn 0;
  '(IDS, len) ←
    for_up (Z.to_nat conn) 0 (direction_step MASK DIMS XYZ) (IDS, 0);
  Done (if bool_decide (len < conn) then take (Z.to_nat len) IDS else IDS).

(** [findAdjList], the same in both cluster files. *)
Definition findAdjList (MASK INDEXP DIMS : list Z) (m conn : Z)
  : exec (list (list Z)) :=
  ADJ ← vmake m [];
  for_up (Z.to_nat m) 0
    (λ i ADJ,
       index ← vget INDEXP i;
       IDS ← findNeighbours MASK DIMS index conn;
       vset ADJ i IDS)
    ADJ.

End Voxels.

(** ** The one-based Hommel engine ([hommel_backup.cpp]) *)

Module HommelBackup.

(** *** [findhull] *)

(** [findhull] before the change to zero-based indices.  The hull holds
    one-based indices, [hull[r]] standing for the point
    [(hull[r], p[hull[r] - 1])], behind a cell [hull[0] = 0] that stands
    for the origin. *)
Definition notconvex_test (p : list Q) (i : Z) (hull : list Z) : exec bool :=
  let r := vsize hull - 1 in
  if bool_decide (r > 1) then
    hr1 ← vget hull (r - 1); hr ← vget hull r;
    phr ← vget p (hr - 1); phr1 ← vget p (hr1 - 1); pi ← vget p (i - 1);
    Done (Qgeb (inject_Z (i - hr1) * (phr - phr1))
               (inject_Z (hr - hr1) * (pi - phr1)))
  else if bool_decide (r = 1) then
    h1 ← vget hull 1; ph1 ← vget p (h1 - 1); pi ← vget p (i - 1);
    Done (Qgeb (inject_Z i * ph1) (inject_Z h1 * pi))
  else Done false.

(** [do { ...; if (notconvex) hull.resize(r); } while (notconvex);] *)
Fixpoint hull_pop (fuel : nat) (p : list Q) (i : Z) (hull : list Z)
  : exec (list Z) :=
  match fuel with
  | O => Timeout
  | S fuel' =>
      nc ← notconvex_test p i hull;
      if nc : bool
      then hull_pop fuel' p i (take (Z.to_nat (vsize hull - 1)) hull)
      else Done hull
  end.

(** One iteration of the [for] loop over [i = 2..m]. *)
Definition hull_step (m : Z) (p : list Q) (i : Z) (hull : list Z)
  : exec (list Z) :=
  candidate ←
    (if bool_decide (i = m) then Done true
     else pi ← vget p (i - 1); p0 ← vget p 0; pm ← vget p (m - 1);
          Done (Qltb (inject_Z (m - 1) * (pi - p0))
                     (inject_Z (i - 1) * (pm - p0))));
  if candidate : bool
  then hull' ← hull_pop (S (length hull)) p i hull; Done (hull' ++ [i])
  else Done hull.

(** [std::vector<int> hull(1); hull.push_back(1);] gives [[0; 1]]. *)
Definition findhull (m : Z) (p : list Q) : exec (list Z) :=
  for_up (Z.to_nat (m - 1)) 2 (hull_step m p) [0; 1].

(** *** [findHalpha] *)

(** [findHalpha] before the change to zero-based indices. *)
Fixpoint findHalpha_loop (fuel : nat) (jumpalpha : list Q) (alpha : Q)
    (lower upper : Z) : exec Z :=
  if bool_decide (lower + 1 < upper) then
    match fuel with
    | O => Timeout
    | S fuel' =>
        let mid := (lower + upper + 1) `quot` 2 in
        jm ← vget jumpalpha (mid - 1);
        if Qgtb jm alpha
        then findHalpha_loop fuel' jumpalpha alpha mid upper
        else findHalpha_loop fuel' jumpalpha alpha lower mid
    end
  else Done lower.

Definition findHalpha (jumpalpha : list Q) (alpha : Q) (m : Z) : exec Z :=
  findHalpha_loop (Z.to_nat (m + 1)) jumpalpha alpha 0 (m + 1).

End HommelBackup.

(** ** Adjusted p-values ([hommel_zero_based.cpp]) *)

Module HommelAdjust.

(** [std::min(a, b)]: [b] when [b < a], else [a]. *)
Definition std_min (a b : Q) : Q := if Qltb b a then b else a.

(** *** [findsimesfactor] *)

Definition findsimesfactor (simes : bool) (m : Z) : exec (list Q) :=
  simesfactor ← vmake (m + 1) 0%Q;
  simesfactor ← vset simesfactor 0 0%Q;
  if simes then
    for_up (Z.to_nat m) 1
      (λ i simesfactor, vset simesfactor i (inject_Z i)) simesfactor
  else
    '(simesfactor, _) ←
      for_up (Z.to_nat m) 1
        (λ i '(simesfactor, multiplier),
           let multiplier := (multiplier + 1 / inject_Z i)%Q in
           simesfactor ← vset simesfactor i (inject_Z i * multiplier)%Q;
           Done (simesfactor, multiplier))
        (simesfactor, 0%Q);
    Done simesfactor.

(** *** [adjustedElementary] *)

Fixpoint adjustedElementary_loop (fuel : nat) (p alpha : list Q) (m : Z)
    (simesfactor : list Q) (i j : Z) (adjusted : list Q) : exec (list Q) :=
  if bool_decide (i < m) then
    match fuel with
    | O => Timeout
    | S fuel' =>
        sf ← vget simesfactor (j - 1); pi ← vget p i;
        aj ← vget alpha (j - 1);
        if Qleb (sf * pi) aj then
          sfj ← vget simesfactor j;
          adjusted ← vset adjusted i (std_min (sfj * pi) aj);
          adjustedElementary_loop fuel' p alpha m simesfactor (i + 1) j
            adjusted
        else
          adjustedElementary_loop fuel' p alpha m simesfactor i (j - 1)
            adjusted
    end
  else Done adjusted.

(** Every round raises [i] or lowers [j], and [j] cannot pass zero:
    [2 * m + 1] rounds are enough for the loop to end or to go wrong. *)
Definition adjustedElementary (p alpha : list Q) (m : Z)
    (simesfactor : list Q) : exec (list Q) :=
  adjusted ← vmake m 0%Q;
  adjustedElementary_loop (Z.to_nat (2 * m + 1)) p alpha m simesfactor 0 m
    adjusted.

(** *** [adjustedIntersection] *)

Fixpoint adjustedIntersection_loop (fuel : nat) (pI : Q) (alpha : list Q)
    (simesfactor : list Q) (lower upper : Z) : exec Z :=
  if bool_decide (lower < upper - 1) then
    match fuel with
    | O => Timeout
    | S fuel' =>
        let mid := (lower + upper) `quot` 2 in
        sf ← vget simesfactor mid; am ← vget alpha mid;
        if Qleb (sf * pI) am
        then adjustedIntersection_loop fuel' pI alpha simesfactor mid upper
        else adjustedIntersection_loop fuel' pI alpha simesfactor lower mid
    end
  else Done lower.

Definition adjustedIntersection (pI : Q) (alpha : list Q) (m : Z)
    (simesfactor : list Q) : exec Q :=
  lower ← adjustedIntersection_loop (Z.to_nat (m + 1)) pI alpha simesfactor
             0 (m + 1);
  sf ← vget simesfactor lower; al ← vget alpha lower;
  Done (std_min (sf * pI) al).

End HommelAdjust.

(** ** The batch query with reserved vectors ([ARICluster_zeroBased.cpp]) *)

Module BatchOpt.
Import ARICluster.

(** [answerQueryBatch_opt]: the threshold is clamped by
    [std::max(0.0, gamma_batch[i])], and the clusters of one threshold
    are gathered in a vector. *)
Definition answerQueryBatch_opt (gamma_batch : list Q)
    (ADMSTC SIZE MARK : list Z) (TDP : list Q) (CHILD : list (list Z))
  : exec (list (list (list Z)) * list Z) :=
  for_each gamma_batch
    (λ gamma '(batch_results, MARK),
       let gamma := std_max 0 gamma in
       left ← findLeft gamma ADMSTC TDP;
       '(result, MARK) ←
         for_up (Z.to_nat (vsize ADMSTC - left)) left
           (emit_step ADMSTC SIZE CHILD) ([], MARK);
       MARK ← for_each result (λ CL MARK, set_marks CL 0 MARK) MARK;
       Done (batch_results ++ [result], MARK))
    ([], MARK).

End BatchOpt.
(** ** Notions used in the statements *)

(** The value the specification asks for: the largest [h] in [0..m]
    with [jumpalpha[h-1] > alpha], and [0] when there is none. *)
Definition largest_jump_above (jumpalpha : list Q) (alpha : Q) (m h : Z)
  : Prop :=
  0 ≤ h ≤ m ∧
  (h = 0 ∨ ∃ a, vget jumpalpha (h - 1) = Done a ∧ (alpha < a)%Q) ∧
  ∀ h' a, h < h' ≤ m → vget jumpalpha (h' - 1) = Done a → ¬ (alpha < a)%Q.

(** The hull as the specification words it: it starts with index [0]
    and ends with index [m - 1]. *)
Definition hull_anchored (m : Z) (p : list Q) : Prop :=
  ∃ hull, Hommel.findhull m p = Done hull ∧
          head hull = Some 0 ∧ last hull = Some (m - 1).

(** The point [(1, p[0])] of index [0] is a vertex of the lower hull of
    the points [(i+1, p[i])] seen from the origin: every later point lies
    strictly above the line from the origin through it. *)
Definition first_on_hull (m : Z) (p : list Q) : Prop :=
  ∃ p0, vget p 0 = Done p0 ∧
        ∀ j pj, 1 ≤ j < m → vget p j = Done pj →
                (inject_Z (j + 1) * p0 < pj)%Q.

(** Sorted p-values in [[0,1]]. *)
Definition sorted_pvalues (m : Z) (p : list Q) : Prop :=
  vsize p = m ∧
  (∀ x, x ∈ p → (0 <= x)%Q ∧ (x <= 1)%Q) ∧
  ∀ (i j : nat) x y, (i ≤ j)%nat → p !! i = Some x → p !! j = Some y →
                     (x <= y)%Q.

(** [reaches parent n x r]: following [parent] from [x] arrives at the
    root [r] after at most [n] steps. *)
Inductive reaches (parent : list Z) : nat → Z → Z → Prop :=
| reaches_root n x :
    vget parent x = Done x → reaches parent n x x
| reaches_step n x y r :
    vget parent x = Done y → y ≠ x → reaches parent n y r →
    reaches parent (S n) x r.

(** Every node finds a root within [d] steps. *)
Definition uf_wf (parent : list Z) (d : nat) : Prop :=
  ∀ y, 0 ≤ y < vsize parent → ∃ r, reaches parent d y r.


(** The forestroot the specification promises for the union of the sets
    of [i] and [j]: that of the side whose size, read at its forestroot,
    is larger, and that of the side of [i] on a tie. *)
Definition forestroot_of_larger_side (fuel : nat) (i j : Z)
    (PARENT FORESTROOT SIZE : list Z) : exec Z :=
  '(irep, PARENT) ← Hommel.Find fuel i PARENT;
  '(jrep, PARENT) ← Hommel.Find fuel j PARENT;
  iroot ← vget FORESTROOT irep; jroot ← vget FORESTROOT jrep;
  si ← vget SIZE iroot; sj ← vget SIZE jroot;
  Done (if bool_decide (si < sj) then jroot else iroot).

(** The forestroot found at the representative of [i] once
    [UnionBySize(i, j)] has run. *)
Definition forestroot_after_union (fuel : nat) (i j : Z)
    (PARENT FORESTROOT SIZE : list Z) : exec Z :=
  '(PARENT, FORESTROOT, _) ←
    ARICluster.UnionBySize fuel i j PARENT FORESTROOT SIZE;
  '(rep, _) ← Hommel.Find fuel i PARENT;
  vget FORESTROOT rep.

(** The TDP the specification assigns to node [v] on the heavy path that
    starts at [s], [par] being the node above [v]:
    [disc[SIZE[v] - 1] / SIZE[v]] with [disc] computed on the
    descendants of [s], or [-1] when [v] has the p-value of [par]. *)
Definition tdp_on_heavy_path (fuel : nat) (s v par : Z) (m h : Z)
    (alpha simesh : Q) (P : list Q) (SIZE : list Z) (CHILD : list (list Z))
  : exec Q :=
  HP ← ARICluster.descendants s SIZE CHILD;
  disc ← Hommel.findDiscoveries fuel HP P simesh h alpha (vsize HP) m;
  is_stc ←
    (if bool_decide (par = -1) then Done true
     else pv ← vget P v; pp ← vget P par; Done (negb (Qeq_bool pv pp)));
  if is_stc : bool then
    sv ← vget SIZE v; d ← vget disc (sv - 1);
    Done (inject_Z d / inject_Z sv)%Q
  else Done (-1)%Q.

(** The state kept by the main loop of [findDiscoveries]: three vectors
    of the same length [n], every node within [d] steps of its root,
    every entry of [lowest] a node. *)
Definition dsu_ok (n : Z) (d : nat) (parent lowest rank : list Z) : Prop :=
  vsize parent = n ∧ vsize lowest = n ∧ vsize rank = n ∧
  uf_wf parent d ∧
  ∀ x l, vget lowest x = Done l → 0 ≤ l < n.

(** The first [j] entries of [disc] start with 0 or 1 and step by 0 or 1. *)
Definition unit_steps (disc : list Z) (j : Z) : Prop :=
  (0 < j → vget disc 0 = Done 0 ∨ vget disc 0 = Done 1) ∧
  ∀ i a b, 1 ≤ i < j → vget disc (i - 1) = Done a → vget disc i = Done b →
           b = a ∨ b = a + 1.

(** *** The forest built by [findClusters] *)

(** [SIZE[c]], and 0 for a [c] outside [SIZE]. *)
Definition size_of (SIZE : list Z) (c : Z) : Z :=
  match vget SIZE c with Done s => s | _ => 0 end.

(** The sum of [SIZE[c]] over the children [c] in [CHD]. *)
Definition sum_sizes (SIZE CHD : list Z) : Z :=
  foldr (λ c acc, size_of SIZE c + acc) 0 CHD.

(** Heavy child first: no child is larger than the child at position 0. *)
Definition heavy_first (SIZE CHD : list Z) : Prop :=
  ∀ c0, head CHD = Some c0 →
        Forall (λ c, size_of SIZE c ≤ size_of SIZE c0) CHD.

(** The two invariants of the forest at node [v]. *)
Definition node_ok (m : Z) (SIZE : list Z) (CHILD : list (list Z)) (v : Z)
  : Prop :=
  ∃ CHD, vget CHILD v = Done CHD ∧
         Forall (λ c, 0 ≤ c < m) CHD ∧
         vget SIZE v = Done (1 + sum_sizes SIZE CHD) ∧
         heavy_first SIZE CHD.

(** [ORD] and [RANK] are inverse permutations; with [base = 1] both hold
    ids and positions counted from one. *)
Definition valid_order (base m : Z) (ORD RANK : list Z) : Prop :=
  vsize ORD = m ∧ vsize RANK = m ∧
  (∀ i o, vget ORD i = Done o → vget RANK (o - base) = Done (i + base)) ∧
  (∀ v r, vget RANK v = Done r → vget ORD (r - base) = Done (v + base)).

(** Every row of [ADJ] lists voxel ids. *)
Definition valid_adjacency (base m : Z) (ADJ : list (list Z)) : Prop :=
  vsize ADJ = m ∧
  ∀ v IDS id, vget ADJ v = Done IDS → id ∈ IDS → 0 ≤ id - base < m.

(** The number of adjacency entries scanned while the first [n] nodes of
    [ORD] are processed: each entry costs [Find] at most one more step. *)
Fixpoint scanned (base : Z) (ADJ : list (list Z)) (ORD : list Z) (n : nat)
  : nat :=
  match n with
  | O => O
  | S n' =>
      (scanned base ADJ ORD n' +
       match vget ORD (Z.of_nat n') with
       | Done o => match vget ADJ (o - base) with
                   | Done IDS => length IDS
                   | _ => 0
                   end
       | _ => 0
       end)%nat
  end.

(** Node [y] comes before position [i] in the order of processing. *)
Definition before (base : Z) (RANK : list Z) (i y : Z) : Prop :=
  ∃ r, vget RANK y = Done r ∧ r - base < i.

(** The state while the neighbours of [v], the node at position [i], are
    scanned; [SIZE0] is [SIZE] as it was before the scan. *)
Definition inner_inv (base m : Z) (RANK : list Z) (i v : Z) (SIZE0 : list Z)
    (d : nat) (st : ARICluster.chd_state) : Prop :=
  let '(PARENT, FORESTROOT, SIZE, CHD) := st in
  vsize PARENT = m ∧ vsize FORESTROOT = m ∧ vsize SIZE = m ∧
  (∀ y, 0 ≤ y < m →
        ∃ r, reaches PARENT d y r ∧
             (before base RANK (i + 1) y → before base RANK (i + 1) r)) ∧
  (∀ y, 0 ≤ y < m → ¬ before base RANK (i + 1) y →
        vget PARENT y = Done y ∧ vget FORESTROOT y = Done y ∧
        vget SIZE y = Done 1) ∧
  (∃ rv, reaches PARENT d v rv ∧ vget FORESTROOT rv = Done v) ∧
  (∀ r f, vget PARENT r = Done r → before base RANK (i + 1) r →
          vget FORESTROOT r = Done f → f = v ∨ before base RANK i f) ∧
  vget SIZE v = Done (1 + sum_sizes SIZE CHD) ∧
  Forall (before base RANK i) CHD ∧
  heavy_first SIZE CHD ∧
  (∀ y, y ≠ v → vget SIZE y = vget SIZE0 y).

(** The state between two nodes, [i] of them processed. *)
Definition outer_inv (base m : Z) (RANK : list Z) (i : Z) (d : nat)
    (st : ARICluster.forest_state) : Prop :=
  let '(PARENT, FORESTROOT, SIZE, CHILD) := st in
  vsize PARENT = m ∧ vsize FORESTROOT = m ∧ vsize SIZE = m ∧
  vsize CHILD = m ∧
  (∀ y, 0 ≤ y < m →
        ∃ r, reaches PARENT d y r ∧
             (before base RANK i y → before base RANK i r)) ∧
  (∀ y, 0 ≤ y < m → ¬ before base RANK i y →
        vget PARENT y = Done y ∧ vget FORESTROOT y = Done y ∧
        vget SIZE y = Done 1) ∧
  (∀ r f, vget PARENT r = Done r → before base RANK i r →
          vget FORESTROOT r = Done f → before base RANK i f) ∧
  (∀ x, before base RANK i x →
        ∃ CHD, vget CHILD x = Done CHD ∧
               Forall (before base RANK i) CHD ∧
               vget SIZE x = Done (1 + sum_sizes SIZE CHD) ∧
               heavy_first SIZE CHD).

(** *** Subtrees of the forest *)

(** [CHILD[v]], and no children for a [v] outside [CHILD]. *)
Definition children (CHILD : list (list Z)) (v : Z) : list Z :=
  match vget CHILD v with Done CHD => CHD | _ => [] end.

(** The nodes below [v] in post-order, [v] last, down to depth [fuel]. *)
Fixpoint subtree (fuel : nat) (CHILD : list (list Z)) (v : Z) : list Z :=
  match fuel with
  | O => []
  | S fuel' => mjoin (subtree fuel' CHILD <$> children CHILD v) ++ [v]
  end.

(** The post-order listing of the whole subtree of [v]: its size bounds
    its depth. *)
Definition desc_of (SIZE : list Z) (CHILD : list (list Z)) (v : Z) : list Z :=
  subtree (Z.to_nat (size_of SIZE v)) CHILD v.

(** [descends CHILD a x]: [x] lies in the subtree of [a]. *)
Inductive descends (CHILD : list (list Z)) : Z → Z → Prop :=
| descends_refl a : descends CHILD a a
| descends_step a p x :
    descends CHILD a p → x ∈ children CHILD p → descends CHILD a x.

(** A forest over the nodes [0..m-1]: every node is listed at most once
    among the roots and the children, so it has at most one parent and a
    root has none; [SIZE] holds the subtree sizes. *)
Definition forest_wf (m : Z) (SIZE ROOT : list Z) (CHILD : list (list Z))
  : Prop :=
  vsize SIZE = m ∧ vsize CHILD = m ∧
  Forall (λ c, 0 ≤ c < m) (ROOT ++ mjoin CHILD) ∧
  NoDup (ROOT ++ mjoin CHILD) ∧
  Forall (λ s, 1 ≤ s) SIZE ∧
  ∀ v, 0 ≤ v < m → size_of SIZE v = 1 + sum_sizes SIZE (children CHILD v).

(** *** The buffer of [descendants]

    The right part of the buffer is a stack, top first.  An entry [x ≥ 0]
    stands for the whole subtree of [x], still to be listed; an entry
    [x < 0] for the single node [~x], whose children are done. *)
Definition expand (SIZE : list Z) (CHILD : list (list Z)) (x : Z) : list Z :=
  if bool_decide (x < 0) then [Z.lnot x] else desc_of SIZE CHILD x.

(** What the stack will still append to the listing. *)
Definition work (SIZE : list Z) (CHILD : list (list Z)) (stack : list Z)
  : list Z :=
  mjoin (expand SIZE CHILD <$> stack).

(** The iterations of the loop an entry accounts for. *)
Definition cost (SIZE : list Z) (x : Z) : nat :=
  if bool_decide (x < 0) then 1%nat
  else (2 * Z.to_nat (size_of SIZE x))%nat.

Definition total_cost (SIZE : list Z) (stack : list Z) : nat :=
  sum_list (cost SIZE <$> stack).

(** *** Admissible nodes and answers *)

(** [TDP[v]] as a number. *)
Definition tdp_of (TDP : list Q) (v : Z) : Q :=
  match vget TDP v with Done t => t | _ => 0%Q end.

(** [e] is admissible: its TDP exceeds that of every node above it. *)
Definition admissible (CHILD : list (list Z)) (TDP : list Q) (e : Z) : Prop :=
  ∀ a, descends CHILD a e → a ≠ e → (tdp_of TDP a < tdp_of TDP e)%Q.

(** The stack of [queryPreparation] holds pairs: the largest TDP seen on
    the path to a node, on top of the node itself. *)
Definition walk_stack (ps : list (Q * Z)) : list Q :=
  mjoin ((λ p, [p.1; inject_Z p.2]) <$> ps).

(** The nodes the walk has still to visit. *)
Definition walk_cost (SIZE : list Z) (ps : list (Q * Z)) : Z :=
  sum_sizes SIZE (snd <$> ps).

(** No voxel lies in two clusters of an answer. *)
Definition pairwise_disjoint (ANS : list (list Z)) : Prop :=
  ∀ (i j : nat) (c1 c2 : list Z) (x : Z),
    ANS !! i = Some c1 → ANS !! j = Some c2 → x ∈ c1 → x ∈ c2 → i = j.

(** The representative of a cluster is its last element. *)
Definition representative (CL : list Z) : option Z := last CL.

(** [MARK] between two queries: one zero per voxel. *)
Definition no_marks (m : Z) : list Z := replicate (Z.to_nat m) 0.

(** [MARK] while the clusters of [ANS] are being emitted. *)
Definition marks (ANS : list (list Z)) (MARK : list Z) (m : Z) : Prop :=
  vsize MARK = m ∧
  ∀ x, 0 ≤ x < m →
       vget MARK x = Done (if bool_decide (x ∈ mjoin ANS) then 1 else 0).

(** A stack entry [(q, v)] is sound when [q] bounds the TDP of every
    node above [v]. *)
Definition entry_ok (m : Z) (CHILD : list (list Z)) (TDP : list Q)
    (p : Q * Z) : Prop :=
  0 ≤ p.2 < m ∧
  ∀ a, descends CHILD a p.2 → a ≠ p.2 → (tdp_of TDP a <= p.1)%Q.

(** What [queryPreparation] collects: admissible nodes. *)
Definition collected_ok (m : Z) (CHILD : list (list Z)) (TDP : list Q)
    (e : Z) : Prop :=
  0 ≤ e < m ∧ admissible CHILD TDP e.

(** From position [left] on, [ADMSTC] only holds nodes of TDP at least
    [gamma]. *)
Definition from_above (TDP : list Q) (ADMSTC : list Z) (gamma : Q) (left : Z)
  : Prop :=
  ∀ i a, left ≤ i → ADMSTC !! Z.to_nat i = Some a →
         (gamma <= tdp_of TDP a)%Q.

(** The state of the loop of [answerQuery] before position [j]: the
    voxels of the clusters emitted so far are marked and all distinct, and
    every cluster is the subtree of an entry between [left] and [j]. *)
Definition emitted (m : Z) (SIZE : list Z) (CHILD : list (list Z))
    (ADMSTC : list Z) (left j : Z) (st : list (list Z) * list Z) : Prop :=
  marks st.1 st.2 m ∧ NoDup (mjoin st.1) ∧
  Forall (λ CL, ∃ k a, left ≤ k < j ∧ ADMSTC !! Z.to_nat k = Some a ∧
                       CL = desc_of SIZE CHILD a) st.1.

(** ** Further notions

    *** Heavy paths *)

(** [v] lies on the heavy path that starts at [s]: the path that follows
    the child at position 0. *)
Inductive on_heavy_path (CHILD : list (list Z)) (s : Z) : Z → Prop :=
| heavy_start : on_heavy_path CHILD s s
| heavy_next v c0 :
    on_heavy_path CHILD s v → head (children CHILD v) = Some c0 →
    on_heavy_path CHILD s c0.

(** *** [findLeft] *)

(** Every entry of [ADMSTC] before position [k] has a TDP below [gamma]. *)
Definition all_below (TDP : list Q) (ADMSTC : list Z) (gamma : Q) (k : Z)
  : Prop :=
  ∀ i a t, 0 ≤ i < k → vget ADMSTC i = Done a → vget TDP a = Done t →
           (t < gamma)%Q.

(** Every entry of [ADMSTC] from position [k] on has a TDP of at least
    [gamma]. *)
Definition all_above (TDP : list Q) (ADMSTC : list Z) (gamma : Q) (k : Z)
  : Prop :=
  ∀ i a t, k ≤ i → vget ADMSTC i = Done a → vget TDP a = Done t →
           (gamma <= t)%Q.

(** *** [queryPreparation] *)

(** The listings of the subtrees of [nodes], one after the other. *)
Definition subtrees (SIZE : list Z) (CHILD : list (list Z))
    (nodes : list Z) : list Z :=
  mjoin (desc_of SIZE CHILD <$> nodes).

(** The bound of a stack entry [(q, v)] is attained: it is the initial
    [-1] or the TDP of a node above [v], and never below [-1]. *)
Definition entry_tight (CHILD : list (list Z)) (TDP : list Q)
    (p : Q * Z) : Prop :=
  (-1 <= p.1)%Q ∧
  (p.1 = (-1)%Q ∨
   ∃ a, descends CHILD a p.2 ∧ a ≠ p.2 ∧ p.1 = tdp_of TDP a).

(** What [queryPreparation] is to collect: the nodes of the forest whose
    TDP exceeds [-1] and the TDP of every node above them. *)
Definition collectable (ROOT : list Z) (CHILD : list (list Z))
    (TDP : list Q) (x : Z) : Prop :=
  (∃ r, r ∈ ROOT ∧ descends CHILD r x) ∧
  (-1 < tdp_of TDP x)%Q ∧ admissible CHILD TDP x.

(** *** [answerQuery] *)

(** The state of the loop of [answerQuery] before position [j], with what
    it has covered: every entry between [left] and [j] lies in a cluster
    emitted so far. *)
Definition covered (m : Z) (SIZE : list Z) (CHILD : list (list Z))
    (ADMSTC : list Z) (left j : Z) (st : list (list Z) * list Z) : Prop :=
  emitted m SIZE CHILD ADMSTC left j st ∧
  ∀ k a, left ≤ k < j → vget ADMSTC k = Done a → a ∈ mjoin st.1.

(** *** Ordered lists of nodes *)

(** The entries of [l] increase strictly. *)
Definition ascending (l : list Z) : Prop :=
  ∀ (i j : nat) x y, (i < j)%nat → l !! i = Some x → l !! j = Some y → x < y.

(** *** Jumps of [h(alpha)] *)

(** The entries of [jumpalpha] do not increase. *)
Definition non_increasing (jumpalpha : list Q) : Prop :=
  ∀ i j a b, 0 ≤ i ≤ j → vget jumpalpha i = Done a →
             vget jumpalpha j = Done b → (b <= a)%Q.

(** *** Neighbours in the voxel grid *)

(** Direction [i] of the tables [DX], [DY], [DZ]. *)
Definition direction (i : Z) : option (Z * Z * Z) :=
  match Voxels.DX !! Z.to_nat i, Voxels.DY !! Z.to_nat i,
        Voxels.DZ !! Z.to_nat i with
  | Some dx, Some dy, Some dz => Some (dx, dy, dz)
  | _, _, _ => None
  end.

(** The offsets between a voxel and the voxels around it, itself
    included. *)
Definition offsets : list (Z * Z * Z) :=
  dx ← [-1; 0; 1]; dy ← [-1; 0; 1]; dz ← [-1; 0; 1]; [(dx, dy, dz)].

(** The number of coordinates in which an offset moves. *)
Definition order (d : Z * Z * Z) : Z :=
  Z.abs d.1.1 + Z.abs d.1.2 + Z.abs d.2.

(** The first [conn] directions are the offsets of order [1..k]. *)
Definition table_agrees (conn k : Z) : bool :=
  forallb
    (λ d, Bool.eqb (bool_decide (1 ≤ order d ≤ k))
                   (existsb (λ i, bool_decide (direction i = Some d))
                            (seqZ 0 conn)))
    offsets.

(** Voxel [j] lies next to voxel [index], at most [k] coordinates
    apart: [k = 1] for neighbours across a face, [k = 2] across a face or
    an edge, [k = 3] across a face, an edge or a corner. *)
Definition neighbour_of (DIMS : list Z) (k : Z) (index j : Z) : Prop :=
  ∃ x y z x' y' z',
    Voxels.index2xyz index DIMS = Done [x; y; z] ∧
    Voxels.index2xyz j DIMS = Done [x'; y'; z'] ∧
    -1 ≤ x' - x ≤ 1 ∧ -1 ≤ y' - y ≤ 1 ∧ -1 ≤ z' - z ≤ 1 ∧
    1 ≤ order (x' - x, y' - y, z' - z) ≤ k.

(** Direction [i] from the voxel at [(x, y, z)] hits a voxel of the grid
    whose entry in [MASK] is [id], not zero. *)
Definition hits (MASK : list Z) (d0 d1 d2 x y z : Z) (i id : Z) : Prop :=
  ∃ dx dy dz,
    direction i = Some (dx, dy, dz) ∧
    0 ≤ x + dx < d0 ∧ 0 ≤ y + dy < d1 ∧ 0 ≤ z + dz < d2 ∧
    vget MASK ((z + dz) * d1 * d0 + (y + dy) * d0 + (x + dx)) = Done id ∧
    id ≠ 0.

(** *** The roots of the forest under construction *)

(** The forest root kept at [r], when [r] represents a set. *)
Definition root_at (PARENT FORESTROOT : list Z) (r : Z) : list Z :=
  match vget PARENT r, vget FORESTROOT r with
  | Done p, Done f => if bool_decide (p = r) then [f] else []
  | _, _ => []
  end.

(** The forest roots of the sets, in the order of their representatives:
    what the last loop of [findClusters] collects in [ROOT]. *)
Definition forest_roots (m : Z) (PARENT FORESTROOT : list Z) : list Z :=
  mjoin (root_at PARENT FORESTROOT <$> seqZ 0 m).

(** The part of the state of a scan that decides which nodes are roots
    or children: the forest roots of the sets and the children gathered
    so far make up [R0], and every size is at least one. *)
Definition roots_inv (m : Z) (R0 : list Z) (st : ARICluster.chd_state)
  : Prop :=
  let '(PARENT, FORESTROOT, SIZE, CHD) := st in
  forest_roots m PARENT FORESTROOT ++ CHD ≡ₚ R0 ∧
  Forall (λ s, 1 ≤ s) SIZE.

(** Between two nodes: every node is the forest root of a set or a child
    in [CHILD], and only once; the nodes not yet processed have no
    children. *)
Definition roots_outer_inv (base m : Z) (RANK : list Z) (i : Z)
    (st : ARICluster.forest_state) : Prop :=
  let '(PARENT, FORESTROOT, SIZE, CHILD) := st in
  forest_roots m PARENT FORESTROOT ++ mjoin CHILD ≡ₚ seqZ 0 m ∧
  Forall (λ s, 1 ≤ s) SIZE ∧
  ∀ y, 0 ≤ y < m → ¬ before base RANK i y → vget CHILD y = Done [].

(** *** [changeQuery], the branch that shrinks a cluster *)

(** [MARK] while [changeQuery] splits the cluster [CLUS]: 2 on the
    clusters split off so far, 1 on the rest of [CLUS], 0 elsewhere. *)
Definition split_marks (CLUS : list Z) (CHG : list (list Z))
    (MARK : list Z) (m : Z) : Prop :=
  vsize MARK = m ∧
  ∀ x, 0 ≤ x < m →
       vget MARK x = Done (if bool_decide (x ∈ mjoin CHG) then 2
                           else if bool_decide (x ∈ CLUS) then 1 else 0).

(** Node [a] qualifies when a cluster [CLUS] of TDP [cur] is to be
    shrunk by [tdpchg]: it is an entry of [ADMSTC] inside [CLUS] whose
    TDP is not negative and exceeds [cur] by [tdpchg] at least. *)
Definition splits_off (TDP : list Q) (ADMSTC CLUS : list Z) (tdpchg cur : Q)
    (a : Z) : Prop :=
  a ∈ ADMSTC ∧ a ∈ CLUS ∧
  (0 <= tdp_of TDP a)%Q ∧ (tdpchg <= tdp_of TDP a - cur)%Q.

(** The state of the loop of the shrink branch before position [j]: the
    clusters split off are subtrees of qualifying entries between [idxv]
    and [j], share no voxel, and hold every qualifying entry met. *)
Definition shrunk (m : Z) (SIZE : list Z) (CHILD : list (list Z))
    (TDP : list Q) (ADMSTC CLUS : list Z) (tdpchg cur : Q) (idxv j : Z)
    (st : list (list Z) * list Z) : Prop :=
  split_marks CLUS st.1 st.2 m ∧ NoDup (mjoin st.1) ∧
  Forall (λ CL, ∃ k a, idxv < k < j ∧ ADMSTC !! Z.to_nat k = Some a ∧
                       splits_off TDP ADMSTC CLUS tdpchg cur a ∧
                       CL = desc_of SIZE CHILD a) st.1 ∧
  ∀ k a, idxv < k < j → ADMSTC !! Z.to_nat k = Some a →
         splits_off TDP ADMSTC CLUS tdpchg cur a → a ∈ mjoin st.1.

(** *** The hull of the p-values *)




(** *** Counting sort *)

(** How many entries of [l] equal [s], and how many are at least [s]. *)
Definition count_eq (l : list Z) (s : Z) : Z :=
  Z.of_nat (length (filter (λ x, x = s) l)).
Definition count_ge (l : list Z) (s : Z) : Z :=
  Z.of_nat (length (filter (λ x, s ≤ x) l)).

(** Where [counting_sort] puts index [j]: behind the entries larger than
    [l[j]], and among the entries equal to [l[j]] before those of smaller
    index. *)
Definition sorted_pos (l : list Z) (j : Z) : Z :=
  match l !! Z.to_nat j with
  | Some s => count_ge l s - count_eq (take (Z.to_nat j) l) s - 1
  | None => -1
  end.

(** *** Adjusted p-values *)

(** The local test at level [j] accepts [x]:
    [simesfactor[j] * x <= alpha[j]]. *)
Definition passes (simesfactor alpha : list Q) (x : Q) (j : Z) : Prop :=
  ∃ sf a, vget simesfactor j = Done sf ∧ vget alpha j = Done a ∧
          (sf * x <= a)%Q.

(** As [adjustedElementary] tests it, with [alpha] one position behind:
    [simesfactor[j-1] * x <= alpha[j-1]]. *)
Definition passes_at (simesfactor alpha : list Q) (x : Q) (j : Z) : Prop :=
  ∃ sf a, vget simesfactor (j - 1) = Done sf ∧ vget alpha (j - 1) = Done a ∧
          (sf * x <= a)%Q.

(** What [adjustedElementary] stores for [p[k]]: the minimum of
    [simesfactor[j] * p[k]] and [alpha[j-1]] at a level [j] that passes;
    [j] is [m] unless level [j + 1] has failed for [p[k]] or for an
    earlier p-value. *)
Definition adjusted_at (simesfactor alpha p : list Q) (m : Z)
    (adjusted : list Q) (k : Z) : Prop :=
  ∃ j pk sfj a,
    1 ≤ j ≤ m ∧ vget p k = Done pk ∧
    passes_at simesfactor alpha pk j ∧
    (j = m ∨ ∃ k' pk', 0 ≤ k' ≤ k ∧ vget p k' = Done pk' ∧
                       ¬ passes_at simesfactor alpha pk' (j + 1)) ∧
    vget simesfactor j = Done sfj ∧ vget alpha (j - 1) = Done a ∧
    vget adjusted k = Done (HommelAdjust.std_min (sfj * pk) a).
(** * Part II: properties *)

(** ** Runs and vectors *)

Lemma bind_Done {A B : Type} (e : exec A) (k : A → exec B) (b : B) :
  e ≫= k = Done b ↔ ∃ a, e = Done a ∧ k a = Done b.
Proof.
  destruct e as [a| |]; simpl; split.
  - intros H. by exists a.
  - by intros (a' & [= <-] & H).
  - done.
  - by intros (a' & [=] & _).
  - done.
  - by intros (a' & [=] & _).
Qed.

Lemma bind_not_Done {A B : Type} (e : exec A) (k : A → exec B) :
  (∀ a, e ≠ Done a) → ∀ b, e ≫= k ≠ Done b.
Proof. intros He b (a & Ha & _)%bind_Done. by eapply He. Qed.

(** Reduce the binds of a run whose first part is known. *)
Ltac exec_simpl := cbn [mbind exec_mbind exec_bind mret exec_ret].
Tactic Notation "exec_simpl" "in" hyp(H) :=
  cbn [mbind exec_mbind exec_bind mret exec_ret] in H.

(** Split a hypothesis [(x ← e; k) = Done b] into its two runs. *)
Tactic Notation "bind_inv" hyp(H) :=
  let a := fresh "a" in
  let Ha := fresh "E" in
  apply bind_Done in H as (a & Ha & H); exec_simpl in H.
Tactic Notation "bind_inv" hyp(H) "as" simple_intropattern(p) ident(E) :=
  apply bind_Done in H as (p & E & H); exec_simpl in H.

Lemma vget_Done {A : Type} (v : list A) (i : Z) (x : A) :
  vget v i = Done x ↔ 0 ≤ i ∧ v !! Z.to_nat i = Some x.
Proof.
  unfold vget. case_bool_decide; [|split; [done | tauto]].
  destruct (v !! Z.to_nat i) as [y|]; split; try done.
  - by intros [= ->].
  - by intros [_ [= ->]].
  - by intros [_ [=]].
Qed.

Lemma vget_Done_lt {A : Type} (v : list A) (i : Z) (x : A) :
  vget v i = Done x → 0 ≤ i < vsize v.
Proof.
  intros [Hi Hl%lookup_lt_Some]%vget_Done. unfold vsize. lia.
Qed.

Lemma vget_lt {A : Type} (v : list A) (i : Z) :
  0 ≤ i < vsize v → ∃ x, vget v i = Done x.
Proof.
  unfold vsize. intros Hi.
  destruct (lookup_lt_is_Some_2 v (Z.to_nat i)) as [x Hx]; [lia|].
  exists x. apply vget_Done. split; [lia | done].
Qed.

Lemma vget_ge {A : Type} (v : list A) (i : Z) :
  vsize v ≤ i → vget v i = Fault.
Proof.
  unfold vget, vsize. intros Hi. case_bool_decide; [|done].
  rewrite lookup_ge_None_2; [done | lia].
Qed.

Lemma vget_Fault_or_Done {A : Type} (v : list A) (i : Z) :
  vget v i = Fault ∨ ∃ x, vget v i = Done x.
Proof.
  unfold vget. case_bool_decide; [|by left].
  destruct (v !! Z.to_nat i); eauto.
Qed.

Lemma vset_Done {A : Type} (v : list A) (i : Z) (x : A) (v' : list A) :
  vset v i x = Done v' ↔ 0 ≤ i < vsize v ∧ v' = <[Z.to_nat i := x]> v.
Proof.
  unfold vset, vsize. case_bool_decide; split.
  - by intros [= <-].
  - by intros [_ ->].
  - done.
  - tauto.
Qed.

Lemma vset_lt {A : Type} (v : list A) (i : Z) (x : A) :
  0 ≤ i < vsize v → vset v i x = Done (<[Z.to_nat i := x]> v).
Proof. intros Hi. by apply vset_Done. Qed.

Lemma vsize_vset {A : Type} (v : list A) (i : Z) (x : A) (v' : list A) :
  vset v i x = Done v' → vsize v' = vsize v.
Proof.
  intros [_ ->]%vset_Done. unfold vsize. by rewrite length_insert.
Qed.

Lemma vget_vset_eq {A : Type} (v : list A) (i : Z) (x : A) (v' : list A) :
  vset v i x = Done v' → vget v' i = Done x.
Proof.
  intros [Hi ->]%vset_Done. apply vget_Done. unfold vsize in Hi.
  split; [lia|]. apply list_lookup_insert_eq. lia.
Qed.

Lemma vget_vset_ne {A : Type} (v : list A) (i j : Z) (x : A) (v' : list A) :
  vset v i x = Done v' → i ≠ j → vget v' j = vget v j.
Proof.
  intros [Hi ->]%vset_Done Hne. unfold vget.
  case_bool_decide; [|done].
  rewrite list_lookup_insert_ne; [done | lia].
Qed.

Lemma vmake_Done {A : Type} (n : Z) (x : A) (v : list A) :
  vmake n x = Done v ↔ 0 ≤ n ∧ v = replicate (Z.to_nat n) x.
Proof.
  unfold vmake. case_bool_decide; split.
  - by intros [= <-].
  - by intros [_ ->].
  - done.
  - tauto.
Qed.

Lemma vmake_ge {A : Type} (n : Z) (x : A) :
  0 ≤ n → vmake n x = Done (replicate (Z.to_nat n) x).
Proof. intros Hn. by apply vmake_Done. Qed.

Lemma vsize_vmake {A : Type} (n : Z) (x : A) (v : list A) :
  vmake n x = Done v → vsize v = n.
Proof.
  intros [Hn ->]%vmake_Done. unfold vsize. rewrite length_replicate. lia.
Qed.

Lemma vsize_app {A : Type} (v w : list A) : vsize (v ++ w) = vsize v + vsize w.
Proof. unfold vsize. rewrite length_app. lia. Qed.

Lemma vget_app_mid {A : Type} (pre : list A) (x : A) (suf : list A) :
  vget (pre ++ x :: suf) (vsize pre) = Done x.
Proof.
  apply vget_Done. unfold vsize. split; [lia|].
  rewrite Nat2Z.id. apply list_lookup_middle. done.
Qed.

Lemma vset_app_mid {A : Type} (pre : list A) (x y : A) (suf : list A) :
  vset (pre ++ x :: suf) (vsize pre) y = Done (pre ++ y :: suf).
Proof.
  apply vset_Done. unfold vsize. rewrite length_app. simpl.
  split; [lia|]. rewrite Nat2Z.id.
  rewrite insert_app_r_alt by lia. by rewrite Nat.sub_diag.
Qed.

(** The invariant rule of a counted loop. *)
Lemma for_up_inv {T : Type} (I : Z → T → Prop) (n : nat) (i : Z)
    (body : Z → T → exec T) (s : T) :
  I i s →
  (∀ j t, i ≤ j < i + Z.of_nat n → I j t →
          ∃ t', body j t = Done t' ∧ I (j + 1) t') →
  ∃ s', for_up n i body s = Done s' ∧ I (i + Z.of_nat n) s'.
Proof.
  revert i s. induction n as [|n IH]; intros i s Hs Hbody; simpl.
  - exists s. split; [done|]. by replace (i + Z.of_nat 0) with i by lia.
  - destruct (Hbody i s) as (t & -> & Ht); [lia | done |]. simpl.
    destruct (IH (i + 1) t) as (s' & -> & Hs'); [done | |].
    + intros j u Hj Hu. apply Hbody; [lia | done].
    + exists s'. split; [done|].
      by replace (i + Z.of_nat (S n)) with (i + 1 + Z.of_nat n) by lia.
Qed.

(** The same rule read backwards: what a completed loop went through. *)
Lemma for_up_Done_inv {T : Type} (I : Z → T → Prop) (n : nat) (i : Z)
    (body : Z → T → exec T) (s s' : T) :
  for_up n i body s = Done s' →
  I i s →
  (∀ j t t', i ≤ j < i + Z.of_nat n → I j t → body j t = Done t' →
             I (j + 1) t') →
  I (i + Z.of_nat n) s'.
Proof.
  revert i s. induction n as [|n IH]; intros i s Hrun Hs Hbody; simpl in *.
  - injection Hrun as <-. by replace (i + Z.of_nat 0) with i by lia.
  - bind_inv Hrun.
    replace (i + Z.of_nat (S n)) with (i + 1 + Z.of_nat n) by lia.
    apply (IH (i + 1) a); [done | |].
    + apply (Hbody i s); [lia | done..].
    + intros j t t' Hj. apply Hbody. lia.
Qed.

Lemma for_each_inv {X T : Type} (I : T → Prop) (l : list X)
    (body : X → T → exec T) (s : T) :
  I s →
  (∀ x t, x ∈ l → I t → ∃ t', body x t = Done t' ∧ I t') →
  ∃ s', for_each l body s = Done s' ∧ I s'.
Proof.
  revert s. induction l as [|x l IH]; intros s Hs Hbody; simpl.
  - by exists s.
  - destruct (Hbody x s) as (t & -> & Ht); [left | done |]. simpl.
    apply IH; [done|]. intros y u Hy. apply Hbody. by right.
Qed.

Lemma for_each_Done_inv {X T : Type} (I : T → Prop) (l : list X)
    (body : X → T → exec T) (s s' : T) :
  for_each l body s = Done s' →
  I s →
  (∀ x t t', x ∈ l → I t → body x t = Done t' → I t') →
  I s'.
Proof.
  revert s. induction l as [|x l IH]; intros s Hrun Hs Hbody; simpl in *.
  - by injection Hrun as <-.
  - bind_inv Hrun. apply (IH a); [done | |].
    + apply (Hbody x s); [left | done..].
    + intros y t t' Hy. apply Hbody. by right.
Qed.

Lemma Qltb_lt (x y : Q) : Qltb x y = true ↔ (x < y)%Q.
Proof.
  unfold Qltb. rewrite negb_true_iff, <- not_true_iff_false, Qle_bool_iff.
  split; [apply Qnot_le_lt | apply Qlt_not_le].
Qed.

Lemma Qltb_ge (x y : Q) : Qltb x y = false ↔ (y <= x)%Q.
Proof.
  unfold Qltb. rewrite negb_false_iff. apply Qle_bool_iff.
Qed.

Lemma Qgeb_ge (x y : Q) : Qgeb x y = true ↔ (y <= x)%Q.
Proof. unfold Qgeb. apply Qle_bool_iff. Qed.

Lemma Qgeb_lt (x y : Q) : Qgeb x y = false ↔ (x < y)%Q.
Proof.
  unfold Qgeb. rewrite <- not_true_iff_false, Qle_bool_iff.
  split; [apply Qnot_le_lt | apply Qlt_not_le].
Qed.

(** ** [findHalpha] *)

Lemma findHalpha_loop_range (fuel : nat) (jumpalpha : list Q) (alpha : Q)
    (lower upper h : Z) :
  Hommel.findHalpha_loop fuel jumpalpha alpha lower upper = Done h →
  0 ≤ lower < upper → lower ≤ h < upper.
Proof.
  revert lower upper.
  induction fuel as [|fuel IH]; intros lower upper; simpl;
    case_bool_decide as Hlt; try done; try (intros [= <-]; lia).
  intros Hrun Hr. bind_inv Hrun.
  assert (lower < (lower + upper) `quot` 2 < upper) as Hmid.
  { rewrite Z.quot_div_nonneg by lia.
    pose proof (Z.div_mod (lower + upper) 2).
    pose proof (Z.mod_pos_bound (lower + upper) 2). lia. }
  destruct (Qgtb a alpha); apply IH in Hrun; lia.
Qed.

(** The binary search never leaves [0..m-1]: it cannot report that all
    [m] jumps lie above [alpha]. *)
Lemma findHalpha_below_m (jumpalpha : list Q) (alpha : Q) (m h : Z) :
  1 ≤ m → Hommel.findHalpha jumpalpha alpha m = Done h → 0 ≤ h < m.
Proof.
  intros Hm Hrun. apply findHalpha_loop_range in Hrun; lia.
Qed.

(** C5 (the code departs from the claim).  With the single jump
    [jumpalpha = [1]] and [alpha = 1/2] the largest [h] with
    [jumpalpha[h-1] > alpha] is [1], but [findHalpha] returns [0]. *)
Theorem findHalpha_misses_single_jump :
  Hommel.findHalpha [1%Q] (1 # 2)%Q 1 = Done 0 ∧
  largest_jump_above [1%Q] (1 # 2)%Q 1 1.
Proof.
  split; [reflexivity|].
  split; [lia|]. split.
  - right. exists 1%Q. split; reflexivity.
  - intros h' a Hh'. lia.
Qed.

(** ** [findhull] *)

Lemma notconvex_test_Done (p : list Q) (i : Z) (hull : list Z) :
  0 ≤ i < vsize p →
  Forall (λ x, 0 ≤ x < vsize p) hull →
  ∃ nc, Hommel.notconvex_test p i hull = Done nc ∧
        (hull = [] → nc = false).
Proof.
  intros Hi Hhull. unfold Hommel.notconvex_test.
  assert (∀ r, 0 ≤ r < vsize hull →
               ∃ x, vget hull r = Done x ∧ 0 ≤ x < vsize p) as Hget.
  { intros r Hr. destruct (vget_lt hull r Hr) as [x Hx]. exists x.
    split; [done|]. apply vget_Done in Hx as [_ Hx].
    by eapply (Forall_lookup_1 _ _ _ _ Hhull). }
  destruct (vget_lt p i Hi) as [pi Hpi].
  case_bool_decide as Hr.
  - destruct (Hget (vsize hull - 1 - 1)) as (hr1 & -> & Hhr1); [lia|].
    destruct (Hget (vsize hull - 1)) as (hr & -> & Hhr); [lia|]. simpl.
    destruct (vget_lt p hr Hhr) as [phr ->].
    destruct (vget_lt p hr1 Hhr1) as [phr1 ->]. rewrite Hpi. simpl.
    eexists. split; [done|]. intros ->. unfold vsize in Hr. simpl in Hr. lia.
  - case_bool_decide as Hr0.
    + destruct (Hget 0) as (h0 & -> & Hh0); [lia|]. simpl.
      destruct (vget_lt p h0 Hh0) as [ph0 ->]. rewrite Hpi. simpl.
      eexists. split; [done|]. intros ->. unfold vsize in Hr0. simpl in Hr0.
      lia.
    + by exists false.
Qed.

Lemma hull_pop_Done (fuel : nat) (p : list Q) (i : Z) (hull : list Z) :
  (length hull < fuel)%nat →
  0 ≤ i < vsize p →
  Forall (λ x, 0 ≤ x < vsize p) hull →
  ∃ hull', Hommel.hull_pop fuel p i hull = Done hull' ∧
           hull' `prefix_of` hull.
Proof.
  revert hull. induction fuel as [|fuel IH]; intros hull Hfuel Hi Hhull;
    [lia|]. simpl.
  destruct (notconvex_test_Done p i hull Hi Hhull) as (nc & -> & Hnc).
  simpl. destruct nc.
  - destruct hull as [|h0 hull0] eqn:Ehull; [by specialize (Hnc eq_refl)|].
    rewrite <- Ehull in *.
    assert (length hull = S (length hull0)) as Hlen by by subst.
    destruct (IH (take (Z.to_nat (vsize hull - 1)) hull))
      as (hull' & -> & Hpre).
    + rewrite length_take. unfold vsize. lia.
    + done.
    + by apply Forall_take.
    + exists hull'. split; [done|].
      etrans; [done|]. apply prefix_take.
  - by exists hull.
Qed.

(** What [findhull] does keep: for every [m ≥ 1] and every vector [p]
    of [m] p-values it completes, the index list it returns ends with
    [m - 1], and for [m = 1] it is [[0]]. *)
Lemma findhull_terminated_at_last (m : Z) (p : list Q) :
  1 ≤ m → vsize p = m →
  ∃ hull, Hommel.findhull m p = Done hull ∧
          last hull = Some (m - 1) ∧ (m = 1 → hull = [0]).
Proof.
  intros Hm Hp. unfold Hommel.findhull.
  destruct (for_up_inv
    (λ j hull, Forall (λ x, 0 ≤ x < vsize p) hull ∧
               (j = m → last hull = Some (m - 1)) ∧
               (j = 1 → hull = [0]))
    (Z.to_nat (m - 1)) 1 (Hommel.hull_step m p) [0])
    as (hull & Hrun & _ & Hlast & H1).
  - split; [|split; [|done]].
    + apply Forall_singleton. lia.
    + intros <-. done.
  - intros j hull Hj (Hhull & _ & _). unfold Hommel.hull_step.
    assert (∃ b, (if bool_decide (j = m - 1) then Done true
                  else pi ← vget p j; p0 ← vget p 0; pm ← vget p (m - 1);
                       Done (Qltb (inject_Z (m - 1) * (pi - p0))
                                  (inject_Z j * (pm - p0)))) = Done b ∧
                 (j = m - 1 → b = true)) as (b & -> & Hb).
    { case_bool_decide as Hjm; [by exists true|].
      destruct (vget_lt p j) as [pj ->]; [lia|].
      destruct (vget_lt p 0) as [p0 ->]; [lia|].
      destruct (vget_lt p (m - 1)) as [pm ->]; [lia|]. simpl.
      eexists. split; [done|]. lia. }
    exec_simpl. destruct b.
    + destruct (hull_pop_Done (S (length hull)) p j hull)
        as (hull' & -> & Hpre); [lia | lia | done |]. exec_simpl.
      exists (hull' ++ [j]). split; [done|]. split; [|split].
      * apply Forall_app. split; [|apply Forall_singleton; lia].
        destruct Hpre as [k ->]. by apply Forall_app in Hhull as [? _].
      * intros Hjm. rewrite last_snoc. f_equal. lia.
      * lia.
    + exists hull. split; [done|]. split; [done|]. split; [|lia].
      intros Hjm. assert (j = m - 1) as Hjm' by lia.
      by specialize (Hb Hjm').
  - exists hull. split; [done|]. split.
    + apply Hlast. lia.
    + intros ->. by apply H1.
Qed.

(** The test against the origin, [i * p[hull[0]] >= hull[0] * p[i]], holds
    whenever [hull[0] = 0] and [p[0]] is not negative: the first candidate
    removes index [0], and no later step brings it back. *)
Lemma findhull_never_keeps_zero (m : Z) (p : list Q) :
  2 ≤ m → vsize p = m →
  (∀ p0, vget p 0 = Done p0 → (0 <= p0)%Q) →
  ∃ hull, Hommel.findhull m p = Done hull ∧ 0 ∉ hull.
Proof.
  intros Hm Hp Hp0. unfold Hommel.findhull.
  destruct (for_up_inv
    (λ j hull, Forall (λ x, 0 ≤ x < vsize p) hull ∧
               (hull = [0] ∧ j ≤ m - 1 ∨ Forall (λ x, 1 ≤ x) hull))
    (Z.to_nat (m - 1)) 1 (Hommel.hull_step m p) [0])
    as (hull & Hrun & _ & Hinv).
  - split; [apply Forall_singleton; lia|]. left. split; [done | lia].
  - intros j hull Hj (Hhull & Hinv). unfold Hommel.hull_step.
    assert (∃ b, (if bool_decide (j = m - 1) then Done true
                  else pi ← vget p j; p0 ← vget p 0; pm ← vget p (m - 1);
                       Done (Qltb (inject_Z (m - 1) * (pi - p0))
                                  (inject_Z j * (pm - p0)))) = Done b ∧
                 (j = m - 1 → b = true)) as (b & -> & Hb).
    { case_bool_decide as Hjm; [by exists true|].
      destruct (vget_lt p j) as [pj ->]; [lia|].
      destruct (vget_lt p 0) as [p0 ->]; [lia|].
      destruct (vget_lt p (m - 1)) as [pm ->]; [lia|]. simpl.
      eexists. split; [done|]. lia. }
    exec_simpl. destruct b.
    + destruct Hinv as [[-> _]|Hpos].
      * destruct (vget_lt p 0) as [p0 Hget0]; [lia|].
        destruct (vget_lt p j) as [pj Hgetj]; [lia|].
        assert (Hommel.hull_pop (S (length [0])) p j [0] = Done []) as ->.
        { simpl. unfold Hommel.notconvex_test. simpl.
          change (vget [0] 0) with (Done 0). exec_simpl.
          rewrite Hget0, Hgetj. exec_simpl.
          assert (Qgeb (inject_Z j * p0) (inject_Z 0 * pj) = true) as ->.
          { apply Qgeb_ge. rewrite Qmult_0_l.
            apply Qmult_le_0_compat; [|by apply Hp0].
            change 0%Q with (inject_Z 0). rewrite <- Zle_Qle. lia. }
          done. }
        exec_simpl. eexists. split; [done|]. split.
        -- apply Forall_singleton. lia.
        -- right. apply Forall_singleton. lia.
      * destruct (hull_pop_Done (S (length hull)) p j hull)
          as (hull' & -> & [k ->]); [lia | lia | done |]. exec_simpl.
        eexists. split; [done|].
        apply Forall_app in Hhull as [Hhull _].
        apply Forall_app in Hpos as [Hpos _]. split.
        -- apply Forall_app. split; [done|]. apply Forall_singleton. lia.
        -- right. apply Forall_app. split; [done|].
           apply Forall_singleton. lia.
    + exists hull. split; [done|]. split; [done|].
      destruct Hinv as [[-> _]|Hpos]; [|by right].
      left. split; [done|].
      assert (j ≠ m - 1) by (intros Hjm; by specialize (Hb Hjm)). lia.
  - exists hull. split; [done|].
    destruct Hinv as [[_ Hle]|Hpos]; [lia|].
    intros Hin. eapply Forall_forall in Hpos; [|exact Hin]. lia.
Qed.

(** The same steps in [hommel_backup.cpp]: there the hull starts as
    [[0; 1]] and the test against the origin compares the slopes of the
    points [(hull[1], p[hull[1] - 1])] and [(i, p[i - 1])], so that the
    first index stays whenever its point is on the hull. *)
Lemma backup_hull_pop_keeps_first (fuel : nat) (m : Z) (p : list Q) (i : Z)
    (rest : list Z) :
  vsize p = m → first_on_hull m p → 2 ≤ i ≤ m →
  Forall (λ x, 1 ≤ x ≤ m) rest →
  (length rest < fuel)%nat →
  ∃ rest', HommelBackup.hull_pop fuel p i (0 :: 1 :: rest)
           = Done (0 :: 1 :: rest') ∧
           Forall (λ x, 1 ≤ x ≤ m) rest'.
Proof.
  intros Hp (p0 & Hget0 & Hfirst) Hi. revert rest.
  induction fuel as [|fuel IH]; intros rest Hrest Hfuel; [lia|].
  destruct (vget_lt p (i - 1)) as [pi Hgeti]; [lia|].
  simpl. unfold HommelBackup.notconvex_test.
  destruct (decide (rest = [])) as [->|Hne].
  - simpl. change (vget [0; 1] 1) with (Done 1). exec_simpl.
    change (1 - 1) with 0. rewrite Hget0, Hgeti. exec_simpl.
    assert (Qgeb (inject_Z i * p0) (inject_Z 1 * pi) = false) as ->.
    { apply Qgeb_lt. rewrite Qmult_1_l.
      replace i with (i - 1 + 1) by lia. apply Hfirst; [lia | done]. }
    by exists [].
  - assert (0 < length rest)%nat as Hlen
      by (destruct rest; [done | simpl; lia]).
    assert (∀ r, 1 ≤ r < vsize (0 :: 1 :: rest) →
                 ∃ x, vget (0 :: 1 :: rest) r = Done x ∧ 1 ≤ x ≤ m)
      as Hget.
    { intros r Hr. destruct (vget_lt (0 :: 1 :: rest) r) as [x Hx]; [lia|].
      exists x. split; [done|]. apply vget_Done in Hx as [_ Hx].
      destruct (Z.to_nat r) as [|[|n]] eqn:En; [lia | |].
      - simpl in Hx. injection Hx as <-. lia.
      - simpl in Hx. by eapply (Forall_lookup_1 _ _ _ _ Hrest). }
    assert (vsize (0 :: 1 :: rest) = 2 + Z.of_nat (length rest)) as Hsz
      by (unfold vsize; simpl; lia).
    rewrite bool_decide_eq_true_2 by lia.
    destruct (Hget (vsize (0 :: 1 :: rest) - 1 - 1)) as (hr1 & -> & Hhr1);
      [lia|].
    destruct (Hget (vsize (0 :: 1 :: rest) - 1)) as (hr & -> & Hhr); [lia|].
    exec_simpl.
    destruct (vget_lt p (hr - 1)) as [phr ->]; [lia|].
    destruct (vget_lt p (hr1 - 1)) as [phr1 ->]; [lia|].
    rewrite Hgeti. exec_simpl.
    destruct (Qgeb _ _); [|by exists rest].
    replace (take (Z.to_nat (vsize (0 :: 1 :: rest) - 1)) (0 :: 1 :: rest))
      with (0 :: 1 :: take (length rest - 1) rest).
    + apply IH; [by apply Forall_take|]. rewrite length_take. lia.
    + rewrite Hsz.
      replace (Z.to_nat (2 + Z.of_nat (length rest) - 1))
        with (S (S (length rest - 1))) by lia.
      done.
Qed.

Lemma findhull_backup_keeps_first (m : Z) (p : list Q) :
  1 ≤ m → vsize p = m → first_on_hull m p →
  ∃ rest, HommelBackup.findhull m p = Done (0 :: 1 :: rest).
Proof.
  intros Hm Hp Hfirst. unfold HommelBackup.findhull.
  destruct (for_up_inv
    (λ (j : Z) hull, ∃ rest, hull = 0 :: 1 :: rest ∧
                             Forall (λ x, 1 ≤ x ≤ m) rest)
    (Z.to_nat (m - 1)) 2 (HommelBackup.hull_step m p) [0; 1])
    as (hull & Hrun & rest & -> & _).
  - by exists [].
  - intros j hull Hj (rest & -> & Hrest). unfold HommelBackup.hull_step.
    assert (∃ b, (if bool_decide (j = m) then Done true
                  else pi ← vget p (j - 1); p0 ← vget p 0;
                       pm ← vget p (m - 1);
                       Done (Qltb (inject_Z (m - 1) * (pi - p0))
                                  (inject_Z (j - 1) * (pm - p0)))) = Done b)
      as (b & ->).
    { case_bool_decide as Hjm; [by exists true|].
      destruct (vget_lt p (j - 1)) as [pj ->]; [lia|].
      destruct (vget_lt p 0) as [p0 ->]; [lia|].
      destruct (vget_lt p (m - 1)) as [pm ->]; [lia|]. simpl.
      by eexists. }
    exec_simpl. destruct b.
    + destruct (backup_hull_pop_keeps_first
                  (S (length (0 :: 1 :: rest))) m p j rest)
        as (rest' & -> & Hrest'); try done; [lia | simpl; lia |].
      exec_simpl. eexists. split; [done|].
      exists (rest' ++ [j]). split; [done|].
      apply Forall_app. split; [done|]. apply Forall_singleton. lia.
    + eexists. split; [done|]. by exists rest.
  - by exists rest.
Qed.

(** C9 (the code departs from the claim).  On the sorted p-values
    [[1/8; 1/2]] the point of index [0] is on the hull that the
    specification describes, and [findhull] of [hommel_backup.cpp] keeps
    it (its result [[0; 1; 2]] holds the one-based indices [1] and [2]
    behind the cell of the origin).  The zero-based [findhull] returns
    [[1]]: its test against the origin kept the indices as abscissas when
    they came to be counted from zero, so that it always holds at
    [hull[0] = 0] and index [0] is dropped. *)
Theorem findhull_drops_index_zero :
  sorted_pvalues 2 [(1 # 8)%Q; (1 # 2)%Q] ∧
  first_on_hull 2 [(1 # 8)%Q; (1 # 2)%Q] ∧
  HommelBackup.findhull 2 [(1 # 8)%Q; (1 # 2)%Q] = Done [0; 1; 2] ∧
  Hommel.findhull 2 [(1 # 8)%Q; (1 # 2)%Q] = Done [1] ∧
  ¬ hull_anchored 2 [(1 # 8)%Q; (1 # 2)%Q].
Proof.
  split_and!.
  - split; [reflexivity|]. split.
    + intros x Hx. repeat (apply elem_of_cons in Hx as [-> | Hx]);
        [split; discriminate.. |]. by apply elem_of_nil in Hx.
    + intros i j x y Hij Hi Hj.
      destruct i as [|[|i]]; destruct j as [|[|j]]; simpl in Hi, Hj;
        try done; try lia;
        injection Hi as <-; injection Hj as <-; discriminate.
  - exists (1 # 8)%Q. split; [reflexivity|].
    intros j pj Hj Hget. assert (j = 1) as -> by lia.
    injection Hget as <-. reflexivity.
  - reflexivity.
  - reflexivity.
  - intros (hull & Hrun & Hhead & _).
    vm_compute in Hrun. injection Hrun as <-. discriminate Hhead.
Qed.

(** ** Disjoint sets *)

Lemma reaches_mono (parent : list Z) (n n' : nat) (x r : Z) :
  reaches parent n x r → (n ≤ n')%nat → reaches parent n' x r.
Proof.
  intros H. revert n'. induction H as [n x Hx | n x y r Hx Hne _ IH];
    intros n' Hn.
  - by apply reaches_root.
  - destruct n' as [|n']; [lia|].
    eapply reaches_step; [done | done |]. apply IH. lia.
Qed.

Lemma reaches_is_root (parent : list Z) (n : nat) (x r : Z) :
  reaches parent n x r → vget parent r = Done r.
Proof. induction 1; done. Qed.

Lemma reaches_in_range (parent : list Z) (n : nat) (x r : Z) :
  reaches parent n x r → 0 ≤ x < vsize parent.
Proof. destruct 1; by eapply vget_Done_lt. Qed.

Lemma reaches_root_in_range (parent : list Z) (n : nat) (x r : Z) :
  reaches parent n x r → 0 ≤ r < vsize parent.
Proof. intros H%reaches_is_root. by eapply vget_Done_lt. Qed.

Lemma reaches_fun (parent : list Z) (n n' : nat) (x r r' : Z) :
  reaches parent n x r → reaches parent n' x r' → r = r'.
Proof.
  intros H. revert n' r'.
  induction H as [n x Hx | n x y r Hx Hne _ IH]; intros n' r' H'.
  - destruct H' as [n' x Hx' | n' x y' r' Hx' Hne' _]; [done|]. congruence.
  - destruct H' as [n' x Hx' | n' x y' r' Hx' Hne' H']; [congruence|].
    apply (IH n'). congruence.
Qed.

Lemma reaches_of_root (parent : list Z) (n : nat) (x r : Z) :
  vget parent x = Done x → reaches parent n x r → r = x.
Proof.
  intros Hx H. symmetry. eapply reaches_fun; [|done]. by apply (reaches_root _ 0).
Qed.

(** A two-cycle is not on the way to any root. *)
Lemma reaches_no_2cycle (parent : list Z) (n : nat) (x px r : Z) :
  vget parent x = Done px → px ≠ x → vget parent px = Done x →
  ¬ reaches parent n x r.
Proof.
  intros Hx Hne Hpx. induction (lt_wf n) as [n _ IH]. intros H.
  destruct H as [n x Hroot | n1 x y r Hy _ H1]; [congruence|].
  assert (y = px) as -> by congruence.
  destruct H1 as [n1 px Hroot | n2 px y r Hy' _ H2]; [congruence|].
  assert (y = x) as -> by congruence.
  apply (IH n2); [lia | done].
Qed.

(** One step of path halving, [parent[x] = parent[parent[x]]], keeps the
    root of every node and lengthens no path. *)
Lemma reaches_halve (parent : list Z) (x px ppx : Z) (parent' : list Z) :
  vget parent x = Done px → px ≠ x → vget parent px = Done ppx →
  vset parent x ppx = Done parent' →
  ∀ k y s, reaches parent k y s → reaches parent' k y s.
Proof.
  intros Hx Hne Hpx Hset k. induction (lt_wf k) as [k _ IH]. intros y s H.
  destruct H as [k y Hroot | k1 y z s Hy Hzy H1].
  - apply reaches_root. rewrite (vget_vset_ne _ _ _ _ _ Hset); [done|].
    congruence.
  - destruct (decide (y = x)) as [->|Hyx].
    + assert (z = px) as -> by congruence.
      destruct H1 as [k1 px Hroot | k2 px z s Hy' Hz H2].
      * assert (ppx = px) as -> by congruence.
        eapply reaches_step; [by eapply vget_vset_eq | done |].
        apply IH; [lia | by apply reaches_root].
      * assert (z = ppx) as -> by congruence.
        eapply reaches_step; [by eapply vget_vset_eq | |].
        -- intros ->.
           eapply (reaches_no_2cycle parent k2 x px s); done.
        -- eapply reaches_mono; [apply (IH k2); [lia | done] | lia].
    + eapply reaches_step; [|done|].
      * by rewrite (vget_vset_ne _ _ _ _ _ Hset).
      * apply IH; [lia | done].
Qed.

(** [Find] returns the root, and the path halving it performs on the way
    keeps the length of [parent], the root of every node, every bound on
    the path lengths, and the set of roots. *)
Lemma Find_spec (fuel : nat) (parent : list Z) (n : nat) (x r : Z) :
  reaches parent n x r → (n ≤ fuel)%nat →
  ∃ parent', Hommel.Find fuel x parent = Done (r, parent') ∧
             vsize parent' = vsize parent ∧
             (∀ k y s, reaches parent k y s → reaches parent' k y s) ∧
             (∀ y, vget parent' y = Done y → vget parent y = Done y).
Proof.
  revert parent n x. induction fuel as [|fuel IH]; intros parent n x H Hn;
    destruct H as [n x Hroot | n1 x px r Hx Hne H1]; simpl.
  - rewrite Hroot. exec_simpl.
    rewrite bool_decide_eq_false_2 by tauto. by exists parent.
  - lia.
  - rewrite Hroot. exec_simpl.
    rewrite bool_decide_eq_false_2 by tauto. by exists parent.
  - rewrite Hx. exec_simpl. rewrite bool_decide_eq_true_2 by done.
    assert (∃ ppx, vget parent px = Done ppx ∧ reaches parent n1 ppx r ∧
                   ppx ≠ x)
      as (ppx & Hpx & Hppx & Hppx_x).
    { destruct H1 as [n1 px Hroot | n2 px z r Hpx Hz H2].
      - exists px. split; [done|]. split; [by apply reaches_root | done].
      - exists z. split; [done|].
        split; [eapply reaches_mono; [done | lia]|].
        intros ->. by eapply (reaches_no_2cycle parent n2 x px r). }
    rewrite Hpx. exec_simpl.
    pose proof (vset_lt parent x ppx (vget_Done_lt _ _ _ Hx)) as Hset.
    rewrite Hset. exec_simpl.
    pose proof (reaches_halve _ _ _ _ _ Hx Hne Hpx Hset) as Hhalve.
    destruct (IH _ n1 ppx (Hhalve _ _ _ Hppx))
      as (parent' & -> & Hsz & Hk & Hroots); [lia|].
    exists parent'. split; [done|]. split_and!.
    + rewrite Hsz. by eapply vsize_vset.
    + intros k y s Hy. by apply Hk, Hhalve.
    + intros y Hy%Hroots. destruct (decide (x = y)) as [->|Hxy].
      * rewrite (vget_vset_eq _ _ _ _ Hset) in Hy. congruence.
      * by rewrite (vget_vset_ne _ _ _ _ _ Hset Hxy) in Hy.
Qed.

Lemma Find_wf (fuel : nat) (parent : list Z) (d : nat) (x : Z) :
  uf_wf parent d → (d ≤ fuel)%nat → 0 ≤ x < vsize parent →
  ∃ r parent', Hommel.Find fuel x parent = Done (r, parent') ∧
               reaches parent d x r ∧
               vsize parent' = vsize parent ∧
               (∀ k y s, reaches parent k y s → reaches parent' k y s) ∧
               uf_wf parent' d.
Proof.
  intros Hwf Hd Hx. destruct (Hwf x Hx) as [r Hr].
  destruct (Find_spec fuel parent d x r Hr Hd)
    as (parent' & Hrun & Hsz & Hk & _).
  exists r, parent'. repeat split; try done.
  intros y Hy. rewrite Hsz in Hy. destruct (Hwf y Hy) as [s Hs].
  exists s. by apply Hk.
Qed.

(** Hanging the root [a] below another root [b]: the nodes of [a] now
    reach [b], one step later; every other node keeps its root. *)
Lemma reaches_link (parent : list Z) (a b : Z) (parent' : list Z) :
  vget parent a = Done a → vget parent b = Done b → a ≠ b →
  vset parent a b = Done parent' →
  ∀ k y s, reaches parent k y s →
           reaches parent' (S k) y (if bool_decide (s = a) then b else s).
Proof.
  intros Ha Hb Hab Hset k y s H.
  induction H as [n x Hx | n x z r Hx Hne _ IH].
  - case_bool_decide as Hxa.
    + subst x. eapply reaches_step; [by eapply vget_vset_eq | done |].
      apply reaches_root. by rewrite (vget_vset_ne _ _ _ _ _ Hset).
    + apply reaches_root. rewrite (vget_vset_ne _ _ _ _ _ Hset); [done|].
      congruence.
  - eapply reaches_step; [|done|done].
    rewrite (vget_vset_ne _ _ _ _ _ Hset); [done|]. congruence.
Qed.

Lemma uf_wf_link (parent : list Z) (d : nat) (a b : Z) (parent' : list Z) :
  uf_wf parent d →
  vget parent a = Done a → vget parent b = Done b → a ≠ b →
  vset parent a b = Done parent' →
  uf_wf parent' (S d).
Proof.
  intros Hwf Ha Hb Hab Hset y Hy.
  rewrite (vsize_vset _ _ _ _ Hset) in Hy. destruct (Hwf y Hy) as [s Hs].
  exists (if bool_decide (s = a) then b else s).
  by apply (reaches_link parent a b parent' Ha Hb Hab Hset).
Qed.

(** ** [UnionBySize] *)

(** What a call on two distinct components does: after the two calls of
    [Find] have left [P2], the root [gone] of the side that is not larger is
    hung below the root [rep] of the other side, [FORESTROOT[rep]] becomes
    the forestroot of the side of [i], and the size stored there becomes
    the sum. *)
Lemma UnionBySize_run (fuel d : nat) (i j : Z)
    (PARENT FORESTROOT SIZE : list Z) (irep jrep iroot jroot si sj : Z) :
  (d ≤ fuel)%nat →
  reaches PARENT d i irep → reaches PARENT d j jrep → irep ≠ jrep →
  vget FORESTROOT irep = Done iroot → vget FORESTROOT jrep = Done jroot →
  vget SIZE iroot = Done si → vget SIZE jroot = Done sj →
  let rep := if bool_decide (si < sj) then jrep else irep in
  let gone := if bool_decide (si < sj) then irep else jrep in
  ∃ P2 PARENT' FORESTROOT' SIZE',
    ARICluster.UnionBySize fuel i j PARENT FORESTROOT SIZE
      = Done (PARENT', FORESTROOT', SIZE') ∧
    vsize P2 = vsize PARENT ∧
    (∀ k y s, reaches PARENT k y s → reaches P2 k y s) ∧
    (∀ y, vget P2 y = Done y → vget PARENT y = Done y) ∧
    vget P2 rep = Done rep ∧ vget P2 gone = Done gone ∧ gone ≠ rep ∧
    vset P2 gone rep = Done PARENT' ∧
    (if bool_decide (si < sj)
     then vset FORESTROOT jrep iroot = Done FORESTROOT'
     else FORESTROOT' = FORESTROOT) ∧
    vset SIZE iroot (si + sj) = Done SIZE'.
Proof.
  intros Hd Hi Hj Hne Hfi Hfj Hsi Hsj. unfold ARICluster.UnionBySize.
  destruct (Find_spec fuel PARENT d i irep Hi Hd)
    as (P1 & -> & Hsz1 & Hk1 & Hroots1).
  exec_simpl.
  destruct (Find_spec fuel P1 d j jrep (Hk1 _ _ _ Hj) Hd)
    as (P2 & -> & Hsz2 & Hk2 & Hroots2).
  exec_simpl. rewrite bool_decide_eq_false_2 by done.
  rewrite Hfi, Hfj. exec_simpl. rewrite Hsi, Hsj. exec_simpl.
  pose proof (reaches_is_root _ _ _ _ (Hk2 _ _ _ (Hk1 _ _ _ Hi))) as Hri.
  pose proof (reaches_is_root _ _ _ _ (Hk2 _ _ _ (Hk1 _ _ _ Hj))) as Hrj.
  pose proof (vset_lt SIZE iroot (si + sj) (vget_Done_lt _ _ _ Hsi)) as HS.
  assert (vsize P2 = vsize PARENT) as Hsz by congruence.
  assert (∀ k y s, reaches PARENT k y s → reaches P2 k y s) as Hk
    by (intros; by apply Hk2, Hk1).
  assert (∀ y, vget P2 y = Done y → vget PARENT y = Done y) as Hroots
    by (intros; by apply Hroots1, Hroots2).
  case_bool_decide as Hlt.
  - pose proof (vset_lt P2 irep jrep (vget_Done_lt _ _ _ Hri)) as HP.
    pose proof (vset_lt FORESTROOT jrep iroot (vget_Done_lt _ _ _ Hfj)) as HF.
    rewrite HP. exec_simpl. rewrite HF. exec_simpl.
    rewrite ?Hsi, ?Hsj. exec_simpl. rewrite HS. exec_simpl.
    eexists P2, _, _, _. split; [done|]. split_and!; done.
  - pose proof (vset_lt P2 jrep irep (vget_Done_lt _ _ _ Hrj)) as HP.
    rewrite HP. exec_simpl.
    rewrite ?Hsi, ?Hsj. exec_simpl. rewrite HS. exec_simpl.
    eexists P2, _, _, _. split; [done|]. split_and!; done.
Qed.

(** C10, as amended: [UnionBySize(i, j)] on two distinct components
    merges them; the representative of the union is that of the side
    whose size, stored at its forestroot, is larger (the side of [i] on
    a tie), while its forestroot is always the forestroot of the side of
    [i], whose stored size becomes the sum of the two. *)
Theorem UnionBySize_keeps_forestroot_of_i (fuel d : nat) (i j : Z)
    (PARENT FORESTROOT SIZE : list Z) (irep jrep iroot jroot si sj : Z) :
  (d ≤ fuel)%nat →
  reaches PARENT d i irep → reaches PARENT d j jrep → irep ≠ jrep →
  vget FORESTROOT irep = Done iroot → vget FORESTROOT jrep = Done jroot →
  vget SIZE iroot = Done si → vget SIZE jroot = Done sj →
  ∃ PARENT' FORESTROOT' SIZE',
    ARICluster.UnionBySize fuel i j PARENT FORESTROOT SIZE
      = Done (PARENT', FORESTROOT', SIZE') ∧
    let rep := if bool_decide (si < sj) then jrep else irep in
    (∀ y r, reaches PARENT d y r →
            reaches PARENT' (S d) y
              (if bool_decide (r = irep ∨ r = jrep) then rep else r)) ∧
    vget FORESTROOT' rep = Done iroot ∧
    vget SIZE' iroot = Done (si + sj).
Proof.
  intros Hd Hi Hj Hne Hfi Hfj Hsi Hsj.
  destruct (UnionBySize_run fuel d i j PARENT FORESTROOT SIZE irep jrep
              iroot jroot si sj Hd Hi Hj Hne Hfi Hfj Hsi Hsj)
    as (P2 & P' & F' & S' & Hrun & _ & Hk & _ & Hrep & Hgone & Hgr & HP
        & HF & HS).
  exists P', F', S'. split; [done|]. split_and!.
  - intros y r Hy.
    pose proof (reaches_link P2 _ _ _ Hgone Hrep Hgr HP d y r (Hk _ _ _ Hy))
      as Hl.
    destruct (bool_decide (si < sj));
      destruct (decide (r = irep)) as [E1|N1];
      destruct (decide (r = jrep)) as [E2|N2];
      rewrite ?bool_decide_eq_true_2, ?bool_decide_eq_false_2 in Hl by done;
      rewrite ?bool_decide_eq_true_2, ?bool_decide_eq_false_2 by tauto;
      congruence.
  - destruct (bool_decide (si < sj)).
    + by eapply vget_vset_eq.
    + by subst F'.
  - by eapply vget_vset_eq.
Qed.

Lemma UnionBySize_keeps_forestroot_of_i_witness :
  ∃ PARENT' FORESTROOT' SIZE',
    ARICluster.UnionBySize 1 0 2 [0; 2; 2] [0; 1; 2] [1; 1; 2]
      = Done (PARENT', FORESTROOT', SIZE') ∧
    let rep := if bool_decide (1 < 2) then 2 else 0 in
    (∀ y r, reaches [0; 2; 2] 1 y r →
            reaches PARENT' 2 y
              (if bool_decide (r = 0 ∨ r = 2) then rep else r)) ∧
    vget FORESTROOT' rep = Done 0 ∧
    vget SIZE' 0 = Done (1 + 2).
Proof.
  apply (UnionBySize_keeps_forestroot_of_i 1 1 0 2 [0; 2; 2] [0; 1; 2]
           [1; 1; 2] 0 2 0 2 1 2).
  - lia.
  - apply reaches_root. reflexivity.
  - apply reaches_root. reflexivity.
  - lia.
  - reflexivity.
  - reflexivity.
  - reflexivity.
  - reflexivity.
Defined.

(** C10 as stated fails.  In the state reached after node [2] has
    absorbed node [1], the set of [0] has size 1 and the set of [2] has
    size 2; [UnionBySize(0, 2)] leaves the union with forestroot [0],
    that of the smaller side, where the claim promises [2]. *)
Lemma UnionBySize_forestroot_not_of_larger_side :
  forestroot_after_union 2 0 2 [0; 2; 2] [0; 1; 2] [1; 1; 2] = Done 0 ∧
  forestroot_of_larger_side 2 0 2 [0; 2; 2] [0; 1; 2] [1; 1; 2] = Done 2.
Proof. split; reflexivity. Qed.

(** ** [heavyPathTDP]: the reads of [NUM] and of [P] *)

Lemma push_children_vsize (rchd : list Z) (top : Z) (DESC : list Z)
    (top' : Z) (DESC' : list Z) :
  ARICluster.push_children rchd top DESC = Done (top', DESC') →
  vsize DESC' = vsize DESC.
Proof.
  revert top DESC. induction rchd as [|c rchd IH]; intros top DESC Hrun;
    simpl in Hrun.
  - by injection Hrun as _ <-.
  - bind_inv Hrun as D1 Hset. rewrite (IH _ _ Hrun). by eapply vsize_vset.
Qed.

Lemma descendants_loop_vsize (fuel : nat) (CHILD : list (list Z))
    (len top : Z) (DESC DESC' : list Z) :
  ARICluster.descendants_loop fuel CHILD len top DESC = Done DESC' →
  vsize DESC' = vsize DESC.
Proof.
  revert len top DESC. induction fuel as [|fuel IH]; intros len top DESC;
    simpl; case_bool_decide; try done; try by intros [= <-].
  intros Hrun. bind_inv Hrun as v Hv. case_bool_decide.
  - bind_inv Hrun as D1 Hset. rewrite (IH _ _ _ Hrun). by eapply vsize_vset.
  - bind_inv Hrun as D1 Hset. bind_inv Hrun as CHD HCHD.
    bind_inv Hrun as [top' D2] Hpush.
    rewrite (IH _ _ _ Hrun), (push_children_vsize _ _ _ _ _ Hpush).
    by eapply vsize_vset.
Qed.

(** The vector returned by [descendants(v, ...)] has [SIZE[v]] entries. *)
Lemma descendants_vsize (v : Z) (SIZE : list Z) (CHILD : list (list Z))
    (DESC : list Z) :
  ARICluster.descendants v SIZE CHILD = Done DESC →
  vget SIZE v = Done (vsize DESC).
Proof.
  unfold ARICluster.descendants. intros Hrun.
  bind_inv Hrun as sv Hsv. bind_inv Hrun as D0 Hmake.
  bind_inv Hrun as D1 Hset.
  rewrite (descendants_loop_vsize _ _ _ _ _ _ Hrun).
  rewrite (vsize_vset _ _ _ _ Hset), (vsize_vmake _ _ _ Hmake). done.
Qed.

Lemma disc_step_vsize (fuel : nat) (cats : list Z) (maxcat i : Z)
    (parent lowest rank disc parent' lowest' rank' disc' : list Z) :
  Hommel.disc_step fuel cats maxcat i (parent, lowest, rank, disc)
    = Done (parent', lowest', rank', disc') →
  vsize disc' = vsize disc.
Proof.
  unfold Hommel.disc_step. intros Hrun. bind_inv Hrun as c Hc.
  case_bool_decide.
  - bind_inv Hrun as [r P1] HF. bind_inv Hrun as low Hlow.
    case_bool_decide.
    + bind_inv Hrun as d Hd. bind_inv Hrun as D Hset.
      injection Hrun as <- <- <- <-. by eapply vsize_vset.
    + bind_inv Hrun as d Hd. bind_inv Hrun as D Hset.
      bind_inv Hrun as [r' P2] HF'. bind_inv Hrun as [[P3 L3] R3] HU.
      injection Hrun as <- <- <- <-. by eapply vsize_vset.
  - bind_inv Hrun as d Hd. bind_inv Hrun as D Hset.
    injection Hrun as <- <- <- <-. by eapply vsize_vset.
Qed.

(** The vector returned by [findDiscoveries] has [k] entries. *)
Lemma findDiscoveries_vsize (fuel : nat) (idx : list Z) (allp : list Q)
    (simesfactor : Q) (h : Z) (alpha : Q) (k m : Z) (disc : list Z) :
  Hommel.findDiscoveries fuel idx allp simesfactor h alpha k m = Done disc →
  vsize disc = k.
Proof.
  unfold Hommel.findDiscoveries. intros Hrun.
  bind_inv Hrun as cats Hcats. bind_inv Hrun as z Hz.
  bind_inv Hrun as maxcatI HmaxcatI.
  bind_inv Hrun as parent Hparent. bind_inv Hrun as lowest Hlowest.
  bind_inv Hrun as rank Hrank. bind_inv Hrun as [parent' lowest'] Hinit.
  bind_inv Hrun as disc0 Hdisc0.
  bind_inv Hrun as [[[P1 L1] R1] D1] Hloop. injection Hrun as <-.
  pose proof (for_up_Done_inv (λ _ st, vsize st.2 = k) _ _ _ _ _ Hloop)
    as Hinv.
  apply Hinv.
  - simpl. by eapply vsize_vmake.
  - intros j [[[P2 L2] R2] D2] [[[P3 L3] R3] D3] _ Hsz Hstep. simpl in *.
    rewrite <- Hsz. by eapply disc_step_vsize.
Qed.

(** Started at a forest root ([par = -1]), [heavyPathTDP] never runs to
    completion: its first read [NUM[SIZE[v]]] lies one past the end of
    [NUM], which has [SIZE[v]] entries. *)
Lemma heavyPathTDP_root_not_Done (fuel : nat) (v m h : Z) (alpha simesh : Q)
    (P : list Q) (SIZE : list Z) (CHILD : list (list Z)) (TDP TDP' : list Q) :
  ARICluster.heavyPathTDP fuel v (-1) m h alpha simesh P SIZE CHILD TDP
    ≠ Done TDP'.
Proof.
  unfold ARICluster.heavyPathTDP. intros Hrun.
  bind_inv Hrun as HP HHP. bind_inv Hrun as NUM HNUM.
  apply descendants_vsize in HHP. apply findDiscoveries_vsize in HNUM.
  cbn [ARICluster.heavy_walk] in Hrun.
  rewrite bool_decide_eq_true_2 in Hrun by done.
  exec_simpl in Hrun. rewrite HHP in Hrun. exec_simpl in Hrun.
  rewrite (vget_ge NUM (vsize HP)) in Hrun;
    [exec_simpl in Hrun; discriminate|].
  rewrite HNUM. unfold vsize. rewrite length_fmap. lia.
Qed.

(** C4 (the code departs from the claim).  Two voxels, each a root of
    its own: the forest is [SIZE = [1; 1]], [CHILD = [[]; []]].
    - At root [0], [findDiscoveries] returns a vector [NUM] of length 1
      and [heavyPathTDP] then reads [NUM[SIZE[0]] = NUM[1]]: a fault.
    - At root [1], the id list handed to [findDiscoveries] is [[2]], and
      its read [allp[idx[0]] = allp[2]] is a fault already. *)
Theorem heavyPathTDP_reads_out_of_bounds :
  let P := [(1 # 1000)%Q; (1 # 1000)%Q] in
  let SIZE := [1; 1] in
  let CHILD : list (list Z) := [[]; []] in
  ARICluster.descendants 0 SIZE CHILD = Done [0] ∧
  Hommel.findDiscoveries 1 [1] P 1 1 (5 # 100) 1 2 = Done [0] ∧
  vget [0] 1 = Fault ∧
  ARICluster.heavyPathTDP 1 0 (-1) 2 1 (5 # 100) 1 P SIZE CHILD [0%Q; 0%Q]
    = Fault ∧
  ARICluster.descendants 1 SIZE CHILD = Done [1] ∧
  vget P 2 = Fault ∧
  Hommel.findDiscoveries 1 [2] P 1 1 (5 # 100) 1 2 = Fault ∧
  ARICluster.heavyPathTDP 1 1 (-1) 2 1 (5 # 100) 1 P SIZE CHILD [0%Q; 0%Q]
    = Fault ∧
  ARICluster.forestTDP 1 2 1 (5 # 100) 1 P SIZE [0; 1] CHILD = Fault.
Proof. repeat split; vm_compute; reflexivity. Qed.

(** C1 (the code departs from the claim).  Five voxels with sorted
    p-values [P]; node [4] has the children [1] and [3], node [3] has the
    child [2] and the p-value of node [4].  On the heavy path that starts
    at [3], the claim assigns node [2] the TDP [disc[0] / 1 = 1], where
    [disc = [1; 1]] is computed on the descendants [[2; 3]].  The code
    computes [NUM = [0; 0]] on the shifted ids [[3; 4]] and stores
    [NUM[1] / 1 = 0]. *)
Theorem heavyPathTDP_off_by_one :
  let P := [(1 # 1000)%Q; (1 # 1000)%Q; (1 # 1000)%Q; (9 # 10)%Q; (9 # 10)%Q] in
  let SIZE := [1; 2; 1; 2; 5] in
  let CHILD := [[]; [0]; []; [2]; [1; 3]] in
  let TDP0 := [0%Q; 0%Q; 0%Q; 0%Q; 0%Q] in
  ZeroBased.findClusters 2 5 [[1]; [0; 4]; [3]; [2; 4]; [1; 3]]
     [0; 1; 2; 3; 4] [0; 1; 2; 3; 4] = Done (ARICluster.Forest SIZE [4] CHILD) ∧
  ARICluster.descendants 3 SIZE CHILD = Done [2; 3] ∧
  Hommel.findDiscoveries 2 [2; 3] P 1 1 (5 # 100) 2 5 = Done [1; 1] ∧
  tdp_on_heavy_path 2 3 2 3 5 1 (5 # 100) 1 P SIZE CHILD = Done 1%Q ∧
  Hommel.findDiscoveries 2 [3; 4] P 1 1 (5 # 100) 2 5 = Done [0; 0] ∧
  ARICluster.heavyPathTDP 2 3 4 5 1 (5 # 100) 1 P SIZE CHILD TDP0
    = Done [0%Q; 0%Q; (0 / 1)%Q; (-1)%Q; 0%Q] ∧
  ARICluster.forestTDP 2 5 1 (5 # 100) 1 P SIZE [4] CHILD = Fault.
Proof. repeat split; vm_compute; reflexivity. Qed.

(** ** [changeQuery]: the grow branch *)

(** An exception leaves [MARK] as it was: every [throw] precedes the
    first write to [MARK]. *)
Lemma changeQuery_Thrown_keeps_MARK (v : Z) (tdpchg : Q)
    (ADMSTC SIZE MARK : list Z) (TDP : list Q) (CHILD ANS : list (list Z))
    (e : ARICluster.invalid_argument) (MARK' : list Z) :
  ARICluster.changeQuery v tdpchg ADMSTC SIZE MARK TDP CHILD ANS
    = Done (ARICluster.Thrown e, MARK') →
  MARK' = MARK.
Proof.
  unfold ARICluster.changeQuery. intros Hrun.
  case_bool_decide; [by injection Hrun as _ <-|].
  bind_inv Hrun as iclus Hiclus.
  case_bool_decide; [by injection Hrun as _ <-|].
  bind_inv Hrun as CLUS HCLUS. bind_inv Hrun as rep Hrep.
  bind_inv Hrun as idxv Hidxv.
  case_bool_decide; [by injection Hrun as _ <-|].
  destruct (_ || _ || _); [by injection Hrun as _ <-|].
  bind_inv Hrun as amax Hamax. bind_inv Hrun as maxtdp Hmaxtdp.
  bind_inv Hrun as amin Hamin. bind_inv Hrun as mintdp Hmintdp.
  bind_inv Hrun as curtdp Hcurtdp.
  destruct (_ && _ || _ && _); [by injection Hrun as _ <-|].
  destruct (Qltb tdpchg 0 && _); [by injection Hrun as _ <-|].
  destruct (Qgtb tdpchg 0 && _); [by injection Hrun as _ <-|].
  bind_inv Hrun as MARK1 HMARK1.
  destruct (Qltb tdpchg 0).
  - bind_inv Hrun as grown Hgrown. destruct grown as [[CHG MARK2]|].
    + discriminate Hrun.
    + bind_inv Hrun as MARK2 HMARK2. discriminate Hrun.
  - bind_inv Hrun as [CHG MARK2] Hshrink. bind_inv Hrun as CHG' Hcarry.
    bind_inv Hrun as MARK3 HMARK3. discriminate Hrun.
Qed.

(** C6 (the code departs from the claim).  Node [0] has the child [1],
    node [2] stands alone; [answerQuery(3/4)] answers [[[1]; [2]]] and
    leaves [MARK] zero.  Growing the cluster of [1] by [-1/2] selects
    [DESC = [1; 0]], marks [1] with 1 and the other cluster [[2]] with 2,
    and then runs [while (r - l >= CL.size() - 1)] with [CL.size() - 1]
    the unsigned zero: the test cannot fail, [l] walks past the end of
    [DESC], and the call faults with the marks [[0; 1; 2]] still set. *)
Theorem changeQuery_grow_faults_with_marks_set :
  let ADMSTC := [0; 1; 2] in
  let SIZE := [2; 1; 1] in
  let CHILD := [[1]; []; []] in
  let TDP := [(1 # 2)%Q; 1%Q; 1%Q] in
  ARICluster.answerQuery (3 # 4) ADMSTC SIZE [0; 0; 0] TDP CHILD
    = Done ([[1]; [2]], [0; 0; 0]) ∧
  ARICluster.set_marks [1] 1 [0; 0; 0] = Done [0; 1; 0] ∧
  ARICluster.descendants 0 SIZE CHILD = Done [1; 0] ∧
  ARICluster.set_marks [2] 2 [0; 1; 0] = Done [0; 1; 2] ∧
  (∀ fuel, ARICluster.contains_loop (3 + fuel) [0; 1; 2] [1; 0] 1 0 1 1
           = Fault) ∧
  ARICluster.changeQuery 1 (- (1 # 2)) ADMSTC SIZE [0; 0; 0] TDP CHILD
    [[1]; [2]] = Fault.
Proof.
  repeat split; vm_compute; reflexivity.
Qed.

(** C7 (the code departs from the claim).  On the same engine state the
    request [changeQuery(1, -1/2)] meets none of the conditions for an
    error: [-1/2] lies in [(-1, 1)] and is not zero, voxel [1] lies in
    cluster [0] of [ANS], whose representative is found in [ADMSTC], and
    [mintdp - curtdp = -1/2] does not exceed the request.  Yet no cluster
    list is returned: the call faults. *)
Theorem changeQuery_valid_request_faults :
  let ADMSTC := [0; 1; 2] in
  let SIZE := [2; 1; 1] in
  let CHILD := [[1]; []; []] in
  let TDP := [(1 # 2)%Q; 1%Q; 1%Q] in
  let ANS := [[1]; [2]] in
  let tdpchg := (- (1 # 2))%Q in
  ARICluster.queryPreparation 3 [0; 2] TDP CHILD ADMSTC ∧
  (-1 < tdpchg)%Q ∧ (tdpchg < 1)%Q ∧ ¬ (tdpchg == 0)%Q ∧
  ARICluster.findRep 1 SIZE ANS = Done 0 ∧
  ARICluster.findIndex 1 ADMSTC TDP = Done 1 ∧
  ((1 # 2) - 1 <= tdpchg)%Q ∧
  ARICluster.changeQuery 1 tdpchg ADMSTC SIZE [0; 0; 0] TDP CHILD ANS
    = Fault.
Proof.
  repeat split; try (vm_compute; reflexivity); try discriminate.
  exists [0; 1; 2]. split; [reflexivity|]. split; [done|].
  intros i j a b ta tb Hij Hi Hj Ha Hb.
  destruct i as [|[|[|i]]]; destruct j as [|[|[|j]]]; simpl in *;
    try lia; try discriminate;
    injection Hi as <-; injection Hj as <-;
    injection Ha as <-; injection Hb as <-; discriminate.
Qed.

(** ** [findDiscoveries] *)

Lemma getCategory_nonneg (p simesfactor alpha : Q) (m : Z) :
  (0 <= p)%Q → (0 <= simesfactor)%Q → (0 < alpha)%Q →
  0 ≤ Hommel.getCategory p simesfactor alpha m.
Proof.
  intros Hp Hsf Halpha. unfold Hommel.getCategory.
  destruct (Qeq_bool p 0) eqn:Ep; [done|].
  destruct (Qeq_bool simesfactor 0) eqn:Esf; [done|]. simpl.
  destruct (Qeq_bool alpha 0) eqn:Ealpha.
  { apply Qeq_bool_iff in Ealpha. rewrite Ealpha in Halpha.
    by apply Qlt_irrefl in Halpha. }
  apply Qeq_bool_neq in Ep, Esf.
  assert (0 < p)%Q as Hp'.
  { apply Qle_lteq in Hp as [?|Heq]; [done|]. by symmetry in Heq. }
  assert (0 < simesfactor)%Q as Hsf'.
  { apply Qle_lteq in Hsf as [?|Heq]; [done|]. by symmetry in Heq. }
  assert (0 < simesfactor / alpha * p)%Q as Hcat.
  { apply Qmult_lt_0_compat; [|done].
    apply Qmult_lt_0_compat; [done|]. by apply Qinv_lt_0_compat. }
  pose proof (Qle_ceiling (simesfactor / alpha * p)) as Hceil.
  assert (inject_Z 0 < inject_Z (Qceiling (simesfactor / alpha * p)))%Q
    as Hlt by (eapply Qlt_le_trans; done).
  rewrite <- Zlt_Qlt in Hlt. lia.
Qed.

Lemma uf_wf_mono (parent : list Z) (d d' : nat) :
  uf_wf parent d → (d ≤ d')%nat → uf_wf parent d'.
Proof.
  intros Hwf Hd y Hy. destruct (Hwf y Hy) as [r Hr].
  exists r. by eapply reaches_mono.
Qed.

(** [findConcentration] completes, and its result is not below its
    starting value [m - h - 1]. *)
Lemma findConcentration_loop_Done (fuel : nat) (p : list Q) (simesfactor : Q)
    (h : Z) (alpha : Q) (m z : Z) :
  vsize p = m → 0 ≤ z → (Z.to_nat (m - 1 - z) ≤ fuel)%nat →
  ∃ z', Hommel.findConcentration_loop fuel p simesfactor h alpha m z
          = Done z' ∧ z ≤ z'.
Proof.
  intros Hp. revert z. induction fuel as [|fuel IH]; intros z Hz Hfuel; simpl.
  - rewrite bool_decide_eq_false_2 by lia. exists z. split; [done | lia].
  - case_bool_decide as Hlt; [|exists z; split; [done | lia]].
    destruct (vget_lt p z) as [pz ->]; [lia|]. exec_simpl.
    destruct (Qgtb _ _); [|exists z; split; [done | lia]].
    destruct (IH (z + 1)) as (z' & -> & Hz'); [lia | lia |].
    exists z'. split; [done | lia].
Qed.

Lemma findConcentration_Done (p : list Q) (simesfactor : Q) (h : Z)
    (alpha : Q) (m : Z) :
  vsize p = m →
  ∃ z, Hommel.findConcentration p simesfactor h alpha m = Done z ∧
       m - h - 1 ≤ z.
Proof.
  intros Hp. unfold Hommel.findConcentration.
  case_bool_decide as Hz; [|exists (m - h - 1); split; [done | lia]].
  apply findConcentration_loop_Done; [done | lia | lia].
Qed.

Lemma maxcatI_loop_Done (n : nat) (cats : list Z) (maxcat maxcatI : Z) :
  (n ≤ length cats)%nat → 0 ≤ maxcatI →
  ∃ c, Hommel.maxcatI_loop n cats maxcat maxcatI = Done c ∧ 0 ≤ c.
Proof.
  revert maxcatI. induction n as [|n IH]; intros maxcatI Hn Hm; simpl.
  - by exists maxcatI.
  - destruct (vget_lt cats (Z.of_nat n)) as [c ->]; [unfold vsize; lia|].
    exec_simpl. case_bool_decide as Hc; [|apply IH; lia].
    case_bool_decide; [|apply IH; lia].
    exists c. split; [done | lia].
Qed.

Lemma dsu_ok_Find (fuel : nat) (n : Z) (d : nat) (x : Z)
    (parent lowest rank : list Z) :
  dsu_ok n d parent lowest rank → (d ≤ fuel)%nat → 0 ≤ x < n →
  ∃ r parent', Hommel.Find fuel x parent = Done (r, parent') ∧
               0 ≤ r < n ∧ vget parent' r = Done r ∧
               (∀ y, vget parent y = Done y → vget parent' y = Done y) ∧
               dsu_ok n d parent' lowest rank.
Proof.
  intros (Hp & Hl & Hr & Hwf & Hlow) Hd Hx.
  destruct (Find_wf fuel parent d x Hwf Hd) as (r & parent' & Hrun & Hreach
    & Hsz & Hk & Hwf'); [lia|].
  exists r, parent'. split; [done|].
  pose proof (reaches_is_root _ _ _ _ (Hk _ _ _ Hreach)) as Hroot.
  split_and!; try done.
  - apply vget_Done_lt in Hroot. lia.
  - apply vget_Done_lt in Hroot. lia.
  - intros y Hy. eapply (reaches_is_root _ 0 y), Hk. by apply reaches_root.
  - unfold dsu_ok. split_and!; try done. lia.
Qed.

Lemma dsu_ok_Union (fuel : nat) (n : Z) (d : nat) (x y : Z)
    (parent lowest rank : list Z) :
  dsu_ok n d parent lowest rank → (d ≤ fuel)%nat →
  0 ≤ x < n → 0 ≤ y < n →
  ∃ parent' lowest' rank',
    Hommel.Union fuel x y parent lowest rank = Done (parent', lowest', rank') ∧
    dsu_ok n (S d) parent' lowest' rank'.
Proof.
  intros Hok Hd Hx Hy. unfold Hommel.Union.
  destruct (dsu_ok_Find fuel n d x _ _ _ Hok Hd Hx)
    as (xRoot & P1 & -> & HxR & HxRoot & _ & Hok1).
  exec_simpl.
  destruct (dsu_ok_Find fuel n d y _ _ _ Hok1 Hd Hy)
    as (yRoot & P2 & -> & HyR & HyRoot & Hkeep & Hok2).
  exec_simpl. clear Hok Hok1. apply Hkeep in HxRoot. clear Hkeep.
  destruct Hok2 as (Hp & Hl & Hr & Hwf & Hlow).
  case_bool_decide as Heq.
  { eexists _, _, _. split; [done|]. split_and!; try done.
    eapply uf_wf_mono; [done | lia]. }
  destruct (vget_lt rank xRoot) as [rx ->]; [lia|].
  destruct (vget_lt rank yRoot) as [ry ->]; [lia|]. exec_simpl.
  destruct (vget_lt lowest xRoot) as [lx Hlx]; [lia|].
  destruct (vget_lt lowest yRoot) as [ly Hly]; [lia|].
  pose proof (Hlow _ _ Hlx) as Hlx'. pose proof (Hlow _ _ Hly) as Hly'.
  assert (∀ r lowest', vset lowest r (Z.min lx ly) = Done lowest' →
            ∀ z l, vget lowest' z = Done l → 0 ≤ l < n) as Hlow'.
  { intros r lowest' Hset z l Hz. destruct (decide (r = z)) as [->|Hne].
    - rewrite (vget_vset_eq _ _ _ _ Hset) in Hz. injection Hz as <-. lia.
    - rewrite (vget_vset_ne _ _ _ _ _ Hset Hne) in Hz. by eapply Hlow. }
  assert (yRoot ≠ xRoot) as Heq' by congruence.
  case_bool_decide as Hlt; [|case_bool_decide as Hgt].
  - pose proof (vset_lt P2 xRoot yRoot ltac:(lia)) as HP. rewrite HP.
    exec_simpl. rewrite Hlx, Hly. exec_simpl.
    pose proof (vset_lt lowest yRoot (Z.min lx ly) ltac:(lia)) as HL.
    rewrite HL. exec_simpl.
    eexists _, _, _. split; [done|]. unfold dsu_ok.
    rewrite (vsize_vset _ _ _ _ HP), (vsize_vset _ _ _ _ HL).
    split_and!; try done.
    + apply (uf_wf_link P2 d xRoot yRoot _ Hwf HxRoot HyRoot Heq HP).
    + by eapply Hlow'.
  - pose proof (vset_lt P2 yRoot xRoot ltac:(lia)) as HP. rewrite HP.
    exec_simpl. rewrite Hlx, Hly. exec_simpl.
    pose proof (vset_lt lowest xRoot (Z.min lx ly) ltac:(lia)) as HL.
    rewrite HL. exec_simpl.
    eexists _, _, _. split; [done|]. unfold dsu_ok.
    rewrite (vsize_vset _ _ _ _ HP), (vsize_vset _ _ _ _ HL).
    split_and!; try done.
    + apply (uf_wf_link P2 d yRoot xRoot _ Hwf HyRoot HxRoot Heq' HP).
    + by eapply Hlow'.
  - pose proof (vset_lt P2 yRoot xRoot ltac:(lia)) as HP. rewrite HP.
    exec_simpl.
    pose proof (vset_lt rank xRoot (rx + 1) ltac:(lia)) as HR. rewrite HR.
    exec_simpl. rewrite Hlx, Hly. exec_simpl.
    pose proof (vset_lt lowest xRoot (Z.min lx ly) ltac:(lia)) as HL.
    rewrite HL. exec_simpl.
    eexists _, _, _. split; [done|]. unfold dsu_ok.
    rewrite (vsize_vset _ _ _ _ HP), (vsize_vset _ _ _ _ HL),
      (vsize_vset _ _ _ _ HR).
    split_and!; try done.
    + apply (uf_wf_link P2 d yRoot xRoot _ Hwf HyRoot HxRoot Heq' HP).
    + by eapply Hlow'.
Qed.

Lemma cats_loop_Done (idx : list Z) (allp : list Q) (simesfactor alpha : Q)
    (m k : Z) :
  vsize idx = k → Forall (λ x, 0 ≤ x < m) idx →
  vsize allp = m → Forall (λ x, 0 <= x)%Q allp →
  (0 <= simesfactor)%Q → (0 < alpha)%Q →
  ∃ cats,
    for_up (Z.to_nat k) 0 (Hommel.cats_step idx allp simesfactor alpha m) []
      = Done cats ∧
    vsize cats = k ∧ Forall (λ c, 0 ≤ c) cats.
Proof.
  intros Hidx Hrange Hallp Hpos Hsf Halpha.
  destruct (for_up_inv (λ j cats, vsize cats = j ∧ Forall (λ c, 0 ≤ c) cats)
              (Z.to_nat k) 0
              (Hommel.cats_step idx allp simesfactor alpha m) [])
    as (cats & Hrun & Hsz & Hcats).
  - done.
  - intros j cats Hj [Hsz Hcats]. unfold Hommel.cats_step.
    destruct (vget_lt idx j) as [id Hid]; [unfold vsize in *; lia|].
    rewrite Hid. exec_simpl.
    assert (0 ≤ id < m) as Hid'.
    { apply vget_Done in Hid as [_ Hid].
      by eapply (Forall_lookup_1 _ _ _ _ Hrange). }
    destruct (vget_lt allp id) as [pv Hpv]; [lia|]. rewrite Hpv. exec_simpl.
    eexists. split; [done|]. split.
    + rewrite vsize_app. unfold vsize at 2. simpl. lia.
    + apply Forall_app. split; [done|]. apply Forall_singleton.
      apply getCategory_nonneg; [|done..].
      apply vget_Done in Hpv as [_ Hpv].
      by eapply (Forall_lookup_1 _ _ _ _ Hpos).
  - exists cats. split; [done|]. split; [|done].
    unfold vsize in *. lia.
Qed.

Lemma init_loop_Done (n : Z) :
  0 ≤ n →
  ∃ parent lowest,
    for_up (Z.to_nat n) 0 Hommel.init_step
      (replicate (Z.to_nat n) 0, replicate (Z.to_nat n) 0)
      = Done (parent, lowest) ∧
    dsu_ok n 0 parent lowest (replicate (Z.to_nat n) 0).
Proof.
  intros Hn.
  destruct (for_up_inv
    (λ j st, vsize st.1 = n ∧ vsize st.2 = n ∧
             (∀ x, 0 ≤ x < j → vget st.1 x = Done x) ∧
             (∀ x l, vget st.2 x = Done l → 0 ≤ l < n))
    (Z.to_nat n) 0 Hommel.init_step
    (replicate (Z.to_nat n) 0, replicate (Z.to_nat n) 0))
    as ([parent lowest] & Hrun & Hp & Hl & Hroots & Hlow).
  - simpl. unfold vsize. rewrite length_replicate.
    split_and!; try lia.
    intros x l [Hx Hl]%vget_Done. apply lookup_replicate in Hl as [-> Hlt].
    lia.
  - intros j [parent lowest] Hj (Hp & Hl & Hroots & Hlow). simpl in *.
    pose proof (vset_lt parent j j ltac:(lia)) as HP.
    pose proof (vset_lt lowest j j ltac:(lia)) as HL.
    rewrite HP. exec_simpl. rewrite HL. exec_simpl.
    eexists. split; [done|]. simpl.
    rewrite (vsize_vset _ _ _ _ HP), (vsize_vset _ _ _ _ HL).
    split_and!; try done.
    + intros x Hx. destruct (decide (j = x)) as [->|Hne].
      * by eapply vget_vset_eq.
      * rewrite (vget_vset_ne _ _ _ _ _ HP Hne). apply Hroots. lia.
    + intros x l Hx. destruct (decide (j = x)) as [->|Hne].
      * rewrite (vget_vset_eq _ _ _ _ HL) in Hx. injection Hx as <-. lia.
      * rewrite (vget_vset_ne _ _ _ _ _ HL Hne) in Hx. by eapply Hlow.
  - exists parent, lowest. split; [done|]. simpl in *.
    unfold dsu_ok. split_and!; try done.
    + unfold vsize. rewrite length_replicate. lia.
    + intros y Hy. exists y. apply reaches_root. apply Hroots. lia.
Qed.

Lemma store_disc (disc : list Z) (j k first step : Z) :
  0 ≤ j < k → vsize disc = k → unit_steps disc j →
  first = 0 ∨ first = 1 → step = 0 ∨ step = 1 →
  ∃ d disc', Hommel.next_disc disc j first step = Done d ∧
             vset disc j d = Done disc' ∧
             vsize disc' = k ∧ unit_steps disc' (j + 1).
Proof.
  intros Hj Hsz [Hfirst Hsteps] H1 H2. unfold Hommel.next_disc.
  case_bool_decide as Hj0.
  - subst j. pose proof (vset_lt disc 0 first ltac:(lia)) as Hset.
    eexists first, _. split; [done|]. split; [done|].
    rewrite (vsize_vset _ _ _ _ Hset). split; [done|]. split.
    + intros _. rewrite (vget_vset_eq _ _ _ _ Hset).
      destruct H1 as [-> | ->]; auto.
    + intros i a b Hi. lia.
  - destruct (vget_lt disc (j - 1)) as [a Ha]; [lia|]. rewrite Ha.
    exec_simpl.
    pose proof (vset_lt disc j (a + step) ltac:(lia)) as Hset.
    eexists (a + step), _. split; [done|]. split; [done|].
    rewrite (vsize_vset _ _ _ _ Hset). split; [done|]. split.
    + intros _. rewrite (vget_vset_ne _ _ _ _ _ Hset) by lia.
      apply Hfirst. lia.
    + intros i a' b Hi.
      rewrite (vget_vset_ne _ _ _ _ _ Hset) by lia.
      destruct (decide (i = j)) as [->|Hne].
      * rewrite (vget_vset_eq _ _ _ _ Hset), Ha.
        intros [= <-] [= <-]. lia.
      * rewrite (vget_vset_ne _ _ _ _ _ Hset) by lia.
        apply Hsteps. lia.
Qed.

Lemma disc_step_Done (fuel : nat) (cats : list Z) (maxcat k j : Z)
    (parent lowest rank disc : list Z) :
  0 ≤ j < k → (Z.to_nat j ≤ fuel)%nat →
  vsize cats = k → Forall (λ c, 0 ≤ c) cats →
  dsu_ok (maxcat + 1) (Z.to_nat j) parent lowest rank →
  vsize disc = k → unit_steps disc j →
  ∃ parent' lowest' rank' disc',
    Hommel.disc_step fuel cats maxcat j (parent, lowest, rank, disc)
      = Done (parent', lowest', rank', disc') ∧
    dsu_ok (maxcat + 1) (Z.to_nat (j + 1)) parent' lowest' rank' ∧
    vsize disc' = k ∧ unit_steps disc' (j + 1).
Proof.
  intros Hj Hfuel Hcats Hpos Hok Hsz Hsteps. unfold Hommel.disc_step.
  destruct (vget_lt cats j) as [c Hc]; [lia|]. rewrite Hc. exec_simpl.
  assert (0 ≤ c) as Hc0.
  { apply vget_Done in Hc as [_ Hc]. by eapply (Forall_lookup_1 _ _ _ _ Hpos). }
  assert (∀ P L R, dsu_ok (maxcat + 1) (Z.to_nat j) P L R →
                   dsu_ok (maxcat + 1) (Z.to_nat (j + 1)) P L R) as Hmono.
  { intros P L R (? & ? & ? & Hwf & ?). split_and!; try done.
    eapply uf_wf_mono; [done | lia]. }
  case_bool_decide as Hle.
  - destruct (dsu_ok_Find fuel _ _ c _ _ _ Hok Hfuel)
      as (r & P1 & -> & Hr & Hroot & _ & Hok1); [lia|].
    exec_simpl.
    destruct (vget_lt lowest r) as [l Hl];
      [destruct Hok as (_ & -> & _); lia|].
    rewrite Hl. exec_simpl.
    case_bool_decide as Hl0.
    + destruct (store_disc disc j k 1 1 Hj Hsz Hsteps)
        as (d & disc' & Hd & Hset & Hsz' & Hsteps'); [auto..|].
      rewrite Hd. exec_simpl. rewrite Hset. exec_simpl.
      eexists _, _, _, _. split; [done|]. auto.
    + destruct (store_disc disc j k 0 0 Hj Hsz Hsteps)
        as (d & disc' & Hd & Hset & Hsz' & Hsteps'); [auto..|].
      rewrite Hd. exec_simpl. rewrite Hset. exec_simpl.
      destruct (dsu_ok_Find fuel _ _ c _ _ _ Hok1 Hfuel)
        as (r' & P2 & -> & Hr' & Hroot' & _ & Hok2); [lia|].
      exec_simpl.
      assert (0 ≤ l < maxcat + 1) as Hlr
        by (destruct Hok as (_ & _ & _ & _ & Hlow); by eapply Hlow).
      destruct (dsu_ok_Union fuel _ _ (l - 1) r' _ _ _ Hok2 Hfuel)
        as (P3 & L3 & R3 & -> & Hok3); [lia | lia |].
      exec_simpl. eexists _, _, _, _. split; [done|].
      split; [|done].
      by replace (Z.to_nat (j + 1)) with (S (Z.to_nat j)) by lia.
  - destruct (store_disc disc j k 0 0 Hj Hsz Hsteps)
      as (d & disc' & Hd & Hset & Hsz' & Hsteps'); [auto..|].
    rewrite Hd. exec_simpl. rewrite Hset. exec_simpl.
    eexists _, _, _, _. split; [done|]. auto.
Qed.

(** C3: on valid input -- [k ≥ 1] ids in [0..m-1], [m] p-values that are
    not negative, a Simes factor that is not negative and [alpha > 0] --
    [findDiscoveries] completes once the fuel of [Find] is at least [k];
    the vector [disc] it returns has [k] entries, [disc[0]] is 0 or 1,
    and each entry equals its predecessor or exceeds it by one, so the
    sequence is non-decreasing.  Neither the order of the p-values nor
    the value of [h] matters. *)
Theorem findDiscoveries_unit_steps (fuel : nat) (idx : list Z)
    (allp : list Q) (simesfactor : Q) (h : Z) (alpha : Q) (k m : Z) :
  1 ≤ k → vsize idx = k → Forall (λ x, 0 ≤ x < m) idx →
  vsize allp = m → Forall (λ x, 0 <= x)%Q allp →
  (0 <= simesfactor)%Q → (0 < alpha)%Q →
  (Z.to_nat k ≤ fuel)%nat →
  ∃ disc,
    Hommel.findDiscoveries fuel idx allp simesfactor h alpha k m = Done disc ∧
    vsize disc = k ∧
    (vget disc 0 = Done 0 ∨ vget disc 0 = Done 1) ∧
    ∀ j a b, 1 ≤ j < k → vget disc (j - 1) = Done a → vget disc j = Done b →
             a ≤ b ∧ (b - a = 0 ∨ b - a = 1).
Proof.
  intros Hk Hidx Hrange Hallp Hpos Hsf Halpha Hfuel.
  unfold Hommel.findDiscoveries.
  destruct (cats_loop_Done idx allp simesfactor alpha m k)
    as (cats & -> & Hcats & Hcpos); [done..|].
  exec_simpl.
  destruct (findConcentration_Done allp simesfactor h alpha m Hallp)
    as (z & -> & Hz).
  exec_simpl.
  destruct (maxcatI_loop_Done (Z.to_nat k) cats (Z.min (z - m + h) k) 0)
    as (maxcatI & -> & HmaxcatI); [unfold vsize in Hcats; lia | lia |].
  exec_simpl.
  assert (0 ≤ Z.min (Z.min (z - m + h) k) maxcatI + 1) as Hn by lia.
  set (maxcat := Z.min (Z.min (z - m + h) k) maxcatI) in *.
  rewrite (vmake_ge (maxcat + 1) 0 Hn). exec_simpl.
  destruct (init_loop_Done (maxcat + 1) Hn) as (parent & lowest & -> & Hok).
  exec_simpl.
  rewrite (vmake_ge k 0) by lia. exec_simpl.
  destruct (for_up_inv (T := Hommel.disc_state)
    (λ j st, let '(parent, lowest, rank, disc) := st in
             dsu_ok (maxcat + 1) (Z.to_nat j) parent lowest rank ∧
             vsize disc = k ∧ unit_steps disc j)
    (Z.to_nat k) 0 (Hommel.disc_step fuel cats maxcat)
    (parent, lowest, replicate (Z.to_nat (maxcat + 1)) 0,
     replicate (Z.to_nat k) 0))
    as ([[[P1 L1] R1] disc] & -> & _ & Hsz & Hfirst & Hsteps).
  - split; [done|]. split.
    + unfold vsize. rewrite length_replicate. lia.
    + split; [lia|]. intros i a b Hi. lia.
  - intros j [[[P L] R] D] Hj (HokJ & HszJ & HstepsJ).
    destruct (disc_step_Done fuel cats maxcat k j P L R D)
      as (P' & L' & R' & D' & -> & ? & ? & ?); [lia | lia | done..|].
    eexists. split; [done|]. done.
  - exec_simpl. exists disc. split; [done|]. split; [done|].
    replace (0 + Z.of_nat (Z.to_nat k)) with k in * by lia.
    split; [apply Hfirst; lia|].
    intros j a b Hj Ha Hb. destruct (Hsteps j a b Hj Ha Hb); lia.
Qed.

Lemma findDiscoveries_unit_steps_witness :
  ∃ disc,
    Hommel.findDiscoveries 3 [0; 1; 2]
      [(1 # 1000000)%Q; (1 # 2)%Q; (9 # 10)%Q] 1 1 (5 # 100) 3 3 = Done disc ∧
    vsize disc = 3 ∧
    (vget disc 0 = Done 0 ∨ vget disc 0 = Done 1) ∧
    ∀ j a b, 1 ≤ j < 3 → vget disc (j - 1) = Done a → vget disc j = Done b →
             a ≤ b ∧ (b - a = 0 ∨ b - a = 1).
Proof.
  apply (findDiscoveries_unit_steps 3 [0; 1; 2]
           [(1 # 1000000)%Q; (1 # 2)%Q; (9 # 10)%Q] 1 1 (5 # 100) 3 3).
  - lia.
  - reflexivity.
  - repeat constructor; lia.
  - reflexivity.
  - repeat constructor; discriminate.
  - discriminate.
  - reflexivity.
  - simpl. lia.
Defined.

(** ** [findClusters] *)

(** The invariant rule of a loop over a vector, with the position. *)
Lemma for_each_inv_idx {X T : Type} (I : nat → T → Prop) (l : list X)
    (body : X → T → exec T) (s : T) :
  I O s →
  (∀ k x t, l !! k = Some x → I k t → ∃ t', body x t = Done t' ∧ I (S k) t') →
  ∃ s', for_each l body s = Done s' ∧ I (length l) s'.
Proof.
  revert I s. induction l as [|x l IH]; intros I s Hs Hbody; simpl.
  - by exists s.
  - destruct (Hbody O x s) as (t & -> & Ht); [done | done |]. exec_simpl.
    apply (IH (λ k, I (S k))); [done|].
    intros k y u Hy. by apply (Hbody (S k)).
Qed.

Lemma sum_sizes_app (SIZE CHD : list Z) (w : Z) :
  sum_sizes SIZE (CHD ++ [w]) = sum_sizes SIZE CHD + size_of SIZE w.
Proof.
  induction CHD as [|c CHD IH]; simpl; [lia|]. rewrite IH. lia.
Qed.

Lemma size_of_frame (SIZE SIZE' : list Z) (c : Z) :
  vget SIZE' c = vget SIZE c → size_of SIZE' c = size_of SIZE c.
Proof. unfold size_of. by intros ->. Qed.

Lemma sum_sizes_frame (SIZE SIZE' CHD : list Z) :
  Forall (λ c, vget SIZE' c = vget SIZE c) CHD →
  sum_sizes SIZE' CHD = sum_sizes SIZE CHD.
Proof.
  induction 1 as [|c CHD Hc _ IH]; simpl; [done|].
  by rewrite IH, (size_of_frame _ _ _ Hc).
Qed.

Lemma heavy_first_frame (SIZE SIZE' CHD : list Z) :
  Forall (λ c, vget SIZE' c = vget SIZE c) CHD →
  heavy_first SIZE CHD → heavy_first SIZE' CHD.
Proof.
  intros Hframe Hheavy c0 Hc0. specialize (Hheavy c0 Hc0).
  assert (size_of SIZE' c0 = size_of SIZE c0) as ->.
  { apply size_of_frame. destruct CHD as [|c CHD]; [done|].
    injection Hc0 as ->. by apply Forall_cons in Hframe as [? _]. }
  clear Hc0. induction Hheavy as [|c CHD' Hc _ IH]; [done|].
  apply Forall_cons in Hframe as [Hfc Hframe].
  apply Forall_cons. split; [|by apply IH].
  by rewrite (size_of_frame _ _ _ Hfc).
Qed.

Lemma size_of_Done (SIZE : list Z) (c s : Z) :
  vget SIZE c = Done s → size_of SIZE c = s.
Proof. unfold size_of. by intros ->. Qed.

Section FindClusters.
Variables (base m : Z) (ADJ : list (list Z)) (ORD RANK : list Z) (fuel : nat).
Hypothesis Hbase : 0 ≤ base.
Hypothesis Horder : valid_order base m ORD RANK.
Hypothesis Hadj : valid_adjacency base m ADJ.

Local Abbreviation bef := (before base RANK).

Lemma before_in_range (i y : Z) : bef i y → 0 ≤ y < m.
Proof.
  intros (r & Hr & _). apply vget_Done_lt in Hr.
  destruct Horder as (_ & <- & _). done.
Qed.

Lemma before_mono (i i' y : Z) : bef i y → i ≤ i' → bef i' y.
Proof. intros (r & Hr & Hlt) Hi. exists r. split; [done | lia]. Qed.

Lemma before_all (y : Z) : 0 ≤ y < m → bef m y.
Proof.
  destruct Horder as (HO & HR & _ & Hro). intros Hy.
  destruct (vget_lt RANK y) as [r Hr]; [lia|].
  exists r. split; [done|]. apply Hro in Hr. apply vget_Done_lt in Hr. lia.
Qed.

Lemma position_node (i o : Z) :
  vget ORD i = Done o →
  0 ≤ o - base < m ∧ bef (i + 1) (o - base) ∧ ¬ bef i (o - base).
Proof.
  destruct Horder as (HO & HR & Hor & Hro). intros Ho.
  pose proof (Hor _ _ Ho) as Hr.
  split; [apply vget_Done_lt in Hr; lia|]. split.
  - exists (i + base). split; [done | lia].
  - intros (r & Hr' & Hlt). rewrite Hr in Hr'. injection Hr' as <-. lia.
Qed.

Lemma before_succ (i o y : Z) :
  vget ORD i = Done o → bef (i + 1) y → y ≠ o - base → bef i y.
Proof.
  intros Ho (r & Hr & Hlt) Hne. exists r. split; [done|].
  destruct (decide (r - base = i)) as [E|]; [|lia].
  exfalso. apply Hne. destruct Horder as (_ & _ & _ & Hro).
  apply Hro in Hr. rewrite E, Ho in Hr. injection Hr as ->. lia.
Qed.

(** A call of [Find], or no change at all, keeps the invariant of the
    scan. *)
Lemma inner_inv_Find (i v : Z) (SIZE0 : list Z) (d : nat)
    (P P1 F SZ CHD : list Z) :
  inner_inv base m RANK i v SIZE0 d (P, F, SZ, CHD) →
  vsize P1 = vsize P →
  (∀ k y s, reaches P k y s → reaches P1 k y s) →
  (∀ y, vget P1 y = Done y → vget P y = Done y) →
  inner_inv base m RANK i v SIZE0 (S d) (P1, F, SZ, CHD).
Proof.
  intros (HP & HF & HS & Hreach & Hprist & (rv & Hrv & HFrv) & Hroots
          & Hsize & Hchd & Hheavy & Hframe) Hsz Hk Hback.
  unfold inner_inv. split_and!; try done.
  - lia.
  - intros y Hy. destruct (Hreach y Hy) as (r & Hr & Hb).
    exists r. split; [|done]. eapply reaches_mono; [by apply Hk | lia].
  - intros y Hy Hnb. destruct (Hprist y Hy Hnb) as (Hpy & Hfy & Hsy).
    split_and!; try done.
    eapply (reaches_is_root _ 0 y), Hk. by apply reaches_root.
  - exists rv. split; [|done]. eapply reaches_mono; [by apply Hk | lia].
  - intros r f Hr. apply Hroots. by apply Hback.
Qed.

Lemma neighbour_step_inv (i o : Z) (SIZE0 : list Z) (d : nat) (id : Z)
    (st : ARICluster.chd_state) :
  vget ORD i = Done o → 0 ≤ id - base < m → (d ≤ fuel)%nat →
  inner_inv base m RANK i (o - base) SIZE0 d st →
  ∃ st', ARICluster.neighbour_step fuel base RANK i (o - base) id st
           = Done st' ∧
         inner_inv base m RANK i (o - base) SIZE0 (S d) st'.
Proof.
  intros Ho Hid Hd Hinv. destruct st as [[[P F] SZ] CHD].
  pose proof Hinv as (HP & HF & HS & Hreach & Hprist & (rv & Hrv & HFrv)
                      & Hroots & Hsize & Hchd & Hheavy & Hframe).
  destruct (position_node i o Ho) as (Hv & Hvb & Hvnb).
  set (v := o - base) in *.
  unfold ARICluster.neighbour_step.
  destruct (vget_lt RANK (id - base)) as [rk Hrk];
    [destruct Horder as (_ & -> & _); lia|].
  rewrite Hrk. exec_simpl.
  case_bool_decide as Hlt;
    [|eexists; split; [done|]; by apply (inner_inv_Find _ _ _ _ P)].
  assert (bef (i + 1) (id - base)) as Hub by (exists rk; split; [done | lia]).
  destruct (Hreach (id - base) Hid) as (jrep & Hju & Hbj).
  specialize (Hbj Hub).
  destruct (Find_spec fuel P d (id - base) jrep Hju Hd)
    as (P1 & -> & Hsz1 & Hk1 & Hroots1).
  exec_simpl.
  pose proof (before_in_range _ _ Hbj) as Hjr.
  destruct (vget_lt F jrep) as [w Hw]; [lia|]. rewrite Hw. exec_simpl.
  case_bool_decide as Hvw;
    [|eexists; split; [done|]; by apply (inner_inv_Find _ _ _ _ P)].
  (* the union of the set of [v] with the set of [jrep] *)
  pose proof (reaches_is_root _ _ _ _ Hju) as Hjroot.
  destruct (Hroots jrep w Hjroot Hbj Hw) as [->|Hwb]; [done|].
  pose proof (before_in_range _ _ Hwb) as Hwr.
  destruct (vget_lt SZ w) as [sj Hsj]; [lia|].
  assert (rv ≠ jrep) as Hne by (intros ->; congruence).
  assert (bef (i + 1) rv) as Hrvb.
  { destruct (Hreach v Hv) as (r & Hr & Hb).
    rewrite (reaches_fun _ _ _ _ _ _ Hrv Hr). by apply Hb. }
  assert (reaches P1 d jrep jrep) as Hj1.
  { apply reaches_root. eapply reaches_is_root, Hk1, Hju. }
  destruct (UnionBySize_run fuel d v jrep P1 F SZ rv jrep v w
              (1 + sum_sizes SZ CHD) sj Hd (Hk1 _ _ _ Hrv) Hj1 Hne HFrv Hw
              Hsize Hsj)
    as (P2 & P' & F' & S' & Hrun & Hsz2 & Hk2 & Hroots2 & Hrep & Hgone
        & Hgr & HP' & HF' & HS').
  rewrite Hrun. exec_simpl.
  set (si := 1 + sum_sizes SZ CHD) in *.
  set (rep := if bool_decide (si < sj) then jrep else rv) in *.
  set (gone := if bool_decide (si < sj) then rv else jrep) in *.
  assert (bef (i + 1) rep ∧ bef (i + 1) gone) as [Hrepb Hgoneb]
    by (unfold rep, gone; destruct (bool_decide (si < sj)); done).
  assert (∀ y, y ≠ v → vget S' y = vget SZ y) as HframeS.
  { intros y Hy. by rewrite (vget_vset_ne _ _ _ _ _ HS'). }
  assert (∀ c, bef i c → vget S' c = vget SZ c) as HframeB.
  { intros c Hc. apply HframeS. by intros ->. }
  assert (Forall (λ c, vget S' c = vget SZ c) CHD) as HframeC.
  { eapply Forall_impl; [done|]. apply HframeB. }
  assert (vsize S' = m) as HS'm by (by rewrite (vsize_vset _ _ _ _ HS')).
  assert (size_of S' w = sj) as Hsw.
  { rewrite (size_of_frame SZ S' w) by by apply HframeB.
    by apply size_of_Done. }
  assert (∃ b : bool,
    match CHD with
    | [] => Done true
    | front :: _ =>
        sf ← vget S' front; sw ← vget S' w; Done (bool_decide (sf >= sw))
    end = Done b ∧
    heavy_first S' (if b then CHD ++ [w] else w :: CHD))
    as (b & -> & Hheavy').
  { pose proof (heavy_first_frame SZ S' CHD HframeC Hheavy) as Hh.
    destruct CHD as [|front rest].
    - exists true. split; [done|]. intros c0 Hc0. simpl in Hc0.
      injection Hc0 as <-.
      apply Forall_singleton. lia.
    - apply Forall_cons in Hchd as [Hfb _].
      pose proof (before_in_range _ _ Hfb) as Hfr.
      destruct (vget_lt S' front) as [sf Hsf]; [lia|].
      destruct (vget_lt S' w) as [sw Hsw']; [lia|].
      rewrite Hsf, Hsw'. exec_simpl. eexists. split; [done|].
      apply size_of_Done in Hsf, Hsw'. specialize (Hh front eq_refl).
      destruct (decide (sf >= sw)) as [Hge|Hge];
        [rewrite (bool_decide_eq_true_2 (sf >= sw)) by done
        |rewrite (bool_decide_eq_false_2 (sf >= sw)) by done];
        intros c0 Hc0; simpl in Hc0; injection Hc0 as <-.
      + apply Forall_app. split; [done|]. apply Forall_singleton. lia.
      + apply Forall_cons. split; [lia|].
        eapply Forall_impl; [done|]. intros c Hc. simpl in Hc. lia. }
  exec_simpl. eexists. split; [done|].
  unfold inner_inv. split_and!.
  - rewrite (vsize_vset _ _ _ _ HP'). lia.
  - destruct (bool_decide (si < sj)).
    + by rewrite (vsize_vset _ _ _ _ HF').
    + by subst F'.
  - done.
  - intros y Hy. destruct (Hreach y Hy) as (r & Hr & Hb).
    exists (if bool_decide (r = gone) then rep else r). split.
    + apply (reaches_link P2 gone rep P' Hgone Hrep Hgr HP' d y r).
      by apply Hk2, Hk1.
    + intros Hyb. destruct (bool_decide (r = gone)); [done | by apply Hb].
  - intros y Hy Hnb. destruct (Hprist y Hy Hnb) as (Hpy & Hfy & Hsy).
    split_and!.
    + rewrite (vget_vset_ne _ _ _ _ _ HP') by (by intros ->).
      eapply (reaches_is_root _ 0 y), Hk2, Hk1. by apply reaches_root.
    + destruct (bool_decide (si < sj)).
      * rewrite (vget_vset_ne _ _ _ _ _ HF'); [done|]. by intros ->.
      * by subst F'.
    + rewrite HframeS; [done|]. by intros ->.
  - exists rep. split.
    + pose proof (reaches_link P2 gone rep P' Hgone Hrep Hgr HP' d v rv
                    (Hk2 _ _ _ (Hk1 _ _ _ Hrv))) as Hl.
      unfold rep, gone in *. destruct (bool_decide (si < sj)).
      * by rewrite bool_decide_eq_true_2 in Hl.
      * by rewrite bool_decide_eq_false_2 in Hl.
    + unfold rep. destruct (bool_decide (si < sj)).
      * by eapply vget_vset_eq.
      * by subst F'.
  - intros r f Hr Hrb Hf.
    assert (r ≠ gone) as Hrg.
    { intros ->. rewrite (vget_vset_eq _ _ _ _ HP') in Hr. congruence. }
    rewrite (vget_vset_ne _ _ _ _ _ HP') in Hr by done.
    apply Hroots2, Hroots1 in Hr.
    destruct (bool_decide (si < sj)).
    + destruct (decide (jrep = r)) as [->|Hjr'].
      * rewrite (vget_vset_eq _ _ _ _ HF') in Hf. left. congruence.
      * rewrite (vget_vset_ne _ _ _ _ _ HF') in Hf by done.
        by eapply Hroots.
    + subst F'. by eapply Hroots.
  - rewrite (vget_vset_eq _ _ _ _ HS'). f_equal.
    assert (sum_sizes S' (if b then CHD ++ [w] else w :: CHD)
            = sum_sizes S' CHD + size_of S' w) as ->.
    { destruct b; [apply sum_sizes_app | simpl; lia]. }
    rewrite (sum_sizes_frame SZ S' CHD HframeC). lia.
  - destruct b.
    + apply Forall_app. split; [done|]. by apply Forall_singleton.
    + by apply Forall_cons.
  - done.
  - intros y Hy. rewrite HframeS by done. by apply Hframe.
Qed.

Lemma before_0 (y : Z) : ¬ bef 0 y.
Proof.
  intros (r & Hr & Hlt). destruct Horder as (_ & _ & _ & Hro).
  apply Hro, vget_Done_lt in Hr. lia.
Qed.

Lemma scanned_succ (i o : Z) (IDS : list Z) :
  0 ≤ i → vget ORD i = Done o → vget ADJ (o - base) = Done IDS →
  scanned base ADJ ORD (Z.to_nat (i + 1))
  = (scanned base ADJ ORD (Z.to_nat i) + length IDS)%nat.
Proof.
  intros Hi Ho HIDS. replace (Z.to_nat (i + 1)) with (S (Z.to_nat i)) by lia.
  simpl. rewrite Z2Nat.id by lia. by rewrite Ho, HIDS.
Qed.

Lemma scanned_mono (n n' : nat) :
  (n ≤ n')%nat → (scanned base ADJ ORD n ≤ scanned base ADJ ORD n')%nat.
Proof. induction 1 as [|n' _ IH]; simpl; lia. Qed.

Lemma cluster_step_inv (i : Z) (st : ARICluster.forest_state) :
  0 ≤ i < m → (scanned base ADJ ORD (Z.to_nat (i + 1)) ≤ fuel)%nat →
  outer_inv base m RANK i (scanned base ADJ ORD (Z.to_nat i)) st →
  ∃ st', ARICluster.cluster_step fuel base ADJ ORD RANK i st = Done st' ∧
         outer_inv base m RANK (i + 1)
           (scanned base ADJ ORD (Z.to_nat (i + 1))) st'.
Proof.
  intros Hi Hfuel Hinv. destruct st as [[[P F] SZ] C].
  destruct Hinv as (HP & HF & HS & HC & Hreach & Hprist & Hroots & Hnodes).
  unfold ARICluster.cluster_step.
  destruct (vget_lt ORD i) as [o Ho]; [destruct Horder as (-> & _); lia|].
  rewrite Ho. exec_simpl.
  destruct (position_node i o Ho) as (Hv & Hvb & Hvnb).
  destruct (vget_lt ADJ (o - base)) as [IDS HIDS];
    [destruct Hadj as (-> & _); lia|].
  rewrite HIDS. exec_simpl.
  rewrite (scanned_succ i o IDS) in * by (lia || done).
  set (d := scanned base ADJ ORD (Z.to_nat i)) in *.
  set (v := o - base) in *.
  destruct (Hprist v Hv Hvnb) as (Hpv & Hfv & Hsv).
  destruct (for_each_inv_idx (T := ARICluster.chd_state)
              (λ k st, inner_inv base m RANK i v SZ (d + k) st) IDS
              (ARICluster.neighbour_step fuel base RANK i v) (P, F, SZ, []))
    as ([[[P' F'] S'] CHD] & Hrun & Hinner).
  - unfold inner_inv. rewrite Nat.add_0_r. split_and!; try done.
    + intros y Hy. destruct (Hreach y Hy) as (r & Hr & Hb).
      exists r. split; [done|]. intros Hyb.
      destruct (decide (y = v)) as [->|Hne].
      * by rewrite (reaches_of_root _ _ _ _ Hpv Hr).
      * eapply before_mono; [apply Hb; by eapply before_succ | lia].
    + intros y Hy Hnb. apply Hprist; [done|]. intros Hyb. apply Hnb.
      eapply before_mono; [done | lia].
    + exists v. split; [by apply reaches_root | done].
    + intros r f Hr Hrb Hf. destruct (decide (r = v)) as [->|Hne].
      * left. congruence.
      * right. eapply Hroots; [done | by eapply before_succ | done].
  - intros k id st Hk Hst. pose proof (lookup_lt_Some _ _ _ Hk) as Hklt.
    destruct (neighbour_step_inv i o SZ (d + k) id st) as (st' & Hst' & Hinv');
      [done | | lia | done |].
    + destruct Hadj as (_ & Hids). eapply Hids; [done|].
      by eapply list_elem_of_lookup_2.
    + exists st'. split; [done|]. by rewrite Nat.add_succ_r.
  - rewrite Hrun. exec_simpl.
    destruct Hinner as (HP' & HF' & HS' & Hreach' & Hprist' & _ & Hroots'
                        & Hsize' & Hchd' & Hheavy' & Hframe').
    pose proof (vset_lt C v CHD ltac:(lia)) as HCset.
    rewrite HCset. exec_simpl. eexists. split; [done|].
    unfold outer_inv. split_and!; try done.
    + by rewrite (vsize_vset _ _ _ _ HCset).
    + intros r f Hr Hrb Hf. destruct (Hroots' r f Hr Hrb Hf) as [->|Hfb];
        [done | eapply before_mono; [done | lia]].
    + assert (∀ c, bef i c → vget S' c = vget SZ c) as HframeB.
      { intros c Hc. apply Hframe'. by intros ->. }
      intros x Hxb. destruct (decide (x = v)) as [->|Hne].
      * exists CHD. split_and!; try done.
        -- by eapply vget_vset_eq.
        -- eapply Forall_impl; [done|]. intros c Hc.
           eapply before_mono; [done | lia].
      * pose proof (before_succ i o x Ho Hxb Hne) as Hxi.
        destruct (Hnodes x Hxi) as (CHDx & HCx & Hbx & Hsx & Hhx).
        assert (Forall (λ c, vget S' c = vget SZ c) CHDx) as HframeC.
        { eapply Forall_impl; [done|]. apply HframeB. }
        exists CHDx. split_and!.
        -- rewrite (vget_vset_ne _ _ _ _ _ HCset); [done|]. by intros ->.
        -- eapply Forall_impl; [exact Hbx|]. intros c Hc.
           eapply before_mono; [done | lia].
        -- by rewrite (HframeB x Hxi), (sum_sizes_frame SZ S' CHDx HframeC).
        -- by eapply heavy_first_frame.
Qed.

(** [findClusters] completes on every valid input, and the forest it
    returns has both invariants at every node. *)
Lemma findClusters_base_forest :
  0 ≤ m → (scanned base ADJ ORD (Z.to_nat m) ≤ fuel)%nat →
  ∃ F, ARICluster.findClusters_base base fuel m ADJ ORD RANK = Done F ∧
       vsize (ARICluster.forest_SIZE F) = m ∧
       vsize (ARICluster.forest_CHILD F) = m ∧
       ∀ v, 0 ≤ v < m →
            node_ok m (ARICluster.forest_SIZE F) (ARICluster.forest_CHILD F) v.
Proof.
  intros Hm Hfuel. unfold ARICluster.findClusters_base.
  rewrite (vmake_ge m [] Hm). exec_simpl.
  rewrite (vmake_ge m 1 Hm). exec_simpl.
  destruct (for_up_inv (T := list Z * list Z)
              (λ j st, st.1 = seqZ 0 j ∧ st.2 = seqZ 0 j) (Z.to_nat m) 0
              (λ i '(PARENT, FORESTROOT),
                 Done (PARENT ++ [i], FORESTROOT ++ [i])) ([], []))
    as ([P0 F0] & -> & HP0 & HF0).
  - done.
  - intros j [P F] Hj [HP HF]. simpl in *. subst P F.
    eexists. split; [done|]. simpl.
    replace (j + 1) with (Z.of_nat (S (Z.to_nat j))) by lia.
    rewrite seqZ_S. by replace (Z.of_nat (Z.to_nat j)) with j by lia.
  - exec_simpl. simpl in HP0, HF0.
    replace (0 + Z.of_nat (Z.to_nat m)) with m in * by lia. subst P0 F0.
    assert (∀ y, 0 ≤ y < m → vget (seqZ 0 m) y = Done y) as Hseq.
    { intros y Hy. apply vget_Done. split; [lia|].
      rewrite lookup_seqZ_lt by lia. f_equal. lia. }
    assert (vsize (seqZ 0 m) = m) as Hseqm
      by (unfold vsize; rewrite length_seqZ; lia).
    destruct (for_up_inv (T := ARICluster.forest_state)
                (λ j st, outer_inv base m RANK j
                           (scanned base ADJ ORD (Z.to_nat j)) st)
                (Z.to_nat m) 0
                (ARICluster.cluster_step fuel base ADJ ORD RANK)
                (seqZ 0 m, seqZ 0 m, replicate (Z.to_nat m) 1,
                 replicate (Z.to_nat m) []))
      as ([[[P F] SZ] C] & -> & Hinv).
    + unfold outer_inv. simpl. split_and!; try done.
      * unfold vsize. rewrite length_replicate. lia.
      * unfold vsize. rewrite length_replicate. lia.
      * intros y Hy. exists y. split; [by apply reaches_root, Hseq|].
        by intros ?%before_0.
      * intros y Hy _. split_and!; try by apply Hseq.
        apply vget_Done. split; [lia|]. apply lookup_replicate_2. lia.
      * by intros r f _ ?%before_0.
      * by intros x ?%before_0.
    + intros j st Hj Hst. apply cluster_step_inv; [lia | | done].
      etrans; [|done]. apply scanned_mono. lia.
    + exec_simpl.
      replace (0 + Z.of_nat (Z.to_nat m)) with m in * by lia.
      destruct Hinv as (HP & HF & HS & HC & _ & _ & _ & Hnodes).
      destruct (for_up_inv (λ _ _, True) (Z.to_nat m) 0
                  (ARICluster.root_step P F) []) as (ROOT & -> & _).
      * done.
      * intros j ROOT Hj _. unfold ARICluster.root_step.
        destruct (vget_lt P j) as [pj ->]; [lia|]. exec_simpl.
        case_bool_decide; [|by eexists].
        destruct (vget_lt F j) as [fj ->]; [lia|]. exec_simpl. by eexists.
      * exec_simpl. eexists. split; [done|]. simpl. split_and!; try done.
        intros v Hv. destruct (Hnodes v (before_all v Hv))
          as (CHD & HCv & Hb & Hs & Hh).
        exists CHD. split_and!; try done.
        eapply Forall_impl; [done|]. intros c Hc. simpl.
        by eapply before_in_range.
Qed.

End FindClusters.

Lemma heavy_first_lookup (SIZE CHD : list Z) (j c0 cj s0 sj : Z) :
  heavy_first SIZE CHD →
  vget CHD 0 = Done c0 → vget CHD j = Done cj →
  vget SIZE c0 = Done s0 → vget SIZE cj = Done sj → sj ≤ s0.
Proof.
  intros Hheavy [_ Hc0]%vget_Done [_ Hcj]%vget_Done Hs0 Hsj.
  assert (head CHD = Some c0) as Hhead by (by destruct CHD).
  pose proof (Forall_lookup_1 _ _ _ _ (Hheavy c0 Hhead) Hcj) as Hle.
  simpl in Hle.
  by rewrite (size_of_Done _ _ _ Hs0), (size_of_Done _ _ _ Hsj) in Hle.
Qed.

(** C8: on every valid input -- [m] voxels, [ADJ] listing voxel ids,
    [ORD] and [RANK] inverse permutations of [0..m-1] -- and with fuel
    for [Find] that covers the adjacency entries scanned, [findClusters]
    (of [ARICluster_zeroBased.cpp]) completes, and in the forest it returns
    every node [v] has [SIZE[v] = 1 + Σ SIZE[c]] over its children [c],
    and no child of [v] is larger than the child at position 0.
    Neither symmetry nor self-exclusion of [ADJ] is needed. *)
Theorem findClusters_sizes_and_heavy_child (fuel : nat) (m : Z)
    (ADJ : list (list Z)) (ORD RANK : list Z) :
  0 ≤ m → valid_adjacency 0 m ADJ → valid_order 0 m ORD RANK →
  (scanned 0 ADJ ORD (Z.to_nat m) ≤ fuel)%nat →
  ∃ F, ZeroBased.findClusters fuel m ADJ ORD RANK = Done F ∧
       ∀ v, 0 ≤ v < m →
         ∃ CHD, vget (ARICluster.forest_CHILD F) v = Done CHD ∧
                Forall (λ c, 0 ≤ c < m) CHD ∧
                vget (ARICluster.forest_SIZE F) v
                  = Done (1 + sum_sizes (ARICluster.forest_SIZE F) CHD) ∧
                ∀ j c0 cj s0 sj,
                  0 < j → vget CHD 0 = Done c0 → vget CHD j = Done cj →
                  vget (ARICluster.forest_SIZE F) c0 = Done s0 →
                  vget (ARICluster.forest_SIZE F) cj = Done sj →
                  sj ≤ s0.
Proof.
  intros Hm Hadj Horder Hfuel.
  destruct (findClusters_base_forest 0 m ADJ ORD RANK fuel ltac:(lia)
              Horder Hadj Hm Hfuel) as (F & Hrun & _ & _ & Hnodes).
  exists F. split; [done|]. intros v Hv.
  destruct (Hnodes v Hv) as (CHD & HCHD & Hrange & Hsize & Hheavy).
  exists CHD. split_and!; try done.
  intros j c0 cj s0 sj _ Hc0 Hcj Hs0 Hsj.
  by apply (heavy_first_lookup _ _ _ _ _ _ _ Hheavy Hc0 Hcj Hs0 Hsj).
Qed.

(** The same for [findClusters] of [ARICluster.cpp], whose [ORD], [RANK]
    and [ADJ] count voxels and positions from one. *)
Lemma findClusters_one_based_forest (fuel : nat) (m : Z)
    (ADJ : list (list Z)) (ORD RANK : list Z) :
  0 ≤ m → valid_adjacency 1 m ADJ → valid_order 1 m ORD RANK →
  (scanned 1 ADJ ORD (Z.to_nat m) ≤ fuel)%nat →
  ∃ F, ARICluster.findClusters fuel m ADJ ORD RANK = Done F ∧
       ∀ v, 0 ≤ v < m →
            node_ok m (ARICluster.forest_SIZE F) (ARICluster.forest_CHILD F) v.
Proof.
  intros Hm Hadj Horder Hfuel.
  destruct (findClusters_base_forest 1 m ADJ ORD RANK fuel ltac:(lia)
              Horder Hadj Hm Hfuel) as (F & Hrun & _ & _ & Hnodes).
  by exists F.
Qed.

(** Case analysis on an index that reads a concrete vector of length 2. *)
Ltac vget_cases2 H :=
  let Hl := fresh "Hl" in
  let n := fresh "n" in
  let E := fresh "E" in
  apply vget_Done in H as [? Hl];
  match type of Hl with _ !! ?k = Some _ => remember k as n eqn:E end;
  destruct n as [|[|n]]; simpl in Hl; [| |discriminate Hl].

Lemma findClusters_sizes_and_heavy_child_witness :
  ∃ F, ZeroBased.findClusters 2 2 [[1]; [0]] [0; 1] [0; 1] = Done F ∧
       ∀ v, 0 ≤ v < 2 →
         ∃ CHD, vget (ARICluster.forest_CHILD F) v = Done CHD ∧
                Forall (λ c, 0 ≤ c < 2) CHD ∧
                vget (ARICluster.forest_SIZE F) v
                  = Done (1 + sum_sizes (ARICluster.forest_SIZE F) CHD) ∧
                ∀ j c0 cj s0 sj,
                  0 < j → vget CHD 0 = Done c0 → vget CHD j = Done cj →
                  vget (ARICluster.forest_SIZE F) c0 = Done s0 →
                  vget (ARICluster.forest_SIZE F) cj = Done sj →
                  sj ≤ s0.
Proof.
  apply (findClusters_sizes_and_heavy_child 2 2 [[1]; [0]] [0; 1] [0; 1]).
  - lia.
  - split; [reflexivity|]. intros v IDS id Hv Hid.
    vget_cases2 Hv; injection Hl as <-;
      apply list_elem_of_singleton in Hid as ->; lia.
  - split; [reflexivity|]. split; [reflexivity|]. split.
    + intros i o Hi. vget_cases2 Hi; injection Hl as <-;
        (replace i with 0 by lia) || (replace i with 1 by lia); reflexivity.
    + intros v r Hv. vget_cases2 Hv; injection Hl as <-;
        (replace v with 0 by lia) || (replace v with 1 by lia); reflexivity.
  - simpl. lia.
Defined.

(** ** Subtrees *)

Lemma NoDup_concat_unique {A : Type} (L : list (list A)) (i j : nat)
    (l l' : list A) (x : A) :
  NoDup (mjoin L) → L !! i = Some l → L !! j = Some l' →
  x ∈ l → x ∈ l' → i = j.
Proof.
  revert i j. induction L as [|l0 L IH]; intros i j Hnd Hi Hj Hx Hx';
    [done|].
  simpl in Hnd. apply NoDup_app in Hnd as (Hnd0 & Hdisj & HndL).
  destruct i as [|i], j as [|j]; simpl in *.
  - done.
  - injection Hi as ->. exfalso. apply (Hdisj x Hx).
    apply list_elem_of_join. exists l'. split; [done|].
    by eapply list_elem_of_lookup_2.
  - injection Hj as ->. exfalso. apply (Hdisj x Hx').
    apply list_elem_of_join. exists l. split; [done|].
    by eapply list_elem_of_lookup_2.
  - f_equal. by eapply IH.
Qed.

Section Forest.
Variables (m : Z) (SIZE ROOT : list Z) (CHILD : list (list Z)).
Hypothesis Hwf : forest_wf m SIZE ROOT CHILD.

Lemma children_elem (p c : Z) :
  c ∈ children CHILD p → 0 ≤ p < m ∧ c ∈ mjoin CHILD.
Proof.
  unfold children. intros Hc.
  destruct (vget CHILD p) as [CHD| |] eqn:Hp; try by apply elem_of_nil in Hc.
  split.
  - apply vget_Done_lt in Hp. destruct Hwf as (_ & <- & _). done.
  - apply list_elem_of_join. exists CHD. split; [done|].
    apply vget_Done in Hp as [_ Hp]. by eapply list_elem_of_lookup_2.
Qed.

Lemma children_in_range (p c : Z) : c ∈ children CHILD p → 0 ≤ c < m.
Proof.
  intros [_ Hc]%children_elem. destruct Hwf as (_ & _ & Hrange & _).
  apply Forall_app in Hrange as [_ Hrange].
  by apply (proj1 (Forall_forall _ _) Hrange).
Qed.

Lemma size_of_pos (v : Z) : 0 ≤ v < m → 1 ≤ size_of SIZE v.
Proof.
  intros Hv. destruct Hwf as (HS & _ & _ & _ & Hpos & _).
  destruct (vget_lt SIZE v) as [s Hs]; [lia|].
  rewrite (size_of_Done _ _ _ Hs). apply vget_Done in Hs as [_ Hs].
  by apply (Forall_lookup_1 _ _ _ _ Hpos Hs).
Qed.

Lemma sum_sizes_ge (CHD : list Z) :
  Forall (λ c, 0 ≤ c < m) CHD →
  vsize CHD ≤ sum_sizes SIZE CHD ∧
  ∀ c, c ∈ CHD → size_of SIZE c ≤ sum_sizes SIZE CHD.
Proof.
  induction 1 as [|c CHD Hc _ [IH1 IH2]]; simpl.
  - split; [done|]. intros c Hc. by apply elem_of_nil in Hc.
  - pose proof (size_of_pos c Hc). unfold vsize in *. simpl. split; [lia|].
    intros c' [->|Hc']%elem_of_cons; [lia|]. specialize (IH2 c' Hc'). lia.
Qed.

Lemma children_range_Forall (v : Z) :
  Forall (λ c, 0 ≤ c < m) (children CHILD v).
Proof. apply Forall_forall. intros c. apply children_in_range. Qed.

Lemma child_smaller (p c : Z) :
  c ∈ children CHILD p → size_of SIZE c < size_of SIZE p.
Proof.
  intros Hc. destruct (children_elem p c Hc) as [Hp _].
  destruct Hwf as (_ & _ & _ & _ & _ & Hsum). rewrite (Hsum p Hp).
  destruct (sum_sizes_ge (children CHILD p) (children_range_Forall p))
    as [_ Hle].
  specialize (Hle c Hc). lia.
Qed.

(** Enough fuel yields the whole subtree, whose length is [SIZE[v]]. *)
Lemma subtree_stable (fuel : nat) (v : Z) :
  0 ≤ v < m → (Z.to_nat (size_of SIZE v) ≤ fuel)%nat →
  subtree fuel CHILD v
  = mjoin (desc_of SIZE CHILD <$> children CHILD v) ++ [v] ∧
  vsize (subtree fuel CHILD v) = size_of SIZE v.
Proof.
  revert v. induction (lt_wf fuel) as [fuel _ IH]. intros v Hv Hfuel.
  pose proof (size_of_pos v Hv) as Hpos.
  destruct fuel as [|fuel]; [lia|]. simpl.
  assert (∀ c, c ∈ children CHILD v →
               subtree fuel CHILD c = desc_of SIZE CHILD c ∧
               vsize (desc_of SIZE CHILD c) = size_of SIZE c) as Hc.
  { intros c Hc. pose proof (children_in_range v c Hc) as Hcr.
    pose proof (child_smaller v c Hc) as Hlt.
    destruct (IH fuel ltac:(lia) c Hcr ltac:(lia)) as [E1 _].
    destruct (IH (Z.to_nat (size_of SIZE c)) ltac:(lia) c Hcr ltac:(lia))
      as [E2 E3].
    unfold desc_of. split; [congruence | done]. }
  assert (subtree fuel CHILD <$> children CHILD v
          = desc_of SIZE CHILD <$> children CHILD v) as ->.
  { apply list_fmap_ext. intros i c Hi. apply Hc.
    by eapply list_elem_of_lookup_2. }
  split; [done|].
  destruct Hwf as (_ & _ & _ & _ & _ & Hsum). rewrite (Hsum v Hv).
  rewrite vsize_app. unfold vsize at 2. simpl.
  assert (vsize (mjoin (desc_of SIZE CHILD <$> children CHILD v))
          = sum_sizes SIZE (children CHILD v)) as ->; [|lia].
  clear Hsum. induction (children CHILD v) as [|c CHD IHc]; [done|].
  csimpl. rewrite vsize_app, IHc.
  - destruct (Hc c) as [_ ->]; [left | done].
  - intros c' Hc'. apply Hc. by right.
Qed.

Lemma desc_of_unfold (v : Z) :
  0 ≤ v < m →
  desc_of SIZE CHILD v
  = mjoin (desc_of SIZE CHILD <$> children CHILD v) ++ [v].
Proof. intros Hv. by apply subtree_stable. Qed.

Lemma desc_of_vsize (v : Z) :
  0 ≤ v < m → vsize (desc_of SIZE CHILD v) = size_of SIZE v.
Proof. intros Hv. by apply subtree_stable. Qed.

Lemma desc_of_last (v : Z) :
  0 ≤ v < m → last (desc_of SIZE CHILD v) = Some v.
Proof. intros Hv. rewrite desc_of_unfold by done. apply last_snoc. Qed.

Lemma desc_of_self (v : Z) : 0 ≤ v < m → v ∈ desc_of SIZE CHILD v.
Proof.
  intros Hv. rewrite desc_of_unfold by done. apply elem_of_app. right.
  by apply list_elem_of_singleton.
Qed.

Lemma descends_trans (a b x : Z) :
  descends CHILD a b → descends CHILD b x → descends CHILD a x.
Proof.
  intros Hab Hbx. induction Hbx as [b | b p x _ IH Hx]; [done|].
  eapply descends_step; [by apply IH | done].
Qed.

Lemma descends_in_range (a x : Z) :
  descends CHILD a x → 0 ≤ a < m → 0 ≤ x < m.
Proof.
  induction 1 as [a | a p x _ IH Hx]; [done|].
  intros _. by eapply children_in_range.
Qed.

(** Membership in the listing is descent. *)
Lemma desc_of_descends (v x : Z) :
  0 ≤ v < m → x ∈ desc_of SIZE CHILD v → descends CHILD v x.
Proof.
  remember (Z.to_nat (size_of SIZE v)) as n eqn:En. revert v En.
  induction (lt_wf n) as [n _ IH]. intros v -> Hv Hx.
  rewrite desc_of_unfold in Hx by done.
  apply elem_of_app in Hx as [Hx | ->%list_elem_of_singleton];
    [|apply descends_refl].
  apply list_elem_of_join in Hx as (l & Hx & Hl).
  apply list_elem_of_fmap in Hl as (c & -> & Hc).
  pose proof (child_smaller v c Hc) as Hlt.
  pose proof (children_in_range v c Hc) as Hcr.
  pose proof (size_of_pos c Hcr).
  eapply descends_trans;
    [eapply descends_step; [apply descends_refl | done]|].
  eapply (IH (Z.to_nat (size_of SIZE c))); [lia | done | done | done].
Qed.

Lemma desc_of_child_closed (v p c : Z) :
  0 ≤ v < m → p ∈ desc_of SIZE CHILD v → c ∈ children CHILD p →
  c ∈ desc_of SIZE CHILD v.
Proof.
  remember (Z.to_nat (size_of SIZE v)) as n eqn:En. revert v En.
  induction (lt_wf n) as [n _ IH]. intros v -> Hv Hp Hc.
  rewrite desc_of_unfold in Hp |- * by done.
  apply elem_of_app. left. apply list_elem_of_join.
  apply elem_of_app in Hp as [Hp | ->%list_elem_of_singleton].
  - apply list_elem_of_join in Hp as (l & Hp & Hl).
    apply list_elem_of_fmap in Hl as (c' & -> & Hc').
    exists (desc_of SIZE CHILD c'). split; [|by apply list_elem_of_fmap_2].
    pose proof (child_smaller v c' Hc') as Hlt.
    pose proof (children_in_range v c' Hc') as Hcr.
    pose proof (size_of_pos c' Hcr).
    eapply (IH (Z.to_nat (size_of SIZE c'))); [lia | done | done | done | done].
  - exists (desc_of SIZE CHILD c). split; [|by apply list_elem_of_fmap_2].
    apply desc_of_self. by eapply children_in_range.
Qed.

Lemma descends_desc_of (v x : Z) :
  0 ≤ v < m → descends CHILD v x → x ∈ desc_of SIZE CHILD v.
Proof.
  intros Hv. induction 1 as [a | a p x _ IH Hx].
  - by apply desc_of_self.
  - eapply desc_of_child_closed; [done | by apply IH | done].
Qed.

Lemma desc_of_in_range (v x : Z) :
  0 ≤ v < m → x ∈ desc_of SIZE CHILD v → 0 ≤ x < m.
Proof.
  intros Hv Hx. eapply descends_in_range; [|done]. by apply desc_of_descends.
Qed.

(** A node has at most one parent. *)
Lemma parent_unique (p p' c : Z) :
  c ∈ children CHILD p → c ∈ children CHILD p' → p = p'.
Proof.
  intros Hc Hc'. destruct Hwf as (_ & _ & _ & Hnd & _).
  apply NoDup_app in Hnd as (_ & _ & Hnd).
  unfold children in *.
  destruct (vget CHILD p) as [CHD| |] eqn:Hp; try by apply elem_of_nil in Hc.
  destruct (vget CHILD p') as [CHD'| |] eqn:Hp';
    try by apply elem_of_nil in Hc'.
  apply vget_Done in Hp as [Hp0 Hp]. apply vget_Done in Hp' as [Hp0' Hp'].
  pose proof (NoDup_concat_unique CHILD _ _ _ _ c Hnd Hp Hp' Hc Hc'). lia.
Qed.

(** A root has no parent. *)
Lemma root_no_parent (r p : Z) : r ∈ ROOT → r ∉ children CHILD p.
Proof.
  intros Hr [_ Hc]%children_elem. destruct Hwf as (_ & _ & _ & Hnd & _).
  apply NoDup_app in Hnd as (_ & Hdisj & _). by apply (Hdisj r).
Qed.

(** Two subtrees that meet are nested. *)
Lemma descends_nested (a b x : Z) :
  descends CHILD a x → descends CHILD b x →
  descends CHILD a b ∨ descends CHILD b a.
Proof.
  intros Ha. revert b. induction Ha as [a | a p x Hap IH Hx]; intros b Hb.
  - by right.
  - inversion Hb as [|? p' ? Hbp Hx']; subst.
    + left. by eapply descends_step.
    + apply IH. by rewrite (parent_unique p p' x Hx Hx').
Qed.

(** *** [descendants] lists the subtree *)

Lemma work_cons (x : Z) (stack : list Z) :
  work SIZE CHILD (x :: stack) = expand SIZE CHILD x ++ work SIZE CHILD stack.
Proof. done. Qed.

Lemma work_app (s1 s2 : list Z) :
  work SIZE CHILD (s1 ++ s2) = work SIZE CHILD s1 ++ work SIZE CHILD s2.
Proof. unfold work. by rewrite fmap_app, join_app. Qed.

Lemma total_cost_cons (x : Z) (stack : list Z) :
  total_cost SIZE (x :: stack) = (cost SIZE x + total_cost SIZE stack)%nat.
Proof. done. Qed.

Lemma total_cost_app (s1 s2 : list Z) :
  total_cost SIZE (s1 ++ s2)
  = (total_cost SIZE s1 + total_cost SIZE s2)%nat.
Proof.
  induction s1 as [|x s1 IH]; [done|].
  rewrite <- app_comm_cons, !total_cost_cons, IH. lia.
Qed.

Lemma work_vsize (stack : list Z) :
  Forall (λ x, x < 0 ∨ 0 ≤ x < m) stack →
  vsize stack ≤ vsize (work SIZE CHILD stack).
Proof.
  induction 1 as [|x stack Hx _ IH]; [done|].
  unfold work in *. csimpl. rewrite vsize_app.
  assert (1 ≤ vsize (expand SIZE CHILD x)) as Hx1.
  { unfold expand. case_bool_decide; [done|].
    rewrite desc_of_vsize by lia. apply size_of_pos. lia. }
  unfold vsize in *. simpl length. lia.
Qed.

Lemma work_children (CHD : list Z) :
  Forall (λ c, 0 ≤ c < m) CHD →
  work SIZE CHILD CHD = mjoin (desc_of SIZE CHILD <$> CHD).
Proof.
  unfold work. intros HCHD. f_equal. apply list_fmap_ext.
  intros i c Hi. unfold expand.
  pose proof (Forall_lookup_1 _ _ _ _ HCHD Hi) as Hc. simpl in Hc.
  by rewrite bool_decide_eq_false_2 by lia.
Qed.

Lemma total_cost_children (CHD : list Z) :
  Forall (λ c, 0 ≤ c < m) CHD →
  Z.of_nat (total_cost SIZE CHD) = 2 * sum_sizes SIZE CHD.
Proof.
  induction 1 as [|c CHD Hc _ IH]; [done|].
  unfold total_cost in *. csimpl. unfold cost at 1.
  rewrite bool_decide_eq_false_2 by lia.
  pose proof (size_of_pos c Hc). unfold sum_sizes in *. simpl foldr. lia.
Qed.

Lemma push_children_spec (rchd pre junk suf : list Z) :
  length junk = length rchd →
  ARICluster.push_children rchd (vsize pre + vsize junk) (pre ++ junk ++ suf)
  = Done (vsize pre, pre ++ reverse rchd ++ suf).
Proof.
  revert junk suf. induction rchd as [|c rchd IH]; intros junk suf Hlen.
  - destruct junk; [|done]. simpl. unfold vsize. simpl. do 2 f_equal. lia.
  - destruct (decide (junk = [])) as [->|Hne]; [done|].
    destruct (exists_last Hne) as (junk' & j & ->).
    rewrite length_app in Hlen. simpl in Hlen.
    cbn [ARICluster.push_children].
    replace (vsize pre + vsize (junk' ++ [j]) - 1)
      with (vsize (pre ++ junk'))
      by (rewrite !vsize_app; unfold vsize; simpl; lia).
    replace (pre ++ (junk' ++ [j]) ++ suf) with ((pre ++ junk') ++ j :: suf)
      by (by rewrite <- !app_assoc).
    rewrite vset_app_mid. exec_simpl.
    rewrite <- app_assoc, (vsize_app pre junk'), IH by lia.
    rewrite reverse_cons, <- !app_assoc. done.
Qed.

Lemma descendants_loop_spec (fuel : nat) (out junk stack target : list Z) :
  Forall (λ x, x < 0 ∨ 0 ≤ x < m) stack →
  out ++ work SIZE CHILD stack = target →
  vsize (out ++ junk ++ stack) = vsize target →
  (total_cost SIZE stack ≤ fuel)%nat →
  ARICluster.descendants_loop fuel CHILD (vsize out) (vsize out + vsize junk)
    (out ++ junk ++ stack) = Done target.
Proof.
  revert out junk stack.
  induction fuel as [|fuel IH]; intros out junk stack Hok Htarget Hsize Hfuel.
  all: destruct stack as [|x rest].
  1, 3: (* the stack is empty: the listing is complete *)
    rewrite app_nil_r in *; unfold work in Htarget; simpl in Htarget;
    rewrite ?app_nil_r in Htarget; subst target;
    assert (junk = []) as -> by
      (rewrite vsize_app in Hsize; unfold vsize in Hsize;
       destruct junk; [done | simpl in Hsize; lia]);
    rewrite app_nil_r; cbn [ARICluster.descendants_loop];
    rewrite bool_decide_eq_false_2 by (unfold vsize; simpl; lia); done.
  1: { exfalso. unfold total_cost in Hfuel. simpl in Hfuel.
       unfold cost in Hfuel. apply Forall_cons in Hok as [Hx _].
       case_bool_decide; [lia|].
       pose proof (size_of_pos x ltac:(lia)). lia. }
  apply Forall_cons in Hok as [Hx Hrest].
  pose proof (work_vsize rest Hrest) as Hwork.
  assert (∀ out' junk' stack' len top buf,
            len = vsize out' → top = vsize out' + vsize junk' →
            buf = out' ++ junk' ++ stack' →
            Forall (λ x, x < 0 ∨ 0 ≤ x < m) stack' →
            out' ++ work SIZE CHILD stack' = target →
            vsize (out' ++ junk' ++ stack') = vsize target →
            (total_cost SIZE stack' ≤ fuel)%nat →
            ARICluster.descendants_loop fuel CHILD len top buf = Done target)
    as IH' by (intros; subst; by apply IH).
  clear IH.
  cbn [ARICluster.descendants_loop]. rewrite bool_decide_eq_true_2
    by (rewrite !vsize_app; unfold vsize; simpl length; lia).
  replace (out ++ junk ++ x :: rest) with ((out ++ junk) ++ x :: rest)
    by (by rewrite <- app_assoc).
  rewrite <- vsize_app, vget_app_mid. exec_simpl.
  rewrite work_cons in Htarget. rewrite total_cost_cons in Hfuel.
  case_bool_decide as Hneg.
  - (* a marked entry: append the node to the listing *)
    unfold expand in Htarget. rewrite bool_decide_eq_true_2 in Htarget by done.
    unfold cost in Hfuel. rewrite bool_decide_eq_true_2 in Hfuel by done.
    destruct junk as [|j js].
    + rewrite app_nil_r. rewrite vset_app_mid. exec_simpl.
      apply (IH' (out ++ [Z.lnot x]) [] rest).
      * rewrite vsize_app. unfold vsize. simpl. lia.
      * rewrite vsize_app. unfold vsize. simpl. lia.
      * by rewrite <- app_assoc.
      * done.
      * by rewrite <- app_assoc.
      * rewrite <- Hsize, !vsize_app. unfold vsize. simpl. lia.
      * lia.
    + replace ((out ++ j :: js) ++ x :: rest)
        with (out ++ j :: (js ++ x :: rest)) by (by rewrite <- app_assoc).
      rewrite vset_app_mid. exec_simpl.
      apply (IH' (out ++ [Z.lnot x]) (js ++ [x]) rest).
      * rewrite vsize_app. unfold vsize. simpl. lia.
      * rewrite !vsize_app. unfold vsize. simpl. lia.
      * by rewrite <- !app_assoc.
      * done.
      * by rewrite <- app_assoc.
      * rewrite <- Hsize, !vsize_app. unfold vsize. simpl. lia.
      * lia.
  - (* a node: mark it and push its children *)
    assert (0 ≤ x < m) as Hxr by lia.
    unfold expand in Htarget.
    rewrite bool_decide_eq_false_2 in Htarget by done.
    unfold cost in Hfuel. rewrite bool_decide_eq_false_2 in Hfuel by done.
    rewrite vset_app_mid. exec_simpl.
    destruct (vget_lt CHILD x) as [CHD HCHD];
      [destruct Hwf as (_ & -> & _); lia|].
    rewrite HCHD. exec_simpl.
    assert (children CHILD x = CHD) as Hchildren
      by (unfold children; by rewrite HCHD).
    pose proof (children_range_Forall x) as HCHDr. rewrite Hchildren in HCHDr.
    pose proof (desc_of_vsize x Hxr) as Hdx.
    destruct Hwf as (_ & _ & _ & _ & _ & Hsum).
    pose proof (Hsum x Hxr) as Hsx. rewrite Hchildren in Hsx.
    destruct (sum_sizes_ge CHD HCHDr) as [Hk _].
    assert (vsize CHD ≤ vsize junk) as Hroom.
    { rewrite <- Htarget in Hsize. rewrite !vsize_app in Hsize.
      unfold vsize in *. simpl length in Hsize. lia. }
    rewrite <- (take_drop (length junk - length CHD) junk).
    set (jA := take (length junk - length CHD) junk).
    set (jB := drop (length junk - length CHD) junk).
    assert (length jB = length (reverse CHD)) as HjB.
    { unfold jB. rewrite length_drop, length_reverse. unfold vsize in Hroom.
      lia. }
    assert (vsize junk = vsize jA + vsize jB) as Hjunk.
    { unfold jA, jB, vsize. rewrite <- Nat2Z.inj_add, <- length_app.
      by rewrite take_drop. }
    replace ((out ++ jA ++ jB) ++ Z.lnot x :: rest)
      with ((out ++ jA) ++ jB ++ Z.lnot x :: rest)
      by (by rewrite <- !app_assoc).
    replace (vsize (out ++ jA ++ jB)) with (vsize (out ++ jA) + vsize jB)
      by (by rewrite !vsize_app, Z.add_assoc).
    rewrite (push_children_spec _ _ _ _ HjB). exec_simpl.
    rewrite reverse_involutive.
    apply (IH' out jA (CHD ++ Z.lnot x :: rest)).
    + done.
    + by rewrite vsize_app.
    + by rewrite <- !app_assoc.
    + apply Forall_app. split.
      * eapply Forall_impl; [exact HCHDr|]. intros c Hc. simpl in *. lia.
      * apply Forall_cons. split; [|done]. left.
        unfold Z.lnot. lia.
    + rewrite <- Htarget. f_equal. rewrite work_app, work_cons.
      rewrite (work_children CHD HCHDr). unfold expand at 1.
      rewrite bool_decide_eq_true_2 by (unfold Z.lnot; lia).
      rewrite Z.lnot_involutive, (desc_of_unfold x Hxr), Hchildren.
      by rewrite <- app_assoc.
    + rewrite <- Hsize. rewrite !vsize_app, Hjunk.
      unfold vsize. simpl length. rewrite HjB, length_reverse. lia.
    + rewrite total_cost_app, total_cost_cons.
      pose proof (total_cost_children CHD HCHDr) as Hcost.
      unfold cost at 1. rewrite bool_decide_eq_true_2 by (unfold Z.lnot; lia).
      lia.
Qed.

(** [descendants(v, SIZE, CHILD)] returns the post-order listing of the
    subtree of [v]. *)
Lemma descendants_spec (v : Z) :
  0 ≤ v < m →
  ARICluster.descendants v SIZE CHILD = Done (desc_of SIZE CHILD v).
Proof.
  intros Hv. unfold ARICluster.descendants.
  pose proof (size_of_pos v Hv) as Hpos.
  destruct (vget_lt SIZE v) as [sv Hsv]; [destruct Hwf as (-> & _); lia|].
  rewrite Hsv. exec_simpl. rewrite (size_of_Done _ _ _ Hsv) in Hpos.
  rewrite vmake_ge by lia. exec_simpl.
  set (junk := replicate (Z.to_nat (sv - 1)) 0).
  assert (vsize junk = sv - 1) as Hjunk
    by (unfold junk, vsize; rewrite length_replicate; lia).
  replace (replicate (Z.to_nat sv) 0) with (junk ++ 0 :: [])
    by (unfold junk; rewrite <- replicate_S_end; f_equal; lia).
  rewrite <- Hjunk, vset_app_mid. exec_simpl.
  pose proof (descendants_loop_spec (2 * length (junk ++ [v])) [] junk [v]
                (desc_of SIZE CHILD v)) as Hloop.
  change (vsize (@nil Z)) with 0 in Hloop.
  rewrite Z.add_0_l, app_nil_l in Hloop. apply Hloop; clear Hloop.
  - apply Forall_singleton. lia.
  - rewrite work_cons. unfold expand. rewrite bool_decide_eq_false_2 by lia.
    by rewrite app_nil_r.
  - rewrite desc_of_vsize, (size_of_Done _ _ _ Hsv) by done.
    rewrite app_nil_l, vsize_app, Hjunk. unfold vsize. simpl. lia.
  - rewrite total_cost_cons. unfold cost.
    rewrite bool_decide_eq_false_2 by lia.
    rewrite (size_of_Done _ _ _ Hsv), length_app. unfold junk.
    rewrite length_replicate. change (total_cost SIZE []) with 0%nat.
    simpl length. lia.
Qed.

(** *** Subtrees list every node once *)

Lemma descends_size (a x : Z) :
  descends CHILD a x → size_of SIZE x ≤ size_of SIZE a.
Proof.
  induction 1 as [a | a p x _ IH Hx]; [lia|].
  pose proof (child_smaller p x Hx). lia.
Qed.

Lemma child_not_above (p c : Z) :
  c ∈ children CHILD p → ¬ descends CHILD c p.
Proof.
  intros Hc Hd. pose proof (child_smaller p c Hc).
  pose proof (descends_size c p Hd). lia.
Qed.

Lemma NoDup_join_fmap {A B : Type} (f : A → list B) (l : list A) :
  NoDup l →
  (∀ c, c ∈ l → NoDup (f c)) →
  (∀ c1 c2 x, c1 ∈ l → c2 ∈ l → x ∈ f c1 → x ∈ f c2 → c1 = c2) →
  NoDup (mjoin (f <$> l)).
Proof.
  induction 1 as [|c l Hc Hl IH]; intros Hnd Hdisj; csimpl.
  - constructor.
  - apply NoDup_app. split_and!.
    + apply Hnd. by left.
    + intros x Hx (k & Hxk & Hk)%list_elem_of_join.
      apply list_elem_of_fmap in Hk as (c' & -> & Hc').
      assert (c = c') as <-; [|done].
      apply (Hdisj c c' x); [by left | by right | done..].
    + apply IH.
      * intros c' Hc'. apply Hnd. by right.
      * intros c1 c2 x H1 H2. apply Hdisj; by right.
Qed.

Lemma children_NoDup (v : Z) : NoDup (children CHILD v).
Proof.
  unfold children. destruct (vget CHILD v) as [CHD| |] eqn:Hv;
    try constructor.
  apply vget_Done in Hv as [_ Hv].
  destruct Hwf as (_ & _ & _ & Hnd & _).
  apply NoDup_app in Hnd as (_ & _ & Hnd).
  apply list_elem_of_lookup_2 in Hv.
  clear -Hnd Hv. induction CHILD as [|l L IH]; [by apply elem_of_nil in Hv|].
  csimpl in Hnd. apply NoDup_app in Hnd as (Hl & _ & HL).
  apply elem_of_cons in Hv as [->|Hv]; [done|]. by apply IH.
Qed.

Lemma desc_of_NoDup_below (n : nat) (v : Z) :
  0 ≤ v < m → size_of SIZE v ≤ Z.of_nat n → NoDup (desc_of SIZE CHILD v).
Proof.
  revert v. induction n as [|n IH]; intros v Hv Hn.
  - pose proof (size_of_pos v Hv). lia.
  - rewrite (desc_of_unfold v Hv). apply NoDup_app. split_and!.
    + apply NoDup_join_fmap.
      * apply children_NoDup.
      * intros c Hc. apply IH; [by eapply children_in_range|].
        pose proof (child_smaller v c Hc). lia.
      * intros c1 c2 x Hc1 Hc2 Hx1 Hx2.
        apply desc_of_descends in Hx1; [|by eapply children_in_range].
        apply desc_of_descends in Hx2; [|by eapply children_in_range].
        destruct (descends_nested c1 c2 x Hx1 Hx2) as [Hd|Hd].
        -- destruct Hd as [|? p ? Hd Hp]; [done|].
           rewrite (parent_unique p v _ Hp Hc2) in Hd.
           by apply child_not_above in Hd.
        -- destruct Hd as [|? p ? Hd Hp]; [done|].
           rewrite (parent_unique p v _ Hp Hc1) in Hd.
           by apply child_not_above in Hd.
    + intros x (k & Hxk & Hk)%list_elem_of_join ->%list_elem_of_singleton.
      apply list_elem_of_fmap in Hk as (c & -> & Hc).
      apply desc_of_descends in Hxk; [|by eapply children_in_range].
      by apply child_not_above in Hxk.
    + apply NoDup_singleton.
Qed.

Lemma desc_of_NoDup (v : Z) : 0 ≤ v < m → NoDup (desc_of SIZE CHILD v).
Proof.
  intros Hv. apply (desc_of_NoDup_below (Z.to_nat (size_of SIZE v)) v Hv).
  pose proof (size_of_pos v Hv). lia.
Qed.

(** No subtree has more than [m] nodes. *)
Lemma size_of_le (v : Z) : 0 ≤ v < m → size_of SIZE v ≤ m.
Proof.
  intros Hv. rewrite <- (desc_of_vsize v Hv).
  assert (desc_of SIZE CHILD v ⊆+ seqZ 0 m) as Hsub.
  { apply NoDup_submseteq; [by apply desc_of_NoDup|].
    intros x Hx%desc_of_in_range; [|done]. apply elem_of_seqZ. lia. }
  apply submseteq_length in Hsub. rewrite length_seqZ in Hsub.
  unfold vsize. lia.
Qed.

(** *** [queryPreparation] collects admissible nodes *)

Variable TDP : list Q.
Hypothesis HTDP : vsize TDP = m.

Lemma tdp_of_Done (v : Z) : 0 ≤ v < m → vget TDP v = Done (tdp_of TDP v).
Proof.
  intros Hv. unfold tdp_of. by destruct (vget_lt TDP v) as [t ->]; [lia|].
Qed.

Lemma double_to_int_inject (c : Z) :
  ARICluster.double_to_int (inject_Z c) = c.
Proof. unfold ARICluster.double_to_int. simpl. apply Z.quot_1_r. Qed.

Lemma std_max_l (a b : Q) : (a <= ARICluster.std_max a b)%Q.
Proof.
  unfold ARICluster.std_max. destruct (Qltb a b) eqn:E.
  - apply Qltb_lt in E. by apply Qlt_le_weak.
  - apply Qle_refl.
Qed.

Lemma std_max_r (a b : Q) : (b <= ARICluster.std_max a b)%Q.
Proof.
  unfold ARICluster.std_max. destruct (Qltb a b) eqn:E.
  - apply Qle_refl.
  - by apply Qltb_ge in E.
Qed.

Lemma walk_stack_cons (p : Q * Z) (ps : list (Q * Z)) :
  walk_stack (p :: ps) = p.1 :: inject_Z p.2 :: walk_stack ps.
Proof. done. Qed.

Lemma walk_push (q : Q) (CHD : list Z) (ps : list (Q * Z)) :
  foldl (λ STACK c, q :: inject_Z c :: STACK) (walk_stack ps) CHD
  = walk_stack (reverse ((λ c, (q, c)) <$> CHD) ++ ps).
Proof.
  revert ps. induction CHD as [|c CHD IH]; intros ps; [done|].
  csimpl. rewrite reverse_cons, <- app_assoc.
  change (q :: inject_Z c :: walk_stack ps) with (walk_stack ((q, c) :: ps)).
  by rewrite IH.
Qed.

Lemma sum_sizes_append (l1 l2 : list Z) :
  sum_sizes SIZE (l1 ++ l2) = sum_sizes SIZE l1 + sum_sizes SIZE l2.
Proof.
  unfold sum_sizes. induction l1 as [|c l1 IH]; [done|].
  simpl. rewrite IH. lia.
Qed.

Lemma sum_sizes_reverse (l : list Z) :
  sum_sizes SIZE (reverse l) = sum_sizes SIZE l.
Proof.
  induction l as [|c l IH]; [done|].
  rewrite reverse_cons, sum_sizes_append, IH. unfold sum_sizes. simpl. lia.
Qed.

Lemma walk_cost_cons (p : Q * Z) (ps : list (Q * Z)) :
  walk_cost SIZE (p :: ps) = size_of SIZE p.2 + walk_cost SIZE ps.
Proof. done. Qed.

Lemma walk_cost_push (q : Q) (CHD : list Z) (ps : list (Q * Z)) :
  walk_cost SIZE (reverse ((λ c, (q, c)) <$> CHD) ++ ps)
  = sum_sizes SIZE CHD + walk_cost SIZE ps.
Proof.
  unfold walk_cost. rewrite fmap_app, sum_sizes_append, fmap_reverse.
  rewrite sum_sizes_reverse, <- list_fmap_compose.
  f_equal. f_equal. by rewrite <- (list_fmap_id CHD) at 2.
Qed.

Lemma walk_cost_nonneg (ps : list (Q * Z)) :
  Forall (entry_ok m CHILD TDP) ps → 0 ≤ walk_cost SIZE ps.
Proof.
  induction 1 as [|p ps [Hp _] _ IH]; [done|].
  rewrite walk_cost_cons. pose proof (size_of_pos p.2 Hp). lia.
Qed.

(** The walk below the entries of the stack completes within the number
    of nodes still to visit, and only collects admissible nodes. *)
Lemma admissible_walk_spec (fuel : nat) (ps : list (Q * Z)) (A : list Z) :
  Forall (entry_ok m CHILD TDP) ps →
  Forall (collected_ok m CHILD TDP) A →
  walk_cost SIZE ps ≤ Z.of_nat fuel →
  ∃ l, ARICluster.admissible_walk fuel TDP CHILD (walk_stack ps) A = Done l ∧
       Forall (collected_ok m CHILD TDP) l.
Proof.
  revert ps A. induction fuel as [|fuel IH]; intros ps A Hps HA Hfuel.
  - destruct ps as [|p ps]; [by exists A|]. exfalso.
    apply Forall_cons in Hps as [[Hp _] Hps].
    pose proof (walk_cost_nonneg ps Hps). rewrite walk_cost_cons in Hfuel.
    pose proof (size_of_pos p.2 Hp). lia.
  - destruct ps as [|[q v] ps]; [by exists A|].
    apply Forall_cons in Hps as [[Hv Hq] Hps]. simpl in Hv, Hq.
    rewrite walk_stack_cons. cbn [ARICluster.admissible_walk fst snd].
    rewrite double_to_int_inject, (tdp_of_Done v Hv). exec_simpl.
    destruct (vget_lt CHILD v) as [CHD HCHD];
      [destruct Hwf as (_ & -> & _); lia|].
    rewrite HCHD. exec_simpl. rewrite walk_push.
    assert (children CHILD v = CHD) as Hchildren
      by (unfold children; by rewrite HCHD).
    pose proof (children_range_Forall v) as HCHDr.
    rewrite Hchildren in HCHDr.
    apply IH.
    + apply Forall_app. split; [|done].
      apply Forall_reverse, Forall_fmap, Forall_forall.
      intros c Hc. split; simpl.
      * rewrite Forall_forall in HCHDr. by apply HCHDr.
      * intros a Ha Hne. destruct Ha as [|a p c Ha Hp]; [done|].
        rewrite <- Hchildren in Hc.
        rewrite (parent_unique p v c Hp Hc) in Ha.
        destruct (decide (a = v)) as [->|Hav]; [apply std_max_l|].
        eapply Qle_trans; [by apply Hq | apply std_max_r].
    + destruct (Qgtb (tdp_of TDP v) q) eqn:Hgt; [|done].
      apply Forall_app. split; [done|].
      apply Forall_singleton. split; [done|].
      intros a Ha Hne. eapply Qle_lt_trans; [by apply Hq|].
      by apply Qltb_lt.
    + rewrite walk_cost_push. rewrite walk_cost_cons in Hfuel. simpl in Hfuel.
      destruct Hwf as (_ & _ & _ & _ & _ & Hsum).
      pose proof (Hsum v Hv) as Hsv. rewrite Hchildren in Hsv. lia.
Qed.

Lemma collect_admissible_spec :
  ∃ l, ARICluster.collect_admissible m ROOT TDP CHILD = Done l ∧
       Forall (collected_ok m CHILD TDP) l.
Proof.
  unfold ARICluster.collect_admissible.
  apply for_each_inv; [constructor|].
  intros r A Hr HA.
  assert (0 ≤ r < m) as Hrm.
  { destruct Hwf as (_ & _ & Hrange & _).
    rewrite Forall_forall in Hrange. apply Hrange, elem_of_app. by left. }
  change [(-1)%Q; inject_Z r] with (walk_stack [((-1)%Q, r)]).
  apply admissible_walk_spec; [|done|].
  - apply Forall_singleton. split; [done|]. simpl.
    intros a Ha Hne. destruct Ha as [|a p r Ha Hp]; [done|].
    by apply root_no_parent in Hp.
  - rewrite walk_cost_cons. simpl. change (walk_cost SIZE []) with 0.
    pose proof (size_of_le r Hrm). lia.
Qed.

(** *** [findLeft] *)

Variable ADMSTC : list Z.
Hypothesis Hprep : ARICluster.queryPreparation m ROOT TDP CHILD ADMSTC.

Lemma ADMSTC_ok : Forall (collected_ok m CHILD TDP) ADMSTC.
Proof.
  destruct Hprep as (l & Hl & Hperm & _).
  destruct collect_admissible_spec as (l' & Hl' & Hok).
  rewrite Hl in Hl'. injection Hl' as <-. by rewrite <- Hperm.
Qed.

Lemma ADMSTC_lookup (i : nat) (a : Z) :
  ADMSTC !! i = Some a → 0 ≤ a < m ∧ admissible CHILD TDP a.
Proof.
  intros Ha. pose proof ADMSTC_ok as Hok.
  rewrite Forall_lookup in Hok. by apply (Hok i).
Qed.

Lemma ADMSTC_sorted (i j : nat) (a b : Z) :
  (i < j)%nat → ADMSTC !! i = Some a → ADMSTC !! j = Some b →
  (tdp_of TDP a <= tdp_of TDP b)%Q.
Proof.
  intros Hij Ha Hb. destruct Hprep as (_ & _ & _ & Hsorted).
  apply (Hsorted i j a b); [done..| |].
  - apply tdp_of_Done. by apply (ADMSTC_lookup i).
  - apply tdp_of_Done. by apply (ADMSTC_lookup j).
Qed.

Lemma from_above_end (gamma : Q) :
  from_above TDP ADMSTC gamma (vsize ADMSTC).
Proof.
  intros i a Hi Ha. apply lookup_lt_Some in Ha. unfold vsize in Hi. lia.
Qed.

(** An entry of TDP at least [gamma] bounds everything to its right. *)
Lemma from_above_sorted (gamma : Q) (i : Z) (a : Z) :
  0 ≤ i → vget ADMSTC i = Done a → (gamma <= tdp_of TDP a)%Q →
  from_above TDP ADMSTC gamma i.
Proof.
  intros Hi [_ Ha]%vget_Done Hge j b Hj Hb.
  destruct (decide (j = i)) as [->|Hne].
  - rewrite Ha in Hb. by injection Hb as <-.
  - eapply Qle_trans; [done|].
    apply (ADMSTC_sorted (Z.to_nat i) (Z.to_nat j)); [lia | done..].
Qed.

(** One more entry of TDP at least [gamma] on the left. *)
Lemma from_above_pred (gamma : Q) (right : Z) (a : Z) :
  1 ≤ right → vget ADMSTC (right - 1) = Done a →
  (gamma <= tdp_of TDP a)%Q →
  from_above TDP ADMSTC gamma right →
  from_above TDP ADMSTC gamma (right - 1).
Proof.
  intros Hr [_ Ha]%vget_Done Hge Hright j b Hj Hb.
  destruct (decide (j = right - 1)) as [->|Hne].
  - rewrite Ha in Hb. by injection Hb as <-.
  - apply (Hright j b); [lia | done].
Qed.

Lemma findLeft_loop_spec (gamma : Q) (fuel : nat) (right low high : Z) :
  0 ≤ low ≤ high → high ≤ vsize ADMSTC →
  high - low ≤ right ≤ vsize ADMSTC →
  high - low ≤ Z.of_nat fuel →
  from_above TDP ADMSTC gamma high →
  from_above TDP ADMSTC gamma right →
  ∃ left,
    ARICluster.findLeft_loop fuel gamma ADMSTC TDP right low high = Done left ∧
    0 ≤ left ≤ vsize ADMSTC ∧ from_above TDP ADMSTC gamma left.
Proof.
  revert right low high.
  induction fuel as [|fuel IH];
    intros right low high Hlow Hhigh Hright Hfuel Hbin Hlin;
    cbn [ARICluster.findLeft_loop]; case_bool_decide as Hlt.
  - lia.
  - exists low. assert (low = high) as -> by lia. split_and!; [done|lia..|done].
  - assert (low ≤ (low + high) `quot` 2 < high) as Hmid.
    { rewrite Z.quot_div_nonneg by lia.
      pose proof (Z.div_mod (low + high) 2).
      pose proof (Z.mod_pos_bound (low + high) 2). lia. }
    set (mid := (low + high) `quot` 2) in *.
    destruct (vget_lt ADMSTC mid) as [am Ham]; [lia|].
    rewrite Ham. exec_simpl.
    pose proof (ADMSTC_lookup _ _ (proj2 (proj1 (vget_Done _ _ _) Ham)))
      as [Hamr _].
    rewrite (tdp_of_Done am Hamr). exec_simpl.
    set (lh := if Qgeb (tdp_of TDP am) gamma then (low, mid)
               else (mid + 1, high)).
    assert (0 ≤ lh.1 ≤ lh.2 ∧ lh.2 ≤ vsize ADMSTC ∧
            lh.2 - lh.1 < high - low ∧
            from_above TDP ADMSTC gamma lh.2) as (Hl1 & Hl2 & Hl3 & Hl4).
    { unfold lh. destruct (Qgeb (tdp_of TDP am) gamma) eqn:Hge; simpl.
      - split_and!; try lia.
        apply (from_above_sorted gamma mid am); [lia | done |].
        by apply Qgeb_ge.
      - split_and!; try lia. done. }
    destruct lh as [low' high']. simpl in Hl1, Hl2, Hl3, Hl4.
    destruct (vget_lt ADMSTC (right - 1)) as [ar Har]; [lia|].
    rewrite Har. exec_simpl.
    pose proof (ADMSTC_lookup _ _ (proj2 (proj1 (vget_Done _ _ _) Har)))
      as [Harr _].
    rewrite (tdp_of_Done ar Harr). exec_simpl.
    destruct (Qltb (tdp_of TDP ar) gamma) eqn:Hlt'.
    + exists (right - 1 + 1). replace (right - 1 + 1) with right by lia.
      split_and!; [done | lia.. | done].
    + apply IH; try lia; try done.
      apply (from_above_pred gamma right ar); [lia | done | | done].
      by apply Qltb_ge.
  - exists low. assert (low = high) as -> by lia. split_and!; [done|lia..|done].
Qed.

Lemma findLeft_spec (gamma : Q) :
  ∃ left, ARICluster.findLeft gamma ADMSTC TDP = Done left ∧
          0 ≤ left ≤ vsize ADMSTC ∧ from_above TDP ADMSTC gamma left.
Proof.
  unfold ARICluster.findLeft.
  apply findLeft_loop_spec; unfold vsize; try lia;
    apply from_above_end.
Qed.

(** *** [answerQuery] *)

Lemma set_marks_spec (CL : list Z) (x : Z) (MARK : list Z) :
  Forall (λ d, 0 ≤ d < m) CL → vsize MARK = m →
  ∃ MARK', ARICluster.set_marks CL x MARK = Done MARK' ∧ vsize MARK' = m ∧
           ∀ y, vget MARK' y
                = if bool_decide (y ∈ CL) then Done x else vget MARK y.
Proof.
  unfold ARICluster.set_marks. revert MARK.
  induction CL as [|d CL IH]; intros MARK HCL HMARK.
  - exists MARK. split_and!; [done..|]. intros y.
    rewrite bool_decide_eq_false_2; [done|]. apply not_elem_of_nil.
  - apply Forall_cons in HCL as [Hd HCL]. cbn [for_each].
    destruct (vset MARK d x) as [M1| |] eqn:HM1.
    2, 3: rewrite vset_lt in HM1 by lia; done.
    exec_simpl.
    destruct (IH M1 HCL) as (MARK' & Hrun & Hsize & Hget).
    { by rewrite (vsize_vset _ _ _ _ HM1). }
    exists MARK'. split_and!; [done..|]. intros y. rewrite Hget.
    destruct (decide (y ∈ CL)) as [Hy|Hy].
    + rewrite !bool_decide_eq_true_2; [done| by right | done].
    + rewrite (bool_decide_eq_false_2 _ Hy).
      destruct (decide (y = d)) as [->|Hyd].
      * rewrite bool_decide_eq_true_2 by by left.
        by apply (vget_vset_eq _ _ _ _ HM1).
      * rewrite bool_decide_eq_false_2.
        -- by apply (vget_vset_ne _ _ _ _ _ HM1).
        -- intros [?|?]%elem_of_cons; done.
Qed.

Lemma no_marks_marks : marks [] (no_marks m) m.
Proof.
  assert (0 ≤ m) as Hm.
  { destruct Hwf as (<- & _). unfold vsize. lia. }
  unfold no_marks. split.
  - unfold vsize. rewrite length_replicate. lia.
  - intros x Hx. rewrite bool_decide_eq_false_2 by apply not_elem_of_nil.
    apply vget_Done. split; [lia|]. apply lookup_replicate_2. lia.
Qed.

Lemma all_zero_no_marks (MARK : list Z) :
  vsize MARK = m → (∀ x, 0 ≤ x < m → vget MARK x = Done 0) →
  MARK = no_marks m.
Proof.
  intros Hsize Hzero. unfold no_marks. apply list_eq. intros i.
  destruct (decide (i < Z.to_nat m)%nat) as [Hi|Hi].
  - rewrite lookup_replicate_2 by done.
    pose proof (Hzero (Z.of_nat i) ltac:(lia)) as [_ Hget]%vget_Done.
    by rewrite Nat2Z.id in Hget.
  - rewrite lookup_ge_None_2 by (unfold vsize in Hsize; lia).
    symmetry. apply lookup_replicate_None. lia.
Qed.

(** The body of the loop of [answerQuery] keeps its invariant. *)
Lemma emit_step_spec (left j : Z) (st : list (list Z) * list Z) :
  0 ≤ left ≤ j → j < vsize ADMSTC →
  emitted m SIZE CHILD ADMSTC left j st →
  ∃ st', ARICluster.emit_step ADMSTC SIZE CHILD j st = Done st' ∧
         emitted m SIZE CHILD ADMSTC left (j + 1) st'.
Proof.
  intros Hleft Hj. destruct st as [ANS MARK].
  intros ((Hsize & Hmarks) & Hnd & Hfrom). simpl in *.
  assert (Forall (λ CL, ∃ k a, left ≤ k < j + 1 ∧
                               ADMSTC !! Z.to_nat k = Some a ∧
                               CL = desc_of SIZE CHILD a) ANS) as Hfrom'.
  { eapply Forall_impl; [exact Hfrom|].
    intros CL (k & a & Hk & Ha & ->). exists k, a. split_and!; try done; lia. }
  destruct (vget_lt ADMSTC j) as [a Ha]; [lia|].
  rewrite Ha. exec_simpl.
  pose proof Ha as [_ Hlookup]%vget_Done.
  destruct (ADMSTC_lookup _ _ Hlookup) as [Har Hadm].
  rewrite (Hmarks a Har). exec_simpl.
  destruct (decide (a ∈ mjoin ANS)) as [Hin|Hin].
  { (* [a] lies in a cluster emitted before *)
    rewrite (bool_decide_eq_true_2 _ Hin).
    rewrite bool_decide_eq_false_2 by done.
    eexists. split; [done|]. by split_and!. }
  rewrite (bool_decide_eq_false_2 _ Hin).
  rewrite bool_decide_eq_true_2 by done.
  rewrite (descendants_spec a Har). exec_simpl.
  destruct (set_marks_spec (desc_of SIZE CHILD a) 1 MARK)
    as (MARK' & -> & Hsize' & Hget); [|done|].
  { apply Forall_forall. intros x Hx. by eapply desc_of_in_range. }
  exec_simpl. eexists. split; [done|].
  assert (mjoin (ANS ++ [desc_of SIZE CHILD a])
          = mjoin ANS ++ desc_of SIZE CHILD a) as Hjoin.
  { rewrite join_app. csimpl. by rewrite app_nil_r. }
  split_and!; simpl.
  - split; [done|]. intros y Hy. rewrite Hget, Hjoin.
    destruct (decide (y ∈ desc_of SIZE CHILD a)) as [Hya|Hya].
    + rewrite !bool_decide_eq_true_2; [done | | done].
      apply elem_of_app. by right.
    + rewrite (bool_decide_eq_false_2 _ Hya), (Hmarks y Hy). f_equal.
      destruct (decide (y ∈ mjoin ANS)) as [Hyo|Hyo].
      * rewrite !bool_decide_eq_true_2; [done | | done].
        apply elem_of_app. by left.
      * rewrite !bool_decide_eq_false_2; [done | | done].
        intros [?|?]%elem_of_app; done.
  - rewrite Hjoin. apply NoDup_app. split_and!; [done | |].
    + (* an earlier cluster and the new one share no voxel *)
      intros x (CL & Hx & HCL)%list_elem_of_join Hxa.
      rewrite Forall_forall in Hfrom.
      destruct (Hfrom CL HCL) as (k & b & Hk & Hb & ->).
      destruct (ADMSTC_lookup _ _ Hb) as [Hbr Hbadm].
      apply desc_of_descends in Hx; [|done].
      apply desc_of_descends in Hxa; [|done].
      assert (b ∈ mjoin ANS) as Hbin.
      { apply list_elem_of_join. eexists. split; [|done].
        by apply desc_of_self. }
      destruct (descends_nested b a x Hx Hxa) as [Hd|Hd].
      * (* [a] below [b]: then [a] was marked *)
        apply Hin, list_elem_of_join. eexists. split; [|done].
        by apply descends_desc_of.
      * (* [b] below [a]: then [b] comes after [a] in [ADMSTC] *)
        destruct (decide (a = b)) as [->|Hne]; [done|].
        pose proof (Hbadm a Hd Hne) as Hlt.
        pose proof (ADMSTC_sorted (Z.to_nat k) (Z.to_nat j) b a
                      ltac:(lia) Hb Hlookup) as Hle.
        by apply Qlt_not_le in Hlt.
    + by apply desc_of_NoDup.
  - apply Forall_app. split; [done|]. apply Forall_singleton.
    exists j, a. split_and!; try done; lia.
Qed.

(** Clearing the marks of the emitted clusters clears [MARK]. *)
Lemma clear_marks_spec (ANS : list (list Z)) (MARK : list Z) :
  Forall (Forall (λ d, 0 ≤ d < m)) ANS → vsize MARK = m →
  (∀ x, 0 ≤ x < m → vget MARK x ≠ Done 0 → x ∈ mjoin ANS) →
  for_each ANS (λ CL MARK, ARICluster.set_marks CL 0 MARK) MARK
  = Done (no_marks m).
Proof.
  revert MARK. induction ANS as [|CL ANS IH]; intros MARK HANS Hsize Hmarks.
  - simpl. f_equal. apply all_zero_no_marks; [done|].
    intros x Hx. destruct (vget_lt MARK x) as [v Hv]; [lia|].
    destruct (decide (v = 0)) as [->|Hne]; [done|].
    exfalso. eapply not_elem_of_nil, (Hmarks x Hx). rewrite Hv. congruence.
  - apply Forall_cons in HANS as [HCL HANS]. cbn [for_each].
    destruct (set_marks_spec CL 0 MARK HCL Hsize)
      as (M1 & -> & Hsize1 & Hget).
    exec_simpl. apply IH; [done..|].
    intros x Hx Hne. rewrite Hget in Hne.
    case_bool_decide as HxCL; [done|].
    specialize (Hmarks x Hx Hne). csimpl in Hmarks.
    apply elem_of_app in Hmarks as [?|?]; done.
Qed.

(** [answerQuery] on the admissible nodes of a forest: it completes and
    leaves [MARK] cleared; the clusters it returns share no voxel, and
    the representative of each has a TDP of at least [gamma] and at
    least [0]. *)
Lemma answer_gamma_spec (gamma : Q) :
  ∃ ANS,
    ARICluster.answer_gamma gamma ADMSTC SIZE (no_marks m) TDP CHILD
    = Done (ANS, no_marks m) ∧
    pairwise_disjoint ANS ∧
    ∀ CL, CL ∈ ANS →
          ∃ c, representative CL = Some c ∧ 0 ≤ c < m ∧
               (gamma <= tdp_of TDP c)%Q ∧ (0 <= tdp_of TDP c)%Q.
Proof.
  unfold ARICluster.answer_gamma.
  set (gamma' := if Qltb gamma 0 then 0%Q else gamma).
  assert ((gamma <= gamma')%Q ∧ (0 <= gamma')%Q) as [Hg Hg0].
  { unfold gamma'. destruct (Qltb gamma 0) eqn:E.
    - apply Qltb_lt in E. split; [by apply Qlt_le_weak | apply Qle_refl].
    - apply Qltb_ge in E. split; [apply Qle_refl | done]. }
  destruct (findLeft_spec gamma') as (left & -> & Hleft & Habove).
  exec_simpl.
  destruct (for_up_inv (emitted m SIZE CHILD ADMSTC left)
              (Z.to_nat (vsize ADMSTC - left)) left
              (ARICluster.emit_step ADMSTC SIZE CHILD) ([], no_marks m))
    as ([ANS MARK] & -> & (Hsize & Hmarks) & Hnd & Hfrom).
  { split_and!; simpl; [apply no_marks_marks | constructor | constructor]. }
  { intros j st Hj Hst. apply emit_step_spec; [lia | lia | done]. }
  simpl in Hsize, Hmarks, Hnd, Hfrom. exec_simpl.
  rewrite Forall_forall in Hfrom.
  rewrite (clear_marks_spec ANS MARK); [| |done|].
  - exec_simpl. exists ANS. split_and!; [done | |].
    + intros i j c1 c2 x Hi Hj Hx1 Hx2.
      by apply (NoDup_concat_unique ANS i j c1 c2 x).
    + intros CL (k & a & Hk & Ha & ->)%Hfrom.
      destruct (ADMSTC_lookup _ _ Ha) as [Har _].
      exists a. unfold representative. split_and!; [|lia|lia| |].
      * by apply desc_of_last.
      * eapply Qle_trans; [done|]. apply (Habove k a); [lia | done].
      * eapply Qle_trans; [done|]. apply (Habove k a); [lia | done].
  - apply Forall_forall. intros CL (k & a & Hk & Ha & ->)%Hfrom.
    destruct (ADMSTC_lookup _ _ Ha) as [Har _].
    apply Forall_forall. intros x Hx. by eapply desc_of_in_range.
  - intros x Hx Hne. rewrite (Hmarks x Hx) in Hne.
    case_bool_decide; [done|]. by destruct Hne.
Qed.

(** [answerQueryBatch] repeats the same statements for every threshold
    of the batch, so that it leaves [MARK] cleared too. *)
Lemma answerQueryBatch_restores_marks (gamma_batch : list Q) :
  ∃ batch_results,
    ARICluster.answerQueryBatch gamma_batch ADMSTC SIZE (no_marks m) TDP CHILD
    = Done (batch_results, no_marks m).
Proof.
  unfold ARICluster.answerQueryBatch.
  destruct (for_each_inv (λ st : list (list (list Z)) * list Z,
                            st.2 = no_marks m)
              gamma_batch
              (λ gamma '(batch_results, MARK),
                 '(result, MARK) ←
                   ARICluster.answer_gamma gamma ADMSTC SIZE MARK TDP CHILD;
                 Done (batch_results ++ [result], MARK))
              ([], no_marks m)) as ([results MARK] & Hrun & HMARK).
  - done.
  - intros gamma [acc MARK] _ HMARK. simpl in HMARK. subst MARK.
    destruct (answer_gamma_spec gamma) as (ANS & -> & _). exec_simpl.
    by eexists.
  - simpl in HMARK. subst MARK. by exists results.
Qed.

End Forest.

(** C2.  On every valid input of the query engine -- a cluster forest
    over [m] voxels with its subtree sizes, a TDP value per voxel, the
    list [ADMSTC] left by [queryPreparation] and a cleared [MARK] -- and
    for every threshold [gamma], [answerQuery] completes and leaves [MARK]
    cleared; the clusters it returns are pairwise voxel-disjoint, and the
    representative [c] (the last element) of every returned cluster has
    [TDP[c] >= gamma] and [TDP[c] >= 0], that is
    [TDP[c] >= max(gamma, 0)]. *)
Theorem answerQuery_disjoint_above_gamma (m : Z) (SIZE ROOT : list Z)
    (CHILD : list (list Z)) (TDP : list Q) (ADMSTC : list Z) (gamma : Q) :
  forest_wf m SIZE ROOT CHILD →
  vsize TDP = m →
  ARICluster.queryPreparation m ROOT TDP CHILD ADMSTC →
  ∃ ANS,
    ARICluster.answerQuery gamma ADMSTC SIZE (no_marks m) TDP CHILD
    = Done (ANS, no_marks m) ∧
    pairwise_disjoint ANS ∧
    ∀ CL, CL ∈ ANS →
          ∃ c t, representative CL = Some c ∧ vget TDP c = Done t ∧
                 (gamma <= t)%Q ∧ (0 <= t)%Q.
Proof.
  intros Hwf HTDP Hprep. unfold ARICluster.answerQuery.
  destruct (answer_gamma_spec m SIZE ROOT CHILD Hwf TDP HTDP ADMSTC Hprep
              gamma) as (ANS & Hrun & Hdisj & Hrep).
  exists ANS. split_and!; [done..|].
  intros CL (c & Hc & Hcr & Hg & H0)%Hrep.
  exists c, (tdp_of TDP c). split_and!; [done | | done..].
  by apply (tdp_of_Done m).
Qed.

Lemma answerQuery_disjoint_above_gamma_witness :
  ∃ ANS,
    ARICluster.answerQuery (3 # 4) [0; 1; 2] [2; 1; 1] (no_marks 3)
      [(1 # 2)%Q; 1%Q; 1%Q] [[1]; []; []]
    = Done (ANS, no_marks 3) ∧
    pairwise_disjoint ANS ∧
    ∀ CL, CL ∈ ANS →
          ∃ c t, representative CL = Some c ∧
                 vget [(1 # 2)%Q; 1%Q; 1%Q] c = Done t ∧
                 (3 # 4 <= t)%Q ∧ (0 <= t)%Q.
Proof.
  apply (answerQuery_disjoint_above_gamma 3 [2; 1; 1] [0; 2] [[1]; []; []]).
  - split_and!; [reflexivity | reflexivity | | | |].
    + repeat constructor; lia.
    + apply (bool_decide_unpack _). reflexivity.
    + repeat constructor; lia.
    + intros v Hv.
      assert (v = 0 ∨ v = 1 ∨ v = 2) as [->|[->| ->]] by lia; reflexivity.
  - reflexivity.
  - exists [0; 1; 2]. split_and!; [reflexivity | done |].
    intros i j a b ta tb Hij Ha Hb Hta Htb.
    destruct i as [|[|[|i]]], j as [|[|[|j]]]; simpl in Ha, Hb;
      try discriminate; try lia;
      injection Ha as <-; injection Hb as <-;
      vm_compute in Hta, Htb;
      injection Hta as <-; injection Htb as <-; by vm_compute.
Defined.

(** * Part III: further properties of the engine *)

(** A small forest used to instantiate the statements below: node [0]
    has the child [1], node [2] stands alone. *)
Lemma small_forest_wf : forest_wf 3 [2; 1; 1] [0; 2] [[1]; []; []].
Proof.
  split_and!; [reflexivity | reflexivity | | | |].
  - repeat constructor; lia.
  - apply (bool_decide_unpack _). reflexivity.
  - repeat constructor; lia.
  - intros v Hv.
    assert (v = 0 ∨ v = 1 ∨ v = 2) as [->|[->| ->]] by lia; reflexivity.
Qed.

Lemma small_forest_prep :
  ARICluster.queryPreparation 3 [0; 2] [(1 # 2)%Q; 1%Q; 1%Q] [[1]; []; []]
    [0; 1; 2].
Proof.
  exists [0; 1; 2]. split_and!; [reflexivity | done |].
  intros i j a b ta tb Hij Ha Hb Hta Htb.
  destruct i as [|[|[|i]]], j as [|[|[|j]]]; simpl in Ha, Hb;
    try discriminate; try lia;
    injection Ha as <-; injection Hb as <-;
    vm_compute in Hta, Htb;
    injection Hta as <-; injection Htb as <-; by vm_compute.
Qed.

(** ** [descendants] *)

(** X1.  On a forest, [descendants(v, SIZE, CHILD)] completes for every
    node [v]; the vector it returns has [SIZE[v]] entries, ends with [v],
    lists no node twice, and holds exactly the nodes of the subtree of
    [v]. *)
Theorem descendants_lists_subtree (m : Z) (SIZE ROOT : list Z)
    (CHILD : list (list Z)) (v : Z) :
  forest_wf m SIZE ROOT CHILD → 0 ≤ v < m →
  ∃ DESC, ARICluster.descendants v SIZE CHILD = Done DESC ∧
          vget SIZE v = Done (vsize DESC) ∧
          last DESC = Some v ∧
          NoDup DESC ∧
          ∀ x, x ∈ DESC ↔ descends CHILD v x.
Proof.
  intros Hwf Hv. exists (desc_of SIZE CHILD v). split_and!.
  - by eapply descendants_spec.
  - rewrite (desc_of_vsize m SIZE ROOT CHILD Hwf v Hv).
    destruct (vget_lt SIZE v) as [s Hs]; [destruct Hwf as (-> & _); lia|].
    by rewrite (size_of_Done _ _ _ Hs).
  - by eapply desc_of_last.
  - by eapply desc_of_NoDup.
  - intros x. split.
    + by eapply desc_of_descends.
    + by eapply descends_desc_of.
Qed.

Lemma descendants_lists_subtree_witness :
  ∃ DESC, ARICluster.descendants 0 [2; 1; 1] [[1]; []; []] = Done DESC ∧
          vget [2; 1; 1] 0 = Done (vsize DESC) ∧
          last DESC = Some 0 ∧
          NoDup DESC ∧
          ∀ x, x ∈ DESC ↔ descends [[1]; []; []] 0 x.
Proof.
  apply (descendants_lists_subtree 3 [2; 1; 1] [0; 2] [[1]; []; []] 0).
  - apply small_forest_wf.
  - lia.
Defined.

Lemma desc_of_heavy_prefix (m : Z) (SIZE ROOT : list Z)
    (CHILD : list (list Z)) (s v : Z) :
  forest_wf m SIZE ROOT CHILD → 0 ≤ s < m →
  on_heavy_path CHILD s v →
  0 ≤ v < m ∧ desc_of SIZE CHILD v `prefix_of` desc_of SIZE CHILD s.
Proof.
  intros Hwf Hs. induction 1 as [|v c0 _ [Hv IH] Hc0]; [done|].
  assert (c0 ∈ children CHILD v) as Hin.
  { destruct (children CHILD v); [done|]. injection Hc0 as ->. by left. }
  split; [by eapply children_in_range|].
  etrans; [|exact IH].
  rewrite (desc_of_unfold m SIZE ROOT CHILD Hwf v Hv).
  destruct (children CHILD v) as [|c CHD]; [done|]. injection Hc0 as ->.
  csimpl. rewrite <- app_assoc. by apply prefix_app_r.
Qed.

(** X2.  The listing of a subtree starts with the listing of the subtree
    of every node on its heavy path: for [v] on the heavy path from [s],
    the first [SIZE[v]] entries of [descendants(s)] are [descendants(v)].
    [heavyPathTDP] relies on this when it reads one [findDiscoveries]
    result for the whole path. *)
Theorem descendants_heavy_prefix (m : Z) (SIZE ROOT : list Z)
    (CHILD : list (list Z)) (s v : Z) :
  forest_wf m SIZE ROOT CHILD → 0 ≤ s < m →
  on_heavy_path CHILD s v →
  ∃ Ds Dv sv, ARICluster.descendants s SIZE CHILD = Done Ds ∧
              ARICluster.descendants v SIZE CHILD = Done Dv ∧
              vget SIZE v = Done sv ∧
              take (Z.to_nat sv) Ds = Dv.
Proof.
  intros Hwf Hs Hpath.
  destruct (desc_of_heavy_prefix m SIZE ROOT CHILD s v Hwf Hs Hpath)
    as [Hv [k Hk]].
  exists (desc_of SIZE CHILD s), (desc_of SIZE CHILD v), (size_of SIZE v).
  split_and!; try by eapply descendants_spec.
  - destruct (vget_lt SIZE v) as [sv Hsv]; [destruct Hwf as (-> & _); lia|].
    by rewrite (size_of_Done _ _ _ Hsv).
  - rewrite Hk. rewrite <- (desc_of_vsize m SIZE ROOT CHILD Hwf v Hv).
    unfold vsize. rewrite Nat2Z.id. by rewrite take_app_length.
Qed.

Lemma descendants_heavy_prefix_witness :
  ∃ Ds Dv sv, ARICluster.descendants 0 [2; 1; 1] [[1]; []; []] = Done Ds ∧
              ARICluster.descendants 1 [2; 1; 1] [[1]; []; []] = Done Dv ∧
              vget [2; 1; 1] 1 = Done sv ∧
              take (Z.to_nat sv) Ds = Dv.
Proof.
  apply (descendants_heavy_prefix 3 [2; 1; 1] [0; 2] [[1]; []; []] 0 1).
  - apply small_forest_wf.
  - lia.
  - apply (heavy_next _ _ 0 1); [apply heavy_start | reflexivity].
Defined.

(** ** [findLeft] *)

Section FindLeft.
Variables (TDP : list Q) (ADMSTC : list Z) (gamma : Q).
Hypothesis Hrange : Forall (λ a, 0 ≤ a < vsize TDP) ADMSTC.
Hypothesis Hsorted : ARICluster.sorted_by TDP ADMSTC.

Lemma ADMSTC_entry (i : Z) :
  0 ≤ i < vsize ADMSTC →
  ∃ a t, vget ADMSTC i = Done a ∧ vget TDP a = Done t.
Proof.
  intros Hi. destruct (vget_lt ADMSTC i Hi) as [a Ha]. exists a.
  pose proof Ha as [_ Hl]%vget_Done.
  rewrite Forall_lookup in Hrange.
  destruct (vget_lt TDP a (Hrange _ _ Hl)) as [t Ht]. by exists t.
Qed.

Lemma sorted_entries (i j a b : Z) (ta tb : Q) :
  0 ≤ i ≤ j → vget ADMSTC i = Done a → vget ADMSTC j = Done b →
  vget TDP a = Done ta → vget TDP b = Done tb → (ta <= tb)%Q.
Proof.
  intros Hij Ha Hb Hta Htb.
  destruct (decide (i = j)) as [->|Hne].
  - rewrite Ha in Hb. injection Hb as <-. rewrite Hta in Htb.
    injection Htb as <-. apply Qle_refl.
  - apply vget_Done in Ha as [_ Ha]. apply vget_Done in Hb as [_ Hb].
    apply (Hsorted (Z.to_nat i) (Z.to_nat j) a b); [lia | done..].
Qed.

Lemma all_above_at (k a : Z) (t : Q) :
  0 ≤ k → vget ADMSTC k = Done a → vget TDP a = Done t → (gamma <= t)%Q →
  all_above TDP ADMSTC gamma k.
Proof.
  intros Hk Ha Ht Hge i b tb Hi Hb Htb.
  eapply Qle_trans; [exact Hge|].
  apply (sorted_entries k i a b); [lia | done..].
Qed.

Lemma all_below_at (k a : Z) (t : Q) :
  vget ADMSTC k = Done a → vget TDP a = Done t → (t < gamma)%Q →
  all_below TDP ADMSTC gamma (k + 1).
Proof.
  intros Ha Ht Hlt i b tb Hi Hb Htb.
  eapply Qle_lt_trans; [|exact Hlt].
  apply (sorted_entries i k b a); [lia | done..].
Qed.

Lemma findLeft_loop_leftmost (fuel : nat) (right low high : Z) :
  0 ≤ low ≤ high → high ≤ vsize ADMSTC →
  high - low ≤ right ≤ vsize ADMSTC →
  high - low ≤ Z.of_nat fuel →
  all_below TDP ADMSTC gamma low →
  all_above TDP ADMSTC gamma high →
  all_above TDP ADMSTC gamma right →
  ∃ left,
    ARICluster.findLeft_loop fuel gamma ADMSTC TDP right low high = Done left ∧
    0 ≤ left ≤ vsize ADMSTC ∧
    all_below TDP ADMSTC gamma left ∧ all_above TDP ADMSTC gamma left.
Proof.
  revert right low high.
  induction fuel as [|fuel IH];
    intros right low high Hlow Hhigh Hright Hfuel Hlo Hhi Hlin;
    cbn [ARICluster.findLeft_loop]; case_bool_decide as Hlt.
  - lia.
  - exists low. assert (low = high) as -> by lia. split_and!; [done|lia..|done|done].
  - assert (low ≤ (low + high) `quot` 2 < high) as Hmid.
    { rewrite Z.quot_div_nonneg by lia.
      pose proof (Z.div_mod (low + high) 2).
      pose proof (Z.mod_pos_bound (low + high) 2). lia. }
    set (mid := (low + high) `quot` 2) in *.
    destruct (ADMSTC_entry mid) as (am & tm & Ham & Htm); [lia|].
    rewrite Ham. exec_simpl. rewrite Htm. exec_simpl.
    set (lh := if Qgeb tm gamma then (low, mid) else (mid + 1, high)).
    assert (0 ≤ lh.1 ≤ lh.2 ∧ lh.2 ≤ vsize ADMSTC ∧
            lh.2 - lh.1 < high - low ∧
            all_below TDP ADMSTC gamma lh.1 ∧
            all_above TDP ADMSTC gamma lh.2)
      as (Hl1 & Hl2 & Hl3 & Hl4 & Hl5).
    { unfold lh. destruct (Qgeb tm gamma) eqn:Hge; simpl.
      - split_and!; try lia; try done.
        apply (all_above_at mid am tm); [lia | done | done |].
        by apply Qgeb_ge.
      - split_and!; try lia; try done.
        apply (all_below_at mid am tm); [done | done |].
        apply Qnot_le_lt. intros Hle. apply Qgeb_ge in Hle. congruence. }
    destruct lh as [low' high']. simpl in Hl1, Hl2, Hl3, Hl4, Hl5.
    destruct (ADMSTC_entry (right - 1)) as (ar & tr & Har & Htr); [lia|].
    rewrite Har. exec_simpl. rewrite Htr. exec_simpl.
    destruct (Qltb tr gamma) eqn:Hlt'.
    + exists (right - 1 + 1). split_and!; [done | lia | lia | |].
      * apply (all_below_at (right - 1) ar tr); [done | done |].
        by apply Qltb_lt.
      * by replace (right - 1 + 1) with right by lia.
    + apply IH; try lia; try done.
      apply (all_above_at (right - 1) ar tr); [lia | done | done |].
      by apply Qltb_ge.
  - exists low. assert (low = high) as -> by lia. split_and!; [done|lia..|done|done].
Qed.

End FindLeft.

(** X3.  On a list [ADMSTC] that is sorted by TDP, [findLeft] completes
    and returns the leftmost position from which the TDP is at least
    [gamma]: every entry before it has a smaller TDP, every entry from it
    on a TDP of at least [gamma]; it is the length of [ADMSTC] when no
    entry reaches [gamma]. *)
Theorem findLeft_leftmost (TDP : list Q) (ADMSTC : list Z) (gamma : Q) :
  Forall (λ a, 0 ≤ a < vsize TDP) ADMSTC →
  ARICluster.sorted_by TDP ADMSTC →
  ∃ left, ARICluster.findLeft gamma ADMSTC TDP = Done left ∧
          0 ≤ left ≤ vsize ADMSTC ∧
          all_below TDP ADMSTC gamma left ∧
          all_above TDP ADMSTC gamma left.
Proof.
  intros Hrange Hsorted. unfold ARICluster.findLeft.
  apply findLeft_loop_leftmost; try done; unfold vsize; try lia.
  - intros i a t Hi. lia.
  - intros i a t Hi Ha%vget_Done_lt. unfold vsize in Ha. lia.
  - intros i a t Hi Ha%vget_Done_lt. unfold vsize in Ha. lia.
Qed.

Lemma findLeft_leftmost_witness :
  ∃ left,
    ARICluster.findLeft (3 # 4) [0; 1; 2] [(1 # 2)%Q; 1%Q; 1%Q] = Done left ∧
    0 ≤ left ≤ vsize [0; 1; 2] ∧
    all_below [(1 # 2)%Q; 1%Q; 1%Q] [0; 1; 2] (3 # 4) left ∧
    all_above [(1 # 2)%Q; 1%Q; 1%Q] [0; 1; 2] (3 # 4) left.
Proof.
  apply (findLeft_leftmost [(1 # 2)%Q; 1%Q; 1%Q] [0; 1; 2] (3 # 4)).
  - repeat constructor; unfold vsize; simpl; lia.
  - destruct small_forest_prep as (l & _ & _ & Hsorted). exact Hsorted.
Defined.

(** ** [queryPreparation] *)

Section Walk.
Variables (m : Z) (SIZE ROOT : list Z) (CHILD : list (list Z)) (TDP : list Q).
Hypothesis Hwf : forest_wf m SIZE ROOT CHILD.
Hypothesis HTDP : vsize TDP = m.

Lemma descends_head (v x : Z) :
  descends CHILD v x →
  x = v ∨ ∃ c, c ∈ children CHILD v ∧ descends CHILD c x.
Proof.
  induction 1 as [|a p x _ IH Hx]; [by left|]. right.
  destruct IH as [->|(c & Hc & Hcp)].
  - exists x. split; [done | constructor].
  - exists c. split; [done|]. by eapply descends_step.
Qed.

Lemma subtrees_cons (v : Z) (nodes : list Z) :
  subtrees SIZE CHILD (v :: nodes)
  = desc_of SIZE CHILD v ++ subtrees SIZE CHILD nodes.
Proof. done. Qed.

Lemma subtrees_app (l1 l2 : list Z) :
  subtrees SIZE CHILD (l1 ++ l2)
  = subtrees SIZE CHILD l1 ++ subtrees SIZE CHILD l2.
Proof. unfold subtrees. by rewrite fmap_app, join_app. Qed.

Lemma subtrees_reverse (l : list Z) :
  subtrees SIZE CHILD (reverse l) ≡ₚ subtrees SIZE CHILD l.
Proof.
  induction l as [|c l IH]; [done|].
  rewrite reverse_cons, subtrees_app, subtrees_cons, IH.
  unfold subtrees at 2. csimpl. rewrite app_nil_r.
  apply Permutation_app_comm.
Qed.

Lemma subtrees_elem (nodes : list Z) (x : Z) :
  Forall (λ c, 0 ≤ c < m) nodes →
  x ∈ subtrees SIZE CHILD nodes ↔ ∃ c, c ∈ nodes ∧ descends CHILD c x.
Proof.
  intros Hnodes. rewrite Forall_forall in Hnodes. unfold subtrees. split.
  - intros (k & Hx & Hk)%list_elem_of_join.
    apply list_elem_of_fmap in Hk as (c & -> & Hc). exists c.
    split; [done|]. eapply desc_of_descends; eauto.
  - intros (c & Hc & Hx). apply list_elem_of_join.
    exists (desc_of SIZE CHILD c). split.
    + eapply descends_desc_of; eauto.
    + apply list_elem_of_fmap. by exists c.
Qed.

(** The walk from a stack of sound and tight entries appends to [A]
    exactly the nodes below the entries that are admissible and have a TDP
    above [-1], each once. *)
Lemma admissible_walk_exact (fuel : nat) (ps : list (Q * Z)) (A : list Z) :
  Forall (entry_ok m CHILD TDP) ps →
  Forall (entry_tight CHILD TDP) ps →
  walk_cost SIZE ps ≤ Z.of_nat fuel →
  ∃ B, ARICluster.admissible_walk fuel TDP CHILD (walk_stack ps) A
       = Done (A ++ B) ∧
       B ⊆+ subtrees SIZE CHILD (snd <$> ps) ∧
       Forall (λ e, (-1 < tdp_of TDP e)%Q ∧ admissible CHILD TDP e) B ∧
       ∀ x, x ∈ subtrees SIZE CHILD (snd <$> ps) →
            (-1 < tdp_of TDP x)%Q → admissible CHILD TDP x → x ∈ B.
Proof.
  revert ps A. induction fuel as [|fuel IH]; intros ps A Hps Htight Hfuel.
  - destruct ps as [|p ps].
    + exists []. rewrite app_nil_r. split_and!; [done | done | done |].
      intros x Hx. by apply elem_of_nil in Hx.
    + exfalso. apply Forall_cons in Hps as [[Hp _] Hps].
      pose proof (walk_cost_nonneg m SIZE ROOT CHILD Hwf TDP ps Hps).
      rewrite (walk_cost_cons SIZE) in Hfuel.
      pose proof (size_of_pos m SIZE ROOT CHILD Hwf p.2 Hp). lia.
  - destruct ps as [|[q v] ps].
    { exists []. rewrite app_nil_r. split_and!; [done | done | done |].
      intros x Hx. by apply elem_of_nil in Hx. }
    apply Forall_cons in Hps as [[Hv Hq] Hps]. simpl in Hv, Hq.
    apply Forall_cons in Htight as [[Hq1 Hqt] Htight]. simpl in Hq1, Hqt.
    rewrite walk_stack_cons. cbn [ARICluster.admissible_walk fst snd].
    rewrite double_to_int_inject, (tdp_of_Done m TDP HTDP v Hv). exec_simpl.
    destruct (vget_lt CHILD v) as [CHD HCHD];
      [destruct Hwf as (_ & -> & _); lia|].
    rewrite HCHD. exec_simpl. rewrite walk_push.
    assert (children CHILD v = CHD) as Hchildren
      by (unfold children; by rewrite HCHD).
    pose proof (children_range_Forall m SIZE ROOT CHILD Hwf v) as HCHDr.
    rewrite Hchildren in HCHDr.
    set (tv := tdp_of TDP v) in *.
    set (q' := ARICluster.std_max tv q).
    set (A' := if Qgtb tv q then A ++ [v] else A).
    assert (Forall (entry_ok m CHILD TDP)
              (reverse ((λ c, (q', c)) <$> CHD) ++ ps)) as Hps'.
    { apply Forall_app. split; [|done].
      apply Forall_reverse, Forall_fmap, Forall_forall.
      intros c Hc. split; simpl.
      - rewrite Forall_forall in HCHDr. by apply HCHDr.
      - intros a Ha Hne. destruct Ha as [|a p c Ha Hp]; [done|].
        rewrite <- Hchildren in Hc.
        rewrite (parent_unique m SIZE ROOT CHILD Hwf p v c Hp Hc) in Ha.
        destruct (decide (a = v)) as [->|Hav]; [apply std_max_l|].
        eapply Qle_trans; [by apply Hq | apply std_max_r]. }
    assert (Forall (entry_tight CHILD TDP)
              (reverse ((λ c, (q', c)) <$> CHD) ++ ps)) as Htight'.
    { apply Forall_app. split; [|done].
      apply Forall_reverse, Forall_fmap, Forall_forall.
      intros c Hc. rewrite <- Hchildren in Hc. split; simpl.
      - eapply Qle_trans; [exact Hq1 | apply std_max_r].
      - unfold q', ARICluster.std_max. destruct (Qltb tv q).
        + destruct Hqt as [->|(a & Ha & Hne & ->)]; [by left|]. right.
          exists a. split_and!; [by eapply descends_step | | done].
          intros ->.
          by apply (child_not_above m SIZE ROOT CHILD Hwf v c Hc).
        + right. exists v. split_and!; [| |done].
          * eapply descends_step; [constructor | done].
          * intros ->.
            apply (child_not_above m SIZE ROOT CHILD Hwf c c Hc).
            constructor. }
    destruct (IH (reverse ((λ c, (q', c)) <$> CHD) ++ ps) A' Hps' Htight')
      as (B' & -> & Hsub & Hok & Hall).
    { rewrite (walk_cost_push SIZE). rewrite (walk_cost_cons SIZE) in Hfuel.
      simpl in Hfuel. destruct Hwf as (_ & _ & _ & _ & _ & Hsum).
      pose proof (Hsum v Hv) as Hsv. rewrite Hchildren in Hsv. lia. }
    assert (snd <$> reverse ((λ c, (q', c)) <$> CHD) ++ ps
            = reverse CHD ++ (snd <$> ps)) as Hnodes.
    { rewrite fmap_app, fmap_reverse, <- list_fmap_compose. f_equal.
      f_equal. by rewrite <- (list_fmap_id CHD) at 2. }
    rewrite Hnodes in Hsub, Hall. clear Hnodes.
    rewrite subtrees_app in Hsub, Hall.
    assert (subtrees SIZE CHILD (reverse CHD) ++ [v]
            ≡ₚ desc_of SIZE CHILD v) as Hperm.
    { rewrite (desc_of_unfold m SIZE ROOT CHILD Hwf v Hv), Hchildren.
      by rewrite subtrees_reverse. }
    exists ((if Qgtb tv q then [v] else []) ++ B'). split_and!.
    + unfold A'. destruct (Qgtb tv q); [|done]. by rewrite <- app_assoc.
    + csimpl. rewrite subtrees_cons, <- Hperm.
      destruct (Qgtb tv q).
      * simpl. rewrite <- app_assoc. simpl.
        by apply submseteq_cons_middle.
      * simpl. rewrite <- app_assoc. simpl.
        etrans; [exact Hsub|]. apply submseteq_skips_l.
        by apply submseteq_cons.
    + apply Forall_app. split; [|done].
      destruct (Qgtb tv q) eqn:Hgt; [|done].
      apply Forall_singleton. apply Qltb_lt in Hgt. split.
      * eapply Qle_lt_trans; [exact Hq1 | exact Hgt].
      * intros a Ha Hne. eapply Qle_lt_trans; [by apply Hq | done].
    + intros x Hx Hx1 Hadm. csimpl in Hx. rewrite subtrees_cons in Hx.
      apply elem_of_app. rewrite <- Hperm in Hx.
      apply elem_of_app in Hx as [Hx|Hx].
      * apply elem_of_app in Hx as [Hx|Hx].
        -- right. apply Hall; [|done..]. apply elem_of_app. by left.
        -- apply list_elem_of_singleton in Hx as ->. left.
           assert (Qgtb tv q = true) as ->; [|by left].
           apply Qltb_lt. destruct Hqt as [->|(a & Ha & Hne & ->)]; [done|].
           by apply Hadm.
      * right. apply Hall; [|done..]. apply elem_of_app. by right.
Qed.

Lemma root_trees_disjoint (r1 r2 x : Z) :
  r1 ∈ ROOT → r2 ∈ ROOT →
  descends CHILD r1 x → descends CHILD r2 x → r1 = r2.
Proof.
  intros Hr1 Hr2 H1 H2.
  destruct (descends_nested m SIZE ROOT CHILD Hwf r1 r2 x H1 H2) as [Hd|Hd].
  - destruct Hd as [|? p ? _ Hp]; [done|].
    by apply (root_no_parent m SIZE ROOT CHILD Hwf) in Hp.
  - destruct Hd as [|? p ? _ Hp]; [done|].
    by apply (root_no_parent m SIZE ROOT CHILD Hwf) in Hp.
Qed.

Lemma ROOT_in_range : Forall (λ r, 0 ≤ r < m) ROOT.
Proof. destruct Hwf as (_ & _ & Hr & _). by apply Forall_app in Hr as [? _]. Qed.

Lemma ROOT_NoDup : NoDup ROOT.
Proof. destruct Hwf as (_ & _ & _ & Hnd & _). by apply NoDup_app in Hnd as [? _]. Qed.

Lemma root_subtrees_NoDup : NoDup (subtrees SIZE CHILD ROOT).
Proof.
  pose proof ROOT_in_range as Hr. rewrite Forall_forall in Hr.
  apply NoDup_join_fmap.
  - apply ROOT_NoDup.
  - intros r Hin. eapply desc_of_NoDup; eauto.
  - intros r1 r2 x Hr1 Hr2 Hx1 Hx2.
    apply (root_trees_disjoint r1 r2 x); [done..| |];
      eapply desc_of_descends; eauto.
Qed.

Lemma collect_admissible_exact :
  ∃ l, ARICluster.collect_admissible m ROOT TDP CHILD = Done l ∧
       l ⊆+ subtrees SIZE CHILD ROOT ∧
       Forall (λ e, (-1 < tdp_of TDP e)%Q ∧ admissible CHILD TDP e) l ∧
       ∀ x, x ∈ subtrees SIZE CHILD ROOT →
            (-1 < tdp_of TDP x)%Q → admissible CHILD TDP x → x ∈ l.
Proof.
  unfold ARICluster.collect_admissible.
  pose proof ROOT_in_range as Hrange.
  assert (∀ roots A,
    Forall (λ r, r ∈ ROOT) roots →
    ∃ B, for_each roots
           (λ r ADMSTC,
              ARICluster.admissible_walk (S (Z.to_nat m)) TDP CHILD
                [(-1)%Q; inject_Z r] ADMSTC) A = Done (A ++ B) ∧
         B ⊆+ subtrees SIZE CHILD roots ∧
         Forall (λ e, (-1 < tdp_of TDP e)%Q ∧ admissible CHILD TDP e) B ∧
         ∀ x, x ∈ subtrees SIZE CHILD roots →
              (-1 < tdp_of TDP x)%Q → admissible CHILD TDP x → x ∈ B)
    as Hgen.
  { induction roots as [|r roots IH]; intros A Hroots.
    - exists []. rewrite app_nil_r. split_and!; [done..|].
      intros x Hx. by apply elem_of_nil in Hx.
    - apply Forall_cons in Hroots as [Hr Hroots]. cbn [for_each].
      rewrite Forall_forall in Hrange. pose proof (Hrange r Hr) as Hrm.
      change [(-1)%Q; inject_Z r] with (walk_stack [((-1)%Q, r)]).
      destruct (admissible_walk_exact (S (Z.to_nat m)) [((-1)%Q, r)] A)
        as (B1 & -> & Hsub1 & Hok1 & Hall1).
      + apply Forall_singleton. split; [done|]. simpl.
        intros a Ha Hne. destruct Ha as [|a p r Ha Hp]; [done|].
        by apply (root_no_parent m SIZE ROOT CHILD Hwf) in Hp.
      + apply Forall_singleton. split; simpl; [apply Qle_refl | by left].
      + rewrite (walk_cost_cons SIZE). simpl.
        change (walk_cost SIZE []) with 0.
        pose proof (size_of_le m SIZE ROOT CHILD Hwf r Hrm). lia.
      + exec_simpl.
        destruct (IH (A ++ B1) Hroots) as (B2 & -> & Hsub2 & Hok2 & Hall2).
        exists (B1 ++ B2). rewrite app_assoc.
        csimpl in Hsub1. unfold subtrees in Hsub1. csimpl in Hsub1.
        rewrite app_nil_r in Hsub1.
        split_and!; [done | | |].
        * rewrite subtrees_cons. by apply submseteq_app.
        * by apply Forall_app.
        * intros x Hx Hx1 Hadm. rewrite subtrees_cons in Hx.
          apply elem_of_app. apply elem_of_app in Hx as [Hx|Hx].
          -- left. apply Hall1; [|done..]. csimpl.
             unfold subtrees. csimpl. by rewrite app_nil_r.
          -- right. by apply Hall2. }
  destruct (Hgen ROOT []) as (B & Hrun & HB); [by apply Forall_forall|].
  exists B. by rewrite app_nil_l in Hrun.
Qed.

End Walk.

(** X4.  On a forest with one TDP value per node, the walk of
    [queryPreparation] completes, and whatever order [std::sort] leaves,
    [ADMSTC] lists no node twice and holds exactly the nodes of the forest
    whose TDP exceeds [-1] and the TDP of each of their ancestors. *)
Theorem queryPreparation_collects_admissible (m : Z) (SIZE ROOT : list Z)
    (CHILD : list (list Z)) (TDP : list Q) :
  forest_wf m SIZE ROOT CHILD → vsize TDP = m →
  (∃ l, ARICluster.collect_admissible m ROOT TDP CHILD = Done l) ∧
  ∀ ADMSTC, ARICluster.queryPreparation m ROOT TDP CHILD ADMSTC →
            NoDup ADMSTC ∧
            ∀ x, x ∈ ADMSTC ↔ collectable ROOT CHILD TDP x.
Proof.
  intros Hwf HTDP.
  destruct (collect_admissible_exact m SIZE ROOT CHILD TDP Hwf HTDP)
    as (l & Hl & Hsub & Hok & Hall).
  split; [by exists l|].
  intros ADMSTC (l' & Hl' & Hperm & _).
  rewrite Hl in Hl'. injection Hl' as <-.
  pose proof (ROOT_in_range m SIZE ROOT CHILD Hwf) as Hrange.
  split.
  - rewrite <- Hperm.
    apply submseteq_Permutation in Hsub as [k Hk].
    pose proof (root_subtrees_NoDup m SIZE ROOT CHILD Hwf) as Hnd.
    rewrite Hk in Hnd. by apply NoDup_app in Hnd as [? _].
  - intros x. rewrite <- Hperm. split.
    + intros Hx. rewrite Forall_forall in Hok.
      destruct (Hok x Hx) as [Hx1 Hadm]. split_and!; [|done..].
      apply (subtrees_elem m SIZE ROOT CHILD Hwf ROOT x Hrange).
      by eapply elem_of_submseteq.
    + intros (Hroot & Hx1 & Hadm). apply Hall; [|done..].
      by apply (subtrees_elem m SIZE ROOT CHILD Hwf ROOT x Hrange).
Qed.

Lemma queryPreparation_collects_admissible_witness :
  (∃ l, ARICluster.collect_admissible 3 [0; 2] [(1 # 2)%Q; 1%Q; 1%Q]
          [[1]; []; []] = Done l) ∧
  ∀ ADMSTC,
    ARICluster.queryPreparation 3 [0; 2] [(1 # 2)%Q; 1%Q; 1%Q]
      [[1]; []; []] ADMSTC →
    NoDup ADMSTC ∧
    ∀ x, x ∈ ADMSTC
         ↔ collectable [0; 2] [[1]; []; []] [(1 # 2)%Q; 1%Q; 1%Q] x.
Proof.
  apply (queryPreparation_collects_admissible 3 [2; 1; 1]).
  - apply small_forest_wf.
  - reflexivity.
Defined.

(** ** [answerQuery]: what the clusters cover *)

Section Answer.
Variables (m : Z) (SIZE ROOT : list Z) (CHILD : list (list Z)) (TDP : list Q).
Variable ADMSTC : list Z.
Hypothesis Hwf : forest_wf m SIZE ROOT CHILD.
Hypothesis HTDP : vsize TDP = m.
Hypothesis Hprep : ARICluster.queryPreparation m ROOT TDP CHILD ADMSTC.

Lemma ADMSTC_in_TDP : Forall (λ a, 0 ≤ a < vsize TDP) ADMSTC.
Proof.
  eapply Forall_impl;
    [exact (ADMSTC_ok m SIZE ROOT CHILD Hwf TDP HTDP ADMSTC Hprep)|].
  intros a [Ha _]. simpl. lia.
Qed.

(** One step of the loop adds the entry at [j] to the clusters, unless
    it lies in one already, and drops nothing. *)
Lemma emit_step_covers (left j : Z) (st st' : list (list Z) * list Z) :
  0 ≤ left ≤ j → j < vsize ADMSTC →
  emitted m SIZE CHILD ADMSTC left j st →
  ARICluster.emit_step ADMSTC SIZE CHILD j st = Done st' →
  (∀ x, x ∈ mjoin st.1 → x ∈ mjoin st'.1) ∧
  ∀ a, vget ADMSTC j = Done a → a ∈ mjoin st'.1.
Proof.
  intros Hleft Hj. destruct st as [ANS MARK].
  intros ((Hsize & Hmarks) & _ & _) Hrun. simpl in *.
  destruct (vget_lt ADMSTC j) as [a Ha]; [lia|].
  rewrite Ha in Hrun. exec_simpl in Hrun.
  pose proof Ha as [_ Hlookup]%vget_Done.
  destruct (ADMSTC_lookup m SIZE ROOT CHILD Hwf TDP HTDP ADMSTC Hprep
              _ _ Hlookup) as [Har _].
  rewrite (Hmarks a Har) in Hrun. exec_simpl in Hrun.
  destruct (decide (a ∈ mjoin ANS)) as [Hin|Hin].
  - rewrite (bool_decide_eq_true_2 _ Hin) in Hrun.
    rewrite bool_decide_eq_false_2 in Hrun by done.
    injection Hrun as <-. split; [done|].
    intros a' Ha'. rewrite Ha in Ha'. by injection Ha' as <-.
  - rewrite (bool_decide_eq_false_2 _ Hin) in Hrun.
    rewrite bool_decide_eq_true_2 in Hrun by done.
    rewrite (descendants_spec m SIZE ROOT CHILD Hwf a Har) in Hrun.
    exec_simpl in Hrun. bind_inv Hrun as MARK' HMARK'.
    injection Hrun as <-. simpl.
    rewrite join_app. csimpl. rewrite app_nil_r. split.
    + intros x Hx. apply elem_of_app. by left.
    + intros a' Ha'. rewrite Ha in Ha'. injection Ha' as <-.
      apply elem_of_app. right.
      by apply (desc_of_self m SIZE ROOT CHILD Hwf).
Qed.

(** [answerQuery] with what its clusters are and what they cover. *)
Lemma answer_gamma_cover (gamma : Q) :
  ∃ ANS,
    ARICluster.answer_gamma gamma ADMSTC SIZE (no_marks m) TDP CHILD
    = Done (ANS, no_marks m) ∧
    (∀ CL, CL ∈ ANS →
           ∃ a, a ∈ ADMSTC ∧ 0 ≤ a < m ∧ CL = desc_of SIZE CHILD a ∧
                (gamma <= tdp_of TDP a)%Q ∧ (0 <= tdp_of TDP a)%Q) ∧
    ∀ a, a ∈ ADMSTC → (gamma <= tdp_of TDP a)%Q → (0 <= tdp_of TDP a)%Q →
         ∃ CL, CL ∈ ANS ∧ a ∈ CL.
Proof.
  unfold ARICluster.answer_gamma.
  set (gamma' := if Qltb gamma 0 then 0%Q else gamma).
  assert ((gamma <= gamma')%Q ∧ (0 <= gamma')%Q ∧
          ∀ t, (gamma <= t)%Q → (0 <= t)%Q → (gamma' <= t)%Q)
    as (Hg & Hg0 & Hmax).
  { unfold gamma'. destruct (Qltb gamma 0) eqn:E.
    - apply Qltb_lt in E.
      split_and!; [by apply Qlt_le_weak | apply Qle_refl | done].
    - apply Qltb_ge in E. split_and!; [apply Qle_refl | done | done]. }
  destruct (findLeft_leftmost TDP ADMSTC gamma' ADMSTC_in_TDP)
    as (left & -> & Hleft & Hbelow & Habove).
  { by destruct Hprep as (_ & _ & _ & ?). }
  exec_simpl.
  destruct (for_up_inv (covered m SIZE CHILD ADMSTC left)
              (Z.to_nat (vsize ADMSTC - left)) left
              (ARICluster.emit_step ADMSTC SIZE CHILD) ([], no_marks m))
    as ([ANS MARK] & -> & ((Hsize & Hmarks) & Hnd & Hfrom) & Hcover).
  { split; [|intros k a Hk; lia].
    split_and!; simpl; [|constructor..].
    by apply (no_marks_marks m SIZE ROOT CHILD Hwf TDP HTDP ADMSTC). }
  { intros j st Hj [Hst Hcov].
    destruct (emit_step_spec m SIZE ROOT CHILD Hwf TDP HTDP ADMSTC Hprep
                left j st) as (st' & Hrun & Hst'); [lia | lia | done |].
    exists st'. split; [done|]. split; [done|].
    destruct (emit_step_covers left j st st') as [Hkeep Hnew];
      [lia | lia | done | done |].
    intros k a Hk Ha. destruct (decide (k = j)) as [->|Hne].
    - by apply Hnew.
    - apply Hkeep. apply (Hcov k a); [lia | done]. }
  simpl in Hsize, Hmarks, Hnd, Hfrom, Hcover. exec_simpl.
  rewrite Forall_forall in Hfrom.
  rewrite (clear_marks_spec m ANS MARK); [| |done|].
  - exec_simpl. exists ANS. split_and!; [done | |].
    + intros CL (k & a & Hk & Ha & ->)%Hfrom.
      destruct (ADMSTC_lookup m SIZE ROOT CHILD Hwf TDP HTDP ADMSTC Hprep
                  _ _ Ha) as [Har _].
      assert (gamma' <= tdp_of TDP a)%Q as Hge.
      { apply (Habove k a); [lia | by apply vget_Done; split; [lia|] |].
        by apply (tdp_of_Done m). }
      exists a. split_and!; [by eapply list_elem_of_lookup_2 | lia | lia
                             | done | |]; by eapply Qle_trans.
    + intros a [i Hi]%list_elem_of_lookup Hga H0a.
      destruct (ADMSTC_lookup m SIZE ROOT CHILD Hwf TDP HTDP ADMSTC Hprep
                  _ _ Hi) as [Har _].
      assert (vget ADMSTC (Z.of_nat i) = Done a) as Hget.
      { apply vget_Done. split; [lia|]. by rewrite Nat2Z.id. }
      assert (left ≤ Z.of_nat i) as Hi'.
      { destruct (decide (left ≤ Z.of_nat i)) as [|Hlt]; [done|]. exfalso.
        pose proof (Hbelow (Z.of_nat i) a (tdp_of TDP a) ltac:(lia) Hget
                      (tdp_of_Done m TDP HTDP a Har)) as Hlt'.
        apply Qlt_not_le in Hlt'. apply Hlt'. by apply Hmax. }
      assert (a ∈ mjoin ANS) as (CL & Ha & HCL)%list_elem_of_join.
      { apply (Hcover (Z.of_nat i) a); [|done].
        apply vget_Done_lt in Hget. lia. }
      by exists CL.
  - apply Forall_forall. intros CL (k & a & Hk & Ha & ->)%Hfrom.
    destruct (ADMSTC_lookup m SIZE ROOT CHILD Hwf TDP HTDP ADMSTC Hprep
                _ _ Ha) as [Har _].
    apply Forall_forall. intros x Hx.
    by eapply (desc_of_in_range m SIZE ROOT CHILD Hwf).
  - intros x Hx Hne. rewrite (Hmarks x Hx) in Hne.
    case_bool_decide; [done|]. by destruct Hne.
Qed.

(** The thresholds of a batch are answered one by one, each from a
    cleared [MARK]. *)
Lemma answerQueryBatch_each (gamma_batch : list Q)
    (acc : list (list (list Z))) :
  ∃ results,
    for_each gamma_batch
      (λ gamma '(batch_results, MARK),
         '(result, MARK) ←
           ARICluster.answer_gamma gamma ADMSTC SIZE MARK TDP CHILD;
         Done (batch_results ++ [result], MARK))
      (acc, no_marks m) = Done (acc ++ results, no_marks m) ∧
    Forall2 (λ gamma ANS,
               ARICluster.answerQuery gamma ADMSTC SIZE (no_marks m) TDP CHILD
               = Done (ANS, no_marks m)) gamma_batch results.
Proof.
  revert acc. induction gamma_batch as [|gamma gs IH]; intros acc.
  - exists []. rewrite app_nil_r. split; [done | constructor].
  - cbn [for_each].
    destruct (answer_gamma_spec m SIZE ROOT CHILD Hwf TDP HTDP ADMSTC Hprep
                gamma) as (ANS & HANS & _).
    rewrite HANS. exec_simpl.
    destruct (IH (acc ++ [ANS])) as (results & -> & Hall).
    exists (ANS :: results). rewrite <- app_assoc. split; [done|].
    by constructor.
Qed.

End Answer.

(** X5.  On valid input every cluster that [answerQuery(gamma)] returns is
    [descendants(a)] for an entry [a] of [ADMSTC] with
    [TDP[a] >= max(gamma, 0)], and the clusters cover all such entries:
    every entry of [ADMSTC] whose TDP is at least [gamma] and at least [0]
    lies in a returned cluster. *)
Theorem answerQuery_covers_admissible (m : Z) (SIZE ROOT : list Z)
    (CHILD : list (list Z)) (TDP : list Q) (ADMSTC : list Z) (gamma : Q) :
  forest_wf m SIZE ROOT CHILD →
  vsize TDP = m →
  ARICluster.queryPreparation m ROOT TDP CHILD ADMSTC →
  ∃ ANS,
    ARICluster.answerQuery gamma ADMSTC SIZE (no_marks m) TDP CHILD
    = Done (ANS, no_marks m) ∧
    (∀ CL, CL ∈ ANS →
           ∃ a t, a ∈ ADMSTC ∧
                  ARICluster.descendants a SIZE CHILD = Done CL ∧
                  vget TDP a = Done t ∧ (gamma <= t)%Q ∧ (0 <= t)%Q) ∧
    ∀ a t, a ∈ ADMSTC → vget TDP a = Done t →
           (gamma <= t)%Q → (0 <= t)%Q →
           ∃ CL, CL ∈ ANS ∧ a ∈ CL.
Proof.
  intros Hwf HTDP Hprep. unfold ARICluster.answerQuery.
  destruct (answer_gamma_cover m SIZE ROOT CHILD TDP ADMSTC Hwf HTDP Hprep
              gamma) as (ANS & Hrun & Hfrom & Hcover).
  exists ANS. split_and!; [done | |].
  - intros CL (a & Ha & Har & -> & Hg & H0)%Hfrom.
    exists a, (tdp_of TDP a). split_and!; [done | | | done..].
    + by apply (descendants_spec m SIZE ROOT CHILD Hwf).
    + by apply (tdp_of_Done m).
  - intros a t Ha Ht Hg H0. apply Hcover; [done| |];
      unfold tdp_of; by rewrite Ht.
Qed.

Lemma answerQuery_covers_admissible_witness :
  ∃ ANS,
    ARICluster.answerQuery (3 # 4) [0; 1; 2] [2; 1; 1] (no_marks 3)
      [(1 # 2)%Q; 1%Q; 1%Q] [[1]; []; []]
    = Done (ANS, no_marks 3) ∧
    (∀ CL, CL ∈ ANS →
           ∃ a t, a ∈ [0; 1; 2] ∧
                  ARICluster.descendants a [2; 1; 1] [[1]; []; []] = Done CL ∧
                  vget [(1 # 2)%Q; 1%Q; 1%Q] a = Done t ∧
                  (3 # 4 <= t)%Q ∧ (0 <= t)%Q) ∧
    ∀ a t, a ∈ [0; 1; 2] → vget [(1 # 2)%Q; 1%Q; 1%Q] a = Done t →
           (3 # 4 <= t)%Q → (0 <= t)%Q →
           ∃ CL, CL ∈ ANS ∧ a ∈ CL.
Proof.
  apply (answerQuery_covers_admissible 3 [2; 1; 1] [0; 2] [[1]; []; []]).
  - apply small_forest_wf.
  - reflexivity.
  - apply small_forest_prep.
Defined.

(** X6.  Raising the threshold refines the answer: for
    [gamma1 <= gamma2], every cluster of [answerQuery(gamma2)] is
    contained in a cluster of [answerQuery(gamma1)]. *)
Theorem answerQuery_monotone (m : Z) (SIZE ROOT : list Z)
    (CHILD : list (list Z)) (TDP : list Q) (ADMSTC : list Z)
    (gamma1 gamma2 : Q) :
  forest_wf m SIZE ROOT CHILD →
  vsize TDP = m →
  ARICluster.queryPreparation m ROOT TDP CHILD ADMSTC →
  (gamma1 <= gamma2)%Q →
  ∃ ANS1 ANS2,
    ARICluster.answerQuery gamma1 ADMSTC SIZE (no_marks m) TDP CHILD
    = Done (ANS1, no_marks m) ∧
    ARICluster.answerQuery gamma2 ADMSTC SIZE (no_marks m) TDP CHILD
    = Done (ANS2, no_marks m) ∧
    ∀ CL2, CL2 ∈ ANS2 → ∃ CL1, CL1 ∈ ANS1 ∧ ∀ x, x ∈ CL2 → x ∈ CL1.
Proof.
  intros Hwf HTDP Hprep Hle. unfold ARICluster.answerQuery.
  destruct (answer_gamma_cover m SIZE ROOT CHILD TDP ADMSTC Hwf HTDP Hprep
              gamma1) as (ANS1 & Hrun1 & Hfrom1 & Hcover1).
  destruct (answer_gamma_cover m SIZE ROOT CHILD TDP ADMSTC Hwf HTDP Hprep
              gamma2) as (ANS2 & Hrun2 & Hfrom2 & _).
  exists ANS1, ANS2. split_and!; [done..|].
  intros CL2 (a2 & Ha2 & Har2 & -> & Hg2 & H02)%Hfrom2.
  destruct (Hcover1 a2 Ha2) as (CL1 & HCL1 & Hin); [by eapply Qle_trans|done|].
  exists CL1. split; [done|].
  destruct (Hfrom1 CL1 HCL1) as (a1 & _ & Har1 & -> & _).
  intros x Hx.
  apply (descends_desc_of m SIZE ROOT CHILD Hwf a1 x Har1).
  eapply descends_trans.
  - by apply (desc_of_descends m SIZE ROOT CHILD Hwf a1 a2 Har1).
  - by apply (desc_of_descends m SIZE ROOT CHILD Hwf a2 x Har2).
Qed.

Lemma answerQuery_monotone_witness :
  ∃ ANS1 ANS2,
    ARICluster.answerQuery (1 # 4) [0; 1; 2] [2; 1; 1] (no_marks 3)
      [(1 # 2)%Q; 1%Q; 1%Q] [[1]; []; []]
    = Done (ANS1, no_marks 3) ∧
    ARICluster.answerQuery (3 # 4) [0; 1; 2] [2; 1; 1] (no_marks 3)
      [(1 # 2)%Q; 1%Q; 1%Q] [[1]; []; []]
    = Done (ANS2, no_marks 3) ∧
    ∀ CL2, CL2 ∈ ANS2 → ∃ CL1, CL1 ∈ ANS1 ∧ ∀ x, x ∈ CL2 → x ∈ CL1.
Proof.
  apply (answerQuery_monotone 3 [2; 1; 1] [0; 2] [[1]; []; []]).
  - apply small_forest_wf.
  - reflexivity.
  - apply small_forest_prep.
  - discriminate.
Defined.

(** X7.  [answerQueryBatch] returns, for the thresholds of the batch in
    order, what [answerQuery] returns for each of them on a cleared
    [MARK], and leaves [MARK] cleared. *)
Theorem answerQueryBatch_answers_each (m : Z) (SIZE ROOT : list Z)
    (CHILD : list (list Z)) (TDP : list Q) (ADMSTC : list Z)
    (gamma_batch : list Q) :
  forest_wf m SIZE ROOT CHILD →
  vsize TDP = m →
  ARICluster.queryPreparation m ROOT TDP CHILD ADMSTC →
  ∃ batch_results,
    ARICluster.answerQueryBatch gamma_batch ADMSTC SIZE (no_marks m) TDP CHILD
    = Done (batch_results, no_marks m) ∧
    Forall2 (λ gamma ANS,
               ARICluster.answerQuery gamma ADMSTC SIZE (no_marks m) TDP CHILD
               = Done (ANS, no_marks m)) gamma_batch batch_results.
Proof.
  intros Hwf HTDP Hprep. unfold ARICluster.answerQueryBatch.
  destruct (answerQueryBatch_each m SIZE ROOT CHILD TDP ADMSTC Hwf HTDP Hprep
              gamma_batch []) as (results & Hrun & Hall).
  by exists results.
Qed.

Lemma answerQueryBatch_answers_each_witness :
  ∃ batch_results,
    ARICluster.answerQueryBatch [(1 # 4)%Q; (3 # 4)%Q] [0; 1; 2] [2; 1; 1]
      (no_marks 3) [(1 # 2)%Q; 1%Q; 1%Q] [[1]; []; []]
    = Done (batch_results, no_marks 3) ∧
    Forall2 (λ gamma ANS,
               ARICluster.answerQuery gamma [0; 1; 2] [2; 1; 1] (no_marks 3)
                 [(1 # 2)%Q; 1%Q; 1%Q] [[1]; []; []]
               = Done (ANS, no_marks 3))
      [(1 # 4)%Q; (3 # 4)%Q] batch_results.
Proof.
  apply (answerQueryBatch_answers_each 3 [2; 1; 1] [0; 2] [[1]; []; []]).
  - apply small_forest_wf.
  - reflexivity.
  - apply small_forest_prep.
Defined.

(** ** [findLMS] *)

Lemma ascending_snoc (l : list Z) (y : Z) :
  ascending l → (∀ x, x ∈ l → x < y) → ascending (l ++ [y]).
Proof.
  intros Hl Hy i j a b Hij Ha Hb.
  pose proof (lookup_lt_Some _ _ _ Hb) as Hj.
  rewrite length_app in Hj. simpl in Hj.
  rewrite lookup_app_l in Ha by lia.
  destruct (decide (j < length l)%nat) as [Hjl|Hjl].
  - rewrite lookup_app_l in Hb by done. by apply (Hl i j).
  - rewrite lookup_app_r in Hb by lia.
    replace (j - length l)%nat with 0%nat in Hb by lia.
    injection Hb as <-. apply Hy. by eapply list_elem_of_lookup_2.
Qed.

Lemma findLMS_spec (CHILD : list (list Z)) :
  ∃ LMS, ClusterTools.findLMS CHILD = Done LMS ∧
         ascending LMS ∧
         ∀ v, v ∈ LMS ↔ vget CHILD v = Done [].
Proof.
  unfold ClusterTools.findLMS.
  destruct (for_up_inv
    (λ j LMS, ascending LMS ∧
              ∀ v, v ∈ LMS ↔ 0 ≤ v < j ∧ vget CHILD v = Done [])
    (length CHILD) 0
    (λ i LMS,
       CHD ← vget CHILD i;
       Done (if bool_decide (vsize CHD = 0) then LMS ++ [i] else LMS)) [])
    as (LMS & Hrun & Hsorted & Hmem).
  - split; [by intros i j x y _ Hi|]. intros v. split.
    + by intros ?%elem_of_nil.
    + intros [? _]. lia.
  - intros j LMS Hj [Hsorted Hmem].
    destruct (vget_lt CHILD j) as [CHD HCHD]; [unfold vsize; lia|].
    rewrite HCHD. exec_simpl. eexists. split; [done|].
    case_bool_decide as Hempty.
    + assert (CHD = []) as ->
        by (destruct CHD; [done | unfold vsize in Hempty; simpl in Hempty; lia]).
      split.
      * by apply ascending_snoc; [|intros x Hx%Hmem; lia].
      * intros v. rewrite elem_of_app, list_elem_of_singleton, Hmem.
        split.
        -- intros [[? ?]| ->]; split; try done; lia.
        -- intros [Hv Hget]. destruct (decide (v = j)); [by right|].
           left. split; [lia | done].
    + split; [done|]. intros v. rewrite Hmem. split.
      * intros [? ?]. split; [lia | done].
      * intros [Hv Hget]. split; [|done].
        destruct (decide (v = j)) as [->|]; [|lia].
        rewrite HCHD in Hget. injection Hget as ->. done.
  - exists LMS. split; [done|]. split; [done|].
    intros v. rewrite Hmem. split; [by intros [_ ?]|].
    intros Hget. split; [|done]. apply vget_Done_lt in Hget.
    unfold vsize in Hget. lia.
Qed.

(** X8.  [findLMS(CHILD)] returns, in ascending order, the nodes without
    children; on a forest these are exactly the nodes [v] with
    [SIZE[v] = 1], the leaves at which [heavyPathTDP] stops. *)
Theorem findLMS_leaves (m : Z) (SIZE ROOT : list Z) (CHILD : list (list Z)) :
  forest_wf m SIZE ROOT CHILD →
  ∃ LMS, ClusterTools.findLMS CHILD = Done LMS ∧
         ascending LMS ∧
         (∀ v, v ∈ LMS ↔ vget CHILD v = Done []) ∧
         ∀ v, v ∈ LMS ↔ vget SIZE v = Done 1.
Proof.
  intros Hwf. destruct (findLMS_spec CHILD) as (LMS & Hrun & Hsorted & Hmem).
  exists LMS. split_and!; [done..|].
  intros v. rewrite Hmem.
  pose proof Hwf as (HSIZE & HCHILD & _ & _ & _ & Hsum).
  split.
  - intros Hget. pose proof (vget_Done_lt _ _ _ Hget) as Hv.
    rewrite HCHILD in Hv. specialize (Hsum v Hv).
    unfold children in Hsum. rewrite Hget in Hsum.
    destruct (vget_lt SIZE v) as [s Hs]; [lia|].
    rewrite (size_of_Done _ _ _ Hs) in Hsum. rewrite Hs. f_equal.
    unfold sum_sizes in Hsum. simpl in Hsum. lia.
  - intros Hs. pose proof (vget_Done_lt _ _ _ Hs) as Hv.
    rewrite HSIZE in Hv. specialize (Hsum v Hv).
    destruct (vget_lt CHILD v) as [CHD HCHD]; [lia|].
    unfold children in Hsum. rewrite HCHD in Hsum.
    rewrite (size_of_Done _ _ _ Hs) in Hsum.
    destruct CHD as [|c CHD]; [done|]. exfalso.
    assert (c ∈ children CHILD v) as Hc
      by (unfold children; rewrite HCHD; by left).
    pose proof (children_in_range m SIZE ROOT CHILD Hwf v c Hc) as Hcr.
    pose proof (size_of_pos m SIZE ROOT CHILD Hwf c Hcr).
    assert (Forall (λ c, 0 ≤ c < m) CHD) as HCHD'.
    { pose proof (children_range_Forall m SIZE ROOT CHILD Hwf v) as Hall.
      unfold children in Hall. rewrite HCHD in Hall.
      by apply Forall_cons in Hall as [_ ?]. }
    destruct (sum_sizes_ge m SIZE ROOT CHILD Hwf CHD HCHD') as [Hge _].
    unfold sum_sizes in Hsum, Hge. simpl in Hsum. unfold vsize in Hge. lia.
Qed.

Lemma findLMS_leaves_witness :
  ∃ LMS, ClusterTools.findLMS [[1]; []; []] = Done LMS ∧
         ascending LMS ∧
         (∀ v, v ∈ LMS ↔ vget [[1]; []; []] v = Done []) ∧
         ∀ v, v ∈ LMS ↔ vget [2; 1; 1] v = Done 1.
Proof.
  apply (findLMS_leaves 3 [2; 1; 1] [0; 2] [[1]; []; []]).
  apply small_forest_wf.
Defined.

(** ** Disjoint sets: [Find], [Union] and [UnionBySize] *)

(** A chain of three nodes, [2 → 1 → 0], used to instantiate the
    statements below. *)
Lemma chain_wf : uf_wf [0; 0; 1] 2.
Proof.
  intros y Hy. unfold vsize in Hy. simpl in Hy. exists 0.
  assert (y = 0 ∨ y = 1 ∨ y = 2) as [->|[->| ->]] by lia.
  - by apply reaches_root.
  - eapply reaches_step; [reflexivity | lia | by apply reaches_root].
  - eapply reaches_step; [reflexivity | lia |].
    eapply reaches_step; [reflexivity | lia | by apply reaches_root].
Qed.

(** X9.  On a well-formed [parent] vector -- every node reaches a root
    within [d] steps -- [Find(x)] completes within [d] iterations and
    returns the root of [x].  Its path halving moves no root and keeps
    every node in its set: a node that reached a root within [k] steps
    still reaches the same root within [k] steps. *)
Theorem Find_returns_root (fuel : nat) (parent : list Z) (d : nat) (x : Z) :
  uf_wf parent d → (d ≤ fuel)%nat → 0 ≤ x < vsize parent →
  ∃ r parent',
    Hommel.Find fuel x parent = Done (r, parent') ∧
    reaches parent d x r ∧
    vsize parent' = vsize parent ∧
    (∀ y, vget parent' y = Done y ↔ vget parent y = Done y) ∧
    ∀ k y s, reaches parent k y s → reaches parent' k y s.
Proof.
  intros Hwf Hd Hx. destruct (Hwf x Hx) as [r Hr].
  destruct (Find_spec fuel parent d x r Hr Hd)
    as (parent' & Hrun & Hsize & Hkeep & Hroots).
  exists r, parent'. split_and!; try done.
  intros y. split; [apply Hroots|].
  intros Hy. eapply (reaches_is_root _ 0 y), Hkeep. by apply reaches_root.
Qed.

Lemma Find_returns_root_witness :
  ∃ r parent',
    Hommel.Find 2 2 [0; 0; 1] = Done (r, parent') ∧
    reaches [0; 0; 1] 2 2 r ∧
    vsize parent' = vsize [0; 0; 1] ∧
    (∀ y, vget parent' y = Done y ↔ vget [0; 0; 1] y = Done y) ∧
    ∀ k y s, reaches [0; 0; 1] k y s → reaches parent' k y s.
Proof.
  apply (Find_returns_root 2 [0; 0; 1] 2 2).
  - apply chain_wf.
  - lia.
  - unfold vsize. simpl. lia.
Defined.

(** X10.  [Union(x, y)] of the Hommel engine merges the sets of [x] and
    [y]: with [rx] and [ry] their roots, one of the two becomes the root
    [r] of every node of both sets, every other node keeps its root, and
    [lowest[r]] becomes the smaller of [lowest[rx]] and [lowest[ry]].  The
    structure stays well formed, with paths at most one step longer. *)
Theorem Union_merges_sets (fuel : nat) (n : Z) (d : nat) (x y : Z)
    (parent lowest rank : list Z) (rx ry lx ly : Z) :
  dsu_ok n d parent lowest rank → (d ≤ fuel)%nat →
  reaches parent d x rx → reaches parent d y ry →
  vget lowest rx = Done lx → vget lowest ry = Done ly →
  ∃ parent' lowest' rank' r,
    Hommel.Union fuel x y parent lowest rank
    = Done (parent', lowest', rank') ∧
    (r = rx ∨ r = ry) ∧
    (∀ z s, reaches parent d z s →
            reaches parent' (S d) z
              (if bool_decide (s = rx ∨ s = ry) then r else s)) ∧
    vget lowest' r = Done (Z.min lx ly) ∧
    (∀ s, s ≠ r → vget lowest' s = vget lowest s) ∧
    dsu_ok n (S d) parent' lowest' rank'.
Proof.
  intros Hok Hd Hx Hy Hlx Hly.
  pose proof Hok as (Hp & _ & _ & _ & _).
  destruct (dsu_ok_Union fuel n d x y parent lowest rank Hok Hd)
    as (parent' & lowest' & rank' & Hrun & Hok').
  { apply reaches_in_range in Hx. lia. }
  { apply reaches_in_range in Hy. lia. }
  exists parent', lowest', rank'. pose proof Hrun as Hrun0.
  unfold Hommel.Union in Hrun.
  destruct (Find_spec fuel parent d x rx Hx Hd)
    as (P1 & HF1 & _ & Hkeep1 & _).
  rewrite HF1 in Hrun. exec_simpl in Hrun.
  destruct (Find_spec fuel P1 d y ry (Hkeep1 _ _ _ Hy) Hd)
    as (P2 & HF2 & _ & Hkeep2 & _).
  rewrite HF2 in Hrun. exec_simpl in Hrun.
  assert (∀ k z s, reaches parent k z s → reaches P2 k z s) as Hkeep
    by (intros k z s Hz; by apply Hkeep2, Hkeep1).
  pose proof (reaches_is_root _ _ _ _ (Hkeep _ _ _ Hx)) as Hrx.
  pose proof (reaches_is_root _ _ _ _ (Hkeep _ _ _ Hy)) as Hry.
  case_bool_decide as Heq.
  { injection Hrun as <- <- <-. subst ry. exists rx.
    rewrite Hlx in Hly. injection Hly as <-.
    refine (conj Hrun0 (conj _ (conj _ (conj _ (conj _ Hok')))));
      [by left | | by rewrite Z.min_id | done].
    intros z s Hz. apply (reaches_mono _ d); [|lia].
    destruct (bool_decide (s = rx ∨ s = rx)) eqn:E; [|by apply Hkeep].
    apply bool_decide_eq_true in E. assert (s = rx) as -> by tauto.
    by apply Hkeep. }
  bind_inv Hrun as rkx Hrkx. bind_inv Hrun as rky Hrky.
  assert (ry ≠ rx) as Heq' by congruence.
  assert (∀ a b P', vset P2 a b = Done P' → a ≠ b →
            vget P2 a = Done a → vget P2 b = Done b →
            (a = rx ∧ b = ry) ∨ (a = ry ∧ b = rx) →
            ∀ z s, reaches parent d z s →
                   reaches P' (S d) z
                     (if bool_decide (s = rx ∨ s = ry) then b else s))
    as Hlink.
  { intros a b P' HP' Hab Ha Hb Hcase z s Hz.
    pose proof (reaches_link P2 a b P' Ha Hb Hab HP' d z s (Hkeep _ _ _ Hz))
      as Hl.
    destruct (decide (s = a)) as [->|Hsa].
    - rewrite bool_decide_eq_true_2 in Hl by done.
      rewrite bool_decide_eq_true_2; [done|]. destruct Hcase; intuition.
    - rewrite bool_decide_eq_false_2 in Hl by done.
      destruct (decide (s = b)) as [->|Hsb].
      + rewrite bool_decide_eq_true_2; [done|]. destruct Hcase; intuition.
      + rewrite bool_decide_eq_false_2; [done|].
        destruct Hcase as [[-> ->]|[-> ->]]; intuition. }
  case_bool_decide as Hlt; [|case_bool_decide as Hgt].
  - bind_inv Hrun as P' HP'. rewrite Hlx, Hly in Hrun. exec_simpl in Hrun.
    bind_inv Hrun as L' HL'. injection Hrun as <- <- <-.
    exists ry.
    refine (conj Hrun0 (conj _ (conj _ (conj _ (conj _ Hok'))))).
    + by right.
    + by apply (Hlink rx ry P'); [| | | |left].
    + by eapply vget_vset_eq.
    + intros s Hs. by eapply vget_vset_ne.
  - bind_inv Hrun as P' HP'. rewrite Hlx, Hly in Hrun. exec_simpl in Hrun.
    bind_inv Hrun as L' HL'. injection Hrun as <- <- <-.
    exists rx.
    refine (conj Hrun0 (conj _ (conj _ (conj _ (conj _ Hok'))))).
    + by left.
    + by apply (Hlink ry rx P'); [| | | |right].
    + by eapply vget_vset_eq.
    + intros s Hs. by eapply vget_vset_ne.
  - bind_inv Hrun as P' HP'. bind_inv Hrun as R' HR'.
    rewrite Hlx, Hly in Hrun. exec_simpl in Hrun.
    bind_inv Hrun as L' HL'. injection Hrun as <- <- <-.
    exists rx.
    refine (conj Hrun0 (conj _ (conj _ (conj _ (conj _ Hok'))))).
    + by left.
    + by apply (Hlink ry rx P'); [| | | |right].
    + by eapply vget_vset_eq.
    + intros s Hs. by eapply vget_vset_ne.
Qed.

Lemma singletons_ok : dsu_ok 3 0 [0; 1; 2] [0; 1; 2] [0; 0; 0].
Proof.
  split_and!; try reflexivity.
  - intros y Hy. unfold vsize in Hy. simpl in Hy. exists y.
    apply reaches_root.
    assert (y = 0 ∨ y = 1 ∨ y = 2) as [->|[->| ->]] by lia; reflexivity.
  - intros x l Hx. pose proof (vget_Done_lt _ _ _ Hx) as Hr.
    unfold vsize in Hr. simpl in Hr.
    assert (x = 0 ∨ x = 1 ∨ x = 2) as [->|[->| ->]] by lia;
      injection Hx as <-; lia.
Qed.

Lemma Union_merges_sets_witness :
  ∃ parent' lowest' rank' r,
    Hommel.Union 0 1 2 [0; 1; 2] [0; 1; 2] [0; 0; 0]
    = Done (parent', lowest', rank') ∧
    (r = 1 ∨ r = 2) ∧
    (∀ z s, reaches [0; 1; 2] 0 z s →
            reaches parent' 1 z
              (if bool_decide (s = 1 ∨ s = 2) then r else s)) ∧
    vget lowest' r = Done (Z.min 1 2) ∧
    (∀ s, s ≠ r → vget lowest' s = vget [0; 1; 2] s) ∧
    dsu_ok 3 1 parent' lowest' rank'.
Proof.
  apply (Union_merges_sets 0 3 0 1 2 [0; 1; 2] [0; 1; 2] [0; 0; 0] 1 2 1 2).
  - apply singletons_ok.
  - lia.
  - apply reaches_root. reflexivity.
  - apply reaches_root. reflexivity.
  - reflexivity.
  - reflexivity.
Defined.

(** ** [findIndex] *)

Section FindIndex.
Variables (TDP : list Q) (ADMSTC : list Z) (irep : Z) (ti : Q).
Hypothesis Hrange : Forall (λ a, 0 ≤ a < vsize TDP) ADMSTC.
Hypothesis Hsorted : ARICluster.sorted_by TDP ADMSTC.
Hypothesis Hti : vget TDP irep = Done ti.

(** Iteration [t] of the loop: the two linear scans have moved [t]
    steps, the window of the binary search has lost at least [t]
    positions, and an entry with the TDP of [irep], if there is one,
    lies inside the window. *)
Lemma findIndex_loop_spec (fuel : nat) (t low high : Z) :
  0 ≤ t → 0 ≤ low → high < vsize ADMSTC →
  high - low + 1 ≤ vsize ADMSTC - t →
  high - low + 1 ≤ Z.of_nat fuel →
  ∃ idx,
    ARICluster.findIndex_loop fuel irep ADMSTC TDP t (vsize ADMSTC - 1 - t)
      low high = Done idx ∧
    (idx = -1 ∨
     0 ≤ idx < vsize ADMSTC ∧
     ∃ a ta, vget ADMSTC idx = Done a ∧ vget TDP a = Done ta ∧ (ta == ti)%Q) ∧
    ((∃ k a ta, low ≤ k ≤ high ∧ vget ADMSTC k = Done a ∧
                vget TDP a = Done ta ∧ (ta == ti)%Q) → idx ≠ -1).
Proof.
  revert t low high.
  induction fuel as [|fuel IH]; intros t low high Ht Hlow Hhigh Hwin Hfuel;
    cbn [ARICluster.findIndex_loop]; case_bool_decide as Hle.
  - lia.
  - exists (-1). split_and!; [done | by left |].
    intros (k & _ & _ & Hk & _). lia.
  - assert (low ≤ (low + high) `quot` 2 ≤ high) as Hmid.
    { rewrite Z.quot_div_nonneg by lia.
      pose proof (Z.div_mod (low + high) 2).
      pose proof (Z.mod_pos_bound (low + high) 2). lia. }
    set (mid := (low + high) `quot` 2) in *.
    destruct (ADMSTC_entry TDP ADMSTC Hrange mid) as (am & tm & Ham & Htm);
      [lia|].
    rewrite Ham. exec_simpl. rewrite Htm. exec_simpl.
    rewrite Hti. exec_simpl.
    destruct (ADMSTC_entry TDP ADMSTC Hrange (vsize ADMSTC - 1 - t))
      as (ar & tr & Har & Htr); [lia|].
    destruct (ADMSTC_entry TDP ADMSTC Hrange t) as (al & tl & Hal & Htl);
      [lia|].
    assert (∀ low' high',
      low ≤ low' → high' ≤ high → high' - low' < high - low →
      ((∃ k a ta, low ≤ k ≤ high ∧ vget ADMSTC k = Done a ∧
                  vget TDP a = Done ta ∧ (ta == ti)%Q) →
       ∃ k a ta, low' ≤ k ≤ high' ∧ vget ADMSTC k = Done a ∧
                 vget TDP a = Done ta ∧ (ta == ti)%Q) →
      ∃ idx,
        (ar0 ← vget ADMSTC (vsize ADMSTC - 1 - t);
         if bool_decide (ar0 = irep) then Done (vsize ADMSTC - 1 - t) else
         al0 ← vget ADMSTC t;
         if bool_decide (al0 = irep) then Done t else
         ARICluster.findIndex_loop fuel irep ADMSTC TDP (t + 1)
           (vsize ADMSTC - 1 - t - 1) low' high') = Done idx ∧
        (idx = -1 ∨
         0 ≤ idx < vsize ADMSTC ∧
         ∃ a ta, vget ADMSTC idx = Done a ∧ vget TDP a = Done ta ∧
                 (ta == ti)%Q) ∧
        ((∃ k a ta, low ≤ k ≤ high ∧ vget ADMSTC k = Done a ∧
                    vget TDP a = Done ta ∧ (ta == ti)%Q) → idx ≠ -1))
      as Hlinear.
    { intros low' high' Hl' Hh' Hshrink Hpres.
      rewrite Har. exec_simpl. case_bool_decide as Hr.
      { eexists. split; [done|]. split; [|lia]. right. split; [lia|].
        exists ar, tr. split_and!; [done..|]. subst ar.
        rewrite Hti in Htr. injection Htr as <-. reflexivity. }
      rewrite Hal. exec_simpl. case_bool_decide as Hl.
      { eexists. split; [done|]. split; [|lia]. right. split; [lia|].
        exists al, tl. split_and!; [done..|]. subst al.
        rewrite Hti in Htl. injection Htl as <-. reflexivity. }
      replace (vsize ADMSTC - 1 - t - 1) with (vsize ADMSTC - 1 - (t + 1))
        by lia.
      destruct (IH (t + 1) low' high') as (idx & Hrun & Hidx & Hfound);
        [lia..|].
      exists idx. split_and!; [done..|]. intros Hk. by apply Hfound, Hpres. }
    destruct (Qgtb tm ti) eqn:Hgt; [|destruct (Qltb tm ti) eqn:Hlt].
    + apply Qltb_lt in Hgt. apply Hlinear; [lia..|].
      intros (k & a & ta & Hk & Ha & Hta & Heq).
      exists k, a, ta. split_and!; [lia | | done..].
      destruct (decide (k ≤ mid - 1)) as [|Hgt']; [done|]. exfalso.
      pose proof (sorted_entries TDP ADMSTC Hsorted mid k am a tm ta
                    ltac:(lia) Ham Ha Htm Hta) as Hle'.
      rewrite Heq in Hle'. by apply Qlt_not_le in Hgt.
    + apply Qltb_lt in Hlt. apply Hlinear; [lia..|].
      intros (k & a & ta & Hk & Ha & Hta & Heq).
      exists k, a, ta. split_and!; [| lia | done..].
      destruct (decide (mid + 1 ≤ k)) as [|Hgt']; [done|]. exfalso.
      pose proof (sorted_entries TDP ADMSTC Hsorted k mid a am ta tm
                    ltac:(lia) Ha Ham Hta Htm) as Hle'.
      rewrite Heq in Hle'. by apply Qlt_not_le in Hlt.
    + exists mid. split_and!; [done | | lia]. right. split; [lia|].
      exists am, tm. split_and!; [done..|].
      apply Qltb_ge in Hgt. apply Qltb_ge in Hlt. by apply Qle_antisym.
  - exists (-1). split_and!; [done | by left |].
    intros (k & _ & _ & Hk & _). lia.
Qed.

End FindIndex.

(** X11.  On a list [ADMSTC] of valid nodes sorted by TDP, [findIndex]
    completes without reading out of bounds; it returns [-1] or a
    position whose entry has the TDP of [irep] -- the entry need not be
    [irep] itself when several have that TDP -- and it does not return
    [-1] when [irep] is an entry of [ADMSTC]. *)
Theorem findIndex_finds_equal_TDP (TDP : list Q) (ADMSTC : list Z)
    (irep : Z) (ti : Q) :
  Forall (λ a, 0 ≤ a < vsize TDP) ADMSTC →
  ARICluster.sorted_by TDP ADMSTC →
  vget TDP irep = Done ti →
  ∃ idx,
    ARICluster.findIndex irep ADMSTC TDP = Done idx ∧
    (idx = -1 ∨
     0 ≤ idx < vsize ADMSTC ∧
     ∃ a ta, vget ADMSTC idx = Done a ∧ vget TDP a = Done ta ∧ (ta == ti)%Q) ∧
    (irep ∈ ADMSTC → idx ≠ -1).
Proof.
  intros Hrange Hsorted Hti. unfold ARICluster.findIndex.
  destruct (findIndex_loop_spec TDP ADMSTC irep ti Hrange Hsorted Hti
              (S (length ADMSTC)) 0 0 (vsize ADMSTC - 1))
    as (idx & Hrun & Hidx & Hfound); unfold vsize in *; try lia.
  exists idx. replace (Z.of_nat (length ADMSTC) - 1 - 0)
    with (Z.of_nat (length ADMSTC) - 1) in Hrun by lia.
  split_and!; [done..|].
  intros [k Hk]%list_elem_of_lookup. apply Hfound.
  exists (Z.of_nat k), irep, ti. split_and!.
  - lia.
  - apply lookup_lt_Some in Hk. lia.
  - apply vget_Done. split; [lia|]. by rewrite Nat2Z.id.
  - done.
  - reflexivity.
Qed.

Lemma findIndex_finds_equal_TDP_witness :
  ∃ idx,
    ARICluster.findIndex 2 [0; 1; 2] [(1 # 2)%Q; 1%Q; 1%Q] = Done idx ∧
    (idx = -1 ∨
     0 ≤ idx < vsize [0; 1; 2] ∧
     ∃ a ta, vget [0; 1; 2] idx = Done a ∧
             vget [(1 # 2)%Q; 1%Q; 1%Q] a = Done ta ∧ (ta == 1)%Q) ∧
    (2 ∈ [0; 1; 2] → idx ≠ -1).
Proof.
  apply (findIndex_finds_equal_TDP [(1 # 2)%Q; 1%Q; 1%Q] [0; 1; 2] 2 1).
  - repeat constructor; unfold vsize; simpl; lia.
  - destruct small_forest_prep as (l & _ & _ & Hsorted). exact Hsorted.
  - reflexivity.
Defined.

(** ** [findRep] *)

Lemma elem_of_vget {A : Type} (l : list A) (x : A) :
  x ∈ l ↔ ∃ k, vget l k = Done x.
Proof.
  rewrite list_elem_of_lookup. split.
  - intros [i Hi]. exists (Z.of_nat i). apply vget_Done.
    split; [lia|]. by rewrite Nat2Z.id.
  - intros [k [_ Hk]%vget_Done]. by eexists.
Qed.

Lemma to_size_t_small (z : Z) : 0 ≤ z < 2 ^ 31 → to_size_t z = z.
Proof. intros Hz. unfold to_size_t. apply Z.mod_small. lia. Qed.

(** The two-pointer scan looks at every position between [left] and
    [right]. *)
Lemma findRep_scan_spec (fuel : nat) (CLUS : list Z) (v left right : Z) :
  0 ≤ left → right < vsize CLUS → right - left + 1 ≤ Z.of_nat fuel →
  ∃ b, ARICluster.findRep_scan fuel CLUS v left right = Done b ∧
       (b = true ↔ ∃ k, left ≤ k ≤ right ∧ vget CLUS k = Done v).
Proof.
  revert left right.
  induction fuel as [|fuel IH]; intros left right Hleft Hright Hfuel;
    cbn [ARICluster.findRep_scan]; case_bool_decide as Hle.
  - lia.
  - exists false. split; [done|]. split; [done|]. intros (k & Hk & _). lia.
  - destruct (vget_lt CLUS left) as [cl Hcl]; [lia|].
    rewrite Hcl. exec_simpl. case_bool_decide as Hl.
    { exists true. split; [done|]. split; [|done]. intros _.
      exists left. subst cl. split; [lia | done]. }
    destruct (vget_lt CLUS right) as [cr Hcr]; [lia|].
    rewrite Hcr. exec_simpl. case_bool_decide as Hr.
    { exists true. split; [done|]. split; [|done]. intros _.
      exists right. subst cr. split; [lia | done]. }
    destruct (IH (left + 1) (right - 1)) as (b & -> & Hb); [lia..|].
    exists b. split; [done|]. rewrite Hb. split.
    + intros (k & Hk & Hv). exists k. split; [lia | done].
    + intros (k & Hk & Hv). exists k. split; [|done].
      destruct (decide (k = left)) as [->|]; [congruence|].
      destruct (decide (k = right)) as [->|]; [congruence|]. lia.
  - exists false. split; [done|]. split; [done|]. intros (k & Hk & _). lia.
Qed.

Section FindRep.
Variables (m : Z) (SIZE ROOT : list Z) (CHILD : list (list Z)).
Hypothesis Hwf : forest_wf m SIZE ROOT CHILD.
Hypothesis Hm : m < 2 ^ 31.

Lemma below_smaller (a v : Z) :
  descends CHILD a v → a ≠ v → size_of SIZE v < size_of SIZE a.
Proof.
  intros [->|(c & Hc & Hcv)]%descends_head Hne; [done|].
  pose proof (descends_size m SIZE ROOT CHILD Hwf c v Hcv).
  pose proof (child_smaller m SIZE ROOT CHILD Hwf a c Hc). lia.
Qed.

Lemma findRep_loop_spec (rest : list (list Z)) (i v : Z) :
  0 ≤ v < m →
  Forall (λ CL, ∃ a, 0 ≤ a < m ∧
                     ARICluster.descendants a SIZE CHILD = Done CL) rest →
  ∃ r, ARICluster.findRep_loop rest i v SIZE = Done r ∧
       (r = -1 ∧ (∀ CL, CL ∈ rest → v ∉ CL) ∨
        ∃ (k : nat) CL, r = i + Z.of_nat k ∧ rest !! k = Some CL ∧ v ∈ CL ∧
                        ∀ (j : nat) CL', (j < k)%nat → rest !! j = Some CL' →
                                         v ∉ CL').
Proof.
  intros Hv. revert i.
  induction rest as [|CLUS rest IH]; intros i Hrest;
    cbn [ARICluster.findRep_loop].
  - exists (-1). split; [done|]. left. split; [done|].
    intros CL HCL. by apply elem_of_nil in HCL.
  - apply Forall_cons in Hrest as [(a & Ha & HCLUS) Hrest].
    rewrite (descendants_spec m SIZE ROOT CHILD Hwf a Ha) in HCLUS.
    injection HCLUS as <-.
    pose proof (desc_of_vsize m SIZE ROOT CHILD Hwf a Ha) as Hsz.
    pose proof (size_of_pos m SIZE ROOT CHILD Hwf a Ha) as Hpos.
    pose proof (size_of_le m SIZE ROOT CHILD Hwf a Ha) as Hle.
    rewrite to_size_t_small by lia.
    assert (vget (desc_of SIZE CHILD a) (vsize (desc_of SIZE CHILD a) - 1)
            = Done a) as ->.
    { pose proof (desc_of_last m SIZE ROOT CHILD Hwf a Ha) as Hlast.
      rewrite last_lookup in Hlast. apply vget_Done. split; [lia|].
      rewrite <- Hlast. f_equal. unfold vsize. lia. }
    exec_simpl.
    assert (∀ r,
      (r = -1 ∧ (∀ CL, CL ∈ rest → v ∉ CL) ∨
       ∃ (k : nat) CL, r = i + 1 + Z.of_nat k ∧ rest !! k = Some CL ∧ v ∈ CL ∧
          ∀ (j : nat) CL', (j < k)%nat → rest !! j = Some CL' → v ∉ CL') →
      v ∉ desc_of SIZE CHILD a →
      r = -1 ∧ (∀ CL, CL ∈ desc_of SIZE CHILD a :: rest → v ∉ CL) ∨
      ∃ (k : nat) CL, r = i + Z.of_nat k ∧
          (desc_of SIZE CHILD a :: rest) !! k = Some CL ∧ v ∈ CL ∧
          ∀ (j : nat) CL', (j < k)%nat →
                           (desc_of SIZE CHILD a :: rest) !! j = Some CL' →
                           v ∉ CL') as Hskip.
    { intros r [[-> Hnone]|(k & CL & -> & Hk & HvCL & Hfirst)] Hnot.
      - left. split; [done|].
        intros CL [->|HCL]%elem_of_cons; [done | by apply Hnone].
      - right. exists (S k), CL. split_and!; [lia | done | done |].
        intros [|j] CL' Hj HCL'; simpl in HCL'.
        + by injection HCL' as <-.
        + apply (Hfirst j); [lia | done]. }
    case_bool_decide as Hav.
    { subst a. exists i. split; [done|]. right.
      exists 0%nat, (desc_of SIZE CHILD v). split_and!; [lia | done | |].
      - by apply (desc_of_self m SIZE ROOT CHILD Hwf).
      - intros j CL' Hj. lia. }
    destruct (vget_lt SIZE a) as [sa Hsa]; [destruct Hwf as (-> & _); lia|].
    destruct (vget_lt SIZE v) as [sv Hsv]; [destruct Hwf as (-> & _); lia|].
    rewrite Hsa, Hsv. exec_simpl.
    case_bool_decide as Hgt.
    + destruct (findRep_scan_spec (S (length (desc_of SIZE CHILD a)))
                  (desc_of SIZE CHILD a) v 0
                  (vsize (desc_of SIZE CHILD a) - 1))
        as (b & -> & Hb); [unfold vsize; lia..|].
      exec_simpl. destruct b.
      * exists i. split; [done|]. right.
        exists 0%nat, (desc_of SIZE CHILD a).
        split_and!; [lia | done | | intros j CL' Hj; lia].
        destruct (proj1 Hb eq_refl) as (k & _ & Hk).
        apply elem_of_vget. by exists k.
      * destruct (IH (i + 1) Hrest) as (r & -> & Hr).
        exists r. split; [done|]. apply Hskip; [done|].
        intros [k Hk]%elem_of_vget.
        assert (false = true); [|done]. apply Hb. exists k.
        split; [|done]. apply vget_Done_lt in Hk. lia.
    + destruct (IH (i + 1) Hrest) as (r & -> & Hr).
      exists r. split; [done|]. apply Hskip; [done|].
      intros Hin%(desc_of_descends m SIZE ROOT CHILD Hwf a v Ha).
      pose proof (below_smaller a v Hin Hav) as Hlt.
      rewrite (size_of_Done _ _ _ Hsa), (size_of_Done _ _ _ Hsv) in Hlt. lia.
Qed.

End FindRep.

(** X12.  On a forest and a list [ANS] of clusters that are subtrees
    ([descendants(a)] of nodes [a], as [answerQuery] returns them),
    [findRep(v)] completes and returns the position of the first cluster
    that contains [v], or [-1] when no cluster contains [v].  The test
    [SIZE[irep] > SIZE[v]] skips no cluster that holds [v]. *)
Theorem findRep_finds_cluster (m : Z) (SIZE ROOT : list Z)
    (CHILD ANS : list (list Z)) (v : Z) :
  forest_wf m SIZE ROOT CHILD → m < 2 ^ 31 → 0 ≤ v < m →
  Forall (λ CL, ∃ a, 0 ≤ a < m ∧
                     ARICluster.descendants a SIZE CHILD = Done CL) ANS →
  ∃ i, ARICluster.findRep v SIZE ANS = Done i ∧
       (i = -1 ∧ (∀ CL, CL ∈ ANS → v ∉ CL) ∨
        ∃ CL, vget ANS i = Done CL ∧ v ∈ CL ∧
              ∀ j CL', 0 ≤ j < i → vget ANS j = Done CL' → v ∉ CL').
Proof.
  intros Hwf Hm Hv HANS. unfold ARICluster.findRep.
  destruct (findRep_loop_spec m SIZE ROOT CHILD Hwf Hm ANS 0 v Hv HANS)
    as (r & Hrun & Hr).
  exists r. split; [done|].
  destruct Hr as [?|(k & CL & -> & Hk & HvCL & Hfirst)]; [by left|]. right.
  exists CL. split_and!; [|done|].
  - apply vget_Done. split; [lia|].
    by replace (Z.to_nat (0 + Z.of_nat k)) with k by lia.
  - intros j CL' Hj [_ HCL']%vget_Done.
    apply (Hfirst (Z.to_nat j)); [lia | done].
Qed.

Lemma findRep_finds_cluster_witness :
  ∃ i, ARICluster.findRep 1 [2; 1; 1] [[1; 0]; [2]] = Done i ∧
       (i = -1 ∧ (∀ CL, CL ∈ [[1; 0]; [2]] → 1 ∉ CL) ∨
        ∃ CL, vget [[1; 0]; [2]] i = Done CL ∧ 1 ∈ CL ∧
              ∀ j CL', 0 ≤ j < i → vget [[1; 0]; [2]] j = Done CL' →
                       1 ∉ CL').
Proof.
  apply (findRep_finds_cluster 3 [2; 1; 1] [0; 2] [[1]; []; []]).
  - apply small_forest_wf.
  - lia.
  - lia.
  - repeat constructor.
    + exists 0. split; [lia | reflexivity].
    + exists 2. split; [lia | reflexivity].
Defined.

(** ** [findHalpha] before the change to zero-based indices *)

Lemma findHalpha_backup_loop (fuel : nat) (jumpalpha : list Q) (alpha : Q)
    (m lower upper : Z) :
  vsize jumpalpha = m → non_increasing jumpalpha →
  0 ≤ lower < upper → upper ≤ m + 1 →
  upper - lower - 1 ≤ Z.of_nat fuel →
  (lower = 0 ∨ ∃ a, vget jumpalpha (lower - 1) = Done a ∧ (alpha < a)%Q) →
  (upper = m + 1 ∨
   ∃ a, vget jumpalpha (upper - 1) = Done a ∧ (a <= alpha)%Q) →
  ∃ h, HommelBackup.findHalpha_loop fuel jumpalpha alpha lower upper
       = Done h ∧
       largest_jump_above jumpalpha alpha m h.
Proof.
  intros Hsize Hmono. revert lower upper.
  induction fuel as [|fuel IH];
    intros lower upper Hlow Hup Hfuel Hbelow Habove;
    cbn [HommelBackup.findHalpha_loop]; case_bool_decide as Hlt.
  1, 3: lia || idtac.
  all: try (exists lower; split; [done|]; split; [lia|]; split; [done|];
            intros h' a Hh' Ha Hgt;
            destruct Habove as [->|(b & Hb & Hle)]; [lia|];
            pose proof (Hmono (upper - 1) (h' - 1) b a ltac:(lia) Hb Ha)
              as Hab;
            apply (Qlt_not_le _ _ Hgt); by eapply Qle_trans).
  assert (lower < (lower + upper + 1) `quot` 2 < upper) as Hmid.
  { rewrite Z.quot_div_nonneg by lia.
    pose proof (Z.div_mod (lower + upper + 1) 2).
    pose proof (Z.mod_pos_bound (lower + upper + 1) 2). lia. }
  set (mid := (lower + upper + 1) `quot` 2) in *.
  destruct (vget_lt jumpalpha (mid - 1)) as [jm Hjm]; [lia|].
  rewrite Hjm. exec_simpl.
  destruct (Qgtb jm alpha) eqn:Hgt.
  - apply IH; [lia | lia | lia | | done].
    right. exists jm. split; [done|]. by apply Qltb_lt.
  - apply IH; [lia | lia | lia | done |].
    right. exists jm. split; [done|]. by apply Qltb_ge.
Qed.

(** X13.  [findHalpha] of [hommel_backup.cpp], the one-based original of
    the function the engine uses now, returns for every non-increasing
    [jumpalpha] of length [m] the largest [h] in [0..m] with
    [jumpalpha[h-1] > alpha], and [0] when there is none. *)
Theorem findHalpha_backup_largest (jumpalpha : list Q) (alpha : Q) (m : Z) :
  vsize jumpalpha = m → non_increasing jumpalpha →
  ∃ h, HommelBackup.findHalpha jumpalpha alpha m = Done h ∧
       largest_jump_above jumpalpha alpha m h.
Proof.
  intros Hsize Hmono. unfold HommelBackup.findHalpha.
  assert (0 ≤ m) by (unfold vsize in Hsize; lia).
  eapply findHalpha_backup_loop; try done; try lia; by left.
Qed.

Lemma findHalpha_backup_largest_witness :
  ∃ h, HommelBackup.findHalpha [1%Q] (1 # 2) 1 = Done h ∧
       largest_jump_above [1%Q] (1 # 2) 1 h.
Proof.
  apply (findHalpha_backup_largest [1%Q] (1 # 2) 1).
  - reflexivity.
  - intros i j a b Hij Ha Hb.
    pose proof (vget_Done_lt _ _ _ Ha) as Hi.
    pose proof (vget_Done_lt _ _ _ Hb) as Hj.
    unfold vsize in Hi, Hj. simpl in Hi, Hj.
    assert (i = 0) as -> by lia. assert (j = 0) as -> by lia.
    rewrite Ha in Hb. injection Hb as <-. apply Qle_refl.
Defined.

(** ** The voxel grid *)

Lemma to_int_small (z : Z) : - 2 ^ 31 ≤ z < 2 ^ 31 → to_int z = z.
Proof.
  intros Hz. unfold to_int. rewrite Z.mod_small by lia. lia.
Qed.

Lemma Done_bind {A B : Type} (a : A) (k : A → exec B) :
  Done a ≫= k = k a.
Proof. reflexivity. Qed.

Lemma int_div_pos (a b : Z) :
  0 ≤ a → 0 < b → Voxels.int_div a b = Done (a `div` b).
Proof.
  intros Ha Hb. unfold Voxels.int_div.
  rewrite (bool_decide_eq_false_2 (b = 0)) by lia.
  rewrite (bool_decide_eq_false_2 (_ ∧ _)) by lia.
  by rewrite Z.quot_div_nonneg by lia.
Qed.

Lemma int_mod_pos (a b : Z) :
  0 ≤ a → 0 < b → Voxels.int_mod a b = Done (a `mod` b).
Proof.
  intros Ha Hb. unfold Voxels.int_mod.
  rewrite (bool_decide_eq_false_2 (b = 0)) by lia.
  rewrite (bool_decide_eq_false_2 (_ ∧ _)) by lia.
  by rewrite Z.rem_mod_nonneg by lia.
Qed.

Lemma index2xyz_run (d0 d1 d2 index : Z) :
  0 < d0 → 0 < d1 → d0 * d1 < 2 ^ 31 → 0 ≤ index →
  Voxels.index2xyz index [d0; d1; d2]
  = Done [index `mod` d0; (index `div` d0) `mod` d1; index `div` (d0 * d1)].
Proof.
  intros H0 H1 Hfit Hi. unfold Voxels.index2xyz, Voxels.int_mul.
  change (vget [d0; d1; d2] 0) with (Done d0).
  change (vget [d0; d1; d2] 1) with (Done d1). exec_simpl.
  rewrite (to_int_small (d0 * d1)) by nia.
  assert (0 ≤ index `div` d0) by (apply Z.div_pos; lia).
  rewrite (int_mod_pos index d0), (int_div_pos index d0) by lia.
  exec_simpl.
  rewrite (int_mod_pos (index `div` d0) d1) by lia. exec_simpl.
  by rewrite (int_div_pos index (d0 * d1)) by nia.
Qed.

(** [xyz2index] when none of its products and sums leaves [int]. *)
Lemma xyz2index_run (d0 d1 d2 x y z : Z) :
  - 2 ^ 31 ≤ z * d1 < 2 ^ 31 →
  - 2 ^ 31 ≤ z * d1 * d0 < 2 ^ 31 →
  - 2 ^ 31 ≤ y * d0 < 2 ^ 31 →
  - 2 ^ 31 ≤ z * d1 * d0 + y * d0 < 2 ^ 31 →
  - 2 ^ 31 ≤ z * d1 * d0 + y * d0 + x < 2 ^ 31 →
  Voxels.xyz2index x y z [d0; d1; d2] = Done (z * d1 * d0 + y * d0 + x).
Proof.
  intros Hzd1 Hzd Hyd Hsum Hall.
  unfold Voxels.xyz2index, Voxels.int_add, Voxels.int_mul.
  change (vget [d0; d1; d2] 0) with (Done d0).
  change (vget [d0; d1; d2] 1) with (Done d1). exec_simpl.
  rewrite (to_int_small (z * d1)) by done.
  rewrite (to_int_small (z * d1 * d0)) by done.
  rewrite (to_int_small (y * d0)) by done.
  rewrite (to_int_small (z * d1 * d0 + y * d0)) by done.
  by rewrite (to_int_small (z * d1 * d0 + y * d0 + x)) by done.
Qed.

(** Within the grid the index lies below the number of voxels. *)
Lemma xyz2index_grid (d0 d1 d2 x y z : Z) :
  0 < d0 → 0 < d1 → 0 < d2 → d0 * d1 * d2 < 2 ^ 31 →
  0 ≤ x < d0 → 0 ≤ y < d1 → 0 ≤ z < d2 →
  Voxels.xyz2index x y z [d0; d1; d2] = Done (z * d1 * d0 + y * d0 + x) ∧
  0 ≤ z * d1 * d0 + y * d0 + x < d0 * d1 * d2.
Proof.
  intros H0 H1 H2 Hfit Hx Hy Hz.
  assert (0 ≤ y * d0 ≤ (d1 - 1) * d0) as Hyd by nia.
  assert (0 ≤ z * d1 ≤ (d2 - 1) * d1) as Hzd1 by nia.
  assert (0 ≤ z * d1 * d0 ≤ (d2 - 1) * d1 * d0) as Hzd by nia.
  assert (d1 ≤ d0 * d1) by nia.
  assert (d0 * d1 ≤ d0 * d1 * d2) by nia.
  split; [apply xyz2index_run; nia | nia].
Qed.

(** One step outside the grid the index is still formed without leaving
    [int], when [d0 * d1 * (d2 + 1) + d0] fits. *)
Lemma xyz2index_around (d0 d1 d2 x y z : Z) :
  0 < d0 → 0 < d1 → 0 < d2 → d0 * d1 * (d2 + 1) + d0 < 2 ^ 31 →
  -1 ≤ x ≤ d0 → -1 ≤ y ≤ d1 → -1 ≤ z ≤ d2 →
  Voxels.xyz2index x y z [d0; d1; d2] = Done (z * d1 * d0 + y * d0 + x).
Proof.
  intros H0 H1 H2 Hfit Hx Hy Hz.
  assert (- d0 ≤ y * d0 ≤ d1 * d0) as Hyd by nia.
  assert (- d1 ≤ z * d1 ≤ d2 * d1) as Hzd1 by nia.
  assert (- (d1 * d0) ≤ z * d1 * d0 ≤ d2 * d1 * d0) as Hzd by nia.
  assert (d1 ≤ d0 * d1) by nia.
  assert (d0 ≤ d0 * d1) by nia.
  assert (d0 * d1 ≤ d0 * d1 * d2) by nia.
  assert (d2 * d1 ≤ d0 * d1 * d2) by nia.
  apply xyz2index_run; nia.
Qed.

Lemma index2xyz_in_grid (d0 d1 d2 index : Z) :
  0 < d0 → 0 < d1 → 0 < d2 → d0 * d1 * d2 < 2 ^ 31 →
  0 ≤ index < d0 * d1 * d2 →
  ∃ x y z, Voxels.index2xyz index [d0; d1; d2] = Done [x; y; z] ∧
           0 ≤ x < d0 ∧ 0 ≤ y < d1 ∧ 0 ≤ z < d2 ∧
           index = z * d1 * d0 + y * d0 + x ∧
           Voxels.xyz2index x y z [d0; d1; d2] = Done index.
Proof.
  intros H0 H1 H2 Hfit Hi.
  exists (index `mod` d0), ((index `div` d0) `mod` d1),
         (index `div` (d0 * d1)).
  pose proof (Z.mod_pos_bound index d0 H0).
  pose proof (Z.mod_pos_bound (index `div` d0) d1 H1).
  pose proof (Z.div_mod index d0 ltac:(lia)) as E0.
  pose proof (Z.div_mod (index `div` d0) d1 ltac:(lia)) as E1.
  rewrite Z.div_div in E1 by lia.
  assert (0 ≤ index `div` (d0 * d1)) by (apply Z.div_pos; nia).
  assert (index `div` (d0 * d1) < d2)
    by (apply Z.div_lt_upper_bound; nia).
  assert (index = index `div` (d0 * d1) * d1 * d0
                  + (index `div` d0) `mod` d1 * d0 + index `mod` d0)
    as Eindex by nia.
  split_and!; try lia.
  - apply index2xyz_run; nia.
  - destruct (xyz2index_grid d0 d1 d2 (index `mod` d0)
                ((index `div` d0) `mod` d1) (index `div` (d0 * d1)))
      as [-> _]; try done; try lia.
    by rewrite <- Eindex.
Qed.

Lemma xyz2index_in_grid (d0 d1 d2 x y z : Z) :
  0 < d0 → 0 < d1 → 0 < d2 → d0 * d1 * d2 < 2 ^ 31 →
  0 ≤ x < d0 → 0 ≤ y < d1 → 0 ≤ z < d2 →
  ∃ index, Voxels.xyz2index x y z [d0; d1; d2] = Done index ∧
           index = z * d1 * d0 + y * d0 + x ∧
           0 ≤ index < d0 * d1 * d2 ∧
           Voxels.index2xyz index [d0; d1; d2] = Done [x; y; z].
Proof.
  intros H0 H1 H2 Hfit Hx Hy Hz. exists (z * d1 * d0 + y * d0 + x).
  destruct (xyz2index_grid d0 d1 d2 x y z) as [Hrun Hrange]; try done.
  assert (0 ≤ y * d0 ≤ (d1 - 1) * d0) as Hyd by nia.
  assert (0 ≤ z * (d1 * d0) ≤ (d2 - 1) * (d1 * d0)) as Hzd by nia.
  split_and!; [done | done | lia | lia |].
  rewrite index2xyz_run by nia. repeat f_equal.
  - symmetry. apply (Z.mod_unique _ _ (z * d1 + y)); [lia | nia].
  - assert ((z * d1 * d0 + y * d0 + x) `div` d0 = z * d1 + y) as ->
      by (symmetry; apply (Z.div_unique _ _ _ x); [lia | nia]).
    symmetry. apply (Z.mod_unique _ _ z); [lia | nia].
  - symmetry. apply (Z.div_unique _ _ _ (y * d0 + x)); [nia | nia].
Qed.

(** X14.  On a grid with positive dimensions whose number of voxels
    [d0 * d1 * d2] is an [int] (below [2^31]), [index2xyz] and the macro
    [xyz2index] are inverse to each other: a voxel index within the grid
    yields coordinates within the grid that [xyz2index] maps back to it,
    and coordinates within the grid yield an index within the grid that
    [index2xyz] maps back to them.  No product or sum of the two leaves
    [int] on the way. *)
Theorem index2xyz_xyz2index_inverse (d0 d1 d2 : Z) :
  0 < d0 → 0 < d1 → 0 < d2 → d0 * d1 * d2 < 2 ^ 31 →
  (∀ index, 0 ≤ index < d0 * d1 * d2 →
     ∃ x y z, Voxels.index2xyz index [d0; d1; d2] = Done [x; y; z] ∧
              0 ≤ x < d0 ∧ 0 ≤ y < d1 ∧ 0 ≤ z < d2 ∧
              Voxels.xyz2index x y z [d0; d1; d2] = Done index) ∧
  (∀ x y z, 0 ≤ x < d0 → 0 ≤ y < d1 → 0 ≤ z < d2 →
     ∃ index, Voxels.xyz2index x y z [d0; d1; d2] = Done index ∧
              0 ≤ index < d0 * d1 * d2 ∧
              Voxels.index2xyz index [d0; d1; d2] = Done [x; y; z]).
Proof.
  intros H0 H1 H2 Hfit. split.
  - intros index Hi.
    destruct (index2xyz_in_grid d0 d1 d2 index)
      as (x & y & z & Hrun & Hx & Hy & Hz & _ & Hback); try done.
    by exists x, y, z.
  - intros x y z Hx Hy Hz.
    destruct (xyz2index_in_grid d0 d1 d2 x y z)
      as (index & Hrun & _ & Hindex & Hback); try done.
    by exists index.
Qed.

Lemma index2xyz_xyz2index_inverse_witness :
  (∀ index, 0 ≤ index < 2 * 3 * 4 →
     ∃ x y z, Voxels.index2xyz index [2; 3; 4] = Done [x; y; z] ∧
              0 ≤ x < 2 ∧ 0 ≤ y < 3 ∧ 0 ≤ z < 4 ∧
              Voxels.xyz2index x y z [2; 3; 4] = Done index) ∧
  (∀ x y z, 0 ≤ x < 2 → 0 ≤ y < 3 → 0 ≤ z < 4 →
     ∃ index, Voxels.xyz2index x y z [2; 3; 4] = Done index ∧
              0 ≤ index < 2 * 3 * 4 ∧
              Voxels.index2xyz index [2; 3; 4] = Done [x; y; z]).
Proof. apply (index2xyz_xyz2index_inverse 2 3 4); lia. Defined.

(** *** [findNeighbours] *)

Lemma table_agrees_6 : table_agrees 6 1 = true.
Proof. vm_compute. reflexivity. Qed.

Lemma table_agrees_18 : table_agrees 18 2 = true.
Proof. vm_compute. reflexivity. Qed.

Lemma table_agrees_26 : table_agrees 26 3 = true.
Proof. vm_compute. reflexivity. Qed.

Lemma offsets_all (dx dy dz : Z) :
  -1 ≤ dx ≤ 1 → -1 ≤ dy ≤ 1 → -1 ≤ dz ≤ 1 → (dx, dy, dz) ∈ offsets.
Proof.
  intros Hx Hy Hz.
  assert (dx = -1 ∨ dx = 0 ∨ dx = 1) as Hdx by lia.
  assert (dy = -1 ∨ dy = 0 ∨ dy = 1) as Hdy by lia.
  assert (dz = -1 ∨ dz = 0 ∨ dz = 1) as Hdz by lia.
  apply list_elem_of_In.
  destruct Hdx as [->|[->| ->]], Hdy as [->|[->| ->]],
    Hdz as [->|[->| ->]]; vm_compute; tauto.
Qed.

Lemma table_agrees_spec (conn k : Z) (dx dy dz : Z) :
  table_agrees conn k = true →
  -1 ≤ dx ≤ 1 → -1 ≤ dy ≤ 1 → -1 ≤ dz ≤ 1 →
  1 ≤ order (dx, dy, dz) ≤ k
  ↔ ∃ i, 0 ≤ i < conn ∧ direction i = Some (dx, dy, dz).
Proof.
  intros Htable Hx Hy Hz. unfold table_agrees in Htable.
  rewrite forallb_forall in Htable.
  specialize (Htable (dx, dy, dz)
                (proj1 (list_elem_of_In _ _) (offsets_all dx dy dz Hx Hy Hz))).
  apply Bool.eqb_prop in Htable. split.
  - intros Hord. rewrite bool_decide_eq_true_2 in Htable by done.
    symmetry in Htable. apply existsb_exists in Htable as (i & Hi & Hdir).
    apply list_elem_of_In, elem_of_seqZ in Hi.
    apply bool_decide_eq_true in Hdir. exists i. split; [lia | done].
  - intros (i & Hi & Hdir).
    assert (existsb (λ i, bool_decide (direction i = Some (dx, dy, dz)))
              (seqZ 0 conn) = true) as Hex.
    { apply existsb_exists. exists i. split.
      - apply list_elem_of_In, elem_of_seqZ. lia.
      - by apply bool_decide_eq_true. }
    rewrite Hex in Htable. by apply bool_decide_eq_true in Htable.
Qed.

(** Every direction of the tables moves at most one step along each
    axis. *)
Lemma direction_unit (i : Z) (dx dy dz : Z) :
  direction i = Some (dx, dy, dz) →
  (Z.to_nat i < 26)%nat ∧ -1 ≤ dx ≤ 1 ∧ -1 ≤ dy ≤ 1 ∧ -1 ≤ dz ≤ 1.
Proof.
  unfold direction. generalize (Z.to_nat i) as n. intros n Hdir.
  do 26 (destruct n as [|n]; [injection Hdir as <- <- <-; lia|]).
  by destruct n.
Qed.

Lemma direction_lt (i : Z) :
  0 ≤ i < 26 → ∃ dx dy dz, direction i = Some (dx, dy, dz).
Proof.
  intros Hi. unfold direction.
  destruct (lookup_lt_is_Some_2 Voxels.DX (Z.to_nat i)) as [dx ->];
    [simpl; lia|].
  destruct (lookup_lt_is_Some_2 Voxels.DY (Z.to_nat i)) as [dy ->];
    [simpl; lia|].
  destruct (lookup_lt_is_Some_2 Voxels.DZ (Z.to_nat i)) as [dz ->];
    [simpl; lia|].
  by exists dx, dy, dz.
Qed.

Lemma direction_vget (i dx dy dz : Z) :
  0 ≤ i → direction i = Some (dx, dy, dz) →
  vget Voxels.DX i = Done dx ∧ vget Voxels.DY i = Done dy ∧
  vget Voxels.DZ i = Done dz.
Proof.
  intros Hi. unfold direction.
  destruct (Voxels.DX !! Z.to_nat i) as [dx'|] eqn:Ex; [|done].
  destruct (Voxels.DY !! Z.to_nat i) as [dy'|] eqn:Ey; [|done].
  destruct (Voxels.DZ !! Z.to_nat i) as [dz'|] eqn:Ez; [|done].
  intros [= -> -> ->]. split_and!; by apply vget_Done.
Qed.

Section Neighbours.

Variables (d0 d1 d2 : Z) (MASK : list Z).
Hypothesis Hd0 : 0 < d0.
Hypothesis Hd1 : 0 < d1.
Hypothesis Hd2 : 0 < d2.
Hypothesis Hfit : d0 * d1 * (d2 + 1) + d0 < 2 ^ 31.
Hypothesis HMASK : vsize MASK = d0 * d1 * d2.

(** Inside the grid the test reads the mask, at an index of the mask;
    outside it stops before. *)
Lemma xyz_check_spec (x y z : Z) :
  let index := z * d1 * d0 + y * d0 + x in
  (0 ≤ x < d0 ∧ 0 ≤ y < d1 ∧ 0 ≤ z < d2 ∧ 0 ≤ index < vsize MASK ∧
   ∃ mk, vget MASK index = Done mk ∧
         Voxels.xyz_check x y z index [d0; d1; d2] MASK
         = Done (bool_decide (mk ≠ 0)))
  ∨ (¬ (0 ≤ x < d0 ∧ 0 ≤ y < d1 ∧ 0 ≤ z < d2) ∧
     Voxels.xyz_check x y z index [d0; d1; d2] MASK = Done false).
Proof.
  intros index. unfold Voxels.xyz_check.
  change (vget [d0; d1; d2] 0) with (Done d0).
  change (vget [d0; d1; d2] 1) with (Done d1).
  change (vget [d0; d1; d2] 2) with (Done d2). exec_simpl.
  do 6 (case_bool_decide; [|right; split; [lia | done]]).
  left.
  assert (0 ≤ index < vsize MASK) as Hindex.
  { rewrite HMASK. unfold index.
    assert (0 ≤ y * d0 ≤ (d1 - 1) * d0) by nia.
    assert (0 ≤ z * d1 * d0 ≤ (d2 - 1) * (d1 * d0)) by nia.
    nia. }
  destruct (vget_lt MASK index Hindex) as [mk Hmk].
  split_and!; try lia. exists mk. split; [done|]. by rewrite Hmk.
Qed.

Lemma direction_step_spec (x y z i : Z) (IDS : list Z) (len : Z) :
  0 ≤ x < d0 → 0 ≤ y < d1 → 0 ≤ z < d2 →
  0 ≤ i < 26 → 0 ≤ len < vsize IDS → len < 26 →
  (∃ id, hits MASK d0 d1 d2 x y z i id ∧
         Voxels.direction_step MASK [d0; d1; d2] [x; y; z] i (IDS, len)
         = Done (<[Z.to_nat len := id]> IDS, len + 1))
  ∨ ((∀ id, ¬ hits MASK d0 d1 d2 x y z i id) ∧
     Voxels.direction_step MASK [d0; d1; d2] [x; y; z] i (IDS, len)
     = Done (IDS, len)).
Proof.
  intros Hgx Hgy Hgz Hi Hlen Hlen26.
  destruct (direction_lt i Hi) as (dx & dy & dz & Hdir).
  destruct (direction_vget i dx dy dz (proj1 Hi) Hdir) as (Hx & Hy & Hz).
  destruct (direction_unit i dx dy dz Hdir) as (_ & Hdx & Hdy & Hdz).
  assert (d0 * d1 ≤ d0 * d1 * d2) as Hd01 by nia.
  assert (d0 ≤ d0 * d1 ∧ d1 ≤ d0 * d1 ∧ d2 ≤ d0 * d1 * d2)
    as (Hle0 & Hle1 & Hle2) by nia.
  unfold Voxels.direction_step.
  change (vget [x; y; z] 0) with (Done x).
  change (vget [x; y; z] 1) with (Done y).
  change (vget [x; y; z] 2) with (Done z).
  rewrite Hx, Hy, Hz, !Done_bind. unfold Voxels.int_add.
  rewrite (to_int_small (x + dx)), (to_int_small (y + dy)),
    (to_int_small (z + dz)), (to_int_small (len + 1)) by lia.
  rewrite (xyz2index_around d0 d1 d2 (x + dx) (y + dy) (z + dz))
    by (done || lia).
  rewrite Done_bind.
  destruct (xyz_check_spec (x + dx) (y + dy) (z + dz))
    as [(Hcx & Hcy & Hcz & Hindex & mk & Hmk & ->)|[Hout ->]]; exec_simpl.
  - case_bool_decide as Hne; exec_simpl.
    + left. exists mk. split.
      * exists dx, dy, dz. split_and!; try done; lia.
      * rewrite Hmk. exec_simpl. by rewrite vset_lt.
    + right. split; [|done].
      intros id (dx' & dy' & dz' & Hdir' & _ & _ & _ & Hget & Hid).
      rewrite Hdir in Hdir'. injection Hdir' as <- <- <-.
      rewrite Hmk in Hget. injection Hget as <-. done.
  - right. split; [|done].
    intros id (dx' & dy' & dz' & Hdir' & Hcx & Hcy & Hcz & _).
    rewrite Hdir in Hdir'. injection Hdir' as <- <- <-. by apply Hout.
Qed.

(** The loop over the directions gathers the hits of the directions
    passed so far, in the first [len] cells. *)
Lemma direction_loop_spec (x y z conn : Z) :
  0 ≤ x < d0 → 0 ≤ y < d1 → 0 ≤ z < d2 →
  0 ≤ conn ≤ 26 →
  ∃ IDS len,
    for_up (Z.to_nat conn) 0
      (Voxels.direction_step MASK [d0; d1; d2] [x; y; z])
      (replicate (Z.to_nat conn) 0, 0) = Done (IDS, len) ∧
    vsize IDS = conn ∧ 0 ≤ len ≤ conn ∧
    ∀ id, id ∈ take (Z.to_nat len) IDS
          ↔ ∃ i, 0 ≤ i < conn ∧ hits MASK d0 d1 d2 x y z i id.
Proof.
  intros Hgx Hgy Hgz Hconn.
  destruct (for_up_inv
    (λ i (st : list Z * Z),
       vsize st.1 = conn ∧ 0 ≤ st.2 ≤ i ∧
       ∀ id, id ∈ take (Z.to_nat st.2) st.1
             ↔ ∃ k, 0 ≤ k < i ∧ hits MASK d0 d1 d2 x y z k id)
    (Z.to_nat conn) 0
    (Voxels.direction_step MASK [d0; d1; d2] [x; y; z])
    (replicate (Z.to_nat conn) 0, 0)) as ([IDS len] & Hrun & Hinv).
  - simpl. split_and!; try lia.
    + unfold vsize. rewrite length_replicate. lia.
    + intros id. split; [by intros ?%elem_of_nil|].
      intros (k & Hk & _). lia.
  - intros j [IDS len] Hj (Hsize & Hlen & Hmem). cbn [fst snd] in *.
    destruct (direction_step_spec x y z j IDS len)
      as [(id & Hhit & Hstep)|(Hmiss & Hstep)]; try done; try lia.
    + eexists. split; [exact Hstep|]. simpl. split_and!; try lia.
      * unfold vsize in *. by rewrite length_insert.
      * intros id'. replace (Z.to_nat (len + 1)) with (S (Z.to_nat len))
          by lia.
        erewrite take_S_r;
          [|apply list_lookup_insert_eq; unfold vsize in Hsize; lia].
        rewrite take_insert_ge by lia.
        rewrite elem_of_app, list_elem_of_singleton, Hmem. split.
        -- intros [(k & Hk & Hkhit)| ->].
           ++ exists k. split; [lia | done].
           ++ exists j. split; [lia | done].
        -- intros (k & Hk & Hkhit).
           destruct (decide (k = j)) as [->|Hne].
           ++ right. destruct Hhit as (dx & dy & dz & Hdir & _ & _ & _ & Hg & _).
              destruct Hkhit
                as (dx' & dy' & dz' & Hdir' & _ & _ & _ & Hg' & _).
              rewrite Hdir in Hdir'. injection Hdir' as <- <- <-.
              rewrite Hg in Hg'. by injection Hg' as <-.
           ++ left. exists k. split; [lia | done].
    + eexists. split; [exact Hstep|]. simpl. split_and!; try lia.
      intros id'. rewrite Hmem. split.
      * intros (k & Hk & Hkhit). exists k. split; [lia | done].
      * intros (k & Hk & Hkhit).
        destruct (decide (k = j)) as [->|Hne]; [by destruct (Hmiss id')|].
        exists k. split; [lia | done].
  - simpl in Hinv. destruct Hinv as (Hsize & Hlen & Hmem).
    exists IDS, len. split_and!; try done; try lia.
    intros id. rewrite Hmem. split; intros (k & Hk & Hkhit); exists k;
      (split; [lia | done]).
Qed.

End Neighbours.

(** X15.  On a grid with positive dimensions that fits [int], in that
    [d0 * d1 * (d2 + 1) + d0 < 2^31] (so that the index of a voxel of the
    grid, and of one a step outside it, is formed without leaving [int]),
    and a mask of the size of the grid, [findNeighbours] with
    connectivity 6, 18 or 26 returns, for a voxel of the grid, the mask
    entries of the voxels of the grid that lie next to it across a face
    (6), a face or an edge (18), or a face, an edge or a corner (26) and
    whose mask entry is not zero, and nothing else; no read leaves the
    mask. *)
Theorem findNeighbours_connectivity (d0 d1 d2 : Z) (MASK : list Z)
    (index conn k : Z) :
  0 < d0 → 0 < d1 → 0 < d2 →
  d0 * d1 * (d2 + 1) + d0 < 2 ^ 31 →
  vsize MASK = d0 * d1 * d2 →
  0 ≤ index < d0 * d1 * d2 →
  (conn = 6 ∧ k = 1) ∨ (conn = 18 ∧ k = 2) ∨ (conn = 26 ∧ k = 3) →
  ∃ IDS,
    Voxels.findNeighbours MASK [d0; d1; d2] index conn = Done IDS ∧
    vsize IDS ≤ conn ∧
    ∀ id, id ∈ IDS
          ↔ id ≠ 0 ∧
            ∃ j, neighbour_of [d0; d1; d2] k index j ∧
                 vget MASK j = Done id.
Proof.
  intros H0 H1 H2 Hfit HMASK Hindex Hconn.
  assert (d0 * d1 * d2 < 2 ^ 31) as Hgrid by nia.
  assert (0 ≤ conn ≤ 26 ∧ table_agrees conn k = true) as [Hc Htable].
  { destruct Hconn as [[-> ->]|[[-> ->]|[-> ->]]];
      (split; [lia|]).
    - apply table_agrees_6.
    - apply table_agrees_18.
    - apply table_agrees_26. }
  destruct (index2xyz_in_grid d0 d1 d2 index)
    as (x & y & z & Hxyz & Hx & Hy & Hz & _); try done.
  destruct (direction_loop_spec d0 d1 d2 MASK H0 H1 H2 Hfit HMASK x y z conn
              Hx Hy Hz Hc)
    as (IDS & len & Hloop & Hsize & Hlen & Hmem).
  unfold Voxels.findNeighbours. rewrite Hxyz. exec_simpl.
  rewrite vmake_ge by lia. exec_simpl. rewrite Hloop. exec_simpl.
  assert ((if bool_decide (len < conn) then take (Z.to_nat len) IDS
           else IDS) = take (Z.to_nat len) IDS) as ->.
  { case_bool_decide; [done|]. symmetry. apply take_ge.
    unfold vsize in Hsize. lia. }
  eexists. split; [done|]. split.
  { unfold vsize in *. rewrite length_take. lia. }
  intros id. rewrite Hmem. split.
  - intros (i & Hi & dx & dy & dz & Hdir & Hcx & Hcy & Hcz & Hget & Hne).
    split; [done|].
    destruct (xyz2index_in_grid d0 d1 d2 (x + dx) (y + dy) (z + dz))
      as (j & _ & -> & Hj & Hback); try done.
    eexists. split; [|exact Hget].
    destruct (direction_unit i dx dy dz Hdir) as (_ & Hdx & Hdy & Hdz).
    exists x, y, z, (x + dx), (y + dy), (z + dz).
    replace (x + dx - x) with dx by lia.
    replace (y + dy - y) with dy by lia.
    replace (z + dz - z) with dz by lia.
    split_and!; try done; try lia;
      apply (table_agrees_spec conn k dx dy dz); try done; by exists i.
  - intros (Hne & j & (x0 & y0 & z0 & x' & y' & z' & Hxyz0 & Hxyz' & Hdx
                         & Hdy & Hdz & Hord) & Hget).
    rewrite Hxyz in Hxyz0. injection Hxyz0 as <- <- <-.
    pose proof (vget_Done_lt _ _ _ Hget) as Hj. rewrite HMASK in Hj.
    destruct (index2xyz_in_grid d0 d1 d2 j)
      as (x1 & y1 & z1 & Hxyz1 & Hx1 & Hy1 & Hz1 & Hback & _); try done.
    rewrite Hxyz' in Hxyz1. injection Hxyz1 as <- <- <-.
    apply (table_agrees_spec conn k) in Hord as (i & Hi & Hdir);
      try done.
    exists i. split; [done|].
    exists (x' - x), (y' - y), (z' - z).
    replace (x + (x' - x)) with x' by lia.
    replace (y + (y' - y)) with y' by lia.
    replace (z + (z' - z)) with z' by lia.
    split_and!; try done; try lia. by rewrite <- Hback.
Qed.

Lemma findNeighbours_connectivity_witness :
  ∃ IDS,
    Voxels.findNeighbours [1; 0; 2; 3; 4; 5; 6; 7] [2; 2; 2] 0 6
    = Done IDS ∧
    vsize IDS ≤ 6 ∧
    ∀ id, id ∈ IDS
          ↔ id ≠ 0 ∧
            ∃ j, neighbour_of [2; 2; 2] 1 0 j ∧
                 vget [1; 0; 2; 3; 4; 5; 6; 7] j = Done id.
Proof.
  apply (findNeighbours_connectivity 2 2 2 [1; 0; 2; 3; 4; 5; 6; 7] 0 6 1);
    try lia; try reflexivity.
Defined.

(** ** The forest built by [findClusters] *)

Lemma join_fmap_ext {A B : Type} (g g' : A → list B) (l : list A) :
  (∀ r, r ∈ l → g' r = g r) → mjoin (g' <$> l) = mjoin (g <$> l).
Proof.
  intros Hext. f_equal. apply list_fmap_ext. intros i x Hx.
  apply Hext. by eapply list_elem_of_lookup_2.
Qed.

(** Emptying the contribution of one index takes its element out. *)
Lemma join_fmap_remove {B : Type} (g g' : Z → list B) (l : list Z) (a : Z)
    (w : B) :
  NoDup l → a ∈ l → g a = [w] → g' a = [] →
  (∀ r, r ∈ l → r ≠ a → g' r = g r) →
  mjoin (g <$> l) ≡ₚ w :: mjoin (g' <$> l).
Proof.
  intros Hnd Ha Hga Hg'a Hext.
  induction l as [|x l IH]; [by apply elem_of_nil in Ha|].
  apply NoDup_cons in Hnd as [Hx Hnd]. csimpl.
  destruct (decide (x = a)) as [->|Hne].
  - rewrite Hga, Hg'a. simpl.
    rewrite (join_fmap_ext g g' l); [done|].
    intros r Hr. apply Hext; [by apply elem_of_cons; right|].
    by intros ->.
  - rewrite (Hext x) by (done || by apply elem_of_cons; left).
    rewrite IH; [by rewrite Permutation_middle | done | |].
    + apply elem_of_cons in Ha as [->|Ha]; done.
    + intros r Hr. apply Hext. by apply elem_of_cons; right.
Qed.

(** Filling an empty row adds its entries. *)
Lemma join_insert_nil {B : Type} (C : list (list B)) (k : nat)
    (X : list B) :
  C !! k = Some [] → mjoin (<[k := X]> C) ≡ₚ X ++ mjoin C.
Proof.
  intros Hk. rewrite insert_take_drop by (by eapply lookup_lt_Some).
  rewrite <- (take_drop_middle C k [] Hk) at 3.
  rewrite !join_app. csimpl. by rewrite Permutation_app_swap_app.
Qed.

Lemma root_at_root (P F : list Z) (r f : Z) :
  vget P r = Done r → vget F r = Done f → root_at P F r = [f].
Proof.
  intros HP HF. unfold root_at. rewrite HP, HF.
  by rewrite bool_decide_eq_true_2.
Qed.

Lemma root_at_other (P F : list Z) (r : Z) :
  vget P r ≠ Done r → root_at P F r = [].
Proof.
  intros HP. unfold root_at. destruct (vget P r) as [p| |]; try done.
  destruct (vget F r); try done.
  rewrite bool_decide_eq_false_2; [done|]. by intros ->.
Qed.

(** The contribution of [r] depends on whether [r] is a root, and then on
    its forest root. *)
Lemma root_at_eq (P F P' F' : list Z) (r : Z) :
  (vget P r = Done r ↔ vget P' r = Done r) →
  (vget P r = Done r → vget F' r = vget F r) →
  root_at P' F' r = root_at P F r.
Proof.
  intros Hroot HF.
  destruct (vget P r) as [p| |] eqn:HP;
    [destruct (decide (p = r)) as [->|Hne]|..].
  - unfold root_at at 2. rewrite HP.
    unfold root_at. rewrite (proj1 Hroot eq_refl), (HF eq_refl).
    done.
  - rewrite (root_at_other P F) by (rewrite HP; congruence).
    apply root_at_other. intros HP'%Hroot. congruence.
  - rewrite (root_at_other P F) by (by rewrite HP).
    apply root_at_other. by intros HP'%Hroot.
  - rewrite (root_at_other P F) by (by rewrite HP).
    apply root_at_other. by intros HP'%Hroot.
Qed.

(** A parent vector with the same roots has the same forest roots. *)
Lemma forest_roots_same_roots (m : Z) (P P' F : list Z) :
  (∀ k y s, reaches P k y s → reaches P' k y s) →
  (∀ y, vget P' y = Done y → vget P y = Done y) →
  forest_roots m P' F = forest_roots m P F.
Proof.
  intros Hk Hback. apply join_fmap_ext. intros r _.
  apply root_at_eq; [|done]. split; [|apply Hback].
  intros Hr. eapply (reaches_is_root _ 0 r), Hk. by apply reaches_root.
Qed.

(** Hanging one root below the other, as [UnionBySize] does it, takes the
    forest root [w] of the side of [jrep] out and keeps that of the side
    of [rv]. *)
Lemma forest_roots_union (m : Z) (P F P' F' : list Z) (rv jrep v w : Z)
    (lt : bool) :
  0 ≤ rv < m → 0 ≤ jrep < m → rv ≠ jrep →
  vget P rv = Done rv → vget P jrep = Done jrep →
  vget F rv = Done v → vget F jrep = Done w →
  vset P (if lt then rv else jrep) (if lt then jrep else rv) = Done P' →
  (if lt then vset F jrep v = Done F' else F' = F) →
  forest_roots m P F ≡ₚ w :: forest_roots m P' F'.
Proof.
  intros Hrv Hjrep Hne HPrv HPj HFrv HFj HP' HF'. unfold forest_roots.
  assert (rv ∈ seqZ 0 m) as Hrv_in by (apply elem_of_seqZ; lia).
  assert (jrep ∈ seqZ 0 m) as Hj_in by (apply elem_of_seqZ; lia).
  pose proof (NoDup_seqZ 0 m) as Hnd.
  destruct lt.
  - set (g2 := λ r, if bool_decide (r = jrep) then [] else root_at P' F r).
    assert (vget P' jrep = Done jrep) as HP'j
      by (by rewrite (vget_vset_ne _ _ _ _ _ HP')).
    rewrite (join_fmap_remove (root_at P F) (root_at P' F) _ rv v);
      try done.
    + rewrite (join_fmap_remove (root_at P' F) g2 _ jrep w); try done.
      * rewrite (join_fmap_remove (root_at P' F') g2 _ jrep v);
          try done.
        -- apply perm_swap.
        -- apply root_at_root; [done | by eapply vget_vset_eq].
        -- unfold g2. by rewrite bool_decide_eq_true_2.
        -- intros r _ Hr. unfold g2. rewrite bool_decide_eq_false_2 by done.
           apply root_at_eq; [done|]. intros _.
           by rewrite (vget_vset_ne _ _ _ _ _ HF').
      * by apply root_at_root.
      * unfold g2. by rewrite bool_decide_eq_true_2.
      * intros r _ Hr. unfold g2. by rewrite bool_decide_eq_false_2.
    + by apply root_at_root.
    + apply root_at_other. rewrite (vget_vset_eq _ _ _ _ HP'). congruence.
    + intros r _ Hr. apply root_at_eq; [|done].
      by rewrite (vget_vset_ne _ _ _ _ _ HP').
  - subst F'.
    rewrite (join_fmap_remove (root_at P F) (root_at P' F) _ jrep w);
      try done.
    + by apply root_at_root.
    + apply root_at_other. rewrite (vget_vset_eq _ _ _ _ HP'). congruence.
    + intros r _ Hr. apply root_at_eq; [|done].
      by rewrite (vget_vset_ne _ _ _ _ _ HP').
Qed.

Lemma Forall_vget {A : Type} (Q : A → Prop) (v : list A) (i : Z) (x : A) :
  Forall Q v → vget v i = Done x → Q x.
Proof.
  intros Hall [_ Hx]%vget_Done. by eapply Forall_lookup_1.
Qed.

Section ClustersForest.
Variables (base m : Z) (ADJ : list (list Z)) (ORD RANK : list Z) (fuel : nat).
Hypothesis Hbase : 0 ≤ base.
Hypothesis Horder : valid_order base m ORD RANK.
Hypothesis Hadj : valid_adjacency base m ADJ.

(** One neighbour moves at most one forest root into the child list. *)
Lemma neighbour_step_roots (i o : Z) (SIZE0 R0 : list Z) (d : nat) (id : Z)
    (st st' : ARICluster.chd_state) :
  vget ORD i = Done o → 0 ≤ id - base < m → (d ≤ fuel)%nat →
  inner_inv base m RANK i (o - base) SIZE0 d st →
  roots_inv m R0 st →
  ARICluster.neighbour_step fuel base RANK i (o - base) id st = Done st' →
  roots_inv m R0 st'.
Proof.
  intros Ho Hid Hd Hinv Hrinv Hrun. destruct st as [[[P F] SZ] CHD].
  destruct Hinv as (HP & HF & HS & Hreach & Hprist & (rv & Hrv & HFrv)
                    & Hroots & Hsize & Hchd & Hheavy & Hframe).
  destruct Hrinv as [Hperm Hpos].
  destruct (position_node base m ORD RANK Horder i o Ho)
    as (Hv & Hvb & Hvnb).
  set (v := o - base) in *.
  unfold ARICluster.neighbour_step in Hrun.
  destruct (vget_lt RANK (id - base)) as [rk Hrk];
    [destruct Horder as (_ & -> & _); lia|].
  rewrite Hrk in Hrun. exec_simpl in Hrun.
  case_bool_decide as Hlt; [|injection Hrun as <-; by split].
  assert (before base RANK (i + 1) (id - base)) as Hub
    by (exists rk; split; [done | lia]).
  destruct (Hreach (id - base) Hid) as (jrep & Hju & Hbj).
  specialize (Hbj Hub).
  destruct (Find_spec fuel P d (id - base) jrep Hju Hd)
    as (P1 & HFind & Hsz1 & Hk1 & Hroots1).
  rewrite HFind in Hrun. exec_simpl in Hrun.
  pose proof (before_in_range base m ADJ ORD RANK Horder Hadj _ _ Hbj)
    as Hjr.
  destruct (vget_lt F jrep) as [w Hw]; [lia|].
  rewrite Hw in Hrun. exec_simpl in Hrun.
  case_bool_decide as Hvw.
  2:{ injection Hrun as <-. split; [|done].
      by rewrite (forest_roots_same_roots m P P1 F). }
  pose proof (reaches_is_root _ _ _ _ Hju) as Hjroot.
  destruct (Hroots jrep w Hjroot Hbj Hw) as [->|Hwb]; [done|].
  pose proof (before_in_range base m ADJ ORD RANK Horder Hadj _ _ Hwb)
    as Hwr.
  destruct (vget_lt SZ w) as [sj Hsj]; [lia|].
  assert (rv ≠ jrep) as Hne by (intros ->; congruence).
  assert (reaches P1 d jrep jrep) as Hj1.
  { apply reaches_root. eapply reaches_is_root, Hk1, Hju. }
  destruct (UnionBySize_run fuel d v jrep P1 F SZ rv jrep v w
              (1 + sum_sizes SZ CHD) sj Hd (Hk1 _ _ _ Hrv) Hj1 Hne HFrv Hw
              Hsize Hsj)
    as (P2 & P' & F' & S' & HU & Hsz2 & Hk2 & Hroots2 & Hrep & Hgone
        & Hgr & HP' & HF' & HS').
  rewrite HU in Hrun. exec_simpl in Hrun.
  bind_inv Hrun as b Eb. injection Hrun as <-.
  split.
  - assert (forest_roots m P F ≡ₚ w :: forest_roots m P' F') as Hstep.
    { rewrite <- (forest_roots_same_roots m P P2 F);
        [|intros; by apply Hk2, Hk1|intros; by apply Hroots1, Hroots2].
      apply (forest_roots_union m P2 F P' F' rv jrep v w
               (bool_decide (1 + sum_sizes SZ CHD < sj))); try done.
      - pose proof (reaches_root_in_range _ _ _ _ Hrv). lia.
      - by destruct (bool_decide (1 + sum_sizes SZ CHD < sj)).
      - by destruct (bool_decide (1 + sum_sizes SZ CHD < sj)). }
    rewrite <- Hperm, Hstep. destruct b; simpl.
    + rewrite app_assoc. by rewrite <- Permutation_cons_append.
    + by rewrite Permutation_middle.
  - apply vset_Done in HS' as [_ ->]. apply Forall_insert; [done|].
    pose proof (Forall_vget _ _ _ _ Hpos Hsize) as H1.
    pose proof (Forall_vget _ _ _ _ Hpos Hsj) as H2. simpl in *. lia.
Qed.

(** Processing one node keeps every node a forest root or a child. *)
Lemma cluster_step_roots (i : Z) (st : ARICluster.forest_state) :
  0 ≤ i < m → (scanned base ADJ ORD (Z.to_nat (i + 1)) ≤ fuel)%nat →
  outer_inv base m RANK i (scanned base ADJ ORD (Z.to_nat i)) st →
  roots_outer_inv base m RANK i st →
  ∃ st', ARICluster.cluster_step fuel base ADJ ORD RANK i st = Done st' ∧
         outer_inv base m RANK (i + 1)
           (scanned base ADJ ORD (Z.to_nat (i + 1))) st' ∧
         roots_outer_inv base m RANK (i + 1) st'.
Proof.
  intros Hi Hfuel Hinv Hrinv.
  destruct (cluster_step_inv base m ADJ ORD RANK fuel Hbase Horder Hadj
              i st Hi Hfuel Hinv) as (st' & Hrun & Hinv').
  exists st'. split_and!; try done.
  destruct st as [[[P F] SZ] C].
  destruct Hinv as (HP & HF & HS & HC & Hreach & Hprist & Hroots & Hnodes).
  destruct Hrinv as (Hperm & Hpos & Hempty).
  unfold ARICluster.cluster_step in Hrun.
  destruct (vget_lt ORD i) as [o Ho]; [destruct Horder as (-> & _); lia|].
  rewrite Ho in Hrun. exec_simpl in Hrun.
  destruct (position_node base m ORD RANK Horder i o Ho)
    as (Hv & Hvb & Hvnb).
  destruct (vget_lt ADJ (o - base)) as [IDS HIDS];
    [destruct Hadj as (-> & _); lia|].
  rewrite HIDS in Hrun. exec_simpl in Hrun.
  rewrite (scanned_succ base ADJ ORD i o IDS) in * by (lia || done).
  set (d := scanned base ADJ ORD (Z.to_nat i)) in *.
  set (v := o - base) in *.
  destruct (Hprist v Hv Hvnb) as (Hpv & Hfv & Hsv).
  destruct (for_each_inv_idx (T := ARICluster.chd_state)
              (λ k st, inner_inv base m RANK i v SZ (d + k) st ∧
                       roots_inv m (forest_roots m P F) st) IDS
              (ARICluster.neighbour_step fuel base RANK i v) (P, F, SZ, []))
    as ([[[P' F'] S'] CHD] & Hscan & _ & Hperm' & Hpos').
  - split; [|split; [by rewrite app_nil_r | done]].
    unfold inner_inv. rewrite Nat.add_0_r. split_and!; try done.
    + intros y Hy. destruct (Hreach y Hy) as (r & Hr & Hb).
      exists r. split; [done|]. intros Hyb.
      destruct (decide (y = v)) as [->|Hne].
      * by rewrite (reaches_of_root _ _ _ _ Hpv Hr).
      * eapply before_mono;
          [apply Hb; by eapply (before_succ base m ORD RANK Horder) | lia].
    + intros y Hy Hnb. apply Hprist; [done|]. intros Hyb. apply Hnb.
      eapply before_mono; [done | lia].
    + exists v. split; [by apply reaches_root | done].
    + intros r f Hr Hrb Hf. destruct (decide (r = v)) as [->|Hne].
      * left. congruence.
      * right. eapply Hroots; [done | | done].
        by eapply (before_succ base m ORD RANK Horder).
  - intros k id st Hk [Hst Hrst].
    pose proof (lookup_lt_Some _ _ _ Hk) as Hklt.
    assert (0 ≤ id - base < m) as Hid.
    { destruct Hadj as (_ & Hids). eapply Hids; [done|].
      by eapply list_elem_of_lookup_2. }
    destruct (neighbour_step_inv base m ADJ ORD RANK fuel Hbase Horder Hadj
                i o SZ (d + k) id st) as (st1 & Hst1 & Hinv1);
      [done | done | lia | done |].
    exists st1. split; [done|]. split; [by rewrite Nat.add_succ_r|].
    eapply (neighbour_step_roots i o SZ _ (d + k) id st st1); try done.
    lia.
  - rewrite Hscan in Hrun. exec_simpl in Hrun.
    pose proof (vset_lt C v CHD ltac:(lia)) as HCset.
    rewrite HCset in Hrun. exec_simpl in Hrun. injection Hrun as <-.
    unfold roots_outer_inv. split_and!; try done.
    + pose proof (Hempty v Hv Hvnb) as [_ Hnil]%vget_Done.
      rewrite (join_insert_nil C (Z.to_nat v) CHD Hnil).
      by rewrite app_assoc, Hperm'.
    + intros y Hy Hnb.
      rewrite (vget_vset_ne _ _ _ _ _ HCset) by (by intros <-).
      apply Hempty; [done|]. intros Hyb. apply Hnb.
      eapply before_mono; [done | lia].
Qed.

End ClustersForest.

Lemma join_singletons (g : Z → list Z) (l : list Z) :
  (∀ r, r ∈ l → g r = [r]) → mjoin (g <$> l) = l.
Proof.
  induction l as [|x l IH]; intros Hg; [done|]. csimpl.
  rewrite (Hg x) by (apply elem_of_cons; by left). simpl. f_equal.
  apply IH. intros r Hr. apply Hg. apply elem_of_cons. by right.
Qed.

Lemma join_replicate_nil {A : Type} (n : nat) :
  mjoin (replicate n (@nil A)) = [].
Proof. induction n as [|n IH]; [done|]. simpl. done. Qed.

Lemma seqZ_snoc (j : Z) : 0 ≤ j → seqZ 0 (j + 1) = seqZ 0 j ++ [j].
Proof.
  intros Hj. replace (j + 1) with (Z.of_nat (S (Z.to_nat j))) by lia.
  rewrite seqZ_S. by replace (Z.of_nat (Z.to_nat j)) with j by lia.
Qed.

(** The last loop of [findClusters] collects the forest roots. *)
Lemma root_loop_spec (m : Z) (P F : list Z) :
  0 ≤ m → vsize P = m → vsize F = m →
  for_up (Z.to_nat m) 0 (ARICluster.root_step P F) []
  = Done (forest_roots m P F).
Proof.
  intros Hm HP HF.
  destruct (for_up_inv (λ j ROOT, ROOT = forest_roots j P F) (Z.to_nat m) 0
              (ARICluster.root_step P F) []) as (ROOT & -> & HROOT).
  - done.
  - intros j ROOT Hj ->. unfold ARICluster.root_step, forest_roots.
    rewrite seqZ_snoc by lia. rewrite fmap_app, join_app. csimpl.
    rewrite app_nil_r. unfold root_at.
    destruct (vget_lt P j) as [pj ->]; [lia|].
    destruct (vget_lt F j) as [fj ->]; [lia|]. exec_simpl.
    case_bool_decide; exec_simpl; eexists; (split; [reflexivity|]);
      first [reflexivity | symmetry; apply app_nil_r].
  - replace (0 + Z.of_nat (Z.to_nat m)) with m in HROOT by lia.
    by rewrite HROOT.
Qed.

(** [findClusters] completes on every valid input, and what it returns is
    a forest over all the nodes. *)
Lemma findClusters_base_spans (base m : Z) (ADJ : list (list Z))
    (ORD RANK : list Z) (fuel : nat) :
  0 ≤ base → valid_order base m ORD RANK → valid_adjacency base m ADJ →
  0 ≤ m → (scanned base ADJ ORD (Z.to_nat m) ≤ fuel)%nat →
  ∃ F, ARICluster.findClusters_base base fuel m ADJ ORD RANK = Done F ∧
       forest_wf m (ARICluster.forest_SIZE F) (ARICluster.forest_ROOT F)
         (ARICluster.forest_CHILD F) ∧
       ARICluster.forest_ROOT F ++ mjoin (ARICluster.forest_CHILD F)
       ≡ₚ seqZ 0 m.
Proof.
  intros Hbase Horder Hadj Hm Hfuel. unfold ARICluster.findClusters_base.
  rewrite (vmake_ge m [] Hm). exec_simpl.
  rewrite (vmake_ge m 1 Hm). exec_simpl.
  destruct (for_up_inv (T := list Z * list Z)
              (λ j st, st.1 = seqZ 0 j ∧ st.2 = seqZ 0 j) (Z.to_nat m) 0
              (λ i '(PARENT, FORESTROOT),
                 Done (PARENT ++ [i], FORESTROOT ++ [i])) ([], []))
    as ([P0 F0] & -> & HP0 & HF0).
  - done.
  - intros j [P F] Hj [HP HF]. simpl in *. subst P F.
    eexists. split; [done|]. simpl. by rewrite seqZ_snoc by lia.
  - exec_simpl. simpl in HP0, HF0.
    replace (0 + Z.of_nat (Z.to_nat m)) with m in * by lia. subst P0 F0.
    assert (∀ y, 0 ≤ y < m → vget (seqZ 0 m) y = Done y) as Hseq.
    { intros y Hy. apply vget_Done. split; [lia|].
      rewrite lookup_seqZ_lt by lia. f_equal. lia. }
    assert (vsize (seqZ 0 m) = m) as Hseqm
      by (unfold vsize; rewrite length_seqZ; lia).
    destruct (for_up_inv (T := ARICluster.forest_state)
                (λ j st, outer_inv base m RANK j
                           (scanned base ADJ ORD (Z.to_nat j)) st ∧
                         roots_outer_inv base m RANK j st)
                (Z.to_nat m) 0
                (ARICluster.cluster_step fuel base ADJ ORD RANK)
                (seqZ 0 m, seqZ 0 m, replicate (Z.to_nat m) 1,
                 replicate (Z.to_nat m) []))
      as ([[[P F] SZ] C] & -> & Hinv & Hrinv).
    + split.
      * unfold outer_inv. simpl. split_and!; try done.
        -- unfold vsize. rewrite length_replicate. lia.
        -- unfold vsize. rewrite length_replicate. lia.
        -- intros y Hy. exists y. split; [by apply reaches_root, Hseq|].
           by intros ?%(before_0 base m ORD RANK Horder).
        -- intros y Hy _. split_and!; try by apply Hseq.
           apply vget_Done. split; [lia|]. apply lookup_replicate_2. lia.
        -- by intros r f _ ?%(before_0 base m ORD RANK Horder).
        -- by intros x ?%(before_0 base m ORD RANK Horder).
      * unfold roots_outer_inv. split_and!.
        -- rewrite join_replicate_nil, app_nil_r. unfold forest_roots.
           rewrite join_singletons; [done|].
           intros r Hr%elem_of_seqZ. apply root_at_root; apply Hseq; lia.
        -- apply Forall_replicate. lia.
        -- intros y Hy _. apply vget_Done. split; [lia|].
           apply lookup_replicate_2. lia.
    + intros j st Hj [Hst Hrst].
      apply cluster_step_roots; try done; [lia|].
      etrans; [|done]. apply scanned_mono. lia.
    + exec_simpl.
      replace (0 + Z.of_nat (Z.to_nat m)) with m in * by lia.
      destruct Hinv as (HP & HF & HS & HC & _ & _ & _ & Hnodes).
      destruct Hrinv as (Hperm & Hpos & _).
      rewrite (root_loop_spec m P F Hm HP HF). exec_simpl.
      eexists. split; [done|]. simpl. split; [|done].
      unfold forest_wf. split_and!; try done.
      * rewrite Hperm. apply Forall_forall. intros c Hc%elem_of_seqZ. lia.
      * rewrite Hperm. apply NoDup_seqZ.
      * intros v Hv.
        destruct (Hnodes v (before_all base m ORD RANK Horder v Hv))
          as (CHD & HCv & _ & Hs & _).
        unfold children. rewrite HCv. by apply size_of_Done.
Qed.

(** X16.  On every valid input -- [m] voxels, [ADJ] listing voxel ids,
    [ORD] and [RANK] inverse permutations, ids and positions counted from
    one -- [findClusters] of [ARICluster.cpp] completes and returns a
    forest over all [m] nodes: every node is listed exactly once among
    [ROOT] and the rows of [CHILD], every entry of [SIZE] is at least
    one, and [SIZE[v]] is one more than the sizes of the children of [v].
    This is what [descendants], [queryPreparation] and [answerQuery]
    require of their input. *)
Theorem findClusters_builds_forest (fuel : nat) (m : Z)
    (ADJ : list (list Z)) (ORD RANK : list Z) :
  0 ≤ m → valid_adjacency 1 m ADJ → valid_order 1 m ORD RANK →
  (scanned 1 ADJ ORD (Z.to_nat m) ≤ fuel)%nat →
  ∃ F, ARICluster.findClusters fuel m ADJ ORD RANK = Done F ∧
       forest_wf m (ARICluster.forest_SIZE F) (ARICluster.forest_ROOT F)
         (ARICluster.forest_CHILD F) ∧
       ARICluster.forest_ROOT F ++ mjoin (ARICluster.forest_CHILD F)
       ≡ₚ seqZ 0 m.
Proof.
  intros Hm Hadj Horder Hfuel.
  by apply (findClusters_base_spans 1 m ADJ ORD RANK fuel).
Qed.

Lemma findClusters_builds_forest_witness :
  ∃ F, ARICluster.findClusters 2 2 [[2]; [1]] [1; 2] [1; 2] = Done F ∧
       forest_wf 2 (ARICluster.forest_SIZE F) (ARICluster.forest_ROOT F)
         (ARICluster.forest_CHILD F) ∧
       ARICluster.forest_ROOT F ++ mjoin (ARICluster.forest_CHILD F)
       ≡ₚ seqZ 0 2.
Proof.
  apply (findClusters_builds_forest 2 2 [[2]; [1]] [1; 2] [1; 2]).
  - lia.
  - split; [reflexivity|]. intros v IDS id Hv Hid.
    vget_cases2 Hv; injection Hl as <-;
      apply list_elem_of_singleton in Hid as ->; lia.
  - split; [reflexivity|]. split; [reflexivity|]. split.
    + intros i o Hi. vget_cases2 Hi; injection Hl as <-;
        (replace i with 0 by lia) || (replace i with 1 by lia); reflexivity.
    + intros v r Hv. vget_cases2 Hv; injection Hl as <-;
        (replace v with 0 by lia) || (replace v with 1 by lia); reflexivity.
  - simpl. lia.
Defined.

(** ** [answerQueryInChunks] *)

Lemma Forall2_functional {A B : Type} (R : A → B → Prop) (l : list A)
    (k k' : list B) :
  (∀ x y y', R x y → R x y' → y = y') →
  Forall2 R l k → Forall2 R l k' → k = k'.
Proof.
  intros Hfun H. revert k'. induction H as [|x y l k Hxy _ IH]; intros k' H'.
  - by apply Forall2_nil_inv_l in H'.
  - apply Forall2_cons_inv_l in H' as (y' & k2 & Hxy' & Hk2 & ->).
    f_equal; [by eapply Hfun | by apply IH].
Qed.

Section Chunks.

Variables (m : Z) (SIZE ROOT : list Z) (CHILD : list (list Z)).
Variables (TDP : list Q) (ADMSTC : list Z).
Hypothesis Hwf : forest_wf m SIZE ROOT CHILD.
Hypothesis HTDP : vsize TDP = m.
Hypothesis Hprep : ARICluster.queryPreparation m ROOT TDP CHILD ADMSTC.

(** From position [start] on, the chunks answer the rest of the batch. *)
Lemma chunks_loop_spec (gamma_batch : list Q) (chunk_size : Z) (fuel : nat)
    (start : Z) (acc : list (list (list Z))) :
  1 ≤ chunk_size → vsize gamma_batch + chunk_size < 2 ^ 64 →
  0 ≤ start → (Z.to_nat (vsize gamma_batch - start) ≤ fuel)%nat →
  ∃ results,
    ClusterTools.chunks_loop fuel gamma_batch chunk_size start ADMSTC SIZE
      TDP CHILD (acc, no_marks m) = Done (acc ++ results, no_marks m) ∧
    Forall2 (λ gamma ANS,
               ARICluster.answerQuery gamma ADMSTC SIZE (no_marks m) TDP CHILD
               = Done (ANS, no_marks m))
      (drop (Z.to_nat start) gamma_batch) results.
Proof.
  intros Hcs Hbig. revert start acc.
  induction fuel as [|fuel IH]; intros start acc Hstart Hfuel.
  - exists []. simpl. rewrite bool_decide_eq_false_2 by lia.
    rewrite app_nil_r. split; [done|].
    rewrite drop_ge by (unfold vsize in *; lia). constructor.
  - simpl. case_bool_decide as Hlt.
    2:{ exists []. rewrite app_nil_r. split; [done|].
        rewrite drop_ge by (unfold vsize in *; lia). constructor. }
    assert (to_size_t (start + chunk_size) = start + chunk_size) as ->
      by (unfold to_size_t; apply Z.mod_small; lia).
    rewrite bool_decide_eq_false_2 by lia.
    set (chunk := take _ _).
    destruct (answerQueryBatch_each m SIZE ROOT CHILD TDP ADMSTC Hwf HTDP
                Hprep chunk []) as (res1 & Hrun1 & Hall1).
    unfold ARICluster.answerQueryBatch. rewrite Hrun1. exec_simpl.
    rewrite app_nil_l.
    destruct (IH (start + chunk_size) (acc ++ res1)) as (res2 & -> & Hall2);
      [lia | lia |].
    exists (res1 ++ res2). rewrite app_assoc. split; [done|].
    assert (drop (Z.to_nat start) gamma_batch
            = chunk ++ drop (Z.to_nat (start + chunk_size)) gamma_batch)
      as ->.
    { unfold chunk.
      replace (Z.to_nat (start + chunk_size))
        with (Z.to_nat start + Z.to_nat chunk_size)%nat by lia.
      rewrite <- drop_drop.
      destruct (decide (start + chunk_size ≤ vsize gamma_batch)).
      - rewrite Z.min_l by lia.
        replace (start + chunk_size - start) with chunk_size by lia.
        by rewrite take_drop.
      - rewrite Z.min_r by lia.
        rewrite take_ge
          by (rewrite length_drop; unfold vsize in *; lia).
        rewrite (drop_ge (drop _ _))
          by (rewrite length_drop; unfold vsize in *; lia).
        by rewrite app_nil_r. }
    by apply Forall2_app.
Qed.

End Chunks.

(** X17.  On valid input and with a chunk size of at least one (small
    enough for [start + chunk_size] not to wrap around in [size_t]),
    [answerQueryInChunks] completes within as many rounds as the batch
    has thresholds and returns what [answerQueryBatch] returns for the
    whole batch, leaving [MARK] cleared. *)
Theorem answerQueryInChunks_is_answerQueryBatch (m : Z) (SIZE ROOT : list Z)
    (CHILD : list (list Z)) (TDP : list Q) (ADMSTC : list Z)
    (gamma_batch : list Q) (chunk_size : Z) (fuel : nat) :
  forest_wf m SIZE ROOT CHILD →
  vsize TDP = m →
  ARICluster.queryPreparation m ROOT TDP CHILD ADMSTC →
  1 ≤ chunk_size → vsize gamma_batch + chunk_size < 2 ^ 64 →
  (length gamma_batch ≤ fuel)%nat →
  ∃ batch_results,
    ClusterTools.answerQueryInChunks fuel gamma_batch ADMSTC SIZE
      (no_marks m) TDP CHILD chunk_size = Done (batch_results, no_marks m) ∧
    ARICluster.answerQueryBatch gamma_batch ADMSTC SIZE (no_marks m) TDP CHILD
    = Done (batch_results, no_marks m).
Proof.
  intros Hwf HTDP Hprep Hcs Hbig Hfuel.
  destruct (chunks_loop_spec m SIZE ROOT CHILD TDP ADMSTC Hwf HTDP Hprep
              gamma_batch chunk_size fuel 0 [])
    as (results & Hrun & Hall); try done; [unfold vsize; lia|].
  destruct (answerQueryBatch_each m SIZE ROOT CHILD TDP ADMSTC Hwf HTDP Hprep
              gamma_batch []) as (results' & Hrun' & Hall').
  exists results. split; [done|].
  unfold ARICluster.answerQueryBatch. rewrite Hrun'. simpl.
  f_equal. f_equal. simpl in Hall.
  eapply Forall2_functional; [|exact Hall'|exact Hall].
  intros gamma ANS ANS' H1 H2. simpl in H1, H2. congruence.
Qed.

Lemma answerQueryInChunks_is_answerQueryBatch_witness :
  ∃ batch_results,
    ClusterTools.answerQueryInChunks 3 [(1 # 4)%Q; (3 # 4)%Q; 1%Q] [0; 1; 2]
      [2; 1; 1] (no_marks 3) [(1 # 2)%Q; 1%Q; 1%Q] [[1]; []; []] 2
    = Done (batch_results, no_marks 3) ∧
    ARICluster.answerQueryBatch [(1 # 4)%Q; (3 # 4)%Q; 1%Q] [0; 1; 2]
      [2; 1; 1] (no_marks 3) [(1 # 2)%Q; 1%Q; 1%Q] [[1]; []; []]
    = Done (batch_results, no_marks 3).
Proof.
  apply (answerQueryInChunks_is_answerQueryBatch 3 [2; 1; 1] [0; 2]
           [[1]; []; []]).
  - apply small_forest_wf.
  - reflexivity.
  - apply small_forest_prep.
  - lia.
  - reflexivity.
  - simpl. lia.
Defined.

(** X18.  With a chunk size of zero [answerQueryInChunks] never returns
    on a batch that is not empty: [start] stays at zero, every round
    answers an empty chunk, and the loop runs out of every number of
    rounds. *)
Theorem answerQueryInChunks_zero_chunk_hangs (gamma_batch : list Q)
    (ADMSTC SIZE MARK : list Z) (TDP : list Q) (CHILD : list (list Z))
    (fuel : nat) :
  gamma_batch ≠ [] →
  ClusterTools.answerQueryInChunks fuel gamma_batch ADMSTC SIZE MARK TDP
    CHILD 0 = Timeout.
Proof.
  intros Hne. unfold ClusterTools.answerQueryInChunks.
  generalize (@nil (list (list Z))) as acc.
  assert (0 < vsize gamma_batch) as Hpos
    by (destruct gamma_batch; [done | unfold vsize; simpl; lia]).
  induction fuel as [|fuel IH]; intros acc; simpl.
  - by rewrite bool_decide_eq_true_2.
  - rewrite bool_decide_eq_true_2 by done.
    change (to_size_t (0 + 0)) with 0.
    rewrite Z.min_l by lia. rewrite bool_decide_eq_false_2 by lia.
    simpl. apply IH.
Qed.

Lemma answerQueryInChunks_zero_chunk_hangs_witness :
  ClusterTools.answerQueryInChunks 5 [(1 # 2)%Q] [0; 1; 2] [2; 1; 1]
    (no_marks 3) [(1 # 2)%Q; 1%Q; 1%Q] [[1]; []; []] 0 = Timeout.
Proof.
  apply (answerQueryInChunks_zero_chunk_hangs [(1 # 2)%Q]). discriminate.
Defined.

(** ** [changeQuery]: the branch that shrinks a cluster *)

Section Shrink.

Variables (m : Z) (SIZE ROOT : list Z) (CHILD : list (list Z)).
Variables (TDP : list Q) (ADMSTC : list Z).
Hypothesis Hwf : forest_wf m SIZE ROOT CHILD.
Hypothesis HTDP : vsize TDP = m.
Hypothesis Hprep : ARICluster.queryPreparation m ROOT TDP CHILD ADMSTC.

(** The body of the loop of the shrink branch keeps its invariant. *)
Lemma shrink_step_spec (CLUS : list Z) (tdpchg : Q) (idxv ax j : Z)
    (st : list (list Z) * list Z) :
  0 ≤ idxv < j → j < vsize ADMSTC → vget ADMSTC idxv = Done ax →
  shrunk m SIZE CHILD TDP ADMSTC CLUS tdpchg (tdp_of TDP ax) idxv j st →
  ∃ st', ARICluster.shrink_step tdpchg ADMSTC SIZE TDP CHILD idxv j st
           = Done st' ∧
         shrunk m SIZE CHILD TDP ADMSTC CLUS tdpchg (tdp_of TDP ax) idxv
           (j + 1) st'.
Proof.
  intros Hidxv Hj Hax. destruct st as [CHG MARK].
  intros ((Hsize & Hmarks) & Hnd & Hfrom & Hcover). simpl in *.
  assert (Forall (λ CL, ∃ k a, idxv < k < j + 1 ∧
                               ADMSTC !! Z.to_nat k = Some a ∧
                               splits_off TDP ADMSTC CLUS tdpchg
                                 (tdp_of TDP ax) a ∧
                               CL = desc_of SIZE CHILD a) CHG) as Hfrom'.
  { eapply Forall_impl; [exact Hfrom|].
    intros CL (k & a & Hk & Ha & Hs & ->).
    exists k, a. split_and!; try done; lia. }
  destruct (vget_lt ADMSTC j) as [a Ha]; [lia|].
  pose proof Ha as [_ Hlookup]%vget_Done.
  destruct (ADMSTC_lookup m SIZE ROOT CHILD Hwf TDP HTDP ADMSTC Hprep
              _ _ Hlookup) as [Har Hadm].
  pose proof Hax as [_ Hlookx]%vget_Done.
  destruct (ADMSTC_lookup m SIZE ROOT CHILD Hwf TDP HTDP ADMSTC Hprep
              _ _ Hlookx) as [Haxr _].
  assert (∀ k b, idxv < k < j + 1 → ADMSTC !! Z.to_nat k = Some b →
                 k ≠ j ∨ b ∈ mjoin CHG ∨
                 ¬ splits_off TDP ADMSTC CLUS tdpchg (tdp_of TDP ax) b →
                 splits_off TDP ADMSTC CLUS tdpchg (tdp_of TDP ax) b →
                 b ∈ mjoin CHG) as Hcover'.
  { intros k b Hk Hb Hcase Hsb.
    destruct (decide (k = j)) as [->|Hkj].
    - destruct Hcase as [?|[?|?]]; done.
    - apply (Hcover k b); [lia | done..]. }
  unfold ARICluster.shrink_step. rewrite Ha. exec_simpl.
  rewrite (tdp_of_Done m TDP HTDP a Har). exec_simpl.
  destruct (Qgeb (tdp_of TDP a) 0) eqn:Hpos.
  2:{ exec_simpl. eexists. split; [done|]. split_and!; try done.
      intros k b Hk Hb Hsb. apply (Hcover' k b Hk Hb); [|done].
      destruct (decide (k = j)) as [->|]; [|by left].
      right. right. intros (_ & _ & H0 & _).
      rewrite Hlookup in Hb. injection Hb as <-.
      apply Qgeb_ge in H0. congruence. }
  rewrite Hax. exec_simpl.
  rewrite (tdp_of_Done m TDP HTDP ax Haxr). exec_simpl.
  destruct (Qgeb (tdp_of TDP a - tdp_of TDP ax) tdpchg) eqn:Hdiff.
  2:{ exec_simpl. eexists. split; [done|]. split_and!; try done.
      intros k b Hk Hb Hsb. apply (Hcover' k b Hk Hb); [|done].
      destruct (decide (k = j)) as [->|]; [|by left].
      right. right. intros (_ & _ & _ & Hd).
      rewrite Hlookup in Hb. injection Hb as <-.
      apply Qgeb_ge in Hd. congruence. }
  apply Qgeb_ge in Hpos, Hdiff.
  rewrite (Hmarks a Har). exec_simpl.
  destruct (decide (a ∈ mjoin CHG)) as [Hin|Hin].
  { rewrite (bool_decide_eq_true_2 _ Hin).
    rewrite bool_decide_eq_false_2 by done.
    eexists. split; [done|]. split_and!; try done.
    intros k b Hk Hb Hsb. apply (Hcover' k b Hk Hb); [|done].
    destruct (decide (k = j)) as [->|]; [|by left].
    right. left. rewrite Hlookup in Hb. by injection Hb as <-. }
  rewrite (bool_decide_eq_false_2 _ Hin).
  destruct (decide (a ∈ CLUS)) as [HaC|HaC].
  2:{ rewrite (bool_decide_eq_false_2 _ HaC).
      rewrite bool_decide_eq_false_2 by done.
      eexists. split; [done|]. split_and!; try done.
      intros k b Hk Hb Hsb. apply (Hcover' k b Hk Hb); [|done].
      destruct (decide (k = j)) as [->|]; [|by left].
      right. right. intros (_ & HbC & _).
      rewrite Hlookup in Hb. by injection Hb as <-. }
  rewrite (bool_decide_eq_true_2 _ HaC).
  rewrite bool_decide_eq_true_2 by done.
  rewrite (descendants_spec m SIZE ROOT CHILD Hwf a Har). exec_simpl.
  destruct (set_marks_spec m (desc_of SIZE CHILD a) 2 MARK)
    as (MARK' & -> & Hsize' & Hget); [|done|].
  { apply Forall_forall. intros x Hx.
    by eapply (desc_of_in_range m SIZE ROOT CHILD Hwf a). }
  exec_simpl. eexists. split; [done|].
  assert (mjoin (CHG ++ [desc_of SIZE CHILD a])
          = mjoin CHG ++ desc_of SIZE CHILD a) as Hjoin.
  { rewrite join_app. csimpl. by rewrite app_nil_r. }
  assert (splits_off TDP ADMSTC CLUS tdpchg (tdp_of TDP ax) a) as Hsa.
  { split_and!; try done. by eapply list_elem_of_lookup_2. }
  split_and!; simpl.
  - split; [done|]. intros y Hy. rewrite Hget, Hjoin.
    destruct (decide (y ∈ desc_of SIZE CHILD a)) as [Hya|Hya].
    + rewrite !bool_decide_eq_true_2; [done | | done].
      apply elem_of_app. by right.
    + rewrite (bool_decide_eq_false_2 _ Hya), (Hmarks y Hy). f_equal.
      destruct (decide (y ∈ mjoin CHG)) as [Hyo|Hyo].
      * rewrite !bool_decide_eq_true_2; [done | | done].
        apply elem_of_app. by left.
      * rewrite !(bool_decide_eq_false_2 (y ∈ _ ++ _)),
          !(bool_decide_eq_false_2 (y ∈ mjoin CHG)); [done | done |].
        intros [?|?]%elem_of_app; done.
  - rewrite Hjoin. apply NoDup_app. split_and!; [done | |].
    + intros x (CL & Hx & HCL)%list_elem_of_join Hxa.
      rewrite Forall_forall in Hfrom.
      destruct (Hfrom CL HCL) as (k & b & Hk & Hb & _ & ->).
      destruct (ADMSTC_lookup m SIZE ROOT CHILD Hwf TDP HTDP ADMSTC Hprep
                  _ _ Hb) as [Hbr Hbadm].
      apply (desc_of_descends m SIZE ROOT CHILD Hwf) in Hx; [|done].
      apply (desc_of_descends m SIZE ROOT CHILD Hwf) in Hxa; [|done].
      destruct (descends_nested m SIZE ROOT CHILD Hwf b a x Hx Hxa)
        as [Hd|Hd].
      * apply Hin, list_elem_of_join. eexists. split; [|done].
        by apply (descends_desc_of m SIZE ROOT CHILD Hwf).
      * destruct (decide (a = b)) as [->|Hne].
        { apply Hin, list_elem_of_join. eexists. split; [|done].
          by apply (desc_of_self m SIZE ROOT CHILD Hwf). }
        pose proof (Hbadm a Hd Hne) as Hlt.
        pose proof (ADMSTC_sorted m SIZE ROOT CHILD Hwf TDP HTDP ADMSTC
                      Hprep (Z.to_nat k) (Z.to_nat j) b a
                      ltac:(lia) Hb Hlookup) as Hle.
        by apply Qlt_not_le in Hlt.
    + by apply (desc_of_NoDup m SIZE ROOT CHILD Hwf).
  - apply Forall_app. split; [done|]. apply Forall_singleton.
    exists j, a. split_and!; try done; lia.
  - intros k b Hk Hb Hsb. rewrite Hjoin. apply elem_of_app.
    destruct (decide (k = j)) as [->|Hkj].
    + right. rewrite Hlookup in Hb. injection Hb as <-.
      by apply (desc_of_self m SIZE ROOT CHILD Hwf).
    + left. apply (Hcover k b); [lia | done..].
Qed.

(** [ADMSTC] lists nodes of the forest, none twice. *)
Lemma ADMSTC_vsize : vsize ADMSTC ≤ m.
Proof.
  destruct (collect_admissible_exact m SIZE ROOT CHILD TDP Hwf HTDP)
    as (l & Hl & Hsub & _).
  destruct Hprep as (l' & Hl' & Hperm & _).
  rewrite Hl in Hl'. injection Hl' as <-.
  assert (NoDup ADMSTC) as Hnd.
  { rewrite <- Hperm.
    apply submseteq_Permutation in Hsub as [k Hk].
    pose proof (root_subtrees_NoDup m SIZE ROOT CHILD Hwf) as Hnd.
    rewrite Hk in Hnd. by apply NoDup_app in Hnd as [? _]. }
  assert (ADMSTC ⊆+ seqZ 0 m) as Hle.
  { apply NoDup_submseteq; [done|]. intros a [i Hi]%list_elem_of_lookup.
    apply elem_of_seqZ.
    destruct (ADMSTC_lookup m SIZE ROOT CHILD Hwf TDP HTDP ADMSTC Hprep
                _ _ Hi) as [Ha _]. lia. }
  apply submseteq_length in Hle. rewrite length_seqZ in Hle.
  destruct Hwf as (HS & _). unfold vsize in *. lia.
Qed.

(** The position [findIndex] returns for an entry of [ADMSTC] holds an
    entry of the same TDP. *)
Lemma findIndex_entry (rep : Z) :
  rep ∈ ADMSTC →
  ∃ idxv ax,
    ARICluster.findIndex rep ADMSTC TDP = Done idxv ∧
    0 ≤ idxv < vsize ADMSTC ∧ vget ADMSTC idxv = Done ax ∧
    (tdp_of TDP ax == tdp_of TDP rep)%Q.
Proof.
  intros Hrep. pose proof Hrep as [k Hk]%list_elem_of_lookup.
  destruct (ADMSTC_lookup m SIZE ROOT CHILD Hwf TDP HTDP ADMSTC Hprep
              _ _ Hk) as [Hr _].
  pose proof (tdp_of_Done m TDP HTDP rep Hr) as Hti.
  destruct Hprep as (_ & _ & _ & Hsorted).
  unfold ARICluster.findIndex.
  destruct (findIndex_loop_spec TDP ADMSTC rep (tdp_of TDP rep)
              (ADMSTC_in_TDP m SIZE ROOT CHILD TDP ADMSTC Hwf HTDP Hprep)
              Hsorted Hti (S (length ADMSTC)) 0 0 (vsize ADMSTC - 1))
    as (idx & Hrun & Hidx & Hfound); unfold vsize in *; try lia.
  replace (Z.of_nat (length ADMSTC) - 1 - 0)
    with (Z.of_nat (length ADMSTC) - 1) in Hrun by lia.
  destruct Hidx as [->|(Hi & a & ta & Ha & Hta & Heq)].
  - exfalso. apply Hfound; [|done].
    exists (Z.of_nat k), rep, (tdp_of TDP rep). split_and!.
    + lia.
    + apply lookup_lt_Some in Hk. lia.
    + apply vget_Done. split; [lia|]. by rewrite Nat2Z.id.
    + done.
    + reflexivity.
  - exists idx, a. split_and!; try done; try lia.
    unfold tdp_of at 1. by rewrite Hta.
Qed.

End Shrink.

(** The loop that carries the other clusters over appends all of [ANS]
    but the cluster at [iclus]. *)
Lemma carry_over_spec (ANS : list (list Z)) (iclus : Z)
    (CHG0 : list (list Z)) :
  0 ≤ iclus →
  for_up (length ANS) 0
    (λ j CHG,
       if bool_decide (j ≠ iclus)
       then CL ← vget ANS j; Done (CHG ++ [CL]) else Done CHG)
    CHG0
  = Done (CHG0 ++ delete (Z.to_nat iclus) ANS).
Proof.
  intros Hi.
  destruct (for_up_inv
    (λ j CHG, CHG = CHG0 ++ take (Z.to_nat iclus) (take (Z.to_nat j) ANS)
                    ++ drop (S (Z.to_nat iclus)) (take (Z.to_nat j) ANS))
    (length ANS) 0
    (λ j CHG,
       if bool_decide (j ≠ iclus)
       then CL ← vget ANS j; Done (CHG ++ [CL]) else Done CHG)
    CHG0) as (CHG & -> & HCHG).
  - change (Z.to_nat 0) with 0%nat.
    by rewrite take_0, take_nil, drop_nil, app_nil_r.
  - intros j CHG Hj ->.
    destruct (vget_lt ANS j) as [x Hx]; [unfold vsize; lia|].
    pose proof Hx as [_ Hl]%vget_Done.
    replace (Z.to_nat (j + 1)) with (S (Z.to_nat j)) by lia.
    rewrite (take_S_r _ _ _ Hl).
    set (T := take (Z.to_nat j) ANS).
    assert (length T = Z.to_nat j) as HT.
    { unfold T. rewrite length_take. lia. }
    case_bool_decide as Hne.
    + rewrite Hx. exec_simpl. eexists. split; [done|].
      destruct (decide (j < iclus)) as [Hlt|Hge].
      * rewrite (take_ge T), (drop_ge T) by lia.
        rewrite (take_ge (T ++ [x])), (drop_ge (T ++ [x]))
          by (rewrite length_app; simpl; lia).
        by rewrite !app_nil_r, app_assoc.
      * rewrite take_app_le, drop_app_le by lia.
        by rewrite !app_assoc.
    + eexists. split; [done|].
      assert (j = iclus) as -> by (by destruct (decide (j = iclus))).
      rewrite take_app_le by lia.
      rewrite (drop_ge T), (drop_ge (T ++ [x]))
        by (rewrite ?length_app; simpl; lia).
      done.
  - f_equal. rewrite HCHG.
    replace (Z.to_nat (0 + Z.of_nat (length ANS))) with (length ANS) by lia.
    rewrite (take_ge ANS (length ANS)) by done.
    by rewrite delete_take_drop.
Qed.

Lemma join_delete {A : Type} (L : list (list A)) (i : nat) (x : list A) :
  L !! i = Some x → mjoin L ≡ₚ x ++ mjoin (delete i L).
Proof.
  intros Hi. rewrite <- (take_drop_middle L i x Hi) at 1.
  rewrite delete_take_drop, !join_app. csimpl.
  by rewrite Permutation_app_swap_app.
Qed.

Lemma pairwise_disjoint_NoDup (L : list (list Z)) :
  pairwise_disjoint L → Forall NoDup L → NoDup (mjoin L).
Proof.
  induction L as [|x L IH]; intros Hpd Hnd; [constructor|].
  apply Forall_cons in Hnd as [Hx Hnd]. csimpl.
  apply NoDup_app. split_and!; [done | |].
  - intros y Hy (l & Hyl & [j Hj]%list_elem_of_lookup)%list_elem_of_join.
    by pose proof (Hpd O (S j) x l y eq_refl Hj Hy Hyl).
  - apply IH; [|done]. intros i j c1 c2 y Hi Hj H1 H2.
    by injection (Hpd (S i) (S j) c1 c2 y Hi Hj H1 H2).
Qed.

Lemma splits_off_Qeq (TDP : list Q) (ADMSTC CLUS : list Z)
    (tdpchg cur cur' : Q) (a : Z) :
  (cur == cur')%Q →
  splits_off TDP ADMSTC CLUS tdpchg cur a →
  splits_off TDP ADMSTC CLUS tdpchg cur' a.
Proof.
  intros Heq (H1 & H2 & H3 & H4). split_and!; try done.
  by rewrite <- Heq.
Qed.

(** What [answerQuery] returns: subtrees of entries of [ADMSTC] that
    share no voxel. *)
Lemma answerQuery_shape (m : Z) (SIZE ROOT : list Z) (CHILD : list (list Z))
    (TDP : list Q) (ADMSTC : list Z) (gamma : Q) (ANS : list (list Z)) :
  forest_wf m SIZE ROOT CHILD → vsize TDP = m →
  ARICluster.queryPreparation m ROOT TDP CHILD ADMSTC →
  ARICluster.answerQuery gamma ADMSTC SIZE (no_marks m) TDP CHILD
  = Done (ANS, no_marks m) →
  Forall (λ CL, ∃ a, a ∈ ADMSTC ∧ 0 ≤ a < m ∧ CL = desc_of SIZE CHILD a) ANS ∧
  NoDup (mjoin ANS).
Proof.
  intros Hwf HTDP Hprep Hrun. unfold ARICluster.answerQuery in Hrun.
  destruct (answer_gamma_cover m SIZE ROOT CHILD TDP ADMSTC Hwf HTDP Hprep
              gamma) as (ANS' & Hrun' & Hall & _).
  rewrite Hrun' in Hrun. injection Hrun as ->.
  assert (Forall (λ CL, ∃ a, a ∈ ADMSTC ∧ 0 ≤ a < m ∧
                             CL = desc_of SIZE CHILD a) ANS) as HANS.
  { apply Forall_forall. intros CL HCL.
    destruct (Hall CL HCL) as (a & Ha & Har & -> & _). by exists a. }
  split; [done|].
  destruct (answer_gamma_spec m SIZE ROOT CHILD Hwf TDP HTDP ADMSTC Hprep
              gamma) as (ANS' & Hrun2 & Hpd & _).
  rewrite Hrun' in Hrun2. injection Hrun2 as <-.
  apply pairwise_disjoint_NoDup; [done|].
  eapply Forall_impl; [exact HANS|]. intros CL (a & _ & Ha & ->).
  by apply (desc_of_NoDup m SIZE ROOT CHILD Hwf).
Qed.

(** Leaving [changeQuery] by an exception. *)
Ltac thrown_exit := eexists; split; [reflexivity | intros ? [=]].

(** X19.  On valid input, with [ANS] an answer of [answerQuery] and a
    positive [tdpchg], [changeQuery] completes, by a return or by an
    exception, and leaves [MARK] cleared.  When it returns, the cluster
    [CLUS] of [v] has been replaced: the clusters returned share no
    voxel; each is another cluster of [ANS], or the subtree of an entry
    of [ADMSTC] inside [CLUS] whose TDP is not negative and exceeds that
    of [CLUS] by [tdpchg] at least; every other cluster of [ANS] is kept,
    and every such entry lies in a cluster returned. *)
Theorem changeQuery_shrink_splits_cluster (m : Z) (SIZE ROOT : list Z)
    (CHILD : list (list Z)) (TDP : list Q) (ADMSTC : list Z) (gamma : Q)
    (ANS : list (list Z)) (v : Z) (tdpchg : Q) :
  forest_wf m SIZE ROOT CHILD → m < 2 ^ 31 → vsize TDP = m →
  ARICluster.queryPreparation m ROOT TDP CHILD ADMSTC →
  ARICluster.answerQuery gamma ADMSTC SIZE (no_marks m) TDP CHILD
  = Done (ANS, no_marks m) →
  0 ≤ v < m → (0 < tdpchg)%Q →
  ∃ out,
    ARICluster.changeQuery v tdpchg ADMSTC SIZE (no_marks m) TDP CHILD ANS
    = Done (out, no_marks m) ∧
    ∀ CHG, out = ARICluster.Returned CHG →
      ∃ CLUS rep,
        CLUS ∈ ANS ∧ v ∈ CLUS ∧ representative CLUS = Some rep ∧
        pairwise_disjoint CHG ∧
        (∀ CL, CL ∈ CHG →
               CL ∈ ANS ∧ CL ≠ CLUS ∨
               ∃ a, splits_off TDP ADMSTC CLUS tdpchg (tdp_of TDP rep) a ∧
                    ARICluster.descendants a SIZE CHILD = Done CL) ∧
        (∀ CL, CL ∈ ANS → CL ≠ CLUS → CL ∈ CHG) ∧
        ∀ a, splits_off TDP ADMSTC CLUS tdpchg (tdp_of TDP rep) a →
             ∃ CL, CL ∈ CHG ∧ a ∈ CL.
Proof.
  intros Hwf Hm HTDP Hprep HANSrun Hv Hchg.
  destruct (answerQuery_shape m SIZE ROOT CHILD TDP ADMSTC gamma ANS
              Hwf HTDP Hprep HANSrun) as [HANS HND].
  unfold ARICluster.changeQuery.
  rewrite bool_decide_eq_false_2 by lia.
  assert (Forall (λ CL, ∃ a, 0 ≤ a < m ∧
                   ARICluster.descendants a SIZE CHILD = Done CL) ANS)
    as HANS'.
  { eapply Forall_impl; [exact HANS|]. intros CL (a & _ & Ha & ->).
    exists a. split; [done|].
    by apply (descendants_spec m SIZE ROOT CHILD Hwf). }
  unfold ARICluster.findRep.
  destruct (findRep_loop_spec m SIZE ROOT CHILD Hwf Hm ANS 0 v Hv HANS')
    as (r & -> & Hr).
  exec_simpl.
  destruct Hr as [[-> _]|(k & CLUS & -> & Hk & HvC & _)].
  { rewrite bool_decide_eq_true_2 by lia. thrown_exit. }
  rewrite bool_decide_eq_false_2 by lia.
  assert (vget ANS (0 + Z.of_nat k) = Done CLUS) as ->.
  { apply vget_Done. split; [lia|].
    by replace (Z.to_nat (0 + Z.of_nat k)) with k by lia. }
  exec_simpl.
  pose proof HANS as HANSl. rewrite Forall_lookup in HANSl.
  destruct (HANSl k CLUS Hk) as (rep & Hrep & Hrepr & HCLUS).
  pose proof (desc_of_vsize m SIZE ROOT CHILD Hwf rep Hrepr) as Hsz.
  pose proof (size_of_pos m SIZE ROOT CHILD Hwf rep Hrepr) as Hsz1.
  pose proof (size_of_le m SIZE ROOT CHILD Hwf rep Hrepr) as Hsz2.
  pose proof (desc_of_last m SIZE ROOT CHILD Hwf rep Hrepr) as Hlast.
  rewrite <- HCLUS in Hsz, Hlast.
  rewrite (to_size_t_small (vsize CLUS - 1)) by lia.
  assert (vget CLUS (vsize CLUS - 1) = Done rep) as ->.
  { rewrite last_lookup in Hlast. apply vget_Done. split; [lia|].
    by replace (Z.to_nat (vsize CLUS - 1)) with (pred (length CLUS))
      by (unfold vsize; lia). }
  exec_simpl.
  destruct (findIndex_entry m SIZE ROOT CHILD TDP ADMSTC Hwf HTDP Hprep
              rep Hrep) as (idxv & ax & -> & Hidxv & Hax & Heq).
  exec_simpl. rewrite bool_decide_eq_false_2 by lia.
  destruct (Qleb tdpchg (-1) || Qeq_bool tdpchg 0 || Qgeb tdpchg 1);
    [thrown_exit|].
  pose proof (ADMSTC_vsize m SIZE ROOT CHILD TDP ADMSTC Hwf HTDP Hprep)
    as HAsz.
  rewrite (to_size_t_small (vsize ADMSTC - 1)) by lia.
  destruct (vget_lt ADMSTC (vsize ADMSTC - 1)) as [amax Hamax]; [lia|].
  rewrite Hamax. exec_simpl.
  pose proof Hamax as [_ Hlmax]%vget_Done.
  destruct (ADMSTC_lookup m SIZE ROOT CHILD Hwf TDP HTDP ADMSTC Hprep
              _ _ Hlmax) as [Hmaxr _].
  rewrite (tdp_of_Done m TDP HTDP amax Hmaxr). exec_simpl.
  destruct (vget_lt ADMSTC 0) as [amin Hamin]; [lia|].
  rewrite Hamin. exec_simpl.
  pose proof Hamin as [_ Hlmin]%vget_Done.
  destruct (ADMSTC_lookup m SIZE ROOT CHILD Hwf TDP HTDP ADMSTC Hprep
              _ _ Hlmin) as [Hminr _].
  rewrite (tdp_of_Done m TDP HTDP amin Hminr). exec_simpl.
  rewrite (tdp_of_Done m TDP HTDP rep Hrepr). exec_simpl.
  assert (Qltb tdpchg 0 = false) as Hneg
    by (apply Qltb_ge; by apply Qlt_le_weak).
  rewrite Hneg. cbn [andb orb].
  destruct (Qgtb tdpchg 0 && Qeq_bool _ _); [thrown_exit|].
  destruct (Qgtb tdpchg 0 && Qltb _ tdpchg); [thrown_exit|].
  assert (Forall (λ d, 0 ≤ d < m) CLUS) as HCr.
  { apply Forall_forall. intros x Hx. rewrite HCLUS in Hx.
    by eapply (desc_of_in_range m SIZE ROOT CHILD Hwf rep). }
  assert (vsize (no_marks m) = m) as Hnm.
  { unfold no_marks, vsize. rewrite length_replicate. lia. }
  destruct (set_marks_spec m CLUS 1 (no_marks m) HCr Hnm)
    as (MARK1 & -> & Hsz1' & Hget1).
  exec_simpl.
  destruct (for_up_inv
              (shrunk m SIZE CHILD TDP ADMSTC CLUS tdpchg (tdp_of TDP ax)
                 idxv)
              (Z.to_nat (vsize ADMSTC - (idxv + 1))) (idxv + 1)
              (ARICluster.shrink_step tdpchg ADMSTC SIZE TDP CHILD idxv)
              ([], MARK1))
    as ([CHG MARK2] & -> & (Hsz2' & Hmarks) & HndC & Hfrom & Hcover).
  { split_and!; simpl.
    - split; [done|]. intros x Hx. rewrite Hget1.
      rewrite (bool_decide_eq_false_2 (x ∈ mjoin []))
        by apply not_elem_of_nil.
      case_bool_decide; [done|].
      apply vget_Done. split; [lia|]. apply lookup_replicate_2. lia.
    - constructor.
    - constructor.
    - intros k' a Hk'. lia. }
  { intros j st Hj Hst.
    apply (shrink_step_spec m SIZE ROOT CHILD TDP ADMSTC Hwf HTDP Hprep
             CLUS tdpchg idxv ax j st); [lia | lia | done | done]. }
  exec_simpl. simpl in *.
  rewrite carry_over_spec by lia. exec_simpl.
  destruct (set_marks_spec m CLUS 0 MARK2 HCr Hsz2')
    as (MARK3 & -> & Hsz3 & Hget3).
  exec_simpl.
  (* the clusters split off lie inside [CLUS] *)
  assert (∀ x, x ∈ mjoin CHG → x ∈ CLUS) as Hinside.
  { intros x (CL & Hx & HCL)%list_elem_of_join.
    rewrite Forall_forall in Hfrom.
    destruct (Hfrom CL HCL) as (k' & a & _ & Ha & (_ & HaC & _) & ->).
    pose proof Ha as Ha'.
    apply (ADMSTC_lookup m SIZE ROOT CHILD Hwf TDP HTDP ADMSTC Hprep)
      in Ha' as [Har _].
    rewrite HCLUS in *.
    apply (descends_desc_of m SIZE ROOT CHILD Hwf); [done|].
    eapply descends_trans.
    - by apply (desc_of_descends m SIZE ROOT CHILD Hwf rep a).
    - by apply (desc_of_descends m SIZE ROOT CHILD Hwf a x). }
  assert (MARK3 = no_marks m) as ->.
  { apply all_zero_no_marks; [done|]. intros x Hx. rewrite Hget3.
    case_bool_decide as HxC; [done|]. rewrite (Hmarks x Hx).
    rewrite bool_decide_eq_false_2 by (intros ?%Hinside; done).
    by rewrite bool_decide_eq_false_2. }
  eexists. split; [reflexivity|]. intros CHG' [= <-].
  replace (Z.to_nat (0 + Z.of_nat k)) with k by lia.
  pose proof (join_delete ANS k CLUS Hk) as Hperm.
  rewrite Hperm in HND. apply NoDup_app in HND as (_ & Hdisj & HndR).
  exists CLUS, rep. split_and!.
  - by eapply list_elem_of_lookup_2.
  - done.
  - done.
  - assert (NoDup (mjoin (CHG ++ delete k ANS))) as Hall.
    { rewrite join_app. apply NoDup_app. split_and!; [done | | done].
      intros x Hx%Hinside. by apply Hdisj. }
    intros i j c1 c2 x. by apply NoDup_concat_unique.
  - intros CL [HCL|HCL]%elem_of_app.
    + right. rewrite Forall_forall in Hfrom.
      destruct (Hfrom CL HCL) as (k' & a & _ & Ha & Hs & ->).
      exists a. split; [by eapply splits_off_Qeq|].
      apply (descendants_spec m SIZE ROOT CHILD Hwf).
      by apply (ADMSTC_lookup m SIZE ROOT CHILD Hwf TDP HTDP ADMSTC Hprep)
        in Ha as [? _].
    + left. pose proof (list_elem_of_delete_inv _ _ _ HCL) as HCLA.
      split; [done|]. intros ->.
      rewrite Forall_forall in HANS.
      destruct (HANS CLUS HCLA) as (a & _ & Har & Ea).
      assert (a ∈ CLUS) as HaC.
      { rewrite Ea. by apply (desc_of_self m SIZE ROOT CHILD Hwf). }
      apply (Hdisj a HaC). apply list_elem_of_join. by exists CLUS.
  - intros CL [j Hj]%list_elem_of_lookup Hne. apply elem_of_app. right.
    assert (j ≠ k) as Hjk by (intros ->; congruence).
    destruct (decide (j < k)%nat) as [Hlt|Hge].
    + apply (list_elem_of_lookup_2 _ j).
      by rewrite list_lookup_delete_lt.
    + apply (list_elem_of_lookup_2 _ (pred j)).
      rewrite list_lookup_delete_ge by lia.
      by replace (S (pred j)) with j by lia.
  - intros a Hs. apply (splits_off_Qeq _ _ _ _ _ (tdp_of TDP ax)) in Hs;
      [|by symmetry].
    pose proof Hs as (HaA & HaC & Ha0 & Had).
    apply list_elem_of_lookup in HaA as [k' Hk'].
    pose proof Hax as [_ Hlx]%vget_Done.
    assert (tdp_of TDP ax < tdp_of TDP a)%Q as Hlt.
    { apply Qlt_minus_iff. eapply Qlt_le_trans; [exact Hchg | exact Had]. }
    assert (Z.to_nat idxv < k')%nat as Hpos.
    { destruct (decide (Z.to_nat idxv < k')%nat) as [|Hge]; [done|].
      exfalso. destruct (decide (k' = Z.to_nat idxv)) as [->|Hne].
      - rewrite Hlx in Hk'. injection Hk' as <-.
        by apply Qlt_irrefl in Hlt.
      - pose proof (ADMSTC_sorted m SIZE ROOT CHILD Hwf TDP HTDP ADMSTC
                      Hprep k' (Z.to_nat idxv) a ax ltac:(lia) Hk' Hlx).
        by apply Qlt_not_le in Hlt. }
    assert (a ∈ mjoin CHG) as (CL & HaCL & HCL)%list_elem_of_join.
    { apply (Hcover (Z.of_nat k') a); [|by rewrite Nat2Z.id | done].
      apply lookup_lt_Some in Hk'. unfold vsize. lia. }
    exists CL. split; [|done]. apply elem_of_app. by left.
Qed.

Lemma changeQuery_shrink_splits_cluster_witness :
  ∃ out,
    ARICluster.changeQuery 1 (1 # 4) [0; 1; 2] [2; 1; 1] (no_marks 3)
      [(1 # 2)%Q; 1%Q; 1%Q] [[1]; []; []] [[1; 0]; [2]]
    = Done (out, no_marks 3) ∧
    ∀ CHG, out = ARICluster.Returned CHG →
      ∃ CLUS rep,
        CLUS ∈ [[1; 0]; [2]] ∧ 1 ∈ CLUS ∧ representative CLUS = Some rep ∧
        pairwise_disjoint CHG ∧
        (∀ CL, CL ∈ CHG →
               CL ∈ [[1; 0]; [2]] ∧ CL ≠ CLUS ∨
               ∃ a, splits_off [(1 # 2)%Q; 1%Q; 1%Q] [0; 1; 2] CLUS (1 # 4)
                      (tdp_of [(1 # 2)%Q; 1%Q; 1%Q] rep) a ∧
                    ARICluster.descendants a [2; 1; 1] [[1]; []; []]
                    = Done CL) ∧
        (∀ CL, CL ∈ [[1; 0]; [2]] → CL ≠ CLUS → CL ∈ CHG) ∧
        ∀ a, splits_off [(1 # 2)%Q; 1%Q; 1%Q] [0; 1; 2] CLUS (1 # 4)
               (tdp_of [(1 # 2)%Q; 1%Q; 1%Q] rep) a →
             ∃ CL, CL ∈ CHG ∧ a ∈ CL.
Proof.
  apply (changeQuery_shrink_splits_cluster 3 [2; 1; 1] [0; 2] [[1]; []; []]
           [(1 # 2)%Q; 1%Q; 1%Q] [0; 1; 2] (1 # 4)).
  - apply small_forest_wf.
  - lia.
  - reflexivity.
  - apply small_forest_prep.
  - reflexivity.
  - lia.
  - reflexivity.
Defined.

(** ** [findHalpha] after the change to zero-based indices *)

(** The search keeps a jump above [alpha] at [lower], unless [lower] is
    zero, and a jump not above [alpha] at [upper], unless [upper] is [m];
    it never looks at [jumpalpha[0]]. *)
Lemma findHalpha_zero_loop (fuel : nat) (jumpalpha : list Q) (alpha : Q)
    (m lower upper : Z) :
  vsize jumpalpha = m → non_increasing jumpalpha →
  0 ≤ lower < upper → upper ≤ m →
  upper - lower - 1 ≤ Z.of_nat fuel →
  (lower = 0 ∨ ∃ a, vget jumpalpha lower = Done a ∧ (alpha < a)%Q) →
  (upper = m ∨ ∃ a, vget jumpalpha upper = Done a ∧ (a <= alpha)%Q) →
  ∃ h, Hommel.findHalpha_loop fuel jumpalpha alpha lower upper = Done h ∧
       0 ≤ h < m ∧
       (h = 0 ∨ ∃ a, vget jumpalpha h = Done a ∧ (alpha < a)%Q) ∧
       ∀ h' a, h < h' < m → vget jumpalpha h' = Done a → ¬ (alpha < a)%Q.
Proof.
  intros Hsize Hmono. revert lower upper.
  induction fuel as [|fuel IH];
    intros lower upper Hlow Hup Hfuel Hbelow Habove;
    cbn [Hommel.findHalpha_loop]; case_bool_decide as Hlt.
  1, 3: lia || idtac.
  all: try (exists lower; split; [done|]; split; [lia|]; split; [done|];
            intros h' a Hh' Ha Hgt;
            destruct Habove as [->|(b & Hb & Hle)]; [lia|];
            pose proof (Hmono upper h' b a ltac:(lia) Hb Ha) as Hab;
            apply (Qlt_not_le _ _ Hgt); by eapply Qle_trans).
  assert (lower < (lower + upper) `quot` 2 < upper) as Hmid.
  { rewrite Z.quot_div_nonneg by lia.
    pose proof (Z.div_mod (lower + upper) 2).
    pose proof (Z.mod_pos_bound (lower + upper) 2). lia. }
  set (mid := (lower + upper) `quot` 2) in *.
  destruct (vget_lt jumpalpha mid) as [jm Hjm]; [lia|].
  rewrite Hjm. exec_simpl.
  destruct (Qgtb jm alpha) eqn:Hgt.
  - apply IH; [lia | lia | lia | | done].
    right. exists jm. split; [done|]. by apply Qltb_lt.
  - apply IH; [lia | lia | lia | done |].
    right. exists jm. split; [done|]. by apply Qltb_ge.
Qed.

(** X20.  For every non-increasing [jumpalpha] of length [m], [findHalpha]
    of [hommel_zero_based.cpp] completes without reading out of bounds
    and returns one less than [findHalpha] of [hommel_backup.cpp], which
    returns the largest [h] in [0..m] with [jumpalpha[h-1] > alpha]; it
    returns zero when that [h] is zero. *)
Theorem findHalpha_one_below_backup (jumpalpha : list Q) (alpha : Q)
    (m : Z) :
  vsize jumpalpha = m → non_increasing jumpalpha →
  ∃ h, largest_jump_above jumpalpha alpha m h ∧
       HommelBackup.findHalpha jumpalpha alpha m = Done h ∧
       Hommel.findHalpha jumpalpha alpha m = Done (Z.max (h - 1) 0).
Proof.
  intros Hsize Hmono.
  assert (0 ≤ m) as Hm by (unfold vsize in Hsize; lia).
  destruct (findHalpha_backup_loop (Z.to_nat (m + 1)) jumpalpha alpha m 0
              (m + 1)) as (h & Hback & Hh); try done; try lia;
    try (by left).
  exists h. split; [done|]. split; [done|].
  destruct Hh as (Hhr & Hhat & Hhabove).
  unfold Hommel.findHalpha.
  destruct (decide (m = 0)) as [->|Hm0].
  { simpl. f_equal. lia. }
  destruct (findHalpha_zero_loop (Z.to_nat m) jumpalpha alpha m 0 m)
    as (r & -> & Hrr & Hrat & Hrabove); try done; try lia;
    try (by left).
  f_equal.
  destruct (decide (2 ≤ h)) as [Hh2|Hh1].
  - destruct Hhat as [->|(a & Ha & Hgt)]; [lia|].
    destruct (decide (r < h - 1)) as [Hlt|Hge].
    { by destruct (Hrabove (h - 1) a ltac:(lia) Ha). }
    destruct (decide (h - 1 < r)) as [Hlt|Hle]; [|lia].
    destruct Hrat as [->|(b & Hb & Hgtb)]; [lia|].
    destruct (Hhabove (r + 1) b ltac:(lia)); [|done].
    by replace (r + 1 - 1) with r by lia.
  - destruct (decide (r = 0)) as [->|Hr0]; [lia|].
    destruct Hrat as [->|(b & Hb & Hgtb)]; [lia|].
    destruct (Hhabove (r + 1) b ltac:(lia)); [|done].
    by replace (r + 1 - 1) with r by lia.
Qed.

Lemma findHalpha_one_below_backup_witness :
  ∃ h, largest_jump_above [1%Q; (3 # 4)%Q; (1 # 4)%Q] (1 # 2) 3 h ∧
       HommelBackup.findHalpha [1%Q; (3 # 4)%Q; (1 # 4)%Q] (1 # 2) 3
       = Done h ∧
       Hommel.findHalpha [1%Q; (3 # 4)%Q; (1 # 4)%Q] (1 # 2) 3
       = Done (Z.max (h - 1) 0).
Proof.
  apply (findHalpha_one_below_backup [1%Q; (3 # 4)%Q; (1 # 4)%Q] (1 # 2) 3).
  - reflexivity.
  - intros i j a b Hij Ha Hb.
    pose proof (vget_Done_lt _ _ _ Ha) as Hi.
    pose proof (vget_Done_lt _ _ _ Hb) as Hj.
    unfold vsize in Hi, Hj. simpl in Hi, Hj.
    assert (i = 0 ∨ i = 1 ∨ i = 2) as Hci by lia.
    assert (j = 0 ∨ j = 1 ∨ j = 2) as Hcj by lia.
    destruct Hci as [->|[->| ->]], Hcj as [->|[->| ->]]; try lia;
      injection Ha as <-; injection Hb as <-; by vm_compute.
Defined.

(** ** [findhull]: the chain is convex *)






(** ** [findConcentration] *)

Lemma findConcentration_loop_first (fuel : nat) (p : list Q)
    (simesfactor : Q) (h : Z) (alpha : Q) (m z : Z) :
  vsize p = m → 0 ≤ z → (Z.to_nat (m - 1 - z) ≤ fuel)%nat →
  ∃ z', Hommel.findConcentration_loop fuel p simesfactor h alpha m z
          = Done z' ∧
        z ≤ z' ≤ Z.max z (m - 1) ∧
        (∀ k pk, z ≤ k < z' → vget p k = Done pk →
                 (inject_Z (k - m + h + 2) * alpha < simesfactor * pk)%Q) ∧
        (z' < m - 1 →
         ∃ pz, vget p z' = Done pz ∧
               (simesfactor * pz <= inject_Z (z' - m + h + 2) * alpha)%Q).
Proof.
  intros Hp. revert z. induction fuel as [|fuel IH]; intros z Hz Hfuel; simpl.
  - rewrite bool_decide_eq_false_2 by lia. exists z.
    split_and!; [done | lia | lia | intros; lia | intros; lia].
  - case_bool_decide as Hlt;
      [|exists z; split_and!; [done | lia | lia | intros; lia | intros; lia]].
    destruct (vget_lt p z) as [pz Hpz]; [lia|]. rewrite Hpz. exec_simpl.
    destruct (Qgtb _ _) eqn:Hgt.
    + destruct (IH (z + 1)) as (z' & -> & Hz' & Hbefore & Hat); [lia | lia |].
      exists z'. split_and!; [done | lia | lia | | done].
      intros k pk Hk Hpk. destruct (decide (k = z)) as [->|Hne].
      * rewrite Hpz in Hpk. injection Hpk as <-. by apply Qltb_lt in Hgt.
      * apply Hbefore; [lia | done].
    + exists z. split_and!; [done | lia | lia | intros; lia |].
      intros _. exists pz. split; [done|]. by apply Qltb_ge in Hgt.
Qed.

(** X22.  [findConcentration] completes without reading [p] out of
    bounds.  For [h >= m] it returns [m - h - 1], below zero, without a
    look at [p]; otherwise it returns the first position [z] from
    [m - h - 1] on with
    [simesfactor * p[z] <= (z - m + h + 2) * alpha], and [m - 1] when no
    position before [m - 1] has it. *)
Theorem findConcentration_first_position (p : list Q) (simesfactor : Q)
    (h : Z) (alpha : Q) (m : Z) :
  vsize p = m → 0 ≤ h →
  ∃ z, Hommel.findConcentration p simesfactor h alpha m = Done z ∧
       (m ≤ h → z = m - h - 1) ∧
       (h < m →
        m - h - 1 ≤ z ≤ m - 1 ∧
        (∀ k pk, m - h - 1 ≤ k < z → vget p k = Done pk →
                 (inject_Z (k - m + h + 2) * alpha < simesfactor * pk)%Q) ∧
        (z < m - 1 →
         ∃ pz, vget p z = Done pz ∧
               (simesfactor * pz <= inject_Z (z - m + h + 2) * alpha)%Q)).
Proof.
  intros Hp Hh. unfold Hommel.findConcentration.
  case_bool_decide as Hz.
  - destruct (findConcentration_loop_first (Z.to_nat m) p simesfactor h
                alpha m (m - h - 1)) as (z & -> & Hr & Hbefore & Hat);
      [done | lia | lia |].
    exists z. split; [done|]. split; [lia|]. intros _.
    split_and!; [lia | lia | done | done].
  - exists (m - h - 1). split; [done|]. split; [done | lia].
Qed.

Lemma findConcentration_first_position_witness :
  ∃ z, Hommel.findConcentration [(1 # 100)%Q; (1 # 2)%Q; (3 # 5)%Q] 1 2
         (1 # 20) 3 = Done z ∧
       (3 ≤ 2 → z = 3 - 2 - 1) ∧
       (2 < 3 →
        3 - 2 - 1 ≤ z ≤ 3 - 1 ∧
        (∀ k pk, 3 - 2 - 1 ≤ k < z →
                 vget [(1 # 100)%Q; (1 # 2)%Q; (3 # 5)%Q] k = Done pk →
                 (inject_Z (k - 3 + 2 + 2) * (1 # 20) < 1 * pk)%Q) ∧
        (z < 3 - 1 →
         ∃ pz, vget [(1 # 100)%Q; (1 # 2)%Q; (3 # 5)%Q] z = Done pz ∧
               (1 * pz <= inject_Z (z - 3 + 2 + 2) * (1 # 20))%Q)).
Proof.
  apply (findConcentration_first_position
           [(1 # 100)%Q; (1 # 2)%Q; (3 # 5)%Q] 1 2 (1 # 20) 3);
    [reflexivity | lia].
Defined.

(** ** [counting_sort] *)

Lemma count_eq_nonneg (l : list Z) (s : Z) : 0 ≤ count_eq l s.
Proof. unfold count_eq. lia. Qed.

Lemma count_eq_app (l k : list Z) (s : Z) :
  count_eq (l ++ k) s = count_eq l s + count_eq k s.
Proof. unfold count_eq. rewrite filter_app, length_app. lia. Qed.

Lemma count_ge_app (l k : list Z) (s : Z) :
  count_ge (l ++ k) s = count_ge l s + count_ge k s.
Proof. unfold count_ge. rewrite filter_app, length_app. lia. Qed.

Lemma count_eq_single (x s : Z) :
  count_eq [x] s = if bool_decide (x = s) then 1 else 0.
Proof.
  unfold count_eq. case_bool_decide.
  - by rewrite filter_cons_True.
  - by rewrite filter_cons_False.
Qed.

Lemma count_ge_single (x s : Z) :
  count_ge [x] s = if bool_decide (s ≤ x) then 1 else 0.
Proof.
  unfold count_ge. case_bool_decide.
  - by rewrite filter_cons_True.
  - by rewrite filter_cons_False.
Qed.

Lemma count_eq_cons (x : Z) (l : list Z) (s : Z) :
  count_eq (x :: l) s = (if bool_decide (x = s) then 1 else 0) + count_eq l s.
Proof. by rewrite (count_eq_app [x] l), count_eq_single. Qed.

Lemma count_ge_cons (x : Z) (l : list Z) (s : Z) :
  count_ge (x :: l) s = (if bool_decide (s ≤ x) then 1 else 0) + count_ge l s.
Proof. by rewrite (count_ge_app [x] l), count_ge_single. Qed.

(** The entries at least [s] are those equal to [s] and those above. *)
Lemma count_ge_split (l : list Z) (s : Z) :
  count_ge l s = count_eq l s + count_ge l (s + 1).
Proof.
  induction l as [|x l IH]; [done|].
  rewrite !count_ge_cons, count_eq_cons, IH.
  repeat case_bool_decide; lia.
Qed.

Lemma count_ge_mono (l : list Z) (s s' : Z) :
  s ≤ s' → count_ge l s' ≤ count_ge l s.
Proof.
  intros Hs. induction l as [|x l IH]; [done|].
  rewrite !count_ge_cons. repeat case_bool_decide; lia.
Qed.

Lemma count_ge_top (l : list Z) (maxid : Z) :
  Forall (λ s, s ≤ maxid) l → count_ge l maxid = count_eq l maxid.
Proof.
  induction 1 as [|x l Hx _ IH]; [done|].
  rewrite count_ge_cons, count_eq_cons, IH.
  repeat case_bool_decide; lia.
Qed.

Lemma count_ge_le_length (l : list Z) (s : Z) : count_ge l s ≤ vsize l.
Proof.
  unfold count_ge, vsize. pose proof (length_filter (λ x, s ≤ x) l). lia.
Qed.

(** The prefixes of [l] count up to [l]. *)
Lemma count_eq_take_S (l : list Z) (j : nat) (x s : Z) :
  l !! j = Some x →
  count_eq (take (S j) l) s
  = count_eq (take j l) s + if bool_decide (x = s) then 1 else 0.
Proof.
  intros Hj. by rewrite (take_S_r _ _ _ Hj), count_eq_app, count_eq_single.
Qed.

Lemma count_eq_take_mono (l : list Z) (i j : nat) (s : Z) :
  (i ≤ j)%nat → count_eq (take i l) s ≤ count_eq (take j l) s.
Proof.
  intros Hij. rewrite <- (take_drop i (take j l)).
  rewrite take_take, Nat.min_l by done.
  rewrite count_eq_app. pose proof (count_eq_nonneg (drop i (take j l)) s).
  lia.
Qed.

Lemma count_eq_take_le (l : list Z) (i : nat) (s : Z) :
  count_eq (take i l) s ≤ count_eq l s.
Proof.
  rewrite <- (take_drop i l) at 2. rewrite count_eq_app.
  pose proof (count_eq_nonneg (drop i l) s). lia.
Qed.

(** Index [j] goes behind the larger entries and before the smaller. *)
Lemma sorted_pos_range (l : list Z) (j : Z) (s : Z) :
  0 ≤ j → l !! Z.to_nat j = Some s →
  sorted_pos l j = count_ge l s - count_eq (take (Z.to_nat j) l) s - 1 ∧
  count_ge l (s + 1) ≤ sorted_pos l j < count_ge l s.
Proof.
  intros Hj Hs. unfold sorted_pos. rewrite Hs. split; [done|].
  pose proof (count_eq_nonneg (take (Z.to_nat j) l) s).
  pose proof (count_eq_take_S l (Z.to_nat j) s s Hs) as HS.
  rewrite bool_decide_eq_true_2 in HS by done.
  pose proof (count_eq_take_le l (S (Z.to_nat j)) s).
  pose proof (count_ge_split l s). lia.
Qed.

(** Of two indices, the one with the larger entry comes first, and with
    equal entries the larger index. *)
Lemma sorted_pos_order (l : list Z) (a b sa sb : Z) :
  0 ≤ a → 0 ≤ b → l !! Z.to_nat a = Some sa → l !! Z.to_nat b = Some sb →
  sb < sa ∨ sb = sa ∧ b < a → sorted_pos l a < sorted_pos l b.
Proof.
  intros Ha Hb Hsa Hsb Hcase.
  destruct (sorted_pos_range l a sa Ha Hsa) as [Ea Hra].
  destruct (sorted_pos_range l b sb Hb Hsb) as [Eb Hrb].
  destruct Hcase as [Hlt|[-> Hlt]].
  - pose proof (count_ge_mono l (sb + 1) sa ltac:(lia)). lia.
  - rewrite Ea, Eb.
    pose proof (count_eq_take_S l (Z.to_nat b) sa sa Hsb) as HS.
    rewrite bool_decide_eq_true_2 in HS by done.
    pose proof (count_eq_take_mono l (S (Z.to_nat b)) (Z.to_nat a) sa
                  ltac:(lia)).
    lia.
Qed.

Lemma sorted_pos_inj (l : list Z) (a b sa sb : Z) :
  0 ≤ a → 0 ≤ b → l !! Z.to_nat a = Some sa → l !! Z.to_nat b = Some sb →
  a ≠ b → sorted_pos l a ≠ sorted_pos l b.
Proof.
  intros Ha Hb Hsa Hsb Hne.
  destruct (decide (sb < sa ∨ sb = sa ∧ b < a)) as [Hc|Hc].
  - pose proof (sorted_pos_order l a b sa sb Ha Hb Hsa Hsb Hc). lia.
  - assert (sa < sb ∨ sa = sb ∧ a < b) as Hc' by lia.
    pose proof (sorted_pos_order l b a sb sa Hb Ha Hsb Hsa Hc'). lia.
Qed.

Section CountingSort.

Variables (n maxid : Z) (CLSTRSIZE : list Z).
Hypothesis Hn : vsize CLSTRSIZE = n.
Hypothesis Hmaxid : 0 ≤ maxid.
Hypothesis Hsizes : Forall (λ s, 0 ≤ s ≤ maxid) CLSTRSIZE.

Lemma CLSTRSIZE_entry (i : Z) :
  0 ≤ i < n →
  ∃ s, vget CLSTRSIZE i = Done s ∧ CLSTRSIZE !! Z.to_nat i = Some s ∧
       0 ≤ s ≤ maxid.
Proof.
  intros Hi. destruct (vget_lt CLSTRSIZE i) as [s Hs]; [lia|].
  exists s. pose proof Hs as [_ Hl]%vget_Done.
  pose proof (Forall_lookup_1 _ _ _ _ Hsizes Hl) as Hr. simpl in Hr.
  split_and!; try done; lia.
Qed.

(** The first loop counts the entries of each size. *)
Lemma count_loop_spec :
  ∃ COUNT,
    for_up (Z.to_nat n) 0
      (λ i COUNT,
         s ← vget CLSTRSIZE i; c ← vget COUNT s; vset COUNT s (c + 1))
      (replicate (Z.to_nat (maxid + 1)) 0) = Done COUNT ∧
    vsize COUNT = maxid + 1 ∧
    ∀ s, 0 ≤ s ≤ maxid → vget COUNT s = Done (count_eq CLSTRSIZE s).
Proof.
  destruct (for_up_inv
    (λ i COUNT,
       vsize COUNT = maxid + 1 ∧
       ∀ s, 0 ≤ s ≤ maxid →
            vget COUNT s = Done (count_eq (take (Z.to_nat i) CLSTRSIZE) s))
    (Z.to_nat n) 0
    (λ i COUNT,
       s ← vget CLSTRSIZE i; c ← vget COUNT s; vset COUNT s (c + 1))
    (replicate (Z.to_nat (maxid + 1)) 0)) as (COUNT & Hrun & Hsz & Hcount).
  - split.
    + unfold vsize. rewrite length_replicate. lia.
    + intros s Hs. apply vget_Done. split; [lia|].
      apply lookup_replicate_2. lia.
  - intros i COUNT Hi [Hsz Hcount].
    destruct (CLSTRSIZE_entry i) as (s & Hs & Hl & Hsr); [lia|].
    rewrite Hs. exec_simpl. rewrite (Hcount s Hsr). exec_simpl.
    pose proof (vset_lt COUNT s
                  (count_eq (take (Z.to_nat i) CLSTRSIZE) s + 1)
                  ltac:(lia)) as Hset.
    rewrite Hset. eexists. split; [done|]. split.
    + by rewrite (vsize_vset _ _ _ _ Hset).
    + intros s' Hs'. replace (Z.to_nat (i + 1)) with (S (Z.to_nat i)) by lia.
      rewrite (count_eq_take_S _ _ _ s' Hl).
      destruct (decide (s = s')) as [->|Hne].
      * rewrite bool_decide_eq_true_2 by done.
        by rewrite (vget_vset_eq _ _ _ _ Hset).
      * rewrite bool_decide_eq_false_2 by done.
        rewrite (vget_vset_ne _ _ _ _ _ Hset) by done.
        rewrite (Hcount s' Hs'). f_equal. lia.
  - exists COUNT. split; [done|]. split; [done|]. intros s Hs.
    rewrite (Hcount s Hs). f_equal. f_equal.
    apply take_ge. unfold vsize in Hn. lia.
Qed.

(** The second loop turns the counts into the number of entries of at
    least each size. *)
Lemma cumulate_spec (k : nat) (COUNT : list Z) :
  Z.of_nat k ≤ maxid → vsize COUNT = maxid + 1 →
  (∀ s, Z.of_nat k ≤ s ≤ maxid →
        vget COUNT s = Done (count_ge CLSTRSIZE s)) →
  (∀ s, 0 ≤ s < Z.of_nat k → vget COUNT s = Done (count_eq CLSTRSIZE s)) →
  ∃ COUNT', ClusterTools.cumulate k COUNT = Done COUNT' ∧
            vsize COUNT' = maxid + 1 ∧
            ∀ s, 0 ≤ s ≤ maxid →
                 vget COUNT' s = Done (count_ge CLSTRSIZE s).
Proof.
  revert COUNT. induction k as [|k IH]; intros COUNT Hk Hsz Hge Heq.
  - exists COUNT. split; [done|]. split; [done|]. intros s Hs.
    apply Hge. lia.
  - cbn [ClusterTools.cumulate].
    rewrite (Heq (Z.of_nat (S k) - 1)) by lia. exec_simpl.
    rewrite (Hge (Z.of_nat (S k))) by lia. exec_simpl.
    pose proof (vset_lt COUNT (Z.of_nat (S k) - 1)
                  (count_eq CLSTRSIZE (Z.of_nat (S k) - 1)
                   + count_ge CLSTRSIZE (Z.of_nat (S k)))
                  ltac:(lia)) as Hset.
    rewrite Hset. exec_simpl. apply IH.
    + lia.
    + by rewrite (vsize_vset _ _ _ _ Hset).
    + intros s Hs. destruct (decide (s = Z.of_nat (S k) - 1)) as [->|Hne].
      * rewrite (vget_vset_eq _ _ _ _ Hset). f_equal.
        rewrite (count_ge_split CLSTRSIZE (Z.of_nat (S k) - 1)).
        by replace (Z.of_nat (S k) - 1 + 1) with (Z.of_nat (S k)) by lia.
      * rewrite (vget_vset_ne _ _ _ _ _ Hset) by done. apply Hge. lia.
    + intros s Hs. rewrite (vget_vset_ne _ _ _ _ _ Hset) by lia.
      apply Heq. lia.
Qed.

(** The third loop puts every index at its position. *)
Lemma place_loop_spec (COUNT : list Z) :
  vsize COUNT = maxid + 1 →
  (∀ s, 0 ≤ s ≤ maxid → vget COUNT s = Done (count_ge CLSTRSIZE s)) →
  ∃ SORTED COUNT',
    for_up (Z.to_nat n) 0
      (λ i '(SORTED, COUNT),
         s ← vget CLSTRSIZE i; c ← vget COUNT s;
         SORTED ← vset SORTED (c - 1) i;
         c ← vget COUNT s;
         COUNT ← vset COUNT s (c - 1);
         Done (SORTED, COUNT))
      (replicate (Z.to_nat n) 0, COUNT) = Done (SORTED, COUNT') ∧
    vsize SORTED = n ∧
    ∀ j, 0 ≤ j < n → vget SORTED (sorted_pos CLSTRSIZE j) = Done j.
Proof.
  intros Hsz Hge.
  assert (0 ≤ n) as Hn0 by (unfold vsize in Hn; lia).
  destruct (for_up_inv
    (λ i (st : list Z * list Z),
       vsize st.1 = n ∧ vsize st.2 = maxid + 1 ∧
       (∀ s, 0 ≤ s ≤ maxid →
             vget st.2 s
             = Done (count_ge CLSTRSIZE s
                     - count_eq (take (Z.to_nat i) CLSTRSIZE) s)) ∧
       ∀ j, 0 ≤ j < i → vget st.1 (sorted_pos CLSTRSIZE j) = Done j)
    (Z.to_nat n) 0
    (λ i '(SORTED, COUNT),
       s ← vget CLSTRSIZE i; c ← vget COUNT s;
       SORTED ← vset SORTED (c - 1) i;
       c ← vget COUNT s;
       COUNT ← vset COUNT s (c - 1);
       Done (SORTED, COUNT))
    (replicate (Z.to_nat n) 0, COUNT))
    as ([SORTED COUNT'] & Hrun & HS & _ & _ & Hplaced).
  - simpl. split_and!.
    + unfold vsize. rewrite length_replicate. lia.
    + done.
    + intros s Hs. rewrite (Hge s Hs). f_equal.
      change (Z.to_nat 0) with 0%nat. rewrite take_0.
      unfold count_eq. simpl. lia.
    + intros j Hj. lia.
  - intros i [SORTED C] Hi (HS & HC & Hcount & Hplaced). simpl in *.
    destruct (CLSTRSIZE_entry i) as (s & Hs & Hl & Hsr); [lia|].
    rewrite Hs. exec_simpl. rewrite (Hcount s Hsr). exec_simpl.
    destruct (sorted_pos_range CLSTRSIZE i s ltac:(lia) Hl) as [Epos Hpos].
    pose proof (count_ge_le_length CLSTRSIZE s) as Hle.
    pose proof (count_ge_mono CLSTRSIZE 0 (s + 1) ltac:(lia)) as Hmono.
    assert (0 ≤ count_ge CLSTRSIZE (s + 1)) as H0 by (unfold count_ge; lia).
    rewrite <- Epos.
    replace (count_ge CLSTRSIZE s - count_eq (take (Z.to_nat i) CLSTRSIZE) s
             - 1) with (sorted_pos CLSTRSIZE i) by lia.
    pose proof (vset_lt SORTED (sorted_pos CLSTRSIZE i) i ltac:(lia))
      as HsetS.
    rewrite HsetS. exec_simpl.
    pose proof (vset_lt C s (sorted_pos CLSTRSIZE i) ltac:(lia)) as HsetC.
    rewrite HsetC. exec_simpl. eexists. split; [done|]. simpl.
    split_and!.
    + by rewrite (vsize_vset _ _ _ _ HsetS).
    + by rewrite (vsize_vset _ _ _ _ HsetC).
    + intros s' Hs'. replace (Z.to_nat (i + 1)) with (S (Z.to_nat i)) by lia.
      rewrite (count_eq_take_S _ _ _ s' Hl).
      destruct (decide (s = s')) as [->|Hne].
      * rewrite bool_decide_eq_true_2 by done.
        rewrite (vget_vset_eq _ _ _ _ HsetC). f_equal. lia.
      * rewrite bool_decide_eq_false_2 by done.
        rewrite (vget_vset_ne _ _ _ _ _ HsetC) by done.
        rewrite (Hcount s' Hs'). f_equal. lia.
    + intros j Hj. destruct (decide (j = i)) as [->|Hne].
      * by rewrite (vget_vset_eq _ _ _ _ HsetS).
      * destruct (CLSTRSIZE_entry j) as (sj & _ & Hlj & _); [lia|].
        rewrite (vget_vset_ne _ _ _ _ _ HsetS).
        -- apply Hplaced. lia.
        -- apply (sorted_pos_inj CLSTRSIZE i j s sj); try done; lia.
  - exists SORTED, COUNT'. split; [done|]. split; [done|].
    intros j Hj. apply Hplaced. lia.
Qed.

End CountingSort.

(** X24.  On [n] cluster sizes between [0] and [maxid], [counting_sort]
    completes without reading or writing out of bounds and returns the
    indices [0..n-1], each once, in the order of descending size; of two
    clusters of the same size the one with the larger index comes
    first. *)
Theorem counting_sort_descending (n maxid : Z) (CLSTRSIZE : list Z) :
  vsize CLSTRSIZE = n → 0 ≤ maxid →
  Forall (λ s, 0 ≤ s ≤ maxid) CLSTRSIZE →
  ∃ SORTED,
    ClusterTools.counting_sort n maxid CLSTRSIZE = Done SORTED ∧
    SORTED ≡ₚ seqZ 0 n ∧
    ∀ k k' a b sa sb,
      0 ≤ k < k' → vget SORTED k = Done a → vget SORTED k' = Done b →
      vget CLSTRSIZE a = Done sa → vget CLSTRSIZE b = Done sb →
      sb < sa ∨ sb = sa ∧ b < a.
Proof.
  intros Hn Hmaxid Hsizes.
  assert (0 ≤ n) as Hn0 by (unfold vsize in Hn; lia).
  unfold ClusterTools.counting_sort.
  rewrite vmake_ge by lia. exec_simpl. rewrite vmake_ge by lia. exec_simpl.
  destruct (count_loop_spec n maxid CLSTRSIZE Hn Hmaxid Hsizes)
    as (C1 & -> & HC1 & Hcount).
  exec_simpl.
  destruct (cumulate_spec maxid CLSTRSIZE (Z.to_nat maxid) C1)
    as (C2 & -> & HC2 & Hge); [lia | done | |  |].
  { intros s Hs. replace s with maxid by lia. rewrite (Hcount maxid) by lia.
    f_equal. symmetry. apply count_ge_top.
    eapply Forall_impl; [done|]. simpl. lia. }
  { intros s Hs. apply Hcount. lia. }
  exec_simpl.
  destruct (place_loop_spec n maxid CLSTRSIZE Hn Hsizes C2 HC2 Hge)
    as (SORTED & C3 & -> & HS & Hplaced).
  exec_simpl. exists SORTED. split; [done|].
  assert (seqZ 0 n ≡ₚ SORTED) as Hperm.
  { apply submseteq_length_Permutation.
    - apply NoDup_submseteq; [apply NoDup_seqZ|].
      intros j Hj%elem_of_seqZ. apply elem_of_vget.
      exists (sorted_pos CLSTRSIZE j). apply Hplaced. lia.
    - rewrite length_seqZ. unfold vsize in HS. lia. }
  split; [done|].
  assert (NoDup SORTED) as Hnd by (rewrite <- Hperm; apply NoDup_seqZ).
  assert (∀ k a, vget SORTED k = Done a →
                 0 ≤ a < n ∧ sorted_pos CLSTRSIZE a = k) as Hpos.
  { intros k a Ha.
    assert (0 ≤ a < n) as Har.
    { assert (a ∈ seqZ 0 n) as Hin%elem_of_seqZ; [|lia].
      rewrite Hperm. apply elem_of_vget. by exists k. }
    split; [done|].
    pose proof (Hplaced a Har) as [Hp0 Hp]%vget_Done.
    apply vget_Done in Ha as [Hk0 Ha].
    pose proof (NoDup_lookup _ _ _ _ Hnd Hp Ha). lia. }
  intros k k' a b sa sb Hk Ha Hb Hsa Hsb.
  destruct (Hpos k a Ha) as [Har Hpa].
  destruct (Hpos k' b Hb) as [Hbr Hpb].
  apply vget_Done in Hsa as [_ Hsa]. apply vget_Done in Hsb as [_ Hsb].
  destruct (decide (sb < sa ∨ sb = sa ∧ b < a)) as [|Hc]; [done|].
  exfalso.
  destruct (decide (a = b)) as [->|Hab]; [lia|].
  assert (sa < sb ∨ sa = sb ∧ a < b) as Hc' by lia.
  pose proof (sorted_pos_order CLSTRSIZE b a sb sa ltac:(lia) ltac:(lia)
                Hsb Hsa Hc').
  lia.
Qed.

Lemma counting_sort_descending_witness :
  ∃ SORTED,
    ClusterTools.counting_sort 4 3 [1; 3; 1; 2] = Done SORTED ∧
    SORTED ≡ₚ seqZ 0 4 ∧
    ∀ k k' a b sa sb,
      0 ≤ k < k' → vget SORTED k = Done a → vget SORTED k' = Done b →
      vget [1; 3; 1; 2] a = Done sa → vget [1; 3; 1; 2] b = Done sb →
      sb < sa ∨ sb = sa ∧ b < a.
Proof.
  apply (counting_sort_descending 4 3 [1; 3; 1; 2]).
  - reflexivity.
  - lia.
  - repeat constructor; lia.
Defined.

(** ** Adjusted p-values *)

Lemma Qleb_le (x y : Q) : Qleb x y = true ↔ (x <= y)%Q.
Proof. unfold Qleb. apply Qle_bool_iff. Qed.

Lemma Qleb_gt (x y : Q) : Qleb x y = false ↔ ¬ (x <= y)%Q.
Proof. unfold Qleb. by rewrite <- not_true_iff_false, Qle_bool_iff. Qed.

(** The search keeps a level that passes at [lower], unless [lower] is
    zero, and a level that fails at [upper], unless [upper] is [m + 1]. *)
Lemma adjustedIntersection_loop_spec (fuel : nat) (pI : Q)
    (alpha simesfactor : list Q) (m lower upper : Z) :
  m < vsize alpha → m < vsize simesfactor →
  0 ≤ lower < upper → upper ≤ m + 1 →
  upper - lower - 1 ≤ Z.of_nat fuel →
  (lower = 0 ∨ passes simesfactor alpha pI lower) →
  (upper = m + 1 ∨ ¬ passes simesfactor alpha pI upper) →
  ∃ l, HommelAdjust.adjustedIntersection_loop fuel pI alpha simesfactor
         lower upper = Done l ∧
       0 ≤ l ≤ m ∧
       (l = 0 ∨ passes simesfactor alpha pI l) ∧
       (l = m ∨ ¬ passes simesfactor alpha pI (l + 1)).
Proof.
  intros Ha Hs. revert lower upper.
  induction fuel as [|fuel IH];
    intros lower upper Hlow Hup Hfuel Hbelow Habove;
    cbn [HommelAdjust.adjustedIntersection_loop]; case_bool_decide as Hlt.
  1, 3: lia || idtac.
  all: try (exists lower; split; [done|]; split; [lia|]; split; [done|];
            destruct Habove as [->|Hfail]; [left; lia|];
            right; by replace (lower + 1) with upper by lia).
  assert (lower < (lower + upper) `quot` 2 < upper) as Hmid.
  { rewrite Z.quot_div_nonneg by lia.
    pose proof (Z.div_mod (lower + upper) 2).
    pose proof (Z.mod_pos_bound (lower + upper) 2). lia. }
  set (mid := (lower + upper) `quot` 2) in *.
  destruct (vget_lt simesfactor mid) as [sf Hsf]; [lia|].
  destruct (vget_lt alpha mid) as [am Ham]; [lia|].
  rewrite Hsf, Ham. exec_simpl.
  destruct (Qleb (sf * pI) am) eqn:Hle.
  - apply IH; [lia | lia | lia | | done].
    right. exists sf, am. split_and!; try done. by apply Qleb_le.
  - apply IH; [lia | lia | lia | done |].
    right. intros (sf' & am' & Hsf' & Ham' & Hle').
    rewrite Hsf in Hsf'. rewrite Ham in Ham'.
    injection Hsf' as <-. injection Ham' as <-.
    by apply Qleb_gt in Hle.
Qed.

(** X25.  With [m + 1] entries in [alpha] and in [simesfactor],
    [adjustedIntersection] completes without reading out of bounds and
    returns [min(simesfactor[l] * pI, alpha[l])] for a level [l] in
    [0..m] at which the local test turns: [l] is zero or passes
    [simesfactor[l] * pI <= alpha[l]], and [l] is [m] or level [l + 1]
    fails. *)
Theorem adjustedIntersection_at_turn (pI : Q) (alpha simesfactor : list Q)
    (m : Z) :
  0 ≤ m → m < vsize alpha → m < vsize simesfactor →
  ∃ l sf al,
    HommelAdjust.adjustedIntersection pI alpha m simesfactor
    = Done (HommelAdjust.std_min (sf * pI) al) ∧
    0 ≤ l ≤ m ∧
    vget simesfactor l = Done sf ∧ vget alpha l = Done al ∧
    (l = 0 ∨ passes simesfactor alpha pI l) ∧
    (l = m ∨ ¬ passes simesfactor alpha pI (l + 1)).
Proof.
  intros Hm Ha Hs. unfold HommelAdjust.adjustedIntersection.
  destruct (adjustedIntersection_loop_spec (Z.to_nat (m + 1)) pI alpha
              simesfactor m 0 (m + 1))
    as (l & -> & Hl & Hpass & Hfail); try done; try lia; try (by left).
  exec_simpl.
  destruct (vget_lt simesfactor l) as [sf Hsf]; [lia|].
  destruct (vget_lt alpha l) as [al Hal]; [lia|].
  rewrite Hsf, Hal. exec_simpl.
  exists l, sf, al. split_and!; try done; lia.
Qed.

Lemma adjustedIntersection_at_turn_witness :
  ∃ l sf al,
    HommelAdjust.adjustedIntersection (1 # 10) [0%Q; (1 # 5)%Q; (1 # 10)%Q] 2
      [0%Q; 1%Q; 2%Q]
    = Done (HommelAdjust.std_min (sf * (1 # 10)) al) ∧
    0 ≤ l ≤ 2 ∧
    vget [0%Q; 1%Q; 2%Q] l = Done sf ∧
    vget [0%Q; (1 # 5)%Q; (1 # 10)%Q] l = Done al ∧
    (l = 0 ∨ passes [0%Q; 1%Q; 2%Q] [0%Q; (1 # 5)%Q; (1 # 10)%Q]
               (1 # 10) l) ∧
    (l = 2 ∨ ¬ passes [0%Q; 1%Q; 2%Q] [0%Q; (1 # 5)%Q; (1 # 10)%Q]
                 (1 # 10) (l + 1)).
Proof.
  apply (adjustedIntersection_at_turn (1 # 10)
           [0%Q; (1 # 5)%Q; (1 # 10)%Q] [0%Q; 1%Q; 2%Q] 2);
    [lia | unfold vsize; simpl; lia | unfold vsize; simpl; lia].
Defined.

(** With only [m] entries in [alpha] the search leaves the vector as
    soon as every level below [m] passes. *)
Lemma adjustedIntersection_loop_overrun (fuel : nat) (pI : Q)
    (alpha simesfactor : list Q) (m lower : Z) :
  vsize alpha = m → m < vsize simesfactor →
  0 ≤ lower < m → m - lower ≤ Z.of_nat fuel →
  (∀ j, lower < j < m → passes simesfactor alpha pI j) →
  HommelAdjust.adjustedIntersection_loop fuel pI alpha simesfactor
    lower (m + 1) = Fault.
Proof.
  intros Ha Hs. revert lower.
  induction fuel as [|fuel IH]; intros lower Hlow Hfuel Hpass; [lia|].
  cbn [HommelAdjust.adjustedIntersection_loop].
  rewrite bool_decide_eq_true_2 by lia.
  assert (lower < (lower + (m + 1)) `quot` 2 < m + 1) as Hmid.
  { rewrite Z.quot_div_nonneg by lia.
    pose proof (Z.div_mod (lower + (m + 1)) 2).
    pose proof (Z.mod_pos_bound (lower + (m + 1)) 2). lia. }
  set (mid := (lower + (m + 1)) `quot` 2) in *.
  destruct (vget_lt simesfactor mid) as [sf Hsf]; [lia|].
  rewrite Hsf. exec_simpl.
  destruct (decide (mid = m)) as [->|Hne].
  { by rewrite (vget_ge alpha m) by lia. }
  destruct (Hpass mid) as (sf' & am & Hsf' & Ham & Hle); [lia|].
  rewrite Hsf in Hsf'. injection Hsf' as <-.
  rewrite Ham. exec_simpl.
  rewrite (proj2 (Qleb_le _ _) Hle).
  apply IH; [lia | lia |]. intros j Hj. apply Hpass. lia.
Qed.

(** X26.  With [m >= 1] entries in [alpha] -- the number [findalpha]
    allocates -- [adjustedIntersection] reads [alpha[m]], one past the
    end, whenever every level [1..m-1] passes
    [simesfactor[j] * pI <= alpha[j]]; for [m = 1] it does so on every
    input. *)
Theorem adjustedIntersection_reads_past_alpha (pI : Q)
    (alpha simesfactor : list Q) (m : Z) :
  1 ≤ m → vsize alpha = m → m < vsize simesfactor →
  (∀ j, 1 ≤ j < m → passes simesfactor alpha pI j) →
  HommelAdjust.adjustedIntersection pI alpha m simesfactor = Fault.
Proof.
  intros Hm Ha Hs Hpass. unfold HommelAdjust.adjustedIntersection.
  rewrite (adjustedIntersection_loop_overrun (Z.to_nat (m + 1)) pI alpha
             simesfactor m 0); try done; try lia.
  intros j Hj. apply Hpass. lia.
Qed.

Lemma adjustedIntersection_reads_past_alpha_witness :
  HommelAdjust.adjustedIntersection (1 # 10) [(1 # 5)%Q; (1 # 5)%Q] 2
    [0%Q; 1%Q; 2%Q] = Fault.
Proof.
  apply (adjustedIntersection_reads_past_alpha (1 # 10)
           [(1 # 5)%Q; (1 # 5)%Q] [0%Q; 1%Q; 2%Q] 2).
  - lia.
  - reflexivity.
  - unfold vsize. simpl. lia.
  - intros j Hj. assert (j = 1) as -> by lia.
    exists 1%Q, (1 # 5)%Q. split_and!; [reflexivity | reflexivity |].
    by vm_compute.
Defined.

(** [findsimesfactor] fills [m + 1] entries, the first with zero. *)
Lemma findsimesfactor_spec (simes : bool) (m : Z) :
  0 ≤ m →
  ∃ simesfactor,
    HommelAdjust.findsimesfactor simes m = Done simesfactor ∧
    vsize simesfactor = m + 1 ∧ vget simesfactor 0 = Done 0%Q.
Proof.
  intros Hm. unfold HommelAdjust.findsimesfactor.
  rewrite vmake_ge by lia. exec_simpl.
  pose proof (vset_lt (replicate (Z.to_nat (m + 1)) 0%Q) 0 0%Q) as Hset.
  rewrite Hset by (unfold vsize; rewrite length_replicate; lia).
  exec_simpl.
  set (sf0 := <[Z.to_nat 0:=0%Q]> (replicate (Z.to_nat (m + 1)) 0%Q)).
  assert (vsize sf0 = m + 1) as Hsz.
  { unfold sf0, vsize. rewrite length_insert, length_replicate. lia. }
  assert (vget sf0 0 = Done 0%Q) as H0.
  { apply vget_Done. split; [lia|]. unfold sf0.
    apply list_lookup_insert_eq. rewrite length_replicate. lia. }
  destruct simes.
  - destruct (for_up_inv
                (λ (_ : Z) sf, vsize sf = m + 1 ∧ vget sf 0 = Done 0%Q)
                (Z.to_nat m) 1
                (λ i simesfactor, vset simesfactor i (inject_Z i)) sf0)
      as (sf & -> & Hsf); [done | |by exists sf].
    intros i sf Hi [Hs Hz].
    pose proof (vset_lt sf i (inject_Z i) ltac:(lia)) as Hseti.
    rewrite Hseti. eexists. split; [done|]. split.
    + by rewrite (vsize_vset _ _ _ _ Hseti).
    + rewrite (vget_vset_ne _ _ _ _ _ Hseti) by lia. done.
  - lazymatch goal with
    | |- context [for_up ?n ?i ?body ?s] =>
        destruct (for_up_inv
                    (λ (_ : Z) (st : list Q * Q),
                       vsize st.1 = m + 1 ∧ vget st.1 0 = Done 0%Q)
                    n i body s)
          as ([sf mult] & -> & Hsf); [done | |by exists sf]
    end.
    intros i [sf mult] Hi [Hs Hz]. simpl in *.
    pose proof (vset_lt sf i (inject_Z i * (mult + 1 / inject_Z i))%Q
                  ltac:(lia)) as Hseti.
    rewrite Hseti. exec_simpl. eexists. split; [done|]. split; simpl.
    + by rewrite (vsize_vset _ _ _ _ Hseti).
    + rewrite (vget_vset_ne _ _ _ _ _ Hseti) by lia. done.
Qed.

Section AdjustedElementary.

Variables (p alpha simesfactor : list Q) (m : Z).
Hypothesis Hp : vsize p = m.
Hypothesis Halpha : vsize alpha = m.
Hypothesis Hsf : vsize simesfactor = m + 1.
Hypothesis Hfirst :
  ∀ k pk, vget p k = Done pk → passes_at simesfactor alpha pk 1.

Lemma adjustedElementary_loop_spec (fuel : nat) (i j : Z)
    (adjusted : list Q) :
  0 ≤ i ≤ m → 1 ≤ j ≤ m → vsize adjusted = m →
  m - i + (j - 1) ≤ Z.of_nat fuel →
  (j = m ∨ ∃ k' pk', 0 ≤ k' ≤ i ∧ k' < m ∧ vget p k' = Done pk' ∧
                     ¬ passes_at simesfactor alpha pk' (j + 1)) →
  (∀ k, 0 ≤ k < i → adjusted_at simesfactor alpha p m adjusted k) →
  ∃ adjusted',
    HommelAdjust.adjustedElementary_loop fuel p alpha m simesfactor i j
      adjusted = Done adjusted' ∧
    vsize adjusted' = m ∧
    ∀ k, 0 ≤ k < m → adjusted_at simesfactor alpha p m adjusted' k.
Proof.
  revert i j adjusted.
  induction fuel as [|fuel IH]; intros i j adjusted Hi Hj Hsz Hfuel Hj' Hdone;
    cbn [HommelAdjust.adjustedElementary_loop]; case_bool_decide as Hlt.
  1: lia.
  1, 3: exists adjusted; split; [done|]; split; [done|];
        intros k Hk; apply Hdone; lia.
  destruct (vget_lt simesfactor (j - 1)) as [sf Hsfj1]; [lia|].
  destruct (vget_lt p i) as [pi Hpi]; [lia|].
  destruct (vget_lt alpha (j - 1)) as [aj Haj]; [lia|].
  rewrite Hsfj1, Hpi, Haj. exec_simpl.
  destruct (Qleb (sf * pi) aj) eqn:Hle.
  - destruct (vget_lt simesfactor j) as [sfj Hsfj]; [lia|].
    rewrite Hsfj. exec_simpl.
    pose proof (vset_lt adjusted i (HommelAdjust.std_min (sfj * pi) aj)
                  ltac:(lia)) as Hset.
    rewrite Hset. exec_simpl. apply IH.
    + lia.
    + lia.
    + by rewrite (vsize_vset _ _ _ _ Hset).
    + lia.
    + destruct Hj' as [->|(k' & pk' & Hk' & Hk'm & Hpk' & Hfail)];
        [by left|].
      destruct (decide (i + 1 < m)) as [Him|Him].
      * right. exists k', pk'. split_and!; try done; lia.
      * right. exists k', pk'. split_and!; try done; lia.
    + intros k Hk. destruct (decide (k = i)) as [->|Hne].
      * exists j, pi, sfj, aj.
        split_and!; [lia | lia | done | | | done | done |].
        -- exists sf, aj. split_and!; try done. by apply Qleb_le.
        -- destruct Hj' as [->|(k' & pk' & Hk' & _ & Hpk' & Hfail)];
             [by left|].
           right. exists k', pk'. split_and!; try done; lia.
        -- by apply (vget_vset_eq _ _ _ _ Hset).
      * destruct (Hdone k ltac:(lia))
          as (jk & pk & sfk & ak & H1 & H2 & H3 & H4 & H5 & H6 & H7).
        exists jk, pk, sfk, ak. split_and!; try done; try lia.
        by rewrite (vget_vset_ne _ _ _ _ _ Hset).
  - assert (2 ≤ j) as Hj2.
    { destruct (decide (j = 1)) as [->|]; [|lia]. exfalso.
      destruct (Hfirst i pi Hpi) as (sf' & a' & Hsf' & Ha' & Hle').
      replace (1 - 1) with 0 in * by lia.
      rewrite Hsfj1 in Hsf'. rewrite Haj in Ha'.
      injection Hsf' as <-. injection Ha' as <-.
      by apply Qleb_gt in Hle. }
    apply IH; try done; try lia.
    right. exists i, pi. split_and!; try done; try lia.
    replace (j - 1 + 1) with j by lia.
    intros (sf' & a' & Hsf' & Ha' & Hle').
    rewrite Hsfj1 in Hsf'. rewrite Haj in Ha'.
    injection Hsf' as <-. injection Ha' as <-.
    by apply Qleb_gt in Hle.
Qed.

End AdjustedElementary.

(** X27.  For [m] p-values and [m] entries of [alpha], the first of which
    is not negative, [findsimesfactor] completes and [adjustedElementary]
    on its result completes without reading or writing out of bounds:
    the zero that [findsimesfactor] stores at position zero keeps [j]
    from passing below one.  The vector returned
    has [m] entries, and entry [k] is
    [min(simesfactor[j] * p[k], alpha[j-1])] for a level [j] in [1..m]
    that passes [simesfactor[j-1] * p[k] <= alpha[j-1]]; [j] is [m]
    unless level [j + 1] has failed for a p-value up to [p[k]]. *)
Theorem adjustedElementary_completes (simes : bool) (p alpha : list Q)
    (m : Z) :
  vsize p = m → vsize alpha = m →
  (∀ a0, vget alpha 0 = Done a0 → (0 <= a0)%Q) →
  ∃ simesfactor adjusted,
    HommelAdjust.findsimesfactor simes m = Done simesfactor ∧
    HommelAdjust.adjustedElementary p alpha m simesfactor = Done adjusted ∧
    vsize adjusted = m ∧
    ∀ k, 0 ≤ k < m → adjusted_at simesfactor alpha p m adjusted k.
Proof.
  intros Hp Halpha H0.
  assert (0 ≤ m) as Hm by (unfold vsize in Hp; lia).
  destruct (findsimesfactor_spec simes m Hm) as (sf & Hrun & Hsz & Hsf0).
  exists sf. unfold HommelAdjust.adjustedElementary.
  rewrite vmake_ge by lia. exec_simpl.
  destruct (decide (m = 0)) as [->|Hm0].
  { simpl. eexists. split_and!; try done. intros k Hk. lia. }
  destruct (adjustedElementary_loop_spec p alpha sf m Hp Halpha Hsz)
    with (fuel := Z.to_nat (2 * m + 1)) (i := 0) (j := m)
         (adjusted := replicate (Z.to_nat m) 0%Q)
    as (adjusted & Hloop & Hasz & Hall).
  - intros k pk Hpk. replace (1 - 1) with 0 by lia.
    destruct (vget_lt alpha 0) as [a0 Ha0]; [lia|].
    exists 0%Q, a0. split_and!; try done.
    rewrite Qmult_0_l. by apply H0.
  - lia.
  - lia.
  - unfold vsize. rewrite length_replicate. lia.
  - lia.
  - by left.
  - intros k Hk. lia.
  - exists adjusted. by split_and!.
Qed.

Lemma adjustedElementary_completes_witness :
  ∃ simesfactor adjusted,
    HommelAdjust.findsimesfactor true 2 = Done simesfactor ∧
    HommelAdjust.adjustedElementary [(1 # 100)%Q; (1 # 2)%Q]
      [(1 # 10)%Q; (1 # 20)%Q] 2 simesfactor = Done adjusted ∧
    vsize adjusted = 2 ∧
    ∀ k, 0 ≤ k < 2 →
         adjusted_at simesfactor [(1 # 10)%Q; (1 # 20)%Q]
           [(1 # 100)%Q; (1 # 2)%Q] 2 adjusted k.
Proof.
  apply (adjustedElementary_completes true [(1 # 100)%Q; (1 # 2)%Q]
           [(1 # 10)%Q; (1 # 20)%Q] 2).
  - reflexivity.
  - reflexivity.
  - intros a0 Ha0. injection Ha0 as <-. by vm_compute.
Defined.

(** ** [answerQueryBatch_opt] *)

Lemma for_each_ext {X T : Type} (l : list X) (f g : X → T → exec T) (s : T) :
  (∀ x t, f x t = g x t) → for_each l f s = for_each l g s.
Proof.
  intros Hext. revert s. induction l as [|x l IH]; intros s; [done|].
  cbn [for_each]. rewrite Hext. destruct (g x s); [|reflexivity..].
  exec_simpl. apply IH.
Qed.

Lemma Qle_bool_Qeq (g g' t : Q) :
  (g == g')%Q → Qle_bool g t = Qle_bool g' t.
Proof.
  intros Heq. apply eq_true_iff_eq. rewrite !Qle_bool_iff. by rewrite Heq.
Qed.

(** [findLeft] does not tell equal thresholds apart. *)
Lemma findLeft_loop_Qeq (fuel : nat) (g g' : Q) (ADMSTC : list Z)
    (TDP : list Q) (right low high : Z) :
  (g == g')%Q →
  ARICluster.findLeft_loop fuel g ADMSTC TDP right low high
  = ARICluster.findLeft_loop fuel g' ADMSTC TDP right low high.
Proof.
  intros Heq. revert right low high.
  induction fuel as [|fuel IH]; intros right low high; [reflexivity|].
  cbn [ARICluster.findLeft_loop]. case_bool_decide; [|done].
  destruct (vget ADMSTC ((low + high) `quot` 2)) as [am| |];
    [|reflexivity..].
  exec_simpl.
  destruct (vget TDP am) as [tm| |]; [|reflexivity..]. exec_simpl.
  unfold Qgeb, Qltb. rewrite (Qle_bool_Qeq g g' tm Heq).
  destruct (Qle_bool g' tm);
    (destruct (vget ADMSTC (right - 1)) as [ar| |]; [|reflexivity..];
     exec_simpl;
     destruct (vget TDP ar) as [tr| |]; [|reflexivity..]; exec_simpl;
     rewrite (Qle_bool_Qeq g g' tr Heq);
     destruct (Qle_bool g' tr); [|reflexivity]; apply IH).
Qed.

(** The two ways of clamping a threshold agree. *)
Lemma clamp_Qeq (gamma : Q) :
  (ARICluster.std_max 0 gamma == if Qltb gamma 0 then 0 else gamma)%Q.
Proof.
  unfold ARICluster.std_max.
  destruct (Qltb 0 gamma) eqn:E1, (Qltb gamma 0) eqn:E2; try reflexivity.
  - apply Qltb_lt in E1, E2. exfalso.
    apply (Qlt_irrefl 0). by eapply Qlt_trans.
  - apply Qltb_ge in E1, E2. by apply Qle_antisym.
Qed.

(** X28.  On every input, valid or not, with numbers for thresholds,
    [answerQueryBatch_opt] ends as [answerQueryBatch] does: with the same
    clusters for every threshold and the same [MARK], or with the same
    failure. *)
Theorem answerQueryBatch_opt_same (gamma_batch : list Q)
    (ADMSTC SIZE MARK : list Z) (TDP : list Q) (CHILD : list (list Z)) :
  BatchOpt.answerQueryBatch_opt gamma_batch ADMSTC SIZE MARK TDP CHILD
  = ARICluster.answerQueryBatch gamma_batch ADMSTC SIZE MARK TDP CHILD.
Proof.
  unfold BatchOpt.answerQueryBatch_opt, ARICluster.answerQueryBatch.
  apply for_each_ext. intros gamma [batch_results M].
  unfold ARICluster.answer_gamma, ARICluster.findLeft.
  rewrite (findLeft_loop_Qeq _ _ _ _ _ _ _ _ (clamp_Qeq gamma)).
  destruct (ARICluster.findLeft_loop _ _ _ _ _ _ _) as [left| |];
    [|reflexivity..].
  exec_simpl.
  destruct (for_up _ _ _ _) as [[result M1]| |]; [|reflexivity..].
  exec_simpl.
  destruct (for_each result _ M1); reflexivity.
Qed.

(** ** [findAdjList] *)

(** [findNeighbours] for any number of directions: it returns the mask
    entries hit by the first [conn] directions. *)
Lemma findNeighbours_run (d0 d1 d2 : Z) (MASK : list Z) (index conn : Z) :
  0 < d0 → 0 < d1 → 0 < d2 → d0 * d1 * (d2 + 1) + d0 < 2 ^ 31 →
  vsize MASK = d0 * d1 * d2 →
  0 ≤ index < d0 * d1 * d2 → 0 ≤ conn ≤ 26 →
  ∃ IDS x y z,
    Voxels.findNeighbours MASK [d0; d1; d2] index conn = Done IDS ∧
    Voxels.index2xyz index [d0; d1; d2] = Done [x; y; z] ∧
    vsize IDS ≤ conn ∧
    ∀ id, id ∈ IDS ↔ ∃ i, 0 ≤ i < conn ∧ hits MASK d0 d1 d2 x y z i id.
Proof.
  intros H0 H1 H2 Hfit HMASK Hindex Hc.
  assert (d0 * d1 * d2 < 2 ^ 31) as Hgrid by nia.
  destruct (index2xyz_in_grid d0 d1 d2 index)
    as (x & y & z & Hxyz & Hx & Hy & Hz & _); try done.
  destruct (direction_loop_spec d0 d1 d2 MASK H0 H1 H2 Hfit HMASK x y z conn
              Hx Hy Hz Hc)
    as (IDS & len & Hloop & Hsize & Hlen & Hmem).
  unfold Voxels.findNeighbours. rewrite Hxyz. exec_simpl.
  rewrite vmake_ge by lia. exec_simpl. rewrite Hloop. exec_simpl.
  assert ((if bool_decide (len < conn) then take (Z.to_nat len) IDS
           else IDS) = take (Z.to_nat len) IDS) as ->.
  { case_bool_decide; [done|]. symmetry. apply take_ge.
    unfold vsize in Hsize. lia. }
  exists (take (Z.to_nat len) IDS), x, y, z. split_and!; try done.
  unfold vsize in *. rewrite length_take. lia.
Qed.

(** X29.  On a grid with positive dimensions that fits [int], in that
    [d0 * d1 * (d2 + 1) + d0 < 2^31], a mask of the size of the grid whose
    entries are [0] or ids in [1..m], and [m] voxel indices of the grid in
    [INDEXP], [findAdjList] completes for every connectivity up to 26
    without reading out of bounds; row [i] of what it returns is
    [findNeighbours] of voxel [INDEXP[i]], and the whole is an adjacency
    list as [findClusters] of [ARICluster.cpp] takes it: [m] rows of ids
    in [1..m]. *)
Theorem findAdjList_valid_adjacency (d0 d1 d2 : Z) (MASK INDEXP : list Z)
    (m conn : Z) :
  0 < d0 → 0 < d1 → 0 < d2 → d0 * d1 * (d2 + 1) + d0 < 2 ^ 31 →
  vsize MASK = d0 * d1 * d2 →
  Forall (λ id, 0 ≤ id ≤ m) MASK →
  vsize INDEXP = m → Forall (λ index, 0 ≤ index < d0 * d1 * d2) INDEXP →
  0 ≤ conn ≤ 26 →
  ∃ ADJ,
    Voxels.findAdjList MASK INDEXP [d0; d1; d2] m conn = Done ADJ ∧
    valid_adjacency 1 m ADJ ∧
    ∀ i index, vget INDEXP i = Done index →
               ∃ IDS, vget ADJ i = Done IDS ∧
                      Voxels.findNeighbours MASK [d0; d1; d2] index conn
                      = Done IDS.
Proof.
  intros H0 H1 H2 Hfit HMASK Hids HINDEXP Hidx Hc.
  assert (0 ≤ m) as Hm by (unfold vsize in HINDEXP; lia).
  unfold Voxels.findAdjList. rewrite vmake_ge by lia. exec_simpl.
  destruct (for_up_inv
    (λ j (ADJ : list (list Z)),
       vsize ADJ = m ∧
       (∀ i IDS id, vget ADJ i = Done IDS → id ∈ IDS → 1 ≤ id ≤ m) ∧
       ∀ i index, 0 ≤ i < j → vget INDEXP i = Done index →
                  ∃ IDS, vget ADJ i = Done IDS ∧
                         Voxels.findNeighbours MASK [d0; d1; d2] index conn
                         = Done IDS)
    (Z.to_nat m) 0
    (λ i ADJ,
       index ← vget INDEXP i;
       IDS ← Voxels.findNeighbours MASK [d0; d1; d2] index conn;
       vset ADJ i IDS)
    (replicate (Z.to_nat m) [])) as (ADJ & Hrun & Hsz & Hrows & Hall).
  - split_and!.
    + unfold vsize. rewrite length_replicate. lia.
    + intros i IDS id [_ Hi]%vget_Done Hid.
      apply lookup_replicate in Hi as [-> _]. by apply elem_of_nil in Hid.
    + intros i index Hi. lia.
  - intros j ADJ Hj (Hsz & Hrows & Hall).
    destruct (vget_lt INDEXP j) as [index Hindex]; [lia|].
    rewrite Hindex. exec_simpl.
    pose proof Hindex as [_ Hl]%vget_Done.
    pose proof (Forall_lookup_1 _ _ _ _ Hidx Hl) as Hir. simpl in Hir.
    destruct (findNeighbours_run d0 d1 d2 MASK index conn)
      as (IDS & x & y & z & HIDS & _ & _ & Hmem); try done.
    rewrite HIDS. exec_simpl.
    pose proof (vset_lt ADJ j IDS ltac:(lia)) as Hset.
    rewrite Hset. eexists. split; [done|]. split_and!.
    + by rewrite (vsize_vset _ _ _ _ Hset).
    + intros i IDS' id Hi Hid. destruct (decide (i = j)) as [->|Hne].
      * rewrite (vget_vset_eq _ _ _ _ Hset) in Hi. injection Hi as <-.
        apply Hmem in Hid
          as (k & _ & dx & dy & dz & _ & _ & _ & _ & Hget & Hne0).
        pose proof (Forall_vget _ _ _ _ Hids Hget) as Hr. simpl in Hr. lia.
      * rewrite (vget_vset_ne _ _ _ _ _ Hset) in Hi by done.
        by eapply Hrows.
    + intros i index' Hi Hindex'. destruct (decide (i = j)) as [->|Hne].
      * rewrite Hindex in Hindex'. injection Hindex' as <-.
        exists IDS. split; [|done]. by apply (vget_vset_eq _ _ _ _ Hset).
      * destruct (Hall i index' ltac:(lia) Hindex') as (IDS' & HA & HN).
        exists IDS'. split; [|done].
        by rewrite (vget_vset_ne _ _ _ _ _ Hset).
  - exists ADJ. split; [done|]. split_and!.
    + split; [done|]. intros v IDS id Hv Hid.
      pose proof (Hrows v IDS id Hv Hid). lia.
    + intros i index Hindex. apply Hall; [|done].
      apply vget_Done_lt in Hindex. lia.
Qed.

Lemma findAdjList_valid_adjacency_witness :
  ∃ ADJ,
    Voxels.findAdjList [1; 0; 2; 0] [0; 2] [2; 2; 1] 2 6 = Done ADJ ∧
    valid_adjacency 1 2 ADJ ∧
    ∀ i index, vget [0; 2] i = Done index →
               ∃ IDS, vget ADJ i = Done IDS ∧
                      Voxels.findNeighbours [1; 0; 2; 0] [2; 2; 1] index 6
                      = Done IDS.
Proof.
  apply (findAdjList_valid_adjacency 2 2 1 [1; 0; 2; 0] [0; 2] 2 6);
    try lia; try reflexivity; repeat constructor; lia.
Defined.
